(** * Peer session orchestrator ([src/lib/webrtc.ts]): model and properties

    The development embeds the [WebRTCManager] class of [src/lib/webrtc.ts].

    - The manager's own fields ([peers], [localStream], [screenStream],
      [userId], [roomId], [eventListeners]) form the record [WebRTCManager].
    - [RTCPeerConnection] objects are browser objects that the manager, its
      closures and pending timers reach by reference.  They live in a store
      ([conns]) and are designated by their index ([ConnId]); a connection
      that has been removed from [peers] stays in the store, closed.
    - Every method is a computation in a small state-and-exception monad
      [M] over [World]; [try]/[catch] of the source is [try_catch].
    - Everything observable is appended to [trace]: capability calls with
      their outcome, signaling sends, emitted events and their deliveries,
      [console.error] lines, timers that get scheduled.
    - What the browser decides on its own (whether a description or a
      candidate is acceptable, the text of a created description, what a
      subscribed listener does when it is called) is a parameter, the record
      [Host].
    - An [async] handler runs to completion before the next one starts: the
      suspension points inside one handler are not interleaved with other
      handlers.
    - [socketService.getSocketId()] reads the field [socketId] of the
      world; the test [if (socketId)] is [truthy]: neither [undefined] nor
      the empty string passes.
    - The application store of [src/app/store/useStore.ts] is embedded as
      pure functions on the record of its state. *)

From Stdlib Require Import Lia.
From stdpp Require Import base option list strings.

Open Scope string_scope.
Open Scope list_scope.

(** ** Browser data *)

Inductive RTCSignalingState :=
| stable | have_local_offer | have_remote_offer
| have_local_pranswer | have_remote_pranswer | closed.

Inductive RTCPeerConnectionState :=
| cs_new | cs_connecting | cs_connected | cs_disconnected | cs_failed | cs_closed.

Inductive RTCSdpType := ty_offer | ty_pranswer | ty_answer | ty_rollback.

Record RTCSessionDescriptionInit := mkSdp { sdp_type : RTCSdpType; sdp : string }.

Record RTCIceCandidateInit := mkCandidate {
  candidate : string;
  sdpMid : option string;
  sdpMLineIndex : option nat
}.

Inductive TrackKind := audio | video.

Record MediaStreamTrack := mkTrack { track_id : string; kind : TrackKind }.

Record MediaStream := mkStream { stream_id : string; getTracks : list MediaStreamTrack }.

Record RTCRtpSender := mkSender { track : option MediaStreamTrack }.

(** A reference to a connection object in the store. *)
Abbreviation ConnId := nat (only parsing).

Record RTCDataChannel := mkChannel { label : string; channel_of : ConnId }.

Inductive DOMException :=
| InvalidStateError | InvalidAccessError | OperationError | TypeError.

#[global] Instance RTCSignalingState_eq_dec : EqDecision RTCSignalingState.
Proof. solve_decision. Defined.
#[global] Instance RTCPeerConnectionState_eq_dec : EqDecision RTCPeerConnectionState.
Proof. solve_decision. Defined.
#[global] Instance RTCSdpType_eq_dec : EqDecision RTCSdpType.
Proof. solve_decision. Defined.
#[global] Instance TrackKind_eq_dec : EqDecision TrackKind.
Proof. solve_decision. Defined.
#[global] Instance MediaStreamTrack_eq_dec : EqDecision MediaStreamTrack.
Proof. solve_decision. Defined.

(** The browser's peer connection, reduced to what the manager reads and
    drives.  [remoteDescription] of the source is the getter
    [remoteDescription] below (pending description first, else current).
    [handler_peerId] is the [peerId] captured by the closures that
    [createPeer] installs on the connection. *)
Record RTCPeerConnection := mkConn {
  signalingState : RTCSignalingState;
  connectionState : RTCPeerConnectionState;
  pendingLocalDescription : option RTCSessionDescriptionInit;
  currentLocalDescription : option RTCSessionDescriptionInit;
  pendingRemoteDescription : option RTCSessionDescriptionInit;
  currentRemoteDescription : option RTCSessionDescriptionInit;
  getSenders : list RTCRtpSender;
  remoteCandidates : list RTCIceCandidateInit;
  iceRestarts : nat;
  handler_peerId : string
}.

Definition remoteDescription (pc : RTCPeerConnection) : option RTCSessionDescriptionInit :=
  match pendingRemoteDescription pc with
  | Some d => Some d
  | None => currentRemoteDescription pc
  end.

(** [new RTCPeerConnection(configuration)] *)
Definition new_RTCPeerConnection (peerId : string) : RTCPeerConnection :=
  {| signalingState := stable; connectionState := cs_new;
     pendingLocalDescription := None; currentLocalDescription := None;
     pendingRemoteDescription := None; currentRemoteDescription := None;
     getSenders := []; remoteCandidates := []; iceRestarts := 0;
     handler_peerId := peerId |}.

(** ** Manager data *)

Record PeerConnection := mkPeer {
  peerId : string;
  connection : ConnId;
  stream : option MediaStream;
  dataChannel : option RTCDataChannel;
  pendingCandidates : option (list (option RTCIceCandidateInit))
}.

Inductive WebRTCEvent :=
| ev_stream (peer : string) (s : MediaStream)
| ev_chat (message : string)
| ev_peerRemoved (peer : string).

(** A subscribed callback, known by its identity. *)
Abbreviation Listener := nat (only parsing).

Record WebRTCManager := mkManager {
  peers : list (string * PeerConnection);
  localStream : option MediaStream;
  screenStream : option MediaStream;
  userId : string;
  roomId : string;
  eventListeners : list Listener
}.

(** ** The [peers] map: a JavaScript [Map], keys in insertion order *)

Module PeerMap.

Definition t := list (string * PeerConnection).

Fixpoint get (k : string) (m : t) : option PeerConnection :=
  match m with
  | [] => None
  | (k', v) :: m' => if decide (k' = k) then Some v else get k m'
  end.

Definition has (k : string) (m : t) : bool :=
  match get k m with Some _ => true | None => false end.

(** [set] overwrites in place when the key is present, appends otherwise. *)
Fixpoint set (k : string) (v : PeerConnection) (m : t) : t :=
  match m with
  | [] => [(k, v)]
  | (k', v') :: m' =>
      if decide (k' = k) then (k, v) :: m' else (k', v') :: set k v m'
  end.

Fixpoint delete (k : string) (m : t) : t :=
  match m with
  | [] => []
  | (k', v') :: m' =>
      if decide (k' = k) then delete k m' else (k', v') :: delete k m'
  end.

Definition keys (m : t) : list string := m.*1.

End PeerMap.

(** ** Observable effects *)

Inductive CapCall :=
| setLocalDescription_ (d : RTCSessionDescriptionInit)
| setRemoteDescription_ (d : RTCSessionDescriptionInit)
| createOffer_
| createAnswer_
| addIceCandidate_ (c : option RTCIceCandidateInit)
| addTrack_ (t : MediaStreamTrack)
| replaceTrack_ (sender : nat) (t : MediaStreamTrack)
| createDataChannel_ (lbl : string)
| restartIce_
| close_.

Inductive Effect :=
| Call (c : ConnId) (op : CapCall) (returned : bool)
| ChannelClose (d : RTCDataChannel)
| TrackStop (t : MediaStreamTrack)
| SendOffer (to : string) (d : RTCSessionDescriptionInit) (from : string)
| SendAnswer (to : string) (d : RTCSessionDescriptionInit) (from : string)
| SendIceCandidate (to : string) (c : RTCIceCandidateInit) (from : string)
| Emit (ev : WebRTCEvent)
| Deliver (l : Listener) (ev : WebRTCEvent)
| ConsoleError (msg : string)
| SetTimeout (peer : string) (c : ConnId).

(** ** The world a method runs in *)

Record World := mkWorld {
  this : WebRTCManager;
  conns : list RTCPeerConnection;
  timers : list (string * ConnId);
  ended : list MediaStreamTrack;
  socketId : option string;
  trace : list Effect
}.

Definition set_this (f : WebRTCManager -> WebRTCManager) (w : World) : World :=
  {| this := f (this w); conns := conns w; timers := timers w;
     ended := ended w; socketId := socketId w; trace := trace w |}.

Definition set_conns (f : list RTCPeerConnection -> list RTCPeerConnection) (w : World) : World :=
  {| this := this w; conns := f (conns w); timers := timers w;
     ended := ended w; socketId := socketId w; trace := trace w |}.

Definition set_timers (f : list (string * ConnId) -> list (string * ConnId)) (w : World) : World :=
  {| this := this w; conns := conns w; timers := f (timers w);
     ended := ended w; socketId := socketId w; trace := trace w |}.

Definition set_ended (f : list MediaStreamTrack -> list MediaStreamTrack) (w : World) : World :=
  {| this := this w; conns := conns w; timers := timers w;
     ended := f (ended w); socketId := socketId w; trace := trace w |}.

Definition logs (es : list Effect) (w : World) : World :=
  {| this := this w; conns := conns w; timers := timers w;
     ended := ended w; socketId := socketId w; trace := trace w ++ es |}.

Definition log (e : Effect) (w : World) : World := logs [e] w.

Definition set_peers (f : PeerMap.t -> PeerMap.t) (m : WebRTCManager) : WebRTCManager :=
  {| peers := f (peers m); localStream := localStream m; screenStream := screenStream m;
     userId := userId m; roomId := roomId m; eventListeners := eventListeners m |}.

Definition set_localStream (s : option MediaStream) (m : WebRTCManager) : WebRTCManager :=
  {| peers := peers m; localStream := s; screenStream := screenStream m;
     userId := userId m; roomId := roomId m; eventListeners := eventListeners m |}.

Definition set_eventListeners (f : list Listener -> list Listener) (m : WebRTCManager) : WebRTCManager :=
  {| peers := peers m; localStream := localStream m; screenStream := screenStream m;
     userId := userId m; roomId := roomId m; eventListeners := f (eventListeners m) |}.

Definition set_pendingCandidates (cs : option (list (option RTCIceCandidateInit)))
    (p : PeerConnection) : PeerConnection :=
  {| peerId := peerId p; connection := connection p; stream := stream p;
     dataChannel := dataChannel p; pendingCandidates := cs |}.

(** ** Completions and the method monad *)

Inductive Completion (A : Type) :=
| Normal (a : A)
| Throw (e : DOMException).
Arguments Normal {A} a.
Arguments Throw {A} e.

Definition M (A : Type) : Type := World -> Completion A * World.

Definition ret {A} (a : A) : M A := fun w => (Normal a, w).

Definition bind {A B} (m : M A) (k : A -> M B) : M B := fun w =>
  match m w with
  | (Normal a, w') => k a w'
  | (Throw e, w') => (Throw e, w')
  end.

Definition throw {A} (e : DOMException) : M A := fun w => (Throw e, w).

Definition try_catch {A} (m : M A) (h : DOMException -> M A) : M A := fun w =>
  match m w with
  | (Normal a, w') => (Normal a, w')
  | (Throw e, w') => h e w'
  end.

Definition gets {A} (f : World -> A) : M A := fun w => (Normal (f w), w).

Definition modify (f : World -> World) : M unit := fun w => (Normal tt, f w).

Declare Scope method_scope.
Delimit Scope method_scope with method.
Notation "x <- m ;; k" := (bind m (fun x => k))
  (at level 100, m at next level, right associativity) : method_scope.
Notation "m ;; k" := (bind m (fun _ => k))
  (at level 100, right associativity) : method_scope.
Open Scope method_scope.

Definition when (b : bool) (m : M unit) : M unit := if b then m else ret tt.

(** [for (const x of xs) body(x)], [xs.forEach(body)] over an array that the
    body does not change. *)
Fixpoint for_of {A} (xs : list A) (body : A -> M unit) : M unit :=
  match xs with
  | [] => ret tt
  | x :: xs' => body x ;; for_of xs' body
  end.

Definition console_error (msg : string) : M unit := modify (log (ConsoleError msg)).

(** ** What the host environment decides *)

Inductive BusOp :=
| onEvent_ (l : Listener)
| offEvent_ (l : Listener).

Record Host := mkHost {
  (** whether the browser can parse and apply a remote description *)
  accepts_description : RTCSessionDescriptionInit -> bool;
  (** whether the browser can apply a remote candidate *)
  accepts_candidate : RTCIceCandidateInit -> bool;
  (** the text of a description the browser creates for a connection *)
  describe : RTCSdpType -> RTCPeerConnection -> string;
  (** the subscriptions a listener changes while it is being called *)
  react : Listener -> WebRTCEvent -> list BusOp
}.

(** ** The session capability: [RTCPeerConnection] as the browser runs it

    The transitions follow the signaling state machine of the W3C WebRTC
    recommendation: which description types are legal in which state, and
    which exception an illegal call raises. *)

Module Capability.

Definition is_closed (pc : RTCPeerConnection) : bool :=
  bool_decide (signalingState pc = closed).

Definition set_descriptions (st : RTCSignalingState)
    (pl cl pr cr : option RTCSessionDescriptionInit)
    (pc : RTCPeerConnection) : RTCPeerConnection :=
  {| signalingState := st; connectionState := connectionState pc;
     pendingLocalDescription := pl; currentLocalDescription := cl;
     pendingRemoteDescription := pr; currentRemoteDescription := cr;
     getSenders := getSenders pc; remoteCandidates := remoteCandidates pc;
     iceRestarts := iceRestarts pc; handler_peerId := handler_peerId pc |}.

Definition set_senders (ss : list RTCRtpSender) (pc : RTCPeerConnection) : RTCPeerConnection :=
  {| signalingState := signalingState pc; connectionState := connectionState pc;
     pendingLocalDescription := pendingLocalDescription pc;
     currentLocalDescription := currentLocalDescription pc;
     pendingRemoteDescription := pendingRemoteDescription pc;
     currentRemoteDescription := currentRemoteDescription pc;
     getSenders := ss; remoteCandidates := remoteCandidates pc;
     iceRestarts := iceRestarts pc; handler_peerId := handler_peerId pc |}.

Definition set_remoteCandidates (cs : list RTCIceCandidateInit) (pc : RTCPeerConnection)
    : RTCPeerConnection :=
  {| signalingState := signalingState pc; connectionState := connectionState pc;
     pendingLocalDescription := pendingLocalDescription pc;
     currentLocalDescription := currentLocalDescription pc;
     pendingRemoteDescription := pendingRemoteDescription pc;
     currentRemoteDescription := currentRemoteDescription pc;
     getSenders := getSenders pc; remoteCandidates := cs;
     iceRestarts := iceRestarts pc; handler_peerId := handler_peerId pc |}.

Definition set_connectionState (s : RTCPeerConnectionState) (pc : RTCPeerConnection)
    : RTCPeerConnection :=
  {| signalingState := signalingState pc; connectionState := s;
     pendingLocalDescription := pendingLocalDescription pc;
     currentLocalDescription := currentLocalDescription pc;
     pendingRemoteDescription := pendingRemoteDescription pc;
     currentRemoteDescription := currentRemoteDescription pc;
     getSenders := getSenders pc; remoteCandidates := remoteCandidates pc;
     iceRestarts := iceRestarts pc; handler_peerId := handler_peerId pc |}.

(** [pc.setLocalDescription(d)] *)
Definition setLocalDescription (d : RTCSessionDescriptionInit) (pc : RTCPeerConnection)
    : DOMException + RTCPeerConnection :=
  let pl := pendingLocalDescription pc in
  let cl := currentLocalDescription pc in
  let pr := pendingRemoteDescription pc in
  let cr := currentRemoteDescription pc in
  match sdp_type d, signalingState pc with
  | _, closed => inl InvalidStateError
  | ty_rollback, have_local_offer => inr (set_descriptions stable None cl pr cr pc)
  | ty_rollback, have_remote_offer => inr (set_descriptions stable pl cl None cr pc)
  | ty_offer, (stable | have_local_offer) =>
      inr (set_descriptions have_local_offer (Some d) cl pr cr pc)
  | ty_answer, (have_remote_offer | have_local_pranswer) =>
      inr (set_descriptions stable None (Some d) None pr pc)
  | ty_pranswer, (have_remote_offer | have_local_pranswer) =>
      inr (set_descriptions have_local_pranswer (Some d) cl pr cr pc)
  | _, _ => inl InvalidStateError
  end.

Section WithHost.
Context (host : Host).

(** [pc.setRemoteDescription(new RTCSessionDescription(d))].  A remote
    offer that meets a pending local offer rolls the local offer back. *)
Definition setRemoteDescription (d : RTCSessionDescriptionInit) (pc : RTCPeerConnection)
    : DOMException + RTCPeerConnection :=
  let pl := pendingLocalDescription pc in
  let cl := currentLocalDescription pc in
  let pr := pendingRemoteDescription pc in
  let cr := currentRemoteDescription pc in
  let checked (pc' : RTCPeerConnection) : DOMException + RTCPeerConnection :=
    if accepts_description host d then inr pc' else inl OperationError in
  match sdp_type d, signalingState pc with
  | _, closed => inl InvalidStateError
  | ty_rollback, have_remote_offer => inr (set_descriptions stable pl cl None cr pc)
  | ty_rollback, have_local_offer => inr (set_descriptions stable None cl pr cr pc)
  | ty_offer, (stable | have_remote_offer) =>
      checked (set_descriptions have_remote_offer pl cl (Some d) cr pc)
  | ty_offer, have_local_offer =>
      checked (set_descriptions have_remote_offer None cl (Some d) cr pc)
  | ty_answer, (have_local_offer | have_remote_pranswer) =>
      checked (set_descriptions stable None pl None (Some d) pc)
  | ty_pranswer, (have_local_offer | have_remote_pranswer) =>
      checked (set_descriptions have_remote_pranswer pl cl (Some d) cr pc)
  | _, _ => inl InvalidStateError
  end.

(** [pc.createOffer(options)] *)
Definition createOffer (pc : RTCPeerConnection)
    : DOMException + (RTCSessionDescriptionInit * RTCPeerConnection) :=
  match signalingState pc with
  | stable | have_local_offer => inr (mkSdp ty_offer (describe host ty_offer pc), pc)
  | _ => inl InvalidStateError
  end.

(** [pc.createAnswer()] *)
Definition createAnswer (pc : RTCPeerConnection)
    : DOMException + (RTCSessionDescriptionInit * RTCPeerConnection) :=
  match signalingState pc with
  | have_remote_offer | have_local_pranswer =>
      inr (mkSdp ty_answer (describe host ty_answer pc), pc)
  | _ => inl InvalidStateError
  end.

(** [pc.addIceCandidate(new RTCIceCandidate(c))]: the constructor
    refuses [null] and a dictionary without [sdpMid] and
    [sdpMLineIndex]; the connection refuses a candidate while it has no
    remote description. *)
Definition addIceCandidate (c : option RTCIceCandidateInit) (pc : RTCPeerConnection)
    : DOMException + RTCPeerConnection :=
  match c with
  | None => inl TypeError
  | Some ci =>
      match sdpMid ci, sdpMLineIndex ci with
      | None, None => inl TypeError
      | _, _ =>
          if is_closed pc then inl InvalidStateError
          else match remoteDescription pc with
               | None => inl InvalidStateError
               | Some _ =>
                   if accepts_candidate host ci
                   then inr (set_remoteCandidates (remoteCandidates pc ++ [ci]) pc)
                   else inl OperationError
               end
      end
  end.

End WithHost.

Definition sends_track (t : MediaStreamTrack) (s : RTCRtpSender) : bool :=
  bool_decide (track s = Some t).

(** [pc.addTrack(t, stream)] *)
Definition addTrack (t : MediaStreamTrack) (pc : RTCPeerConnection)
    : DOMException + RTCPeerConnection :=
  if is_closed pc then inl InvalidStateError
  else if existsb (sends_track t) (getSenders pc) then inl InvalidAccessError
  else inr (set_senders (getSenders pc ++ [mkSender (Some t)]) pc).

(** [pc.getSenders()[i].replaceTrack(t)]: the returned promise is not
    awaited by the manager; when it is rejected the sender keeps its
    track. *)
Definition replaceTrack (i : nat) (t : MediaStreamTrack) (pc : RTCPeerConnection)
    : DOMException + RTCPeerConnection :=
  if is_closed pc then inl InvalidStateError
  else match getSenders pc !! i with
       | Some (mkSender (Some t0)) =>
           if decide (kind t0 = kind t)
           then inr (set_senders (<[i := mkSender (Some t)]> (getSenders pc)) pc)
           else inl TypeError
       | Some (mkSender None) =>
           inr (set_senders (<[i := mkSender (Some t)]> (getSenders pc)) pc)
       | None => inl InvalidStateError
       end.

(** [pc.createDataChannel(label, options)] *)
Definition createDataChannel (c : ConnId) (lbl : string) (pc : RTCPeerConnection)
    : DOMException + (RTCDataChannel * RTCPeerConnection) :=
  if is_closed pc then inl InvalidStateError else inr (mkChannel lbl c, pc).

(** [pc.restartIce()] never throws; on a closed connection it does nothing. *)
Definition restartIce (pc : RTCPeerConnection) : RTCPeerConnection :=
  if is_closed pc then pc
  else {| signalingState := signalingState pc; connectionState := connectionState pc;
          pendingLocalDescription := pendingLocalDescription pc;
          currentLocalDescription := currentLocalDescription pc;
          pendingRemoteDescription := pendingRemoteDescription pc;
          currentRemoteDescription := currentRemoteDescription pc;
          getSenders := getSenders pc; remoteCandidates := remoteCandidates pc;
          iceRestarts := S (iceRestarts pc); handler_peerId := handler_peerId pc |}.

(** [pc.close()] *)
Definition close (pc : RTCPeerConnection) : RTCPeerConnection :=
  {| signalingState := closed; connectionState := cs_closed;
     pendingLocalDescription := pendingLocalDescription pc;
     currentLocalDescription := currentLocalDescription pc;
     pendingRemoteDescription := pendingRemoteDescription pc;
     currentRemoteDescription := currentRemoteDescription pc;
     getSenders := getSenders pc; remoteCandidates := remoteCandidates pc;
     iceRestarts := iceRestarts pc; handler_peerId := handler_peerId pc |}.

End Capability.

(** ** Helpers shared by the methods *)

Fixpoint find_index {A} (p : A -> bool) (xs : list A) : option nat :=
  match xs with
  | [] => None
  | x :: xs' => if p x then Some 0 else S <$> find_index p xs'
  end.

(** [callback === l], then [indexOf] *)
Definition indexOf (l : Listener) (ls : list Listener) : option nat :=
  find_index (fun x => bool_decide (x = l)) ls.

(** [s.track && s.track.kind === k] *)
Definition sends_kind (k : TrackKind) (s : RTCRtpSender) : bool :=
  match track s with
  | Some t => bool_decide (kind t = k)
  | None => false
  end.

(** The connection a reference designates.  References are only ever
    produced by [createPeer], so the fallback is never reached from a world
    the manager built. *)
Definition the_conn (c : ConnId) (w : World) : RTCPeerConnection :=
  default (Capability.close (new_RTCPeerConnection "")) (conns w !! c).

(** The world once the browser has moved connection [c] to connectivity
    [s], before any handler runs. *)
Definition moved (c : ConnId) (s : RTCPeerConnectionState) (w : World) : World :=
  set_conns (<[c := Capability.set_connectionState s (the_conn c w)]>) w.

(** A capability call that may throw. *)
Definition invoke {A} (c : ConnId) (op : CapCall)
    (f : RTCPeerConnection -> DOMException + (A * RTCPeerConnection)) : M A := fun w =>
  match f (the_conn c w) with
  | inl e => (Throw e, log (Call c op false) w)
  | inr (a, pc') => (Normal a, log (Call c op true) (set_conns (<[c := pc']>) w))
  end.

Definition unit_result (r : DOMException + RTCPeerConnection)
    : DOMException + (unit * RTCPeerConnection) :=
  match r with
  | inl e => inl e
  | inr pc => inr (tt, pc)
  end.

Definition get_peer (peerId : string) : M (option PeerConnection) :=
  gets (fun w => PeerMap.get peerId (peers (this w))).

Definition has_peer (peerId : string) : M bool :=
  gets (fun w => PeerMap.has peerId (peers (this w))).

Definition update_peer (peerId : string) (f : PeerConnection -> PeerConnection) : M unit :=
  modify (set_this (set_peers (fun ps =>
    match PeerMap.get peerId ps with
    | Some p => PeerMap.set peerId (f p) ps
    | None => ps
    end))).

Section Manager.
Context (host : Host).

(** *** Capability calls as the manager issues them *)

Definition setLocalDescription (c : ConnId) (d : RTCSessionDescriptionInit) : M unit :=
  invoke c (setLocalDescription_ d) (fun pc => unit_result (Capability.setLocalDescription d pc)).

Definition setRemoteDescription (c : ConnId) (d : RTCSessionDescriptionInit) : M unit :=
  invoke c (setRemoteDescription_ d)
    (fun pc => unit_result (Capability.setRemoteDescription host d pc)).

Definition createOffer (c : ConnId) : M RTCSessionDescriptionInit :=
  invoke c createOffer_ (Capability.createOffer host).

Definition createAnswer (c : ConnId) : M RTCSessionDescriptionInit :=
  invoke c createAnswer_ (Capability.createAnswer host).

Definition addIceCandidate (c : ConnId) (ci : option RTCIceCandidateInit) : M unit :=
  invoke c (addIceCandidate_ ci) (fun pc => unit_result (Capability.addIceCandidate host ci pc)).

Definition addTrack (c : ConnId) (t : MediaStreamTrack) : M unit :=
  invoke c (addTrack_ t) (fun pc => unit_result (Capability.addTrack t pc)).

(** Not awaited: a rejection is recorded in the trace and not thrown. *)
Definition replaceTrack (c : ConnId) (i : nat) (t : MediaStreamTrack) : M unit :=
  try_catch
    (invoke c (replaceTrack_ i t) (fun pc => unit_result (Capability.replaceTrack i t pc)))
    (fun _ => ret tt).

Definition createDataChannel (c : ConnId) (lbl : string) : M RTCDataChannel :=
  invoke c (createDataChannel_ lbl) (Capability.createDataChannel c lbl).

Definition capability_restartIce (c : ConnId) : M unit :=
  invoke c restartIce_ (fun pc => inr (tt, Capability.restartIce pc)).

Definition close (c : ConnId) : M unit :=
  invoke c close_ (fun pc => inr (tt, Capability.close pc)).

Definition channel_close (d : RTCDataChannel) : M unit :=
  modify (log (ChannelClose d)).

(** [track.stop()] *)
Definition stop (t : MediaStreamTrack) : M unit :=
  modify (fun w => log (TrackStop t) (set_ended (fun e => e ++ [t]) w)).

(** *** Event bus: [onEvent], [offEvent], [emitEvent] *)

Definition onEvent (callback : Listener) : M unit :=
  modify (set_this (set_eventListeners (fun ls => ls ++ [callback]))).

Definition offEvent (callback : Listener) : M unit :=
  modify (set_this (set_eventListeners (fun ls =>
    match indexOf callback ls with
    | Some index => delete index ls
    | None => ls
    end))).

Definition run_op (op : BusOp) : M unit :=
  match op with
  | onEvent_ l => onEvent l
  | offEvent_ l => offEvent l
  end.

(** [Array.prototype.forEach] on the live [eventListeners] array: the
    length is read once, then index [k] is looked up in the array as it is
    when the loop reaches [k]; [n] counts the indices still to visit. *)
Fixpoint forEach_listeners (n k : nat) (event : WebRTCEvent) : M unit :=
  match n with
  | 0 => ret tt
  | S n' =>
      ls <- gets (fun w => eventListeners (this w)) ;;
      match ls !! k with
      | Some callback =>
          modify (log (Deliver callback event)) ;;
          for_of (react host callback event) run_op ;;
          forEach_listeners n' (S k) event
      | None => forEach_listeners n' (S k) event
      end
  end.

Definition emitEvent (event : WebRTCEvent) : M unit :=
  len <- gets (fun w => length (eventListeners (this w))) ;;
  modify (log (Emit event)) ;;
  forEach_listeners len 0 event.

(** *** [flushPendingIce]

    The peer object is designated by its key: every caller has just read
    it from [peers] under that key. *)
Definition flushPendingIce (from : string) : M unit :=
  peer <- get_peer from ;;
  match peer with
  | None => ret tt
  | Some peer =>
      match pendingCandidates peer with
      | None | Some [] => ret tt
      | Some cs =>
          for_of cs (fun c =>
            match c with
            | Some ci =>
                try_catch (addIceCandidate (connection peer) (Some ci))
                  (fun _ => console_error "Error adding pending ICE candidate:")
            | None => ret tt
            end) ;;
          update_peer from (set_pendingCandidates (Some []))
      end
  end.

(** *** [removePeer] *)
Definition removePeer (peerId : string) : M unit :=
  peer <- get_peer peerId ;;
  match peer with
  | Some peer =>
      try_catch
        (close (connection peer) ;;
         match dataChannel peer with
         | Some d => channel_close d
         | None => ret tt
         end)
        (fun _ => console_error "Error closing peer connection:") ;;
      modify (set_this (set_peers (PeerMap.delete peerId))) ;;
      emitEvent (ev_peerRemoved peerId)
  | None => ret tt
  end.

(** *** [createPeer] *)

(** [new RTCPeerConnection(configuration)]: a new object in the store. *)
Definition allocate (peerId : string) : M ConnId := fun w =>
  (Normal (length (conns w)), set_conns (fun cs => cs ++ [new_RTCPeerConnection peerId]) w).

Definition getSocketId : M (option string) := gets socketId.

(** [if (socketId)]: [undefined] and [''] are falsy. *)
Definition truthy (socketId : option string) : option string :=
  match socketId with
  | Some sid => if bool_decide (sid = "") then None else Some sid
  | None => None
  end.

(** The part of [createPeer] after the check for an existing peer. *)
Definition create_fresh (peerId : string) (isInitiator : bool) : M PeerConnection :=
  connection <- allocate peerId ;;
  local <- gets (fun w => localStream (this w)) ;;
  match local with
  | Some s =>
      for_of (getTracks s) (fun track =>
        senders <- gets (fun w => getSenders (the_conn connection w)) ;;
        match find_index (sends_kind (kind track)) senders with
        | None =>
            try_catch (addTrack connection track)
              (fun _ => console_error "Error adding track:")
        | Some _ => ret tt
        end)
  | None => ret tt
  end ;;
  dataChannel <-
    (if isInitiator
     then try_catch (d <- createDataChannel connection "chat" ;; ret (Some d))
            (fun _ => console_error "Failed to create data channel:" ;; ret None)
     else ret None) ;;
  let peer := {| peerId := peerId; connection := connection; stream := None;
                 dataChannel := dataChannel; pendingCandidates := None |} in
  modify (set_this (set_peers (PeerMap.set peerId peer))) ;;
  (if isInitiator
   then try_catch
          (offer <- createOffer connection ;;
           setLocalDescription connection offer ;;
           socketId <- getSocketId ;;
           match truthy socketId with
           | Some sid => modify (log (SendOffer peerId offer sid))
           | None => ret tt
           end)
          (fun error =>
             console_error "Error creating offer:" ;;
             removePeer peerId ;;
             throw error)
   else ret tt) ;;
  ret peer.

Definition createPeer (peerId : string) (isInitiator : bool) : M PeerConnection :=
  existingPeer <- get_peer peerId ;;
  match existingPeer with
  | Some existingPeer =>
      state <- gets (fun w => signalingState (the_conn (connection existingPeer) w)) ;;
      connectionState <- gets (fun w => connectionState (the_conn (connection existingPeer) w)) ;;
      if bool_decide (state = stable) && bool_decide (connectionState = cs_connected)
      then ret existingPeer
      else if bool_decide (state = closed) || bool_decide (connectionState = cs_failed)
              || bool_decide (connectionState = cs_disconnected)
      then removePeer peerId ;; create_fresh peerId isInitiator
      else ret existingPeer
  | None => create_fresh peerId isInitiator
  end.

(** *** Signaling handlers installed by [setupSignalingHandlers] *)

Definition onWebRTCOffer (offer : RTCSessionDescriptionInit) (from : string) : M unit :=
  try_catch
    (known <- has_peer from ;;
     when (negb known) (createPeer from false ;; ret tt) ;;
     peer <- get_peer from ;;
     match peer with
     | Some peer =>
         let connection := connection peer in
         state <- gets (fun w => signalingState (the_conn connection w)) ;;
         (* [false] stands for the [return] inside the inner [catch] *)
         go_on <-
           (if bool_decide (state <> stable) && bool_decide (state = have_local_offer)
            then try_catch
                   (setLocalDescription connection (mkSdp ty_rollback "") ;; ret true)
                   (fun _ => console_error "Error rolling back:" ;; ret false)
            else ret true) ;;
         if go_on : bool then
           setRemoteDescription connection offer ;;
           flushPendingIce from ;;
           answer <- createAnswer connection ;;
           setLocalDescription connection answer ;;
           socketId <- getSocketId ;;
           match truthy socketId with
           | Some sid => modify (log (SendAnswer from answer sid))
           | None => console_error "Socket ID not found"
           end
         else ret tt
     | None => ret tt
     end)
    (fun _ =>
       console_error "Error handling offer:" ;;
       known <- has_peer from ;;
       when known (removePeer from)).

Definition onWebRTCAnswer (answer : RTCSessionDescriptionInit) (from : string) : M unit :=
  peer <- get_peer from ;;
  match peer with
  | Some peer =>
      try_catch
        (setRemoteDescription (connection peer) answer ;;
         flushPendingIce from)
        (fun _ => console_error "Error handling answer:")
  | None => ret tt
  end.

Definition onWebRTCIceCandidate (candidate : option RTCIceCandidateInit) (from : string)
    : M unit :=
  peer <- get_peer from ;;
  match peer with
  | None => ret tt
  | Some peer =>
      described <- gets (fun w => remoteDescription (the_conn (connection peer) w)) ;;
      match described with
      | None =>
          update_peer from (fun p =>
            set_pendingCandidates
              (Some (default [] (pendingCandidates p) ++ [candidate])) p)
      | Some _ =>
          try_catch (addIceCandidate (connection peer) candidate)
            (fun _ => console_error "Error adding ICE candidate:")
      end
  end.

(** *** Reconnection: [restartIce], [onconnectionstatechange] and its timer *)

Definition restartIce (peerId : string) : M unit :=
  peer <- get_peer peerId ;;
  match peer with
  | Some peer =>
      state <- gets (fun w => signalingState (the_conn (connection peer) w)) ;;
      when (bool_decide (state = stable))
        (try_catch (capability_restartIce (connection peer))
           (fun _ => console_error "Error restarting ICE:"))
  | None => ret tt
  end.

Definition lost (state : RTCPeerConnectionState) : bool :=
  bool_decide (state = cs_failed) || bool_decide (state = cs_disconnected).

(** The handler [createPeer] installs on connection [c]; its closure holds
    [c] itself and the [peerId] the connection was created for. *)
Definition onconnectionstatechange (c : ConnId) : M unit :=
  state <- gets (fun w => connectionState (the_conn c w)) ;;
  peerId <- gets (fun w => handler_peerId (the_conn c w)) ;;
  if lost state
  then modify (fun w => log (SetTimeout peerId c) (set_timers (fun ts => ts ++ [(peerId, c)]) w))
  else if bool_decide (state = cs_closed)
  then removePeer peerId
  else ret tt.

(** The callback handed to [setTimeout], run when its delay has elapsed. *)
Definition timeout_callback (peerId : string) (c : ConnId) : M unit :=
  state <- gets (fun w => connectionState (the_conn c w)) ;;
  when (bool_decide (state = cs_disconnected) || bool_decide (state = cs_failed))
    (restartIce peerId).

(** The browser moves connection [c] to [state] and fires the event. *)
Definition connectionstatechange (c : ConnId) (state : RTCPeerConnectionState) : M unit :=
  modify (moved c state) ;;
  onconnectionstatechange c.

(** All timers have the same delay, so they expire in the order they were
    set: the oldest outstanding timer fires. *)
Definition timer_expires : M unit :=
  ts <- gets timers ;;
  match ts with
  | [] => ret tt
  | (peerId, c) :: rest =>
      modify (set_timers (fun _ => rest)) ;;
      timeout_callback peerId c
  end.

(** *** [setLocalStream] *)

Definition sync_track (c : ConnId) (track : MediaStreamTrack) : M unit :=
  senders <- gets (fun w => getSenders (the_conn c w)) ;;
  match find_index (sends_kind (kind track)) senders with
  | Some sender => replaceTrack c sender track
  | None => addTrack c track
  end.

Definition setLocalStream (stream : MediaStream) : M unit :=
  modify (set_this (set_localStream (Some stream))) ;;
  ps <- gets (fun w => peers (this w)) ;;
  for_of ps (fun entry =>
    for_of (getTracks stream) (sync_track (connection entry.2))).

(** *** [cleanup] *)

Definition cleanup : M unit :=
  ps <- gets (fun w => peers (this w)) ;;
  for_of ps (fun entry =>
    try_catch
      (close (connection entry.2) ;;
       match dataChannel entry.2 with
       | Some d => channel_close d
       | None => ret tt
       end)
      (fun _ => ret tt)) ;;
  local <- gets (fun w => localStream (this w)) ;;
  screen <- gets (fun w => screenStream (this w)) ;;
  for_of [local; screen] (fun stream =>
    match stream with
    | Some s => for_of (getTracks s) stop
    | None => ret tt
    end) ;;
  modify (set_this (set_peers (fun _ => []))) ;;
  modify (set_this (set_eventListeners (fun _ => []))).

End Manager.

(** ** The singleton accessor: [getInstance], [reset] *)

Module Singleton.

(** [new WebRTCManager(userId, roomId)] *)
Definition new_WebRTCManager (userId roomId : string) : WebRTCManager :=
  {| peers := []; localStream := None; screenStream := None;
     userId := userId; roomId := roomId; eventListeners := [] |}.

(** [!x] for an optional string argument: [undefined] and [''] are falsy. *)
Definition falsy (x : option string) : bool :=
  match x with
  | None => true
  | Some s => bool_decide (s = "")
  end.

Inductive Outcome :=
| Returned (m : WebRTCManager)
| Thrown (message : string).

(** The static field [instance] is the state; the result pairs what the
    call produced with the field afterwards. *)
Definition getInstance (userId roomId : option string) (instance : option WebRTCManager)
    : Outcome * option WebRTCManager :=
  match instance with
  | None =>
      if falsy userId || falsy roomId
      then (Thrown "UserId and RoomId required for first initialization", None)
      else
        let m := new_WebRTCManager (default "" userId) (default "" roomId) in
        (Returned m, Some m)
  | Some m => (Returned m, Some m)
  end.

(** [reset]: the instance, when there is one, is cleaned up in the world it
    lives in and the static field is cleared. *)
Definition reset (instance : option WebRTCManager) (w : World)
    : option WebRTCManager * World :=
  match instance with
  | Some _ => (None, (cleanup w).2)
  | None => (None, w)
  end.

End Singleton.

(** ** The handlers [createPeer] installs on a connection; [getPeer], [getAllPeers] *)

Definition set_stream (s : option MediaStream) (p : PeerConnection) : PeerConnection :=
  {| peerId := peerId p; connection := connection p; stream := s;
     dataChannel := dataChannel p; pendingCandidates := pendingCandidates p |}.

Definition set_dataChannel (d : option RTCDataChannel) (p : PeerConnection) : PeerConnection :=
  {| peerId := peerId p; connection := connection p; stream := stream p;
     dataChannel := d; pendingCandidates := pendingCandidates p |}.

(** [new MediaStream()]: no track yet; the browser picks the id. *)
Definition new_MediaStream (id : string) : MediaStream :=
  {| stream_id := id; getTracks := [] |}.

(** [stream.addTrack(t)]: a track that is in the stream is not added again. *)
Definition MediaStream_addTrack (t : MediaStreamTrack) (s : MediaStream) : MediaStream :=
  if bool_decide (t ∈ getTracks s) then s
  else {| stream_id := stream_id s; getTracks := getTracks s ++ [t] |}.

(** [stream.getTracks().find(t => t.id === id)] *)
Definition find_track (id : string) (s : MediaStream) : option MediaStreamTrack :=
  find (fun t => bool_decide (track_id t = id)) (getTracks s).

Section Handlers.
Context (host : Host).

(** What [JSON.parse] makes of the text of a data-channel message; [None]
    when it throws. *)
Context (JSON_parse : string -> option string).

Definition getPeer (peerId : string) : M (option PeerConnection) :=
  gets (fun w => PeerMap.get peerId (peers (this w))).

(** [new Map(this.peers)]: the same entries in the same order. *)
Definition getAllPeers : M PeerMap.t :=
  gets (fun w => peers (this w)).

(** [connection.ontrack]: the closure holds the [peerId] the connection was
    created for and looks the session up under it.  [fresh_id] is the id
    the browser gives the [MediaStream] the handler creates when the
    session has none.  The event carries [peer.stream] itself. *)
Definition ontrack (c : ConnId) (track : MediaStreamTrack) (fresh_id : string) : M unit :=
  peerId <- gets (fun w => handler_peerId (the_conn c w)) ;;
  peer <- get_peer peerId ;;
  match peer with
  | Some peer =>
      let created := default (new_MediaStream fresh_id) (stream peer) in
      let updated :=
        match find_track (track_id track) created with
        | Some _ => created
        | None => MediaStream_addTrack track created
        end in
      update_peer peerId (set_stream (Some updated)) ;;
      emitEvent host (ev_stream peerId updated)
  | None => ret tt
  end.

(** [channel.onmessage] as [setupDataChannel] installs it; [onopen] and
    [onclose] only write to the console. *)
Definition onmessage (data : string) : M unit :=
  match JSON_parse data with
  | Some message => emitEvent host (ev_chat message)
  | None => console_error "Error parsing data channel message:"
  end.

(** [connection.ondatachannel]: [setupDataChannel] gives the channel the
    handler [onmessage]; the session, when there is one, then holds the
    channel. *)
Definition ondatachannel (c : ConnId) (channel : RTCDataChannel) : M unit :=
  peerId <- gets (fun w => handler_peerId (the_conn c w)) ;;
  peer <- get_peer peerId ;;
  match peer with
  | Some _ => update_peer peerId (set_dataChannel (Some channel))
  | None => ret tt
  end.

(** [connection.onicecandidate]; [None] is the event without a candidate
    that ends the gathering. *)
Definition onicecandidate (c : ConnId) (candidate : option RTCIceCandidateInit) : M unit :=
  peerId <- gets (fun w => handler_peerId (the_conn c w)) ;;
  match candidate with
  | Some ci =>
      socketId <- getSocketId ;;
      match truthy socketId with
      | Some sid => modify (log (SendIceCandidate peerId ci sid))
      | None => ret tt
      end
  | None => ret tt
  end.

End Handlers.


(** ** The application store ([src/app/store/useStore.ts])

    The store is a record of fields and a set of actions; an action
    computes the next state from the current one, and [set] merges what
    the action returns into the state.  Writes to the console are left
    out. *)

(** A JavaScript [Map] with string keys: insertion order, [set] overwrites
    in place. *)
Module JsMap.
Section WithValue.
Context {V : Type}.

Fixpoint get (k : string) (m : list (string * V)) : option V :=
  match m with
  | [] => None
  | (k', v) :: m' => if decide (k' = k) then Some v else get k m'
  end.

Fixpoint set (k : string) (v : V) (m : list (string * V)) : list (string * V) :=
  match m with
  | [] => [(k, v)]
  | (k', v') :: m' =>
      if decide (k' = k) then (k, v) :: m' else (k', v') :: set k v m'
  end.

Fixpoint delete (k : string) (m : list (string * V)) : list (string * V) :=
  match m with
  | [] => []
  | (k', v') :: m' =>
      if decide (k' = k) then delete k m' else (k', v') :: delete k m'
  end.

Definition keys (m : list (string * V)) : list string := m.*1.

End WithValue.
End JsMap.

Module User.

Record t := mk {
  id : string;
  userName : string;
  isHost : bool;
  isVideoOn : bool;
  isAudioOn : bool;
  isScreenSharing : bool;
  stream : option MediaStream;
  socketId : string
}.

(** [Partial<User>]: the fields that an update carries. *)
Record partial := mkPartial {
  new_id : option string;
  new_userName : option string;
  new_isHost : option bool;
  new_isVideoOn : option bool;
  new_isAudioOn : option bool;
  new_isScreenSharing : option bool;
  new_stream : option (option MediaStream);
  new_socketId : option string
}.

(** [{ ...participant, ...updates }] *)
Definition spread (participant : t) (updates : partial) : t :=
  {| id := default (id participant) (new_id updates);
     userName := default (userName participant) (new_userName updates);
     isHost := default (isHost participant) (new_isHost updates);
     isVideoOn := default (isVideoOn participant) (new_isVideoOn updates);
     isAudioOn := default (isAudioOn participant) (new_isAudioOn updates);
     isScreenSharing := default (isScreenSharing participant) (new_isScreenSharing updates);
     stream := default (stream participant) (new_stream updates);
     socketId := default (socketId participant) (new_socketId updates) |}.

End User.

Module Store.

Record ChatMessage := mkMessage {
  message_id : string;
  message_userId : string;
  message_userName : string;
  message : string;
  timestamp : string;
  system : bool
}.

Record CurrentUser := mkCurrentUser {
  user_id : string;
  user_userName : string;
  user_socketId : string;
  user_isHost : bool
}.

Record Room := mkRoom {
  id : string;
  participants : list (string * User.t);
  isLocked : bool;
  hostId : string
}.

(** The argument of [setCurrentRoom]. *)
Record RoomInit := mkRoomInit {
  init_id : string;
  init_hostId : string;
  init_isLocked : option bool;
  init_participants : option (list (string * User.t))
}.

Record AppState := mkState {
  currentUser : option CurrentUser;
  currentRoom : option Room;
  localStream : option MediaStream;
  screenStream : option MediaStream;
  isVideoOn : bool;
  isAudioOn : bool;
  isScreenSharing : bool;
  messages : list ChatMessage;
  isLoading : bool;
  error : option string
}.

Definition initial : AppState :=
  {| currentUser := None; currentRoom := None; localStream := None; screenStream := None;
     isVideoOn := true; isAudioOn := true; isScreenSharing := false; messages := [];
     isLoading := false; error := None |}.

Definition set_currentRoom (r : option Room) (state : AppState) : AppState :=
  {| currentUser := currentUser state; currentRoom := r;
     localStream := localStream state; screenStream := screenStream state;
     isVideoOn := isVideoOn state; isAudioOn := isAudioOn state;
     isScreenSharing := isScreenSharing state; messages := messages state;
     isLoading := isLoading state; error := error state |}.

Definition set_participants (ps : list (string * User.t)) (room : Room) : Room :=
  {| id := id room; participants := ps; isLocked := isLocked room; hostId := hostId room |}.

Definition setCurrentUser (user : CurrentUser) (state : AppState) : AppState :=
  {| currentUser := Some user; currentRoom := currentRoom state;
     localStream := localStream state; screenStream := screenStream state;
     isVideoOn := isVideoOn state; isAudioOn := isAudioOn state;
     isScreenSharing := isScreenSharing state; messages := messages state;
     isLoading := isLoading state; error := error state |}.

(** [room.isLocked || false]; a [Map] is truthy even when it is empty, so
    the participants that are handed in always win. *)
Definition setCurrentRoom (room : RoomInit) (state : AppState) : AppState :=
  set_currentRoom
    (Some {| id := init_id room;
             hostId := init_hostId room;
             isLocked := default false (init_isLocked room);
             participants :=
               match init_participants room with
               | Some ps => ps
               | None =>
                   match currentRoom state with
                   | Some current => participants current
                   | None => []
                   end
               end |})
    state.

Definition toggleVideo (state : AppState) : AppState :=
  {| currentUser := currentUser state; currentRoom := currentRoom state;
     localStream := localStream state; screenStream := screenStream state;
     isVideoOn := negb (isVideoOn state); isAudioOn := isAudioOn state;
     isScreenSharing := isScreenSharing state; messages := messages state;
     isLoading := isLoading state; error := error state |}.

Definition toggleAudio (state : AppState) : AppState :=
  {| currentUser := currentUser state; currentRoom := currentRoom state;
     localStream := localStream state; screenStream := screenStream state;
     isVideoOn := isVideoOn state; isAudioOn := negb (isAudioOn state);
     isScreenSharing := isScreenSharing state; messages := messages state;
     isLoading := isLoading state; error := error state |}.

(** [newParticipants.set(userId, user)]: the user as handed in; the copy
    with the normalised [socketId] is only logged. *)
Definition addParticipant (userId : string) (user : User.t) (state : AppState) : AppState :=
  match currentRoom state with
  | None => state
  | Some room =>
      set_currentRoom (Some (set_participants (JsMap.set userId user (participants room)) room))
        state
  end.

Definition updateParticipant (userId : string) (updates : User.partial) (state : AppState)
    : AppState :=
  match currentRoom state with
  | None => state
  | Some room =>
      match JsMap.get userId (participants room) with
      | None => state
      | Some participant =>
          set_currentRoom
            (Some (set_participants
                     (JsMap.set userId (User.spread participant updates) (participants room))
                     room))
            state
      end
  end.

Definition removeParticipant (userId : string) (state : AppState) : AppState :=
  match currentRoom state with
  | None => state
  | Some room =>
      set_currentRoom (Some (set_participants (JsMap.delete userId (participants room)) room))
        state
  end.

Definition addMessage (m : ChatMessage) (state : AppState) : AppState :=
  {| currentUser := currentUser state; currentRoom := currentRoom state;
     localStream := localStream state; screenStream := screenStream state;
     isVideoOn := isVideoOn state; isAudioOn := isAudioOn state;
     isScreenSharing := isScreenSharing state; messages := messages state ++ [m];
     isLoading := isLoading state; error := error state |}.

Definition resetRoom (state : AppState) : AppState :=
  {| currentUser := currentUser state; currentRoom := None;
     localStream := None; screenStream := None;
     isVideoOn := true; isAudioOn := true; isScreenSharing := false; messages := [];
     isLoading := isLoading state; error := error state |}.

Definition resetAll (state : AppState) : AppState := initial.

End Store.

(** ** Vocabulary of the properties *)

(** Replaying a list of [getInstance] calls on the static field. *)
Fixpoint getInstance_calls (calls : list (option string * option string))
    (instance : option WebRTCManager) : list Singleton.Outcome * option WebRTCManager :=
  match calls with
  | [] => ([], instance)
  | (u, r) :: rest =>
      let '(o, instance') := Singleton.getInstance u r instance in
      let '(os, final) := getInstance_calls rest instance' in
      (o :: os, final)
  end.

(** The listeners an event was delivered to, in delivery order. *)
Definition delivered_to (tr : list Effect) : list Listener :=
  omap (fun e =>
    match e with
    | Deliver l ev => Some l
    | _ => None
    end) tr.

Definition only_subscribes (ops : list BusOp) : Prop :=
  Forall (fun op => match op with onEvent_ _ => True | offEvent_ _ => False end) ops.

Definition subscribed_by (ops : list BusOp) : list Listener :=
  omap (fun op => match op with onEvent_ l => Some l | offEvent_ _ => None end) ops.

(** The listeners subscribed by the listeners [ls] while they handle [event]. *)
Definition late_subscribers (host : Host) (event : WebRTCEvent) (ls : list Listener)
    : list Listener :=
  flat_map (fun l => subscribed_by (react host l event)) ls.

Definition relisten (ls : list Listener) (w : World) : World :=
  set_this (set_eventListeners (fun _ => ls)) w.

(** Connection [c] is closed in world [w]. *)
Definition closed_at (c : ConnId) (w : World) : Prop :=
  signalingState (the_conn c w) = closed.

(** What closing one peer session leaves in the trace. *)
Definition close_effects (p : PeerConnection) : list Effect :=
  Call (connection p) close_ true ::
  match dataChannel p with
  | Some d => [ChannelClose d]
  | None => []
  end.

Definition tracks_of (s : option MediaStream) : list MediaStreamTrack :=
  match s with
  | Some s => getTracks s
  | None => []
  end.

(** The store after [close()] on each of the connections [cs] in turn. *)
Definition close_all (cs : list ConnId) (store : list RTCPeerConnection)
    : list RTCPeerConnection :=
  foldl (fun st c =>
           <[c := Capability.close
                    (default (Capability.close (new_RTCPeerConnection "")) (st !! c))]> st)
        store cs.

Definition is_event (e : Effect) : Prop :=
  match e with
  | Emit _ | Deliver _ _ => True
  | _ => False
  end.

(** The world once [removePeer] has closed and dropped [peer], before the
    [peerRemoved] event goes out. *)
Definition dropped (peerId : string) (peer : PeerConnection) (w : World) : World :=
  logs (close_effects peer)
    (set_this (set_peers (PeerMap.delete peerId))
       (set_conns (<[connection peer := Capability.close (the_conn (connection peer) w)]>) w)).

(** The senders a new connection gets from the local tracks [ts]: one per
    kind, the first track of each kind. *)
Definition add_if_new_kind (ss : list RTCRtpSender) (t : MediaStreamTrack)
    : list RTCRtpSender :=
  match find_index (sends_kind (kind t)) ss with
  | Some _ => ss
  | None => ss ++ [mkSender (Some t)]
  end.

Definition local_senders (ss : list RTCRtpSender) (ts : list MediaStreamTrack)
    : list RTCRtpSender :=
  foldl add_if_new_kind ss ts.

Fixpoint local_track_calls (c : ConnId) (ss : list RTCRtpSender) (ts : list MediaStreamTrack)
    : list Effect :=
  match ts with
  | [] => []
  | t :: ts' =>
      match find_index (sends_kind (kind t)) ss with
      | Some _ => local_track_calls c ss ts'
      | None => Call c (addTrack_ t) true :: local_track_calls c (ss ++ [mkSender (Some t)]) ts'
      end
  end.

(** The connection and the peer record [createPeer] builds for a peer that
    is not an initiator. *)
Definition responder_conn (peerId : string) (local : option MediaStream) : RTCPeerConnection :=
  Capability.set_senders (local_senders [] (tracks_of local)) (new_RTCPeerConnection peerId).

Definition responder_peer (peerId : string) (c : ConnId) : PeerConnection :=
  {| peerId := peerId; connection := c; stream := None; dataChannel := None;
     pendingCandidates := None |}.

(** The same for an initiator: the offer it creates, the connection once
    the offer is set, the peer record, and what the offer round leaves in
    the trace. *)
Definition created_offer (host : Host) (peerId : string) (local : option MediaStream)
    : RTCSessionDescriptionInit :=
  mkSdp ty_offer (describe host ty_offer (responder_conn peerId local)).

Definition initiator_conn (host : Host) (peerId : string) (local : option MediaStream)
    : RTCPeerConnection :=
  Capability.set_descriptions have_local_offer
    (Some (created_offer host peerId local)) None None None
    (responder_conn peerId local).

Definition initiator_peer (peerId : string) (c : ConnId) : PeerConnection :=
  {| peerId := peerId; connection := c; stream := None;
     dataChannel := Some (mkChannel "chat" c); pendingCandidates := None |}.

Definition offer_round (host : Host) (peerId : string) (c : ConnId)
    (local : option MediaStream) (socket : option string) : list Effect :=
  [Call c (createDataChannel_ "chat") true;
   Call c createOffer_ true;
   Call c (setLocalDescription_ (created_offer host peerId local)) true]
  ++ match truthy socket with
     | Some sid => [SendOffer peerId (created_offer host peerId local) sid]
     | None => []
     end.

(** [createPeer] treats an existing session as stale in these states. *)
Definition stale (pc : RTCPeerConnection) : Prop :=
  signalingState pc = closed \/ connectionState pc = cs_failed
  \/ connectionState pc = cs_disconnected.

Definition healthy (pc : RTCPeerConnection) : Prop :=
  signalingState pc = stable /\ connectionState pc = cs_connected.

(** The peer record [createPeer] builds, by role. *)
Definition fresh_peer (isInitiator : bool) (peerId : string) (c : ConnId) : PeerConnection :=
  if isInitiator then initiator_peer peerId c else responder_peer peerId c.

(** Staleness as the specification words it, read as widely as the states
    of the capability allow: connectivity Closed, or a negotiation that is
    over (signaling closed) or failed (connectivity Failed). *)
Definition stale_as_specified (pc : RTCPeerConnection) : Prop :=
  connectionState pc = cs_closed \/ signalingState pc = closed
  \/ connectionState pc = cs_failed.

(** *** Candidates *)

(** Whether the capability takes a candidate when its connection is [pc]. *)
Definition candidate_lands (host : Host) (pc : RTCPeerConnection)
    (c : option RTCIceCandidateInit) : bool :=
  match Capability.addIceCandidate host c pc with
  | inr _ => true
  | inl _ => false
  end.

(** The buffered candidates the capability takes, in buffer order. *)
Fixpoint landed (host : Host) (pc : RTCPeerConnection)
    (cs : list (option RTCIceCandidateInit)) : list RTCIceCandidateInit :=
  match cs with
  | [] => []
  | Some ci :: cs' =>
      if candidate_lands host pc (Some ci) then ci :: landed host pc cs' else landed host pc cs'
  | None :: cs' => landed host pc cs'
  end.

(** The connection after the buffer [cs] has been flushed into it. *)
Definition flushed (host : Host) (pc : RTCPeerConnection)
    (cs : list (option RTCIceCandidateInit)) : RTCPeerConnection :=
  Capability.set_remoteCandidates (remoteCandidates pc ++ landed host pc cs) pc.

(** What flushing the buffer [cs] leaves in the trace. *)
Definition flush_effects (host : Host) (c : ConnId) (pc : RTCPeerConnection)
    (cs : list (option RTCIceCandidateInit)) : list Effect :=
  flat_map (fun x =>
              match x with
              | Some ci =>
                  if candidate_lands host pc (Some ci)
                  then [Call c (addIceCandidate_ (Some ci)) true]
                  else [Call c (addIceCandidate_ (Some ci)) false;
                        ConsoleError "Error adding pending ICE candidate:"]
              | None => []
              end) cs.

(** The candidates handed to [addIceCandidate] on connection [c], in call
    order, whatever the outcome of each call. *)
Definition candidates_offered (c : ConnId) (tr : list Effect)
    : list (option RTCIceCandidateInit) :=
  omap (fun e =>
          match e with
          | Call c' (addIceCandidate_ x) _ => if decide (c' = c) then Some x else None
          | _ => None
          end) tr.

Definition buffer_of (p : PeerConnection) : list (option RTCIceCandidateInit) :=
  default [] (pendingCandidates p).

(** The manager once the buffer of [peer] has been flushed: an empty or
    missing buffer is left as it is, any other is replaced by [[]]. *)
Definition emptied (from : string) (peer : PeerConnection) (m : WebRTCManager)
    : WebRTCManager :=
  match buffer_of peer with
  | [] => m
  | _ :: _ => set_peers (PeerMap.set from (set_pendingCandidates (Some []) peer)) m
  end.

(** *** Answering an offer *)

Definition created_answer (host : Host) (pc : RTCPeerConnection) : RTCSessionDescriptionInit :=
  mkSdp ty_answer (describe host ty_answer pc).

(** The connection once the remote offer is in ([pc1]), the buffer is
    flushed and the local answer is set. *)
Definition answered (host : Host) (pc1 : RTCPeerConnection)
    (buffer : list (option RTCIceCandidateInit)) : RTCPeerConnection :=
  let pc2 := flushed host pc1 buffer in
  Capability.set_descriptions stable None (Some (created_answer host pc2)) None
    (pendingRemoteDescription pc2) pc2.

Definition answer_round (host : Host) (from : string) (c : ConnId)
    (offer : RTCSessionDescriptionInit) (pc1 : RTCPeerConnection)
    (buffer : list (option RTCIceCandidateInit)) (socket : option string) : list Effect :=
  Call c (setRemoteDescription_ offer) true
  :: flush_effects host c pc1 buffer
  ++ [Call c createAnswer_ true;
      Call c (setLocalDescription_ (created_answer host (flushed host pc1 buffer))) true;
      match truthy socket with
      | Some sid => SendAnswer from (created_answer host (flushed host pc1 buffer)) sid
      | None => ConsoleError "Socket ID not found"
      end].

(** The connection of a new responder session once the remote [offer] is
    in. *)
Definition offered_conn (offer : RTCSessionDescriptionInit) (peerId : string)
    (local : option MediaStream) : RTCPeerConnection :=
  Capability.set_descriptions have_remote_offer None None (Some offer) None
    (responder_conn peerId local).

(** The world in which a responder session for [from] has just been created
    on connection [length (conns w)]. *)
Definition with_responder (from : string) (w : World) : World :=
  {| this := set_peers (PeerMap.set from (responder_peer from (length (conns w)))) (this w);
     conns := conns w ++ [responder_conn from (localStream (this w))];
     timers := timers w; ended := ended w; socketId := socketId w;
     trace := trace w
              ++ local_track_calls (length (conns w)) [] (tracks_of (localStream (this w))) |}.

(** *** Answers *)

(** The states in which the specification wants an answer applied: the
    local offer is outstanding, or there is no remote description at all. *)
Definition answer_expected (pc : RTCPeerConnection) : Prop :=
  signalingState pc = have_local_offer \/ remoteDescription pc = None.

(** The handler gave description [d] to [setRemoteDescription] of [c]. *)
Definition handed_to_capability (c : ConnId) (d : RTCSessionDescriptionInit)
    (tr : list Effect) : Prop :=
  exists ok, Call c (setRemoteDescription_ d) ok ∈ tr.

(** What a refused answer leaves behind. *)
Definition answer_refused (c : ConnId) (answer : RTCSessionDescriptionInit) (w : World)
    : World :=
  logs [Call c (setRemoteDescription_ answer) false; ConsoleError "Error handling answer:"] w.

(** *** Offers that meet a local offer *)

(** The connection once its pending local offer has been rolled back. *)
Definition rolled_back (pc : RTCPeerConnection) : RTCPeerConnection :=
  Capability.set_descriptions stable None (currentLocalDescription pc)
    (pendingRemoteDescription pc) (currentRemoteDescription pc) pc.

(** The connection the offer handler presents the remote offer to. *)
Definition before_offer (pc : RTCPeerConnection) : RTCPeerConnection :=
  if decide (signalingState pc = have_local_offer) then rolled_back pc else pc.

Definition rollback_effects (c : ConnId) (pc : RTCPeerConnection) : list Effect :=
  if decide (signalingState pc = have_local_offer)
  then [Call c (setLocalDescription_ (mkSdp ty_rollback "")) true]
  else [].

(** The buffer without its end-of-candidates sentinels. *)
Fixpoint without_sentinels (cs : list (option RTCIceCandidateInit))
    : list (option RTCIceCandidateInit) :=
  match cs with
  | [] => []
  | Some ci :: cs' => Some ci :: without_sentinels cs'
  | None :: cs' => without_sentinels cs'
  end.

(** The world after the candidates [cs] from [from] have been buffered. *)
Definition buffered (from : string) (peer : PeerConnection)
    (cs : list (option RTCIceCandidateInit)) (w : World) : World :=
  match cs with
  | [] => w
  | _ :: _ =>
      set_this (set_peers (PeerMap.set from
                  (set_pendingCandidates (Some (buffer_of peer ++ cs)) peer))) w
  end.

(** The connection once the remote [offer] is in after the rollback of the
    local one. *)
Definition offer_after_rollback (offer : RTCSessionDescriptionInit) (pc : RTCPeerConnection)
    : RTCPeerConnection :=
  Capability.set_descriptions have_remote_offer None (currentLocalDescription pc)
    (Some offer) (currentRemoteDescription pc) pc.

(** *** Reconnection *)

(** A restart went to some capability. *)
Definition restart_issued (tr : list Effect) : Prop :=
  exists c ok, Call c restartIce_ ok ∈ tr.

(** What the timer callback of connection [c], set for [peerId], requires
    when it runs: the connection it captured is still Disconnected or
    Failed, and [peerId] has a session whose signaling is stable. *)
Definition restart_due (peerId : string) (c : ConnId) (w : World) : Prop :=
  lost (connectionState (the_conn c w)) = true /\
  exists peer, PeerMap.get peerId (peers (this w)) = Some peer /\
               signalingState (the_conn (connection peer) w) = stable.

(** *** Outbound tracks *)

(** The senders after [setLocalStream] has dealt with track [t]: the first
    sender of the same kind now carries [t], or a new sender is added. *)
Definition sync_senders (t : MediaStreamTrack) (ss : list RTCRtpSender) : list RTCRtpSender :=
  match find_index (sends_kind (kind t)) ss with
  | Some i => <[i := mkSender (Some t)]> ss
  | None => ss ++ [mkSender (Some t)]
  end.

Definition sync_all (ts : list MediaStreamTrack) (ss : list RTCRtpSender) : list RTCRtpSender :=
  foldl (fun ss t => sync_senders t ss) ss ts.

(** The tracks of kind [k] that the senders [ss] send. *)
Fixpoint outbound (k : TrackKind) (ss : list RTCRtpSender) : list MediaStreamTrack :=
  match ss with
  | [] => []
  | s :: ss' =>
      match track s with
      | Some t => if decide (kind t = k) then t :: outbound k ss' else outbound k ss'
      | None => outbound k ss'
      end
  end.

Definition one_per_kind (ss : list RTCRtpSender) : Prop :=
  forall k, length (outbound k ss) <= 1.

(** Every peer session points at a connection of the store that is not
    closed, and no two sessions share a connection. *)
Definition sessions_open (w : World) : Prop :=
  Forall (fun entry : string * PeerConnection =>
            connection entry.2 < length (conns w) /\
            signalingState (the_conn (connection entry.2) w) <> closed)
         (peers (this w)) /\
  NoDup (map (fun entry : string * PeerConnection => connection entry.2) (peers (this w))).

(** What dealing with track [t] leaves in the trace of an open connection. *)
Definition sync_effect (c : ConnId) (t : MediaStreamTrack) (ss : list RTCRtpSender) : Effect :=
  match find_index (sends_kind (kind t)) ss with
  | Some i => Call c (replaceTrack_ i t) true
  | None => Call c (addTrack_ t) true
  end.

(** The world after a method, whether it returned or threw. *)
Definition after (m : M unit) (w : World) : World := (m w).2.

(** What every step of [setLocalStream] respects: the peer sessions stay,
    the store keeps its size, and a connection with at most one outbound
    track per kind keeps that property. *)
Definition respects_senders (w w' : World) : Prop :=
  peers (this w') = peers (this w) /\
  length (conns w') = length (conns w) /\
  forall c, one_per_kind (getSenders (the_conn c w)) ->
            one_per_kind (getSenders (the_conn c w')).

(** *** Everything that can happen to a manager *)

Inductive Input :=
| call_createPeer (peerId : string) (isInitiator : bool)
| call_removePeer (peerId : string)
| call_setLocalStream (stream : MediaStream)
| call_cleanup
| call_onEvent (callback : Listener)
| call_offEvent (callback : Listener)
| recv_offer (offer : RTCSessionDescriptionInit) (from : string)
| recv_answer (answer : RTCSessionDescriptionInit) (from : string)
| recv_candidate (candidate : option RTCIceCandidateInit) (from : string)
| fire_connectionstatechange (c : ConnId) (state : RTCPeerConnectionState)
| fire_timer.

Definition react_to (host : Host) (i : Input) : M unit :=
  match i with
  | call_createPeer peerId isInitiator => createPeer host peerId isInitiator ;; ret tt
  | call_removePeer peerId => removePeer host peerId
  | call_setLocalStream stream => setLocalStream stream
  | call_cleanup => cleanup
  | call_onEvent callback => onEvent callback
  | call_offEvent callback => offEvent callback
  | recv_offer offer from => onWebRTCOffer host offer from
  | recv_answer answer from => onWebRTCAnswer host answer from
  | recv_candidate candidate from => onWebRTCIceCandidate host candidate from
  | fire_connectionstatechange c state => connectionstatechange host c state
  | fire_timer => timer_expires
  end.

(** The world in which a manager has just been built: no peer, no
    connection, nothing observed yet. *)
Definition start (userId roomId : string) (socket : option string) : World :=
  {| this := Singleton.new_WebRTCManager userId roomId;
     conns := []; timers := []; ended := []; socketId := socket; trace := [] |}.

(** The world after the inputs, one after the other; an exception ends the
    input it occurs in and nothing more. *)
Fixpoint run (host : Host) (inputs : list Input) (w : World) : World :=
  match inputs with
  | [] => w
  | i :: rest => run host rest (react_to host i w).2
  end.

(** What holds of a manager at every instant: no key of [peers] occurs
    twice, no connection of the store sends two tracks of one kind, and the
    sessions sit on open connections of their own. *)
Definition unique_sessions (w : World) : Prop :=
  NoDup (PeerMap.keys (peers (this w))).

Definition single_tracks (w : World) : Prop :=
  forall c, one_per_kind (getSenders (the_conn c w)).

Definition well_kept (w : World) : Prop :=
  unique_sessions w /\ single_tracks w /\ sessions_open w.

(** A method keeps a property of the world, whether it returns or throws. *)
Definition keeps {A} (P : World -> Prop) (m : M A) : Prop :=
  forall w, P w -> P (m w).2.

(** A capability call that leaves the senders alone and closes nothing. *)
Definition quiet {A} (f : RTCPeerConnection -> DOMException + (A * RTCPeerConnection)) : Prop :=
  forall pc a pc',
    f pc = inr (a, pc') ->
    getSenders pc' = getSenders pc /\
    (signalingState pc <> closed -> signalingState pc' <> closed).

(** *** Worlds and hosts used in the examples *)

Definition quiet_host : Host :=
  {| accepts_description := fun _ => true;
     accepts_candidate := fun _ => true;
     describe := fun ty _ => match ty with ty_offer => "local-offer" | _ => "local-answer" end;
     react := fun _ _ => [] |}.

Definition empty_world : World := start "me" "room" (Some "socket-me").

(** Listener 1 unsubscribes itself when it is called. *)
Definition leaving_host : Host :=
  {| accepts_description := fun _ => true;
     accepts_candidate := fun _ => true;
     describe := fun _ _ => "";
     react := fun l _ => if decide (l = 1) then [offEvent_ 1] else [] |}.

(** Listener 1 subscribes listener 9 when it is called. *)
Definition joining_host : Host :=
  {| accepts_description := fun _ => true;
     accepts_candidate := fun _ => true;
     describe := fun _ _ => "";
     react := fun l _ => if decide (l = 1) then [onEvent_ 9] else [] |}.

Definition camera : MediaStreamTrack := {| track_id := "camera"; kind := video |}.
Definition microphone : MediaStreamTrack := {| track_id := "microphone"; kind := audio |}.
Definition local_media : MediaStream :=
  {| stream_id := "local"; getTracks := [microphone; camera] |}.

(** A manager that holds local media and has no peer. *)
Definition media_world : World :=
  set_this (set_localStream (Some local_media)) empty_world.

(** One responder session for "bob", then the same with its connectivity
    gone to Disconnected. *)
Definition bob_world : World := (createPeer quiet_host "bob" false empty_world).2.

Definition bob_disconnected : World :=
  (connectionstatechange quiet_host 0 cs_disconnected
     (connectionstatechange quiet_host 0 cs_connected bob_world).2).2.

(** "bob" has sent an offer and got his answer: stable, remote description
    on record. *)
Definition bob_answered : World :=
  (onWebRTCOffer quiet_host (mkSdp ty_offer "offer-from-bob") "bob" empty_world).2.

(** The local side has called "bob": its own offer is outstanding. *)
Definition calling_bob : World := (createPeer quiet_host "bob" true empty_world).2.

(** A host whose capability refuses the candidate called "bad". *)
Definition picky_host : Host :=
  {| accepts_description := fun _ => true;
     accepts_candidate := fun ci => negb (String.eqb (candidate ci) "bad");
     describe := fun ty _ => match ty with ty_offer => "local-offer" | _ => "local-answer" end;
     react := fun _ _ => [] |}.

Definition host_candidate (name : string) : RTCIceCandidateInit :=
  {| candidate := name; sdpMid := Some "0"; sdpMLineIndex := Some 0 |}.

(** Arrival order: a good candidate, the end-of-candidates sentinel, one
    the capability will refuse, another good one. *)
Definition early_candidates : list (option RTCIceCandidateInit) :=
  [Some (host_candidate "first"); None; Some (host_candidate "bad");
   Some (host_candidate "last")].

(** Two managers, "alice" and "bob", that call each other at the same
    time: each creates its session as initiator and sends its offer, then
    receives the offer of the other, then the answer of the other. *)
Definition named_host (name : string) : Host :=
  {| accepts_description := fun _ => true;
     accepts_candidate := fun _ => true;
     describe := fun ty _ =>
       match ty with
       | ty_offer => String.append "offer-of-" name
       | _ => String.append "answer-of-" name
       end;
     react := fun _ _ => [] |}.

Definition named_world (name : string) : World := start name "room" (Some name).

Definition alice_calls : World := (createPeer (named_host "alice") "bob" true (named_world "alice")).2.
Definition bob_calls : World := (createPeer (named_host "bob") "alice" true (named_world "bob")).2.

Definition alice_glare : World :=
  (onWebRTCOffer (named_host "alice") (mkSdp ty_offer "offer-of-bob") "bob" alice_calls).2.
Definition bob_glare : World :=
  (onWebRTCOffer (named_host "bob") (mkSdp ty_offer "offer-of-alice") "alice" bob_calls).2.

Definition alice_end : World :=
  (onWebRTCAnswer (named_host "alice") (mkSdp ty_answer "answer-of-bob") "bob" alice_glare).2.
Definition bob_end : World :=
  (onWebRTCAnswer (named_host "bob") (mkSdp ty_answer "answer-of-alice") "alice" bob_glare).2.

(** "bob" connected, then Disconnected, then Failed, no timer having
    expired in between. *)
Definition bob_failing : World :=
  (connectionstatechange quiet_host 0 cs_failed bob_disconnected).2.

(** Sessions with "bob" and "carol" while local media is held, and a
    second camera to switch to. *)
Definition two_peers_world : World :=
  (createPeer quiet_host "carol" true (createPeer quiet_host "bob" false media_world).2).2.

Definition second_camera : MediaStreamTrack := {| track_id := "camera-2"; kind := video |}.
Definition new_media : MediaStream :=
  {| stream_id := "local-2"; getTracks := [second_camera] |}.

(** ** Vocabulary of the further properties *)

(** *** Everything that can happen, the handlers of the connections included *)

Inductive Event :=
| input (i : Input)
| fire_track (c : ConnId) (track : MediaStreamTrack) (fresh_id : string)
| fire_datachannel (c : ConnId) (channel : RTCDataChannel)
| fire_icecandidate (c : ConnId) (candidate : option RTCIceCandidateInit)
| fire_message (data : string).

Definition handle (host : Host) (JSON_parse : string -> option string) (e : Event) : M unit :=
  match e with
  | input i => react_to host i
  | fire_track c track fresh_id => ontrack host c track fresh_id
  | fire_datachannel c channel => ondatachannel c channel
  | fire_icecandidate c candidate => onicecandidate c candidate
  | fire_message data => onmessage host JSON_parse data
  end.

Fixpoint run_all (host : Host) (JSON_parse : string -> option string)
    (events : list Event) (w : World) : World :=
  match events with
  | [] => w
  | e :: rest => run_all host JSON_parse rest (handle host JSON_parse e w).2
  end.

(** *** The socket changes its id *)

(** Between two handlers the socket may connect, reconnect or disconnect;
    [socketService.getSocketId()] then returns another id, or none.  The
    manager reads the id anew at every send. *)
Inductive Step :=
| handles (e : Event)
| socket_id_becomes (id : option string).

Definition set_socketId (id : option string) (w : World) : World :=
  {| this := this w; conns := conns w; timers := timers w;
     ended := ended w; socketId := id; trace := trace w |}.

Definition advance (host : Host) (JSON_parse : string -> option string)
    (s : Step) (w : World) : World :=
  match s with
  | handles e => (handle host JSON_parse e w).2
  | socket_id_becomes id => set_socketId id w
  end.

Fixpoint advance_all (host : Host) (JSON_parse : string -> option string)
    (steps : list Step) (w : World) : World :=
  match steps with
  | [] => w
  | s :: rest => advance_all host JSON_parse rest (advance host JSON_parse s w)
  end.

(** The id the socket reported last in [steps], [id] when it reported
    none. *)
Fixpoint id_after (steps : list Step) (id : option string) : option string :=
  match steps with
  | [] => id
  | handles _ :: rest => id_after rest id
  | socket_id_becomes id' :: rest => id_after rest id'
  end.

(** The events whose handler the manager runs on its own: everything but a
    call of [createPeer] or [setLocalStream] by the application. *)
Definition is_handler (e : Event) : Prop :=
  match e with
  | input (call_createPeer _ _) | input (call_setLocalStream _) => False
  | _ => True
  end.

(** A method returns, started in world [w]. *)
Definition returns {A} (m : M A) (w : World) : Prop :=
  exists a w', m w = (Normal a, w').

(** A method, started in world [w], ends in a world that [R] relates to [w],
    whether it returns or throws. *)
Definition moves {A} (R : World -> World -> Prop) (m : M A) (w : World) : Prop :=
  R w (m w).2.

(** The socket id a signaling message names as its sender. *)
Definition sender (e : Effect) : option string :=
  match e with
  | SendOffer _ _ from | SendAnswer _ _ from | SendIceCandidate _ _ from => Some from
  | _ => None
  end.

(** The signaling messages among the effects [tr], in the order they went
    out. *)
Definition sent (tr : list Effect) : list Effect :=
  omap (fun e => match sender e with Some _ => Some e | None => None end) tr.

(** The remote stream of a session holds no two tracks with one id. *)
Definition stream_ok (p : PeerConnection) : Prop :=
  forall s, stream p = Some s -> NoDup (map track_id (getTracks s)).

(** How a later world relates to an earlier one: the socket id and the
    identifiers of the manager are the same; the store has only grown, its
    connections keep the [peerId] of their handlers and stay closed once
    closed; the trace has only grown, by signaling messages that name the
    socket id, which is not empty, as sender; every session either
    continues an earlier one,
    under the same key and on the same connection, or is new, on a new
    connection whose handlers hold its key. *)
Definition evolves (w w' : World) : Prop :=
  socketId w' = socketId w /\
  userId (this w') = userId (this w) /\
  roomId (this w') = roomId (this w) /\
  length (conns w) <= length (conns w') /\
  (forall c, c < length (conns w) ->
     handler_peerId (the_conn c w') = handler_peerId (the_conn c w) /\
     (closed_at c w -> closed_at c w')) /\
  (exists es, trace w' = trace w ++ es /\
     Forall (fun e => forall from, sender e = Some from -> truthy (socketId w) = Some from)
       es) /\
  (forall k p, (k, p) ∈ peers (this w') ->
     (exists p0, (k, p0) ∈ peers (this w) /\ peerId p = peerId p0 /\
                 connection p = connection p0 /\ (stream_ok p0 -> stream_ok p)) \/
     (peerId p = k /\ length (conns w) <= connection p < length (conns w') /\
      handler_peerId (the_conn (connection p) w') = k /\ stream_ok p)).

(** Every session is filed under its own [peerId], on a connection of the
    store whose handlers hold that [peerId], and its remote stream holds no
    two tracks with one id. *)
Definition sound (w : World) : Prop :=
  Forall (fun entry : string * PeerConnection =>
            peerId entry.2 = entry.1 /\
            connection entry.2 < length (conns w) /\
            handler_peerId (the_conn (connection entry.2) w) = entry.1 /\
            stream_ok entry.2)
         (peers (this w)).

(** A capability call that leaves the [peerId] of the handlers alone and
    reopens nothing. *)
Definition steady {A} (f : RTCPeerConnection -> DOMException + (A * RTCPeerConnection)) : Prop :=
  forall pc a pc',
    f pc = inr (a, pc') ->
    handler_peerId pc' = handler_peerId pc /\
    (signalingState pc = closed -> signalingState pc' = closed).

(** The remote stream [s] of a session once [ontrack] has dealt with
    [track]. *)
Definition received (track : MediaStreamTrack) (s : MediaStream) : MediaStream :=
  match find_track (track_id track) s with
  | Some _ => s
  | None => MediaStream_addTrack track s
  end.

(** The kinds of the tracks that the senders carry, position by position. *)
Definition kinds_of (ss : list RTCRtpSender) : list (option TrackKind) :=
  map (fun s => kind <$> track s) ss.

(** The last track of kind [k] among [ts]. *)
Definition last_of_kind (k : TrackKind) (ts : list MediaStreamTrack)
    : option MediaStreamTrack :=
  last (filter (fun t => kind t = k) ts).

(** The senders [ss] have taken the tracks [ts]: for every kind that occurs
    among [ts], the first sender of that kind carries the last track of
    that kind. *)
Definition settled (ts : list MediaStreamTrack) (ss : list RTCRtpSender) : Prop :=
  forall t, t ∈ ts ->
    exists i, find_index (sends_kind (kind t)) ss = Some i /\
              ss !! i = Some (mkSender (last_of_kind (kind t) ts)).

(** The senders [ss'] differ from [ss] at most in the tracks of the first
    senders of the kinds that occur among [ts]. *)
Definition agree_off (ts : list MediaStreamTrack) (ss ss' : list RTCRtpSender) : Prop :=
  kinds_of ss' = kinds_of ss /\
  forall j, (exists t, t ∈ ts /\ find_index (sends_kind (kind t)) ss = Some j)
            \/ ss' !! j = ss !! j.

(** The world in which the offer handler presents a remote offer to
    connection [c]: a pending local offer has been rolled back. *)
Definition offer_presented (c : ConnId) (w : World) : World :=
  if decide (signalingState (the_conn c w) = have_local_offer)
  then log (Call c (setLocalDescription_ (mkSdp ty_rollback "")) true)
         (set_conns (<[c := rolled_back (the_conn c w)]>) w)
  else w.

(** The participants the store holds: those of the current room. *)
Definition participants_of (state : Store.AppState) : list (string * User.t) :=
  match Store.currentRoom state with
  | Some room => Store.participants room
  | None => []
  end.

(** The signaling messages that relay the gathered candidates [cs]. *)
Definition relayed (peerId sid : string) (cs : list (option RTCIceCandidateInit))
    : list Effect :=
  map (fun ci => SendIceCandidate peerId ci sid) (omap id cs).

(** A host whose capability refuses the description with the text "bad". *)
Definition refusing_host : Host :=
  {| accepts_description := fun d => negb (String.eqb (sdp d) "bad");
     accepts_candidate := fun _ => true;
     describe := fun ty _ => match ty with ty_offer => "local-offer" | _ => "local-answer" end;
     react := fun _ _ => [] |}.

(** Local media with two cameras. *)
Definition two_cameras : MediaStream :=
  {| stream_id := "local-3"; getTracks := [camera; microphone; second_camera] |}.

(** A store with a room that holds "ann" and "ben". *)
Definition ann : User.t :=
  {| User.id := "ann"; User.userName := "Ann"; User.isHost := true;
     User.isVideoOn := true; User.isAudioOn := true; User.isScreenSharing := false;
     User.stream := None; User.socketId := "socket-ann" |}.

Definition ben : User.t :=
  {| User.id := "ben"; User.userName := "Ben"; User.isHost := false;
     User.isVideoOn := false; User.isAudioOn := true; User.isScreenSharing := false;
     User.stream := None; User.socketId := "socket-ben" |}.

Definition cat : User.t :=
  {| User.id := "cat"; User.userName := "Cat"; User.isHost := false;
     User.isVideoOn := true; User.isAudioOn := false; User.isScreenSharing := false;
     User.stream := None; User.socketId := "" |}.

Definition room_store : Store.AppState :=
  Store.addParticipant "ben" ben
    (Store.addParticipant "ann" ann
       (Store.setCurrentRoom
          {| Store.init_id := "room"; Store.init_hostId := "ann";
             Store.init_isLocked := None; Store.init_participants := None |}
          Store.initial)).

Definition video_off : User.partial :=
  {| User.new_id := None; User.new_userName := None; User.new_isHost := None;
     User.new_isVideoOn := Some false; User.new_isAudioOn := None;
     User.new_isScreenSharing := None; User.new_stream := None;
     User.new_socketId := None |}.

(** * Properties *)

(** ** Singleton accessor *)

Lemma getInstance_existing u r m :
  Singleton.getInstance u r (Some m) = (Singleton.Returned m, Some m).
Proof. reflexivity. Qed.

Lemma getInstance_calls_existing calls m :
  getInstance_calls calls (Some m)
  = (map (fun _ => Singleton.Returned m) calls, Some m).
Proof.
  induction calls as [|[u r] rest IH]; simpl; [reflexivity|].
  rewrite IH. reflexivity.
Qed.

Lemma falsy_Some_nonempty s : s <> "" -> Singleton.falsy (Some s) = false.
Proof. intros Hs. unfold Singleton.falsy. apply bool_decide_eq_false. exact Hs. Qed.

(** C10. [getInstance] with no instance yet throws as soon as [userId] or
    [roomId] is missing (undefined or empty) and leaves the field empty; the
    first call with both present builds the instance with these identifiers;
    every later call, whatever its arguments, returns that instance and
    leaves the field, hence the stored identifiers, as they are. *)
Theorem getInstance_singleton (u r : string)
    (later : list (option string * option string)) :
  u <> "" -> r <> "" ->
  (forall u' r', u' = None \/ u' = Some "" \/ r' = None \/ r' = Some "" ->
     Singleton.getInstance u' r' None
     = (Singleton.Thrown "UserId and RoomId required for first initialization", None)) /\
  (exists m,
     Singleton.getInstance (Some u) (Some r) None = (Singleton.Returned m, Some m) /\
     userId m = u /\ roomId m = r /\
     getInstance_calls later (Some m)
     = (map (fun _ => Singleton.Returned m) later, Some m) /\
     Forall (fun o => o = Singleton.Returned m) (getInstance_calls later (Some m)).1).
Proof.
  intros Hu Hr. split.
  - intros u' r' Hmissing. unfold Singleton.getInstance.
    destruct Hmissing as [-> | [-> | [-> | ->]]]; cbn [Singleton.falsy orb];
      rewrite ?orb_true_r; reflexivity.
  - exists (Singleton.new_WebRTCManager u r).
    unfold Singleton.getInstance.
    rewrite (falsy_Some_nonempty u Hu), (falsy_Some_nonempty r Hr). simpl.
    repeat split.
    + apply getInstance_calls_existing.
    + rewrite getInstance_calls_existing. simpl.
      apply Forall_forall. intros o Ho. apply list_elem_of_In, in_map_iff in Ho.
      destruct Ho as [? [<- _]]. reflexivity.
Qed.

Lemma getInstance_singleton_witness :
  "alice" <> "" /\ "room-1" <> "" /\
  Singleton.getInstance None (Some "room-1") None
  = (Singleton.Thrown "UserId and RoomId required for first initialization", None) /\
  Singleton.getInstance (Some "alice") (Some "") None
  = (Singleton.Thrown "UserId and RoomId required for first initialization", None) /\
  exists m,
    Singleton.getInstance (Some "alice") (Some "room-1") None = (Singleton.Returned m, Some m) /\
    userId m = "alice" /\ roomId m = "room-1" /\
    getInstance_calls [(Some "bob", Some "room-2"); (None, None)] (Some m)
    = (map (fun _ => Singleton.Returned m) [(Some "bob", Some "room-2"); (None, None)], Some m) /\
    Forall (fun o => o = Singleton.Returned m)
      (getInstance_calls [(Some "bob", Some "room-2"); (None, None)] (Some m)).1.
Proof.
  split; [discriminate|]. split; [discriminate|].
  destruct (getInstance_singleton "alice" "room-1" [(Some "bob", Some "room-2"); (None, None)])
    as [Hthrows Hbuilds]; [discriminate|discriminate|].
  split; [apply Hthrows; left; reflexivity|].
  split; [apply Hthrows; right; right; right; reflexivity|].
  exact Hbuilds.
Defined.

(** ** Running a method step by step *)

Lemma run_bind {A B} (m : M A) (k : A -> M B) (w : World) r :
  m w = r ->
  bind m k w
  = match r with
    | (Normal a, w') => k a w'
    | (Throw e, w') => (Throw e, w')
    end.
Proof. intros <-. reflexivity. Qed.

Lemma run_try_catch {A} (m : M A) (h : DOMException -> M A) (w : World) r :
  m w = r ->
  try_catch m h w
  = match r with
    | (Normal a, w') => (Normal a, w')
    | (Throw e, w') => h e w'
    end.
Proof. intros <-. reflexivity. Qed.

(** [enter] opens the first action of the method on the left-hand side: the
    first goal asks what that action does in the current world, the second
    goes on from there.  [step tac] answers the first goal with [tac]. *)
Ltac enter :=
  lazymatch goal with
  | |- bind ?m ?k ?w = _ => etransitivity; [apply (run_bind m k w)|]
  | |- try_catch ?m ?h ?w = _ => etransitivity; [apply (run_try_catch m h w)|]
  end.

Ltac next := cbv beta iota.

Ltac step tac := enter; [solve [tac]|next].

(** ** Records are determined by their fields *)

Lemma World_eq (w1 w2 : World) :
  this w1 = this w2 -> conns w1 = conns w2 -> timers w1 = timers w2 ->
  ended w1 = ended w2 -> socketId w1 = socketId w2 -> trace w1 = trace w2 ->
  w1 = w2.
Proof. destruct w1, w2; simpl; intros; subst; reflexivity. Qed.

Lemma WebRTCManager_eq (m1 m2 : WebRTCManager) :
  peers m1 = peers m2 -> localStream m1 = localStream m2 ->
  screenStream m1 = screenStream m2 -> userId m1 = userId m2 ->
  roomId m1 = roomId m2 -> eventListeners m1 = eventListeners m2 ->
  m1 = m2.
Proof. destruct m1, m2; simpl; intros; subst; reflexivity. Qed.

Ltac world_eq :=
  apply World_eq; simpl; try reflexivity;
  try (apply WebRTCManager_eq; simpl; try reflexivity).

Lemma logs_nil w : logs [] w = w.
Proof. world_eq. apply app_nil_r. Qed.

Lemma logs_logs es1 es2 w : logs es2 (logs es1 w) = logs (es1 ++ es2) w.
Proof. world_eq. symmetry. apply app_assoc. Qed.

(** ** Event bus *)

Section EventBus.
Context (host : Host) (event : WebRTCEvent).

Lemma run_subscriptions ops w :
  only_subscribes ops ->
  for_of ops run_op w
  = (Normal tt, relisten (eventListeners (this w) ++ subscribed_by ops) w).
Proof.
  revert w. induction ops as [|op ops IH]; intros w Hops.
  - simpl. unfold ret. f_equal. world_eq. symmetry. apply app_nil_r.
  - apply Forall_cons in Hops as [Hop Hops].
    destruct op as [l|l]; [|contradiction].
    simpl. unfold bind, onEvent, modify. rewrite IH by assumption.
    f_equal. world_eq. symmetry. apply (app_assoc _ [l]).
Qed.

Hypothesis subscribing : forall l, only_subscribes (react host l event).

Lemma forEach_listeners_subscribing (todo done extra : list Listener) (w : World) :
  eventListeners (this w) = done ++ todo ++ extra ->
  forEach_listeners host (length todo) (length done) event w
  = (Normal tt,
     relisten (done ++ todo ++ extra ++ late_subscribers host event todo)
       (logs (map (fun l => Deliver l event) todo) w)).
Proof.
  revert done extra w. induction todo as [|l todo IH]; intros done extra w Hls.
  - simpl. unfold ret. f_equal. world_eq; [|symmetry; apply app_nil_r].
    rewrite Hls. simpl. rewrite app_nil_r. reflexivity.
  - simpl. unfold bind at 1. unfold gets at 1.
    assert (Hk : eventListeners (this w) !! length done = Some l).
    { rewrite Hls. rewrite lookup_app_r by lia. rewrite Nat.sub_diag. reflexivity. }
    rewrite Hk. unfold bind at 1. unfold modify at 1.
    unfold bind at 1. rewrite run_subscriptions by apply subscribing.
    specialize (IH (done ++ [l]) (extra ++ subscribed_by (react host l event))).
    rewrite length_app in IH. simpl in IH. rewrite Nat.add_1_r in IH.
    rewrite IH.
    + f_equal. world_eq.
      * unfold late_subscribers. simpl. rewrite <- !app_assoc. reflexivity.
      * rewrite <- app_assoc. reflexivity.
    + simpl. rewrite Hls. rewrite <- !app_assoc. reflexivity.
Qed.

Lemma emitEvent_subscribing (w : World) :
  emitEvent host event w
  = (Normal tt,
     relisten (eventListeners (this w) ++ late_subscribers host event (eventListeners (this w)))
       (logs (Emit event :: map (fun l => Deliver l event) (eventListeners (this w))) w)).
Proof.
  unfold emitEvent, bind, gets, modify.
  rewrite (forEach_listeners_subscribing (eventListeners (this w)) [] []).
  - f_equal. world_eq. rewrite <- app_assoc. reflexivity.
  - simpl. rewrite app_nil_r. reflexivity.
Qed.

End EventBus.

Lemma delivered_to_deliveries event ls :
  delivered_to (map (fun l => Deliver l event) ls) = ls.
Proof.
  unfold delivered_to. induction ls as [|l ls IH]; [reflexivity|].
  cbn. f_equal. exact IH.
Qed.

(** Whatever the listeners do, an emission touches nothing but the listener
    list and the trace, never throws, and delivers at most as many times as
    there were listeners when it started. *)
Lemma run_ops_frame ops w :
  exists ls, for_of ops run_op w = (Normal tt, relisten ls w).
Proof.
  revert w. induction ops as [|op ops IH]; intros w.
  - exists (eventListeners (this w)). simpl. unfold ret. f_equal. world_eq.
  - simpl. unfold bind.
    assert (exists ls, run_op op w = (Normal tt, relisten ls w)) as [ls Hop].
    { destruct op; simpl; unfold onEvent, offEvent, modify; eexists; f_equal. }
    rewrite Hop. destruct (IH (relisten ls w)) as [ls' Hrest].
    exists ls'. rewrite Hrest. f_equal.
Qed.

Lemma forEach_listeners_frame host event n k w :
  exists ls ds,
    forEach_listeners host n k event w = (Normal tt, relisten ls (logs ds w)) /\
    Forall (fun e => exists l, e = Deliver l event) ds /\
    length ds <= n.
Proof.
  revert k w. induction n as [|n IH]; intros k w.
  - exists (eventListeners (this w)), []. split; [|split; [constructor|simpl; lia]].
    simpl. unfold ret. f_equal. world_eq. symmetry. apply app_nil_r.
  - simpl. unfold bind at 1. unfold gets at 1.
    destruct (eventListeners (this w) !! k) as [l|].
    + unfold bind at 1. unfold modify at 1. unfold bind at 1.
      destruct (run_ops_frame (react host l event) (log (Deliver l event) w)) as [ls Hops].
      rewrite Hops.
      destruct (IH (S k) (relisten ls (log (Deliver l event) w))) as (ls' & ds & Hrun & Hds & Hlen).
      exists ls', (Deliver l event :: ds). rewrite Hrun. split; [|split].
      * f_equal. world_eq. rewrite <- app_assoc. reflexivity.
      * constructor; [eexists; reflexivity|exact Hds].
      * simpl. lia.
    + destruct (IH (S k) w) as (ls' & ds & Hrun & Hds & Hlen).
      exists ls', ds. split; [exact Hrun|split; [exact Hds|lia]].
Qed.

Lemma emitEvent_frame host event w :
  exists ls ds,
    emitEvent host event w = (Normal tt, relisten ls (logs (Emit event :: ds) w)) /\
    Forall (fun e => exists l, e = Deliver l event) ds /\
    length ds <= length (eventListeners (this w)).
Proof.
  unfold emitEvent, bind, gets, modify.
  destruct (forEach_listeners_frame host event (length (eventListeners (this w))) 0
              (log (Emit event) w)) as (ls & ds & Hrun & Hds & Hlen).
  exists ls, ds. rewrite Hrun. split; [|split; assumption].
  f_equal. world_eq. rewrite <- app_assoc. reflexivity.
Qed.

(** C6 (as amended). An emission walks the live listener array by index, up
    to the length the array had when the emission started; it never
    delivers more often than that.  When the listeners only subscribe while
    they are being called, every listener registered at emission time is
    called exactly once, in registration order, and the listeners
    subscribed meanwhile are registered but not called for this event. *)
Theorem emitEvent_registration_order (host : Host) (event : WebRTCEvent) (w : World) :
  (forall l, only_subscribes (react host l event)) ->
  let w' := (emitEvent host event w).2 in
  (emitEvent host event w).1 = Normal tt /\
  trace w' = trace w ++ Emit event :: map (fun l => Deliver l event) (eventListeners (this w)) /\
  delivered_to (drop (length (trace w)) (trace w')) = eventListeners (this w) /\
  eventListeners (this w')
  = eventListeners (this w) ++ late_subscribers host event (eventListeners (this w)).
Proof.
  intros Hsub w'. subst w'. rewrite emitEvent_subscribing by assumption. simpl.
  repeat split.
  rewrite drop_app_length. unfold delivered_to. cbn.
  apply (delivered_to_deliveries event).
Qed.

Lemma emitEvent_registration_order_witness :
  let w := relisten [1; 2; 3] empty_world in
  let w' := (emitEvent joining_host (ev_peerRemoved "bob") w).2 in
  (forall l, only_subscribes (react joining_host l (ev_peerRemoved "bob"))) /\
  delivered_to (drop (length (trace w)) (trace w')) = [1; 2; 3] /\
  eventListeners (this w') = [1; 2; 3; 9].
Proof.
  assert (H : forall l, only_subscribes (react joining_host l (ev_peerRemoved "bob"))).
  { intros l. unfold only_subscribes. simpl. destruct (decide (l = 1)); repeat constructor. }
  split; [exact H|].
  pose proof (emitEvent_registration_order joining_host (ev_peerRemoved "bob")
                (relisten [1; 2; 3] empty_world) H) as (_ & _ & Hd & Hl).
  split; [exact Hd|exact Hl].
Defined.

(** C6, as stated, fails: listener 1 unsubscribes itself while it is called,
    the array shifts left under the running index and listener 2, still
    registered, is never called for the event. *)
Lemma emitEvent_removal_skips_listener :
  let w := relisten [1; 2; 3] empty_world in
  let w' := (emitEvent leaving_host (ev_peerRemoved "bob") w).2 in
  eventListeners (this w) = [1; 2; 3] /\
  delivered_to (trace w') = [1; 3] /\
  eventListeners (this w') = [2; 3].
Proof. vm_compute. repeat split. Qed.

(** ** The connection store *)

Lemma the_conn_insert_eq c pc w :
  c < length (conns w) -> the_conn c (set_conns (<[c := pc]>) w) = pc.
Proof.
  intros Hc. unfold the_conn. simpl. rewrite list_lookup_insert_eq by assumption. reflexivity.
Qed.

Lemma the_conn_insert_ne c c' pc w :
  c <> c' -> the_conn c' (set_conns (<[c := pc]>) w) = the_conn c' w.
Proof.
  intros Hc. unfold the_conn. simpl. rewrite list_lookup_insert_ne by assumption. reflexivity.
Qed.

Lemma the_conn_logs c es w : the_conn c (logs es w) = the_conn c w.
Proof. reflexivity. Qed.

Lemma closed_insert_closed (st : list RTCPeerConnection) c c' pc d :
  signalingState pc = closed ->
  signalingState d = closed ->
  signalingState (default d (st !! c')) = closed ->
  signalingState (default d (<[c := pc]> st !! c')) = closed.
Proof.
  intros Hpc Hd Hc'. destruct (decide (c = c')) as [->|Hne].
  - destruct (decide (c' < length st)).
    + rewrite list_lookup_insert_eq by assumption. exact Hpc.
    + rewrite list_insert_ge by lia. exact Hc'.
  - rewrite list_lookup_insert_ne by assumption. exact Hc'.
Qed.

Lemma closed_insert_self (st : list RTCPeerConnection) c pc d :
  signalingState pc = closed ->
  signalingState d = closed ->
  signalingState (default d (<[c := pc]> st !! c)) = closed.
Proof.
  intros Hpc Hd. destruct (decide (c < length st)).
  - rewrite list_lookup_insert_eq by assumption. exact Hpc.
  - rewrite list_insert_ge by lia. rewrite lookup_ge_None_2 by lia. exact Hd.
Qed.

Lemma close_all_keeps_closed cs st c :
  signalingState (default (Capability.close (new_RTCPeerConnection "")) (st !! c)) = closed ->
  signalingState
    (default (Capability.close (new_RTCPeerConnection "")) (close_all cs st !! c)) = closed.
Proof.
  revert st. induction cs as [|c0 cs IH]; intros st Hc; [exact Hc|].
  simpl. apply IH. apply closed_insert_closed; [reflexivity|reflexivity|exact Hc].
Qed.

Lemma close_all_closes cs st c :
  c ∈ cs ->
  signalingState
    (default (Capability.close (new_RTCPeerConnection "")) (close_all cs st !! c)) = closed.
Proof.
  revert st. induction cs as [|c0 cs IH]; intros st Hin.
  - apply elem_of_nil in Hin. contradiction.
  - apply elem_of_cons in Hin as [->|Hin].
    + simpl. apply close_all_keeps_closed. apply closed_insert_self; reflexivity.
    + simpl. apply IH. exact Hin.
Qed.

Lemma close_all_length cs st : length (close_all cs st) = length st.
Proof.
  revert st. induction cs as [|c cs IH]; intros st; [reflexivity|].
  simpl. rewrite IH. apply length_insert.
Qed.

(** ** [cleanup] *)

Lemma close_peers_spec (ps : PeerMap.t) (w : World) :
  for_of ps (fun entry =>
      try_catch
        (close (connection entry.2) ;;
         match dataChannel entry.2 with
         | Some d => channel_close d
         | None => ret tt
         end)
        (fun _ => ret tt)) w
  = (Normal tt,
     logs (flat_map (fun entry => close_effects entry.2) ps)
       (set_conns (close_all (map (fun entry => connection entry.2) ps)) w)).
Proof.
  revert w. induction ps as [|[k p] ps IH]; intros w.
  - simpl. unfold ret. f_equal. world_eq. symmetry. apply app_nil_r.
  - simpl. unfold bind at 1. unfold try_catch, bind, close, invoke, channel_close, modify, ret.
    unfold close_effects. simpl.
    destruct (dataChannel p) as [d|]; rewrite IH; f_equal; world_eq;
      rewrite <- !app_assoc; reflexivity.
Qed.

Lemma stop_tracks_spec (ts : list MediaStreamTrack) (w : World) :
  for_of ts stop w
  = (Normal tt, logs (map TrackStop ts) (set_ended (fun e => e ++ ts) w)).
Proof.
  revert w. induction ts as [|t ts IH]; intros w.
  - simpl. unfold ret. f_equal. world_eq; symmetry; apply app_nil_r.
  - simpl. unfold bind, stop, modify. rewrite IH. f_equal.
    world_eq; rewrite <- app_assoc; reflexivity.
Qed.

Lemma cleanup_spec (w : World) :
  cleanup w
  = (Normal tt,
     {| this := set_eventListeners (fun _ => []) (set_peers (fun _ => []) (this w));
        conns := close_all (map (fun entry => connection entry.2) (peers (this w))) (conns w);
        timers := timers w;
        ended := ended w ++ tracks_of (localStream (this w)) ++ tracks_of (screenStream (this w));
        socketId := socketId w;
        trace := trace w ++ flat_map (fun entry => close_effects entry.2) (peers (this w))
                 ++ map TrackStop (tracks_of (localStream (this w))
                                   ++ tracks_of (screenStream (this w))) |}).
Proof.
  unfold cleanup. unfold bind at 1. unfold gets at 1.
  unfold bind at 1. rewrite close_peers_spec.
  unfold bind at 1. unfold gets at 1. unfold bind at 1. unfold gets at 1.
  simpl for_of. unfold bind.
  destruct (localStream (this w)) as [l|] eqn:Hl, (screenStream (this w)) as [s|] eqn:Hs;
    simpl; rewrite ?stop_tracks_spec; simpl; rewrite ?stop_tracks_spec; unfold ret, modify; simpl;
    f_equal; world_eq; rewrite ?Hl, ?Hs; simpl;
    rewrite ?app_nil_r, ?map_app, <- ?app_assoc; reflexivity.
Qed.

(** C8 (as amended). [cleanup] never throws; it closes the connection and
    the data channel of every peer session, empties [peers] and the listener
    list, and stops every track of the local and screen streams, while the
    manager keeps its references to these two streams.  It emits no event.
    A second [cleanup] right after the first never throws either, leaves the
    manager and the connection store as they are, and emits no event: all it
    does is stop the same tracks again. *)
Theorem cleanup_releases (w : World) :
  exists w1 w2,
    cleanup w = (Normal tt, w1) /\
    peers (this w1) = [] /\
    eventListeners (this w1) = [] /\
    (forall k p, (k, p) ∈ peers (this w) -> closed_at (connection p) w1) /\
    (forall k p d, (k, p) ∈ peers (this w) -> dataChannel p = Some d ->
       ChannelClose d ∈ drop (length (trace w)) (trace w1)) /\
    (forall t, t ∈ tracks_of (localStream (this w)) ++ tracks_of (screenStream (this w)) ->
       t ∈ ended w1) /\
    localStream (this w1) = localStream (this w) /\
    screenStream (this w1) = screenStream (this w) /\
    cleanup w1 = (Normal tt, w2) /\
    this w2 = this w1 /\
    conns w2 = conns w1 /\
    Forall (fun e => ~ is_event e) (drop (length (trace w)) (trace w2)).
Proof.
  eexists. eexists. split; [apply cleanup_spec|]. simpl.
  split; [reflexivity|]. split; [reflexivity|].
  split.
  { intros k p Hin. unfold closed_at, the_conn. simpl.
    apply close_all_closes. apply list_elem_of_fmap. exists (k, p). split; [reflexivity|exact Hin]. }
  split.
  { intros k p d Hin Hd. rewrite drop_app_length.
    apply elem_of_app. left. apply list_elem_of_In, in_flat_map.
    exists (k, p). split; [apply list_elem_of_In; exact Hin|].
    unfold close_effects. simpl. rewrite Hd. right. left. reflexivity. }
  split.
  { intros t Ht. apply elem_of_app. right. exact Ht. }
  split; [reflexivity|]. split; [reflexivity|].
  split; [apply cleanup_spec|]. simpl.
  split; [reflexivity|]. split; [reflexivity|].
  rewrite <- !app_assoc. rewrite drop_app_length.
  rewrite !Forall_app. repeat split.
  - apply Forall_forall. intros e He. apply list_elem_of_In, in_flat_map in He.
    destruct He as ([k p] & _ & He). unfold close_effects in He. simpl in He.
    destruct He as [<-|He]; [intros []|].
    destruct (dataChannel p); simpl in He; [destruct He as [<-|[]]; intros []|destruct He].
  - apply Forall_forall. intros e He. apply list_elem_of_In, in_map_iff in He.
    destruct He as (t & <- & _). intros [].
  - apply Forall_forall. intros e He. apply list_elem_of_In, in_map_iff in He.
    destruct He as (t & <- & _). intros [].
Qed.

(** C8, as stated, fails on the local media references: after [cleanup] the
    manager still holds the stream it was given. *)
Lemma cleanup_keeps_localStream :
  localStream (this media_world) = Some local_media /\
  localStream (this (cleanup media_world).2) = Some local_media /\
  localStream (this (cleanup media_world).2) <> None.
Proof. vm_compute. repeat split. discriminate. Qed.

(** ** The [peers] map *)

Lemma get_delete_eq k (m : PeerMap.t) : PeerMap.get k (PeerMap.delete k m) = None.
Proof.
  induction m as [|[k' v] m IH]; [reflexivity|].
  simpl. destruct (decide (k' = k)) as [->|Hne]; [exact IH|].
  simpl. rewrite decide_False by assumption. exact IH.
Qed.

Lemma get_delete_ne k k' (m : PeerMap.t) :
  k <> k' -> PeerMap.get k' (PeerMap.delete k m) = PeerMap.get k' m.
Proof.
  intros Hne. induction m as [|[k0 v] m IH]; [reflexivity|].
  simpl. destruct (decide (k0 = k)) as [->|Hk].
  - rewrite decide_False by assumption. exact IH.
  - simpl. destruct (decide (k0 = k')); [reflexivity|exact IH].
Qed.

Lemma get_set_eq k v (m : PeerMap.t) : PeerMap.get k (PeerMap.set k v m) = Some v.
Proof.
  induction m as [|[k' v'] m IH]; simpl.
  - rewrite decide_True by reflexivity. reflexivity.
  - destruct (decide (k' = k)) as [->|Hne]; simpl.
    + rewrite decide_True by reflexivity. reflexivity.
    + rewrite decide_False by assumption. exact IH.
Qed.

Lemma get_set_ne k k' v (m : PeerMap.t) :
  k <> k' -> PeerMap.get k' (PeerMap.set k v m) = PeerMap.get k' m.
Proof.
  intros Hne. induction m as [|[k0 v0] m IH]; simpl.
  - rewrite decide_False by assumption. reflexivity.
  - destruct (decide (k0 = k)) as [->|Hk]; simpl.
    + rewrite !decide_False by assumption. reflexivity.
    + destruct (decide (k0 = k')); [reflexivity|exact IH].
Qed.

Lemma get_None_not_key k (m : PeerMap.t) :
  PeerMap.get k m = None <-> k ∉ PeerMap.keys m.
Proof.
  unfold PeerMap.keys. induction m as [|[k' v] m IH]; simpl.
  - split; [intros _; apply not_elem_of_nil|reflexivity].
  - destruct (decide (k' = k)) as [->|Hne].
    + split; [discriminate|]. intros H. exfalso. apply H. apply elem_of_cons. left. reflexivity.
    + rewrite IH. rewrite not_elem_of_cons. split; [intros H; split; [congruence|exact H]|intros [_ H]; exact H].
Qed.

Lemma get_Some_elem k p (m : PeerMap.t) : PeerMap.get k m = Some p -> (k, p) ∈ m.
Proof.
  induction m as [|[k' v] m IH]; simpl; [discriminate|].
  destruct (decide (k' = k)) as [->|Hne].
  - intros [= ->]. apply elem_of_cons. left. reflexivity.
  - intros H. apply elem_of_cons. right. apply IH. exact H.
Qed.

Lemma keys_delete_subset k k' (m : PeerMap.t) :
  k' ∈ PeerMap.keys (PeerMap.delete k m) -> k' ∈ PeerMap.keys m.
Proof.
  unfold PeerMap.keys. induction m as [|[k0 v] m IH]; simpl; [trivial|].
  destruct (decide (k0 = k)) as [->|Hne]; simpl.
  - intros H. apply elem_of_cons. right. apply IH. exact H.
  - rewrite !elem_of_cons. intros [->|H]; [left; reflexivity|right; apply IH; exact H].
Qed.

Lemma NoDup_keys_delete k (m : PeerMap.t) :
  NoDup (PeerMap.keys m) -> NoDup (PeerMap.keys (PeerMap.delete k m)).
Proof.
  unfold PeerMap.keys. induction m as [|[k0 v] m IH]; simpl; [trivial|].
  intros Hnd. apply NoDup_cons in Hnd as [Hnotin Hnd].
  destruct (decide (k0 = k)) as [->|Hne]; simpl.
  - apply IH. exact Hnd.
  - apply NoDup_cons. split; [|apply IH; exact Hnd].
    intros Hin. apply Hnotin. apply (keys_delete_subset k). exact Hin.
Qed.

Lemma keys_set k v (m : PeerMap.t) :
  PeerMap.keys (PeerMap.set k v m)
  = if PeerMap.has k m then PeerMap.keys m else PeerMap.keys m ++ [k].
Proof.
  unfold PeerMap.keys, PeerMap.has. induction m as [|[k0 v0] m IH]; [reflexivity|].
  cbn [PeerMap.set PeerMap.get].
  destruct (decide (k0 = k)) as [->|Hne]; [reflexivity|].
  rewrite !fmap_cons, IH. destruct (PeerMap.get k m); reflexivity.
Qed.

Lemma NoDup_keys_set k v (m : PeerMap.t) :
  NoDup (PeerMap.keys m) -> NoDup (PeerMap.keys (PeerMap.set k v m)).
Proof.
  intros Hnd. rewrite keys_set. unfold PeerMap.has.
  destruct (PeerMap.get k m) eqn:Hget; [exact Hnd|].
  apply NoDup_app. split; [exact Hnd|]. split; [|apply NoDup_singleton].
  intros x Hx Hx'. apply list_elem_of_singleton in Hx'. subst x.
  apply get_None_not_key in Hget. contradiction.
Qed.

(** ** [removePeer] *)

Lemma removePeer_absent host peerId w :
  PeerMap.get peerId (peers (this w)) = None ->
  removePeer host peerId w = (Normal tt, w).
Proof.
  intros Hget. unfold removePeer, bind, get_peer, gets. rewrite Hget. reflexivity.
Qed.

Lemma removePeer_present host peerId peer w :
  PeerMap.get peerId (peers (this w)) = Some peer ->
  removePeer host peerId w = emitEvent host (ev_peerRemoved peerId) (dropped peerId peer w).
Proof.
  intros Hget. unfold removePeer. unfold bind at 1. unfold get_peer, gets. rewrite Hget.
  unfold bind at 1. unfold try_catch, bind, close, invoke, channel_close, modify, ret. simpl.
  unfold dropped, close_effects.
  destruct (dataChannel peer); simpl; f_equal; world_eq.
  rewrite <- app_assoc. reflexivity.
Qed.

Lemma removePeer_frame host peerId peer w :
  PeerMap.get peerId (peers (this w)) = Some peer ->
  exists ls ds,
    removePeer host peerId w
    = (Normal tt, relisten ls (logs (Emit (ev_peerRemoved peerId) :: ds) (dropped peerId peer w))) /\
    Forall (fun e => exists l, e = Deliver l (ev_peerRemoved peerId)) ds.
Proof.
  intros Hget. rewrite (removePeer_present host peerId peer w Hget).
  destruct (emitEvent_frame host (ev_peerRemoved peerId) (dropped peerId peer w))
    as (ls & ds & Hrun & Hds & _).
  exists ls, ds. split; assumption.
Qed.

Lemma removePeer_forgets host peerId w :
  PeerMap.get peerId (peers (this (removePeer host peerId w).2)) = None /\
  (removePeer host peerId w).1 = Normal tt.
Proof.
  destruct (PeerMap.get peerId (peers (this w))) as [peer|] eqn:Hget.
  - destruct (removePeer_frame host peerId peer w Hget) as (ls & ds & -> & _).
    simpl. split; [apply get_delete_eq|reflexivity].
  - rewrite removePeer_absent by assumption. simpl. split; [exact Hget|reflexivity].
Qed.

(** ** [createPeer] *)

Lemma set_senders_same pc : Capability.set_senders (getSenders pc) pc = pc.
Proof. destruct pc; reflexivity. Qed.

Lemma set_senders_twice ss ss' pc :
  Capability.set_senders ss (Capability.set_senders ss' pc) = Capability.set_senders ss pc.
Proof. reflexivity. Qed.

Lemma the_conn_lookup c w :
  c < length (conns w) -> conns w !! c = Some (the_conn c w).
Proof.
  intros Hc. unfold the_conn.
  destruct (lookup_lt_is_Some_2 (conns w) c Hc) as [pc Hpc]. rewrite Hpc. reflexivity.
Qed.

Lemma find_index_Some {A} (p : A -> bool) xs i :
  find_index p xs = Some i -> exists x, xs !! i = Some x /\ p x = true.
Proof.
  revert i. induction xs as [|x xs IH]; intros i; simpl; [discriminate|].
  destruct (p x) eqn:Hp.
  - intros [= <-]. exists x. split; [reflexivity|exact Hp].
  - destruct (find_index p xs) as [j|]; simpl; [|discriminate].
    intros [= <-]. apply (IH j). reflexivity.
Qed.

Lemma find_index_None {A} (p : A -> bool) xs :
  find_index p xs = None <-> Forall (fun x => p x = false) xs.
Proof.
  induction xs as [|x xs IH]; simpl.
  - split; [constructor|reflexivity].
  - destruct (p x) eqn:Hp.
    + split; [discriminate|]. intros H. apply Forall_cons in H as [H _]. congruence.
    + destruct (find_index p xs) as [j|]; simpl.
      * split; [discriminate|]. intros H. apply Forall_cons in H as [_ H].
        apply IH in H. discriminate.
      * split; [|reflexivity]. intros _. constructor; [exact Hp|]. apply IH. reflexivity.
Qed.

Lemma no_sender_of_kind_no_sender_of_track t ss :
  find_index (sends_kind (kind t)) ss = None ->
  existsb (Capability.sends_track t) ss = false.
Proof.
  intros Hnone. apply find_index_None in Hnone.
  induction ss as [|s ss IH]; [reflexivity|].
  apply Forall_cons in Hnone as [Hs Hss]. simpl. rewrite (IH Hss), orb_false_r.
  unfold Capability.sends_track. apply bool_decide_eq_false. intros Ht.
  unfold sends_kind in Hs. rewrite Ht in Hs. apply bool_decide_eq_false in Hs. congruence.
Qed.

Lemma add_local_tracks c ts w :
  c < length (conns w) ->
  signalingState (the_conn c w) <> closed ->
  for_of ts (fun track =>
      senders <- gets (fun w => getSenders (the_conn c w)) ;;
      match find_index (sends_kind (kind track)) senders with
      | None =>
          try_catch (addTrack c track) (fun _ => console_error "Error adding track:")
      | Some _ => ret tt
      end) w
  = (Normal tt,
     logs (local_track_calls c (getSenders (the_conn c w)) ts)
       (set_conns
          (<[c := Capability.set_senders (local_senders (getSenders (the_conn c w)) ts)
                    (the_conn c w)]>) w)).
Proof.
  revert w. induction ts as [|t ts IH]; intros w Hc Hopen.
  - simpl. unfold ret. f_equal. world_eq; [|symmetry; apply app_nil_r].
    rewrite set_senders_same. symmetry. apply list_insert_id. apply the_conn_lookup. exact Hc.
  - cbn [for_of]. unfold bind at 1. unfold bind at 1. unfold gets at 1.
    cbn [local_track_calls local_senders foldl]. unfold add_if_new_kind at 2.
    destruct (find_index (sends_kind (kind t)) (getSenders (the_conn c w))) as [i|] eqn:Hfind.
    + unfold ret at 1. apply IH; assumption.
    + unfold try_catch, addTrack, invoke, unit_result, Capability.addTrack.
      unfold Capability.is_closed. rewrite bool_decide_eq_false_2 by assumption.
      rewrite no_sender_of_kind_no_sender_of_track by assumption.
      unfold log. rewrite IH.
      * rewrite the_conn_logs, the_conn_insert_eq by assumption. simpl.
        f_equal. world_eq.
        -- rewrite list_insert_insert_eq. reflexivity.
        -- rewrite <- app_assoc. reflexivity.
      * simpl. rewrite length_insert. exact Hc.
      * rewrite the_conn_logs, the_conn_insert_eq by assumption. simpl. exact Hopen.
Qed.

Lemma the_conn_allocated pc w :
  the_conn (length (conns w)) (set_conns (fun cs => cs ++ [pc]) w) = pc.
Proof.
  unfold the_conn. simpl. rewrite lookup_app_r by lia. rewrite Nat.sub_diag. reflexivity.
Qed.

Lemma insert_allocated (st : list RTCPeerConnection) pc pc' :
  <[length st := pc']> (st ++ [pc]) = st ++ [pc'].
Proof.
  rewrite insert_app_r_alt by lia. rewrite Nat.sub_diag. reflexivity.
Qed.

Lemma create_fresh_responder host peerId w :
  create_fresh host peerId false w
  = (Normal (responder_peer peerId (length (conns w))),
     {| this := set_peers (PeerMap.set peerId (responder_peer peerId (length (conns w)))) (this w);
        conns := conns w ++ [responder_conn peerId (localStream (this w))];
        timers := timers w; ended := ended w; socketId := socketId w;
        trace := trace w
                 ++ local_track_calls (length (conns w)) [] (tracks_of (localStream (this w))) |}).
Proof.
  unfold create_fresh. unfold bind at 1. unfold allocate at 1.
  unfold bind at 1. unfold gets at 1. cbn [this set_conns].
  unfold bind at 1.
  assert (Hloop :
    (match localStream (this w) with
     | Some s =>
         for_of (getTracks s) (fun track =>
           senders <- gets (fun w0 => getSenders (the_conn (length (conns w)) w0)) ;;
           match find_index (sends_kind (kind track)) senders with
           | None =>
               try_catch (addTrack (length (conns w)) track)
                 (fun _ => console_error "Error adding track:")
           | Some _ => ret tt
           end)
     | None => ret tt
     end) (set_conns (fun cs => cs ++ [new_RTCPeerConnection peerId]) w)
    = (Normal tt,
       logs (local_track_calls (length (conns w)) [] (tracks_of (localStream (this w))))
         (set_conns (fun cs => cs ++ [responder_conn peerId (localStream (this w))]) w))).
  { destruct (localStream (this w)) as [s|] eqn:Hl.
    - rewrite add_local_tracks.
      + rewrite the_conn_allocated. simpl. f_equal. world_eq.
        unfold responder_conn. simpl. apply insert_allocated.
      + simpl. rewrite length_app. simpl. lia.
      + rewrite the_conn_allocated. discriminate.
    - unfold ret. f_equal. world_eq. symmetry. apply app_nil_r. }
  match goal with
  | |- context [match ?m ?w0 with _ => _ end] =>
      match type of Hloop with ?l = _ => change (m w0) with l end
  end.
  rewrite Hloop. unfold bind, ret, modify. simpl. f_equal.
Qed.

Lemma add_local_tracks_fresh peerId w :
  (match localStream (this w) with
   | Some s =>
       for_of (getTracks s) (fun track =>
         senders <- gets (fun w0 => getSenders (the_conn (length (conns w)) w0)) ;;
         match find_index (sends_kind (kind track)) senders with
         | None =>
             try_catch (addTrack (length (conns w)) track)
               (fun _ => console_error "Error adding track:")
         | Some _ => ret tt
         end)
   | None => ret tt
   end) (set_conns (fun cs => cs ++ [new_RTCPeerConnection peerId]) w)
  = (Normal tt,
     logs (local_track_calls (length (conns w)) [] (tracks_of (localStream (this w))))
       (set_conns (fun cs => cs ++ [responder_conn peerId (localStream (this w))]) w)).
Proof.
  destruct (localStream (this w)) as [s|] eqn:Hl.
  - rewrite add_local_tracks.
    + rewrite the_conn_allocated. simpl. f_equal. world_eq.
      unfold responder_conn. simpl. apply insert_allocated.
    + simpl. rewrite length_app. simpl. lia.
    + rewrite the_conn_allocated. discriminate.
  - unfold ret. f_equal. world_eq. symmetry. apply app_nil_r.
Qed.

Lemma the_conn_log c e w : the_conn c (log e w) = the_conn c w.
Proof. reflexivity. Qed.

Lemma the_conn_set_this c f w : the_conn c (set_this f w) = the_conn c w.
Proof. reflexivity. Qed.

Lemma the_conn_last c pc w :
  c = length (conns w) -> the_conn c (set_conns (fun cs => cs ++ [pc]) w) = pc.
Proof. intros ->. apply the_conn_allocated. Qed.

Lemma invoke_returns {A} c op (f : RTCPeerConnection -> DOMException + (A * RTCPeerConnection))
    w pc a pc' :
  the_conn c w = pc -> f pc = inr (a, pc') ->
  invoke c op f w = (Normal a, log (Call c op true) (set_conns (<[c := pc']>) w)).
Proof. intros Hpc Hf. unfold invoke. rewrite Hpc, Hf. reflexivity. Qed.

Lemma invoke_throws {A} c op (f : RTCPeerConnection -> DOMException + (A * RTCPeerConnection))
    w pc e :
  the_conn c w = pc -> f pc = inl e ->
  invoke c op f w = (Throw e, log (Call c op false) w).
Proof. intros Hpc Hf. unfold invoke. rewrite Hpc, Hf. reflexivity. Qed.

(** What a primitive action of the monad does. *)
Ltac primitive :=
  cbv beta delta [allocate gets modify ret getSocketId throw console_error get_peer
                  has_peer update_peer channel_close stop onEvent offEvent];
  reflexivity.

(** Reading a connection through the updates a method has made so far. *)
Ltac read_conn :=
  repeat first
    [ rewrite the_conn_log
    | rewrite the_conn_logs
    | rewrite the_conn_set_this
    | rewrite the_conn_insert_eq
        by (simpl; rewrite ?length_insert, ?length_app; simpl; lia)
    | rewrite the_conn_last by reflexivity
    | rewrite the_conn_allocated ];
  try reflexivity.

Lemma create_fresh_initiator host peerId w :
  create_fresh host peerId true w
  = (Normal (initiator_peer peerId (length (conns w))),
     {| this := set_peers (PeerMap.set peerId (initiator_peer peerId (length (conns w)))) (this w);
        conns := conns w ++ [initiator_conn host peerId (localStream (this w))];
        timers := timers w; ended := ended w; socketId := socketId w;
        trace := trace w
                 ++ local_track_calls (length (conns w)) [] (tracks_of (localStream (this w)))
                 ++ offer_round host peerId (length (conns w)) (localStream (this w))
                      (socketId w) |}).
Proof.
  unfold create_fresh.
  step primitive.
  step primitive.
  step ltac:(apply (add_local_tracks_fresh peerId w)).
  enter.
  { enter.
    { enter.
      { apply (invoke_returns _ _ _ _ (responder_conn peerId (localStream (this w))));
          [read_conn|reflexivity]. }
      next. primitive. }
    next. reflexivity. }
  next. step primitive.
  enter.
  { enter.
    { enter.
      { apply (invoke_returns _ _ _ _ (responder_conn peerId (localStream (this w))));
          [read_conn|reflexivity]. }
      next. enter.
      { apply (invoke_returns _ _ _ _ (responder_conn peerId (localStream (this w))));
          [read_conn|reflexivity]. }
      next. step primitive. reflexivity. }
    next. reflexivity. }
  next.
  cbn [socketId logs log set_conns set_this].
  unfold offer_round, initiator_conn, created_offer, ret, modify.
  destruct (truthy (socketId w)) as [sid|] eqn:Hsid; cbn; f_equal; world_eq;
    rewrite ?insert_allocated, <- ?app_assoc, ?Hsid; reflexivity.
Qed.

Lemma createPeer_absent host peerId isInitiator w :
  PeerMap.get peerId (peers (this w)) = None ->
  createPeer host peerId isInitiator w = create_fresh host peerId isInitiator w.
Proof.
  intros Hget. unfold createPeer. step primitive. rewrite Hget. reflexivity.
Qed.

Lemma createPeer_healthy host peerId isInitiator existing w :
  PeerMap.get peerId (peers (this w)) = Some existing ->
  healthy (the_conn (connection existing) w) ->
  createPeer host peerId isInitiator w = (Normal existing, w).
Proof.
  intros Hget [Hs Hc]. unfold createPeer. step primitive. rewrite Hget. next.
  step primitive. step primitive.
  rewrite Hs, Hc. reflexivity.
Qed.

Lemma createPeer_stale host peerId isInitiator existing w :
  PeerMap.get peerId (peers (this w)) = Some existing ->
  stale (the_conn (connection existing) w) ->
  createPeer host peerId isInitiator w
  = (removePeer host peerId ;; create_fresh host peerId isInitiator) w.
Proof.
  intros Hget Hstale. unfold createPeer. step primitive. rewrite Hget. next.
  step primitive. step primitive.
  destruct Hstale as [Hs|[Hc|Hc]].
  - rewrite Hs. reflexivity.
  - rewrite Hc. simpl. rewrite andb_false_r, orb_true_r. reflexivity.
  - rewrite Hc. simpl. rewrite andb_false_r, orb_true_r. reflexivity.
Qed.

Lemma createPeer_not_ready host peerId isInitiator existing w :
  PeerMap.get peerId (peers (this w)) = Some existing ->
  ~ healthy (the_conn (connection existing) w) ->
  ~ stale (the_conn (connection existing) w) ->
  createPeer host peerId isInitiator w = (Normal existing, w).
Proof.
  intros Hget Hh Hst. unfold createPeer. step primitive. rewrite Hget. next.
  step primitive. step primitive.
  unfold healthy, stale in *.
  destruct (bool_decide (signalingState (the_conn (connection existing) w) = stable)
            && bool_decide (connectionState (the_conn (connection existing) w) = cs_connected))
    eqn:Hb1; [reflexivity|].
  destruct (bool_decide (signalingState (the_conn (connection existing) w) = closed)
            || bool_decide (connectionState (the_conn (connection existing) w) = cs_failed)
            || bool_decide (connectionState (the_conn (connection existing) w) = cs_disconnected))
    eqn:Hb2; [|reflexivity].
  exfalso. apply Hst.
  apply orb_true_iff in Hb2 as [Hb2|Hb2]; [apply orb_true_iff in Hb2 as [Hb2|Hb2]|];
    apply bool_decide_eq_true in Hb2; tauto.
Qed.

Lemma create_fresh_spec host peerId isInitiator w :
  exists tr pc,
    create_fresh host peerId isInitiator w
    = (Normal (fresh_peer isInitiator peerId (length (conns w))),
       {| this := set_peers (PeerMap.set peerId
                               (fresh_peer isInitiator peerId (length (conns w)))) (this w);
          conns := conns w ++ [pc];
          timers := timers w; ended := ended w; socketId := socketId w;
          trace := trace w ++ tr |}) /\
    signalingState pc = (if isInitiator then have_local_offer else stable) /\
    handler_peerId pc = peerId /\
    remoteDescription pc = None /\
    Forall (fun e => ~ is_event e) tr.
Proof.
  destruct isInitiator.
  - eexists. eexists. split; [apply create_fresh_initiator|].
    split; [reflexivity|]. split; [reflexivity|]. split; [reflexivity|].
    rewrite Forall_app. split.
    + generalize (@nil RTCRtpSender).
      induction (tracks_of (localStream (this w))) as [|t ts IH]; intros ss; simpl; [constructor|].
      destruct (find_index (sends_kind (kind t)) ss); [apply IH|].
      constructor; [intros []|apply IH].
    + unfold offer_round. destruct (truthy (socketId w)); repeat constructor; intros [].
  - eexists. eexists. split; [apply create_fresh_responder|].
    split; [reflexivity|]. split; [reflexivity|]. split; [reflexivity|].
    generalize (@nil RTCRtpSender).
    induction (tracks_of (localStream (this w))) as [|t ts IH]; intros ss; simpl; [constructor|].
    destruct (find_index (sends_kind (kind t)) ss); [apply IH|].
    constructor; [intros []|apply IH].
Qed.

Lemma createPeer_unique_keys host peerId isInitiator w :
  NoDup (PeerMap.keys (peers (this w))) ->
  NoDup (PeerMap.keys (peers (this (createPeer host peerId isInitiator w).2))).
Proof.
  intros Hnd. destruct (PeerMap.get peerId (peers (this w))) as [existing|] eqn:Hget.
  - destruct (decide (healthy (the_conn (connection existing) w))) as [Hh|Hh].
    { rewrite (createPeer_healthy host peerId isInitiator existing w Hget Hh). exact Hnd. }
    destruct (decide (stale (the_conn (connection existing) w))) as [Hst|Hst].
    + rewrite (createPeer_stale host peerId isInitiator existing w Hget Hst).
      destruct (removePeer_frame host peerId existing w Hget) as (ls & ds & Hrm & _).
      rewrite (run_bind _ _ _ _ Hrm). next.
      destruct (create_fresh_spec host peerId isInitiator
                  (relisten ls (logs (Emit (ev_peerRemoved peerId) :: ds)
                                  (dropped peerId existing w))))
        as (tr & pc & -> & _).
      simpl. apply NoDup_keys_set, NoDup_keys_delete. exact Hnd.
    + rewrite (createPeer_not_ready host peerId isInitiator existing w Hget Hh Hst). exact Hnd.
  - rewrite createPeer_absent by assumption.
    destruct (create_fresh_spec host peerId isInitiator w) as (tr & pc & -> & _).
    simpl. apply NoDup_keys_set. exact Hnd.
Qed.


(** ** The candidate buffer *)

Lemma candidate_lands_set_remoteCandidates host pc l c :
  candidate_lands host (Capability.set_remoteCandidates l pc) c = candidate_lands host pc c.
Proof.
  unfold candidate_lands, Capability.addIceCandidate.
  destruct c as [ci|]; [|reflexivity].
  destruct (sdpMid ci), (sdpMLineIndex ci); try reflexivity;
    unfold Capability.is_closed, remoteDescription; simpl;
    destruct (bool_decide (signalingState pc = closed)); try reflexivity;
    destruct (pendingRemoteDescription pc), (currentRemoteDescription pc); try reflexivity;
    destruct (accepts_candidate host ci); reflexivity.
Qed.

Lemma landed_set_remoteCandidates host pc l cs :
  landed host (Capability.set_remoteCandidates l pc) cs = landed host pc cs.
Proof.
  induction cs as [|[ci|] cs IH]; simpl; [reflexivity| |exact IH].
  rewrite candidate_lands_set_remoteCandidates, IH. reflexivity.
Qed.

Lemma addIceCandidate_lands host pc ci :
  candidate_lands host pc (Some ci) = true ->
  Capability.addIceCandidate host (Some ci) pc
  = inr (Capability.set_remoteCandidates (remoteCandidates pc ++ [ci]) pc).
Proof.
  unfold candidate_lands, Capability.addIceCandidate.
  destruct (sdpMid ci), (sdpMLineIndex ci); try discriminate;
    destruct (Capability.is_closed pc); try discriminate;
    destruct (remoteDescription pc); try discriminate;
    destruct (accepts_candidate host ci); try discriminate; reflexivity.
Qed.

Lemma addIceCandidate_bounces host pc c :
  candidate_lands host pc c = false ->
  exists e, Capability.addIceCandidate host c pc = inl e.
Proof.
  unfold candidate_lands. destruct (Capability.addIceCandidate host c pc) as [e|];
    [eexists; reflexivity|discriminate].
Qed.

Lemma set_remoteCandidates_same pc :
  Capability.set_remoteCandidates (remoteCandidates pc) pc = pc.
Proof. destruct pc; reflexivity. Qed.

Lemma flush_loop host c cs w :
  c < length (conns w) ->
  for_of cs (fun x =>
      match x with
      | Some ci =>
          try_catch (addIceCandidate host c (Some ci))
            (fun _ => console_error "Error adding pending ICE candidate:")
      | None => ret tt
      end) w
  = (Normal tt,
     logs (flush_effects host c (the_conn c w) cs)
       (set_conns (<[c := flushed host (the_conn c w) cs]>) w)).
Proof.
  revert w. induction cs as [|x cs IH]; intros w Hc.
  - simpl. unfold ret, flushed. simpl. f_equal. world_eq; [|symmetry; apply app_nil_r].
    rewrite app_nil_r, set_remoteCandidates_same. symmetry.
    apply list_insert_id, the_conn_lookup, Hc.
  - cbn [for_of]. destruct x as [ci|].
    + destruct (candidate_lands host (the_conn c w) (Some ci)) eqn:Hland.
      * enter.
        { enter.
          { apply (invoke_returns _ _ _ _ (the_conn c w)); [reflexivity|].
            rewrite (addIceCandidate_lands host _ ci Hland). reflexivity. }
          next. reflexivity. }
        next. rewrite IH by (simpl; rewrite length_insert; exact Hc).
        read_conn. f_equal. unfold flush_effects, flushed. simpl.
        rewrite Hland. rewrite !landed_set_remoteCandidates.
        world_eq.
        -- rewrite list_insert_insert_eq. rewrite <- app_assoc. reflexivity.
        -- rewrite <- app_assoc. simpl. f_equal. f_equal.
           apply flat_map_ext. intros [ci'|]; [|reflexivity].
           rewrite candidate_lands_set_remoteCandidates. reflexivity.
      * destruct (addIceCandidate_bounces host _ _ Hland) as [e He].
        enter.
        { enter.
          { apply (invoke_throws _ _ _ _ (the_conn c w) e); [reflexivity|].
            rewrite He. reflexivity. }
          next. primitive. }
        next. rewrite IH by exact Hc.
        read_conn. f_equal. unfold flush_effects, flushed. simpl.
        rewrite Hland. world_eq. rewrite <- !app_assoc. reflexivity.
    + step primitive. rewrite IH by exact Hc. f_equal.
Qed.

Lemma flushPendingIce_absent host from w :
  PeerMap.get from (peers (this w)) = None ->
  flushPendingIce host from w = (Normal tt, w).
Proof. intros Hget. unfold flushPendingIce. step primitive. rewrite Hget. reflexivity. Qed.

Lemma flushPendingIce_spec host from peer w :
  PeerMap.get from (peers (this w)) = Some peer ->
  connection peer < length (conns w) ->
  flushPendingIce host from w
  = (Normal tt,
     {| this := emptied from peer (this w);
        conns := <[connection peer :=
                     flushed host (the_conn (connection peer) w) (buffer_of peer)]> (conns w);
        timers := timers w; ended := ended w; socketId := socketId w;
        trace := trace w
                 ++ flush_effects host (connection peer) (the_conn (connection peer) w)
                      (buffer_of peer) |}).
Proof.
  intros Hget Hc. unfold flushPendingIce. step primitive. rewrite Hget. next.
  assert (Hidle : (Normal tt, w)
    = (Normal tt,
       {| this := this w;
          conns := <[connection peer := flushed host (the_conn (connection peer) w) []]> (conns w);
          timers := timers w; ended := ended w; socketId := socketId w;
          trace := trace w ++ flush_effects host (connection peer)
                                (the_conn (connection peer) w) [] |})).
  { f_equal. world_eq; [|symmetry; apply app_nil_r].
    unfold flushed. simpl. rewrite app_nil_r, set_remoteCandidates_same.
    symmetry. apply list_insert_id, the_conn_lookup, Hc. }
  unfold emptied, buffer_of.
  destruct (pendingCandidates peer) as [[|x cs]|] eqn:Hbuf; simpl default;
    [exact Hidle| |exact Hidle].
  step ltac:(apply flush_loop; exact Hc).
  unfold update_peer, modify. f_equal. world_eq. rewrite Hget. reflexivity.
Qed.

Lemma accept_offer host offer from peer w pc1 :
  PeerMap.get from (peers (this w)) = Some peer ->
  connection peer < length (conns w) ->
  Capability.setRemoteDescription host offer (the_conn (connection peer) w) = inr pc1 ->
  signalingState pc1 = have_remote_offer ->
  (setRemoteDescription host (connection peer) offer ;;
   flushPendingIce host from ;;
   answer <- createAnswer host (connection peer) ;;
   setLocalDescription (connection peer) answer ;;
   socketId <- getSocketId ;;
   match truthy socketId with
   | Some sid => modify (log (SendAnswer from answer sid))
   | None => console_error "Socket ID not found"
   end) w
  = (Normal tt,
     {| this := emptied from peer (this w);
        conns := <[connection peer := answered host pc1 (buffer_of peer)]> (conns w);
        timers := timers w; ended := ended w; socketId := socketId w;
        trace := trace w
                 ++ answer_round host from (connection peer) offer pc1 (buffer_of peer)
                      (socketId w) |}).
Proof.
  intros Hget Hc Hset Hstate.
  enter.
  { apply (invoke_returns _ _ _ _ (the_conn (connection peer) w)); [reflexivity|].
    rewrite Hset. reflexivity. }
  next.
  enter.
  { apply (flushPendingIce_spec host from peer); [exact Hget|].
    simpl. rewrite length_insert. exact Hc. }
  next. read_conn.
  enter.
  { apply (invoke_returns _ _ _ _ (flushed host pc1 (buffer_of peer)));
      [unfold the_conn; cbn [conns]; rewrite list_lookup_insert_eq; [reflexivity|]|].
    - simpl. rewrite length_insert. exact Hc.
    - unfold Capability.createAnswer. cbn [signalingState flushed Capability.set_remoteCandidates].
      rewrite Hstate. reflexivity. }
  next.
  enter.
  { apply (invoke_returns _ _ _ _ (flushed host pc1 (buffer_of peer)));
      [unfold the_conn; cbn [conns log logs set_conns];
       rewrite list_lookup_insert_eq; [reflexivity|]|].
    - rewrite !length_insert. exact Hc.
    - unfold Capability.setLocalDescription.
      cbn [sdp_type signalingState flushed Capability.set_remoteCandidates unit_result].
      rewrite Hstate. reflexivity. }
  next.
  step primitive.
  cbn [socketId log logs set_conns].
  unfold answer_round, answered, created_answer.
  destruct (truthy (socketId w)) as [sid|] eqn:Hsid; unfold modify, console_error, modify;
    cbn; f_equal; world_eq;
    rewrite ?list_insert_insert_eq, <- ?app_assoc, ?Hsid; reflexivity.
Qed.

(** ** Inbound offers *)

(** [if (socketId)] lets a socket id through when it is not empty. *)
Lemma truthy_Some sid : sid <> "" -> truthy (Some sid) = Some sid.
Proof. intros Hsid. unfold truthy. rewrite bool_decide_eq_false_2 by exact Hsid. reflexivity. Qed.

Lemma truthy_falsy socket : socket = None \/ socket = Some "" -> truthy socket = None.
Proof. intros [->| ->]; reflexivity. Qed.

Lemma truthy_inv socket sid : truthy socket = Some sid -> socket = Some sid /\ sid <> "".
Proof.
  destruct socket as [s|]; simpl; [|discriminate].
  destruct (bool_decide_reflect (s = "")) as [|Hs]; [discriminate|].
  intros [= <-]. split; [reflexivity|exact Hs].
Qed.

Lemma truthy_None_inv socket : truthy socket = None -> socket = None \/ socket = Some "".
Proof.
  destruct socket as [s|]; simpl; [|left; reflexivity].
  destruct (bool_decide_reflect (s = "")) as [->|Hs]; [right; reflexivity|discriminate].
Qed.

(** The signaling messages in a trace. *)
Lemma sent_app tr1 tr2 : sent (tr1 ++ tr2) = sent tr1 ++ sent tr2.
Proof. apply omap_app. Qed.

Lemma sent_none tr : Forall (fun e => sender e = None) tr -> sent tr = [].
Proof.
  induction 1 as [|e tr He _ IH]; [reflexivity|].
  unfold sent in *. simpl. rewrite He. exact IH.
Qed.

Lemma local_track_calls_no_sender c ss ts :
  Forall (fun e => sender e = None) (local_track_calls c ss ts).
Proof.
  revert ss. induction ts as [|t ts IH]; intros ss; simpl; [constructor|].
  destruct (find_index (sends_kind (kind t)) ss); [apply IH|].
  constructor; [reflexivity|apply IH].
Qed.

Lemma close_effects_no_sender p : Forall (fun e => sender e = None) (close_effects p).
Proof. unfold close_effects. destruct (dataChannel p); repeat constructor. Qed.

Lemma flush_effects_no_sender host c pc cs :
  Forall (fun e => sender e = None) (flush_effects host c pc cs).
Proof.
  apply Forall_forall. intros e He.
  apply list_elem_of_In, in_flat_map in He. destruct He as ([ci|] & _ & He); [|destruct He].
  destruct (candidate_lands host pc (Some ci)); simpl in He;
    repeat (destruct He as [<-|He]; [reflexivity|]); destruct He.
Qed.

(** Of a round of answering, the answer is the only signaling message, and
    it goes out only under a socket id that is not empty. *)
Lemma sent_answer_round host from c offer pc1 buffer socket :
  sent (answer_round host from c offer pc1 buffer socket)
  = match truthy socket with
    | Some sid => [SendAnswer from (created_answer host (flushed host pc1 buffer)) sid]
    | None => []
    end.
Proof.
  unfold answer_round.
  change (Call c (setRemoteDescription_ offer) true :: ?l)
    with ([Call c (setRemoteDescription_ offer) true] ++ l).
  rewrite !sent_app, (sent_none _ (flush_effects_no_sender _ _ _ _)).
  destruct (truthy socket); reflexivity.
Qed.

Lemma sent_offer_round host peerId c local socket :
  sent (offer_round host peerId c local socket)
  = match truthy socket with
    | Some sid => [SendOffer peerId (created_offer host peerId local) sid]
    | None => []
    end.
Proof. unfold offer_round. rewrite sent_app. destruct (truthy socket); reflexivity. Qed.

Lemma last_of_answer_round host from c offer pc1 buffer socket :
  match truthy socket with
  | Some sid => SendAnswer from (created_answer host (flushed host pc1 buffer)) sid
  | None => ConsoleError "Socket ID not found"
  end ∈ answer_round host from c offer pc1 buffer socket.
Proof.
  unfold answer_round. apply elem_of_cons. right. apply elem_of_app. right.
  apply elem_of_cons. right. apply elem_of_cons. right. apply elem_of_cons. left. reflexivity.
Qed.

Lemma has_peer_get from w :
  PeerMap.has from (peers (this w))
  = match PeerMap.get from (peers (this w)) with Some _ => true | None => false end.
Proof. reflexivity. Qed.

Lemma setRemoteDescription_fresh host offer peerId local :
  Capability.setRemoteDescription host offer (responder_conn peerId local)
  = match sdp_type offer with
    | ty_offer =>
        if accepts_description host offer
        then inr (offered_conn offer peerId local)
        else inl OperationError
    | _ => inl InvalidStateError
    end.
Proof.
  unfold Capability.setRemoteDescription. simpl. destruct (sdp_type offer); reflexivity.
Qed.

Lemma createPeer_responder_absent host from w :
  PeerMap.get from (peers (this w)) = None ->
  createPeer host from false w
  = (Normal (responder_peer from (length (conns w))), with_responder from w).
Proof.
  intros Hget. rewrite createPeer_absent by exact Hget. apply create_fresh_responder.
Qed.

Lemma with_responder_get from w :
  PeerMap.get from (peers (this (with_responder from w)))
  = Some (responder_peer from (length (conns w))).
Proof. simpl. apply get_set_eq. Qed.

Lemma with_responder_conn from w :
  the_conn (length (conns w)) (with_responder from w)
  = responder_conn from (localStream (this w)).
Proof.
  unfold the_conn. simpl. rewrite lookup_app_r by lia. rewrite Nat.sub_diag. reflexivity.
Qed.

Lemma onWebRTCOffer_absent_accepted host offer from w :
  PeerMap.get from (peers (this w)) = None ->
  sdp_type offer = ty_offer ->
  accepts_description host offer = true ->
  onWebRTCOffer host offer from w
  = (Normal tt,
     {| this := set_peers (PeerMap.set from (responder_peer from (length (conns w)))) (this w);
        conns := conns w
                 ++ [answered host (offered_conn offer from (localStream (this w))) []];
        timers := timers w; ended := ended w; socketId := socketId w;
        trace := trace w
                 ++ local_track_calls (length (conns w)) [] (tracks_of (localStream (this w)))
                 ++ answer_round host from (length (conns w)) offer
                      (offered_conn offer from (localStream (this w))) [] (socketId w) |}).
Proof.
  intros Hget Hty Hacc. unfold onWebRTCOffer.
  enter.
  { step primitive. rewrite has_peer_get, Hget. cbn [negb when].
    enter.
    { step ltac:(apply createPeer_responder_absent; exact Hget). primitive. }
    next. step primitive. rewrite with_responder_get. next.
    step primitive. cbn [connection responder_peer]. rewrite with_responder_conn.
    cbn [signalingState responder_conn Capability.set_senders new_RTCPeerConnection].
    rewrite bool_decide_eq_false_2 by (intros H; apply H; reflexivity). cbn [andb].
    step primitive.
    apply (accept_offer host offer from (responder_peer from (length (conns w)))
             (with_responder from w) (offered_conn offer from (localStream (this w)))).
    - apply with_responder_get.
    - simpl. rewrite length_app. simpl. lia.
    - cbn [connection responder_peer]. rewrite with_responder_conn.
      rewrite setRemoteDescription_fresh, Hty, Hacc. reflexivity.
    - reflexivity. }
  next. f_equal. world_eq.
  - cbn [connection responder_peer]. apply insert_allocated.
  - rewrite <- app_assoc. reflexivity.
Qed.

Lemma onWebRTCOffer_absent_rejected host offer from w e :
  PeerMap.get from (peers (this w)) = None ->
  Capability.setRemoteDescription host offer (responder_conn from (localStream (this w)))
  = inl e ->
  onWebRTCOffer host offer from w
  = removePeer host from
      (logs [Call (length (conns w)) (setRemoteDescription_ offer) false;
             ConsoleError "Error handling offer:"] (with_responder from w)).
Proof.
  intros Hget Hrej. unfold onWebRTCOffer.
  enter.
  { step primitive. rewrite has_peer_get, Hget. cbn [negb when].
    enter.
    { step ltac:(apply createPeer_responder_absent; exact Hget). primitive. }
    next. step primitive. rewrite with_responder_get. next.
    step primitive. cbn [connection responder_peer]. rewrite with_responder_conn.
    cbn [signalingState responder_conn Capability.set_senders new_RTCPeerConnection].
    rewrite bool_decide_eq_false_2 by (intros H; apply H; reflexivity). cbn [andb].
    step primitive.
    enter.
    { apply (invoke_throws _ _ _ _ (responder_conn from (localStream (this w))) e).
      - apply with_responder_conn.
      - rewrite Hrej. reflexivity. }
    next. reflexivity. }
  next. step primitive. step primitive.
  rewrite has_peer_get.
  match goal with
  | |- context [PeerMap.get from ?m] =>
      replace (PeerMap.get from m) with (Some (responder_peer from (length (conns w))))
        by (symmetry; apply with_responder_get)
  end.
  cbn [when]. f_equal. world_eq. rewrite <- app_assoc. reflexivity.
Qed.

Lemma onWebRTCAnswer_absent host answer from w :
  PeerMap.get from (peers (this w)) = None ->
  onWebRTCAnswer host answer from w = (Normal tt, w).
Proof. intros Hget. unfold onWebRTCAnswer. step primitive. rewrite Hget. reflexivity. Qed.

Lemma onWebRTCIceCandidate_absent host candidate from w :
  PeerMap.get from (peers (this w)) = None ->
  onWebRTCIceCandidate host candidate from w = (Normal tt, w).
Proof. intros Hget. unfold onWebRTCIceCandidate. step primitive. rewrite Hget. reflexivity. Qed.

Lemma onWebRTCOffer_absent host offer from w :
  PeerMap.get from (peers (this w)) = None ->
  exists w2,
    onWebRTCOffer host offer from w = (Normal tt, w2) /\
    length (conns w2) = S (length (conns w)) /\
    handler_peerId (the_conn (length (conns w)) w2) = from /\
    (sdp_type offer = ty_offer -> accepts_description host offer = true ->
       PeerMap.get from (peers (this w2)) = Some (responder_peer from (length (conns w))) /\
       signalingState (the_conn (length (conns w)) w2) = stable /\
       (forall sid, socketId w = Some sid -> sid <> "" ->
          exists answer,
            sent (drop (length (trace w)) (trace w2)) = [SendAnswer from answer sid]) /\
       (socketId w = None \/ socketId w = Some "" ->
          sent (drop (length (trace w)) (trace w2)) = [] /\
          ConsoleError "Socket ID not found" ∈ drop (length (trace w)) (trace w2))) /\
    (~ (sdp_type offer = ty_offer /\ accepts_description host offer = true) ->
       PeerMap.get from (peers (this w2)) = None /\
       closed_at (length (conns w)) w2 /\
       Emit (ev_peerRemoved from) ∈ drop (length (trace w)) (trace w2)).
Proof.
  intros Hget.
  destruct (Capability.setRemoteDescription host offer
              (responder_conn from (localStream (this w)))) as [e|pc1] eqn:Hset.
  - (* the capability refuses the offer *)
    rewrite (onWebRTCOffer_absent_rejected host offer from w e Hget Hset).
    set (w1 := logs _ (with_responder from w)).
    assert (Hget1 : PeerMap.get from (peers (this w1))
                    = Some (responder_peer from (length (conns w))))
      by apply with_responder_get.
    destruct (removePeer_frame host from _ w1 Hget1) as (ls & ds & -> & _).
    set (w2 := relisten ls _).
    assert (Hconns : conns w2
              = <[length (conns w) :=
                    Capability.close (responder_conn from (localStream (this w)))]>
                  (conns w ++ [responder_conn from (localStream (this w))])).
    { subst w2 w1. unfold dropped. cbn [connection responder_peer].
      rewrite the_conn_logs, with_responder_conn. reflexivity. }
    assert (Htrace : trace w2
              = trace w
                ++ local_track_calls (length (conns w)) [] (tracks_of (localStream (this w)))
                ++ [Call (length (conns w)) (setRemoteDescription_ offer) false;
                    ConsoleError "Error handling offer:";
                    Call (length (conns w)) close_ true;
                    Emit (ev_peerRemoved from)] ++ ds).
    { subst w2 w1. simpl. rewrite <- !app_assoc. reflexivity. }
    assert (Hpeers : peers (this w2)
              = PeerMap.delete from
                  (PeerMap.set from (responder_peer from (length (conns w))) (peers (this w))))
      by reflexivity.
    assert (Hlast : the_conn (length (conns w)) w2
              = Capability.close (responder_conn from (localStream (this w)))).
    { unfold the_conn. rewrite Hconns.
      rewrite list_lookup_insert_eq by (rewrite length_app; simpl; lia). reflexivity. }
    exists w2. split; [reflexivity|].
    split; [rewrite Hconns, length_insert, length_app; simpl; lia|].
    split; [rewrite Hlast; reflexivity|].
    split.
    { intros Hty Hacc. rewrite setRemoteDescription_fresh, Hty, Hacc in Hset. discriminate. }
    intros _. split; [rewrite Hpeers; apply get_delete_eq|].
    split; [unfold closed_at; rewrite Hlast; reflexivity|].
    rewrite Htrace, drop_app_length.
    apply elem_of_app. right. apply elem_of_app. left.
    apply list_elem_of_In. simpl. tauto.
  - (* the capability takes the offer *)
    rewrite setRemoteDescription_fresh in Hset.
    destruct (sdp_type offer) eqn:Hty; try discriminate.
    destruct (accepts_description host offer) eqn:Hacc; [|discriminate].
    rewrite (onWebRTCOffer_absent_accepted host offer from w Hget Hty Hacc).
    eexists. split; [reflexivity|]. cbn [conns this trace socketId].
    split; [rewrite length_app; simpl; lia|].
    assert (Hconn : forall m ti en so tr pc,
              the_conn (length (conns w)) (mkWorld m (conns w ++ [pc]) ti en so tr) = pc).
    { intros. unfold the_conn. simpl. rewrite lookup_app_r by lia.
      rewrite Nat.sub_diag. reflexivity. }
    rewrite Hconn.
    split; [reflexivity|]. split.
    + intros _ _. split; [simpl; apply get_set_eq|]. split; [reflexivity|].
      rewrite drop_app_length, sent_app, (sent_none _ (local_track_calls_no_sender _ _ _)),
        sent_answer_round.
      split.
      * intros sid Hsid Hne. rewrite Hsid, (truthy_Some sid Hne). eexists. reflexivity.
      * intros Hfalsy. rewrite (truthy_falsy _ Hfalsy). split; [reflexivity|].
        apply elem_of_app. right.
        pose proof (last_of_answer_round host from (length (conns w)) offer
                      (offered_conn offer from (localStream (this w))) [] (socketId w)) as Hlast.
        rewrite (truthy_falsy _ Hfalsy) in Hlast. exact Hlast.
    + intros Hno. exfalso. apply Hno. split; reflexivity.
Qed.

(** C5 (as amended). [removePeer] leaves no session under the key.  From
    then on, as long as nothing creates one, an inbound answer or candidate
    from that peer changes nothing at all: no exception, no event, no send,
    no capability call.  An inbound offer is different: the handler never
    throws, but it creates a responder session on a new connection; when
    the capability takes the offer the session stays, stable, and the answer
    is the one signaling message sent, under a socket id that is not empty;
    with no socket id or an empty one nothing is sent and "Socket ID not
    found" is logged; when the capability refuses the offer the new session
    is closed and dropped again with a [peerRemoved] event. *)
Theorem inbound_after_removePeer (host : Host) (w : World) (peerId : string) :
  let w1 := (removePeer host peerId w).2 in
  (removePeer host peerId w).1 = Normal tt /\
  PeerMap.get peerId (peers (this w1)) = None /\
  (forall answer, onWebRTCAnswer host answer peerId w1 = (Normal tt, w1)) /\
  (forall candidate, onWebRTCIceCandidate host candidate peerId w1 = (Normal tt, w1)) /\
  (forall offer,
     exists w2,
       onWebRTCOffer host offer peerId w1 = (Normal tt, w2) /\
       length (conns w2) = S (length (conns w1)) /\
       handler_peerId (the_conn (length (conns w1)) w2) = peerId /\
       (sdp_type offer = ty_offer -> accepts_description host offer = true ->
          PeerMap.get peerId (peers (this w2))
          = Some (responder_peer peerId (length (conns w1))) /\
          signalingState (the_conn (length (conns w1)) w2) = stable /\
          (forall sid, socketId w1 = Some sid -> sid <> "" ->
             exists answer,
               sent (drop (length (trace w1)) (trace w2)) = [SendAnswer peerId answer sid]) /\
          (socketId w1 = None \/ socketId w1 = Some "" ->
             sent (drop (length (trace w1)) (trace w2)) = [] /\
             ConsoleError "Socket ID not found" ∈ drop (length (trace w1)) (trace w2))) /\
       (~ (sdp_type offer = ty_offer /\ accepts_description host offer = true) ->
          PeerMap.get peerId (peers (this w2)) = None /\
          closed_at (length (conns w1)) w2 /\
          Emit (ev_peerRemoved peerId) ∈ drop (length (trace w1)) (trace w2))).
Proof.
  intros w1. destruct (removePeer_forgets host peerId w) as [Hgone Hnormal].
  fold w1 in Hgone.
  split; [exact Hnormal|]. split; [exact Hgone|].
  split; [intros answer; apply onWebRTCAnswer_absent; exact Hgone|].
  split; [intros candidate; apply onWebRTCIceCandidate_absent; exact Hgone|].
  intros offer. apply onWebRTCOffer_absent. exact Hgone.
Qed.

(** C5, as stated, fails for offers: right after [removePeer "bob"], an
    offer from "bob" brings a session back, on a new connection, and an
    answer goes out. *)
Lemma offer_after_removePeer_recreates :
  let w1 := (removePeer quiet_host "bob" bob_world).2 in
  let w2 := (onWebRTCOffer quiet_host (mkSdp ty_offer "remote-offer") "bob" w1).2 in
  PeerMap.get "bob" (peers (this w1)) = None /\
  PeerMap.get "bob" (peers (this w2)) = Some (responder_peer "bob" 1) /\
  length (conns w2) = S (length (conns w1)) /\
  SendAnswer "bob" (mkSdp ty_answer "local-answer") "socket-me" ∈ trace w2 /\
  trace w2 <> trace w1.
Proof.
  vm_compute. split; [reflexivity|]. split; [reflexivity|]. split; [reflexivity|].
  split; [|discriminate].
  apply list_elem_of_In. simpl. tauto.
Qed.

(** ** Inbound answers *)

Lemma onWebRTCAnswer_spec host answer from peer w :
  PeerMap.get from (peers (this w)) = Some peer ->
  connection peer < length (conns w) ->
  onWebRTCAnswer host answer from w
  = (Normal tt,
     match Capability.setRemoteDescription host answer (the_conn (connection peer) w) with
     | inr pc1 =>
         {| this := emptied from peer (this w);
            conns := <[connection peer := flushed host pc1 (buffer_of peer)]> (conns w);
            timers := timers w; ended := ended w; socketId := socketId w;
            trace := trace w
                     ++ Call (connection peer) (setRemoteDescription_ answer) true
                        :: flush_effects host (connection peer) pc1 (buffer_of peer) |}
     | inl _ => answer_refused (connection peer) answer w
     end).
Proof.
  intros Hget Hc. unfold onWebRTCAnswer. step primitive. rewrite Hget. next.
  destruct (Capability.setRemoteDescription host answer (the_conn (connection peer) w))
    as [e|pc1] eqn:Hset.
  - enter.
    { enter.
      { apply (invoke_throws _ _ _ _ (the_conn (connection peer) w) e); [reflexivity|].
        rewrite Hset. reflexivity. }
      next. reflexivity. }
    next. unfold console_error, modify, answer_refused. f_equal. world_eq.
    rewrite <- app_assoc. reflexivity.
  - enter.
    { enter.
      { apply (invoke_returns _ _ _ _ (the_conn (connection peer) w)); [reflexivity|].
        rewrite Hset. reflexivity. }
      next. apply (flushPendingIce_spec host from peer); [exact Hget|].
      simpl. rewrite length_insert. exact Hc. }
    next. read_conn. f_equal. world_eq.
    + apply list_insert_insert_eq.
    + rewrite <- app_assoc. reflexivity.
Qed.

Lemma setRemoteDescription_answer host answer pc :
  sdp_type answer = ty_answer ->
  Capability.setRemoteDescription host answer pc
  = if bool_decide (signalingState pc = have_local_offer
                    \/ signalingState pc = have_remote_pranswer)
    then if accepts_description host answer
         then inr (Capability.set_descriptions stable None (pendingLocalDescription pc)
                     None (Some answer) pc)
         else inl OperationError
    else inl InvalidStateError.
Proof.
  intros Hty. unfold Capability.setRemoteDescription. rewrite Hty.
  destruct (signalingState pc); reflexivity.
Qed.

(** C2 (as amended). For an inbound answer from a peer that has a session,
    the handler never looks at the negotiation state: it always hands the
    answer to [setRemoteDescription] and never throws.  What happens next
    is the capability's decision.  When it takes the answer, the candidate
    buffer is flushed; for a description of type answer that is the case
    exactly when the local offer (or a provisional remote answer) is
    outstanding and the description is acceptable, and the session is then
    stable with the answer as remote description.  When it refuses, as it
    does in every other state, with or without a remote description on
    record, the error is logged and nothing else changes. *)
Theorem onWebRTCAnswer_always_tries (host : Host) (answer : RTCSessionDescriptionInit)
    (from : string) (peer : PeerConnection) (w : World) :
  PeerMap.get from (peers (this w)) = Some peer ->
  connection peer < length (conns w) ->
  let c := connection peer in
  let pc := the_conn c w in
  exists w',
    onWebRTCAnswer host answer from w = (Normal tt, w') /\
    handed_to_capability c answer (drop (length (trace w)) (trace w')) /\
    (forall e, Capability.setRemoteDescription host answer pc = inl e ->
       w' = answer_refused c answer w) /\
    (forall pc1, Capability.setRemoteDescription host answer pc = inr pc1 ->
       the_conn c w' = flushed host pc1 (buffer_of peer) /\
       this w' = emptied from peer (this w) /\
       trace w' = trace w ++ Call c (setRemoteDescription_ answer) true
                          :: flush_effects host c pc1 (buffer_of peer)) /\
    (sdp_type answer = ty_answer ->
       (signalingState pc = have_local_offer \/ signalingState pc = have_remote_pranswer) ->
       accepts_description host answer = true ->
       signalingState (the_conn c w') = stable /\
       remoteDescription (the_conn c w') = Some answer) /\
    (sdp_type answer = ty_answer ->
       ~ (signalingState pc = have_local_offer \/ signalingState pc = have_remote_pranswer) ->
       w' = answer_refused c answer w).
Proof.
  intros Hget Hc c pc. eexists. split; [apply (onWebRTCAnswer_spec host answer from peer w Hget Hc)|].
  fold c pc.
  split.
  { destruct (Capability.setRemoteDescription host answer pc); simpl;
      rewrite drop_app_length; eexists; apply elem_of_cons; left; reflexivity. }
  split.
  { intros e He. rewrite He. reflexivity. }
  split.
  { intros pc1 Hpc1. rewrite Hpc1. cbn [this trace]. split; [|split; reflexivity].
    unfold the_conn. cbn [conns]. rewrite list_lookup_insert_eq by exact Hc. reflexivity. }
  split.
  { intros Hty Hst Hacc. rewrite (setRemoteDescription_answer host answer pc Hty).
    rewrite bool_decide_eq_true_2 by exact Hst. rewrite Hacc.
    unfold the_conn. cbn [conns]. rewrite list_lookup_insert_eq by exact Hc.
    split; reflexivity. }
  intros Hty Hst. rewrite (setRemoteDescription_answer host answer pc Hty).
  rewrite bool_decide_eq_false_2 by exact Hst. reflexivity.
Qed.

Lemma onWebRTCAnswer_always_tries_witness :
  exists w',
    onWebRTCAnswer quiet_host (mkSdp ty_answer "answer-from-bob") "bob" calling_bob
    = (Normal tt, w') /\
    handed_to_capability 0 (mkSdp ty_answer "answer-from-bob")
      (drop (length (trace calling_bob)) (trace w')) /\
    signalingState (the_conn 0 w') = stable /\
    remoteDescription (the_conn 0 w') = Some (mkSdp ty_answer "answer-from-bob").
Proof.
  assert (Hget : PeerMap.get "bob" (peers (this calling_bob)) = Some (initiator_peer "bob" 0))
    by reflexivity.
  assert (Hc : connection (initiator_peer "bob" 0) < length (conns calling_bob))
    by (vm_compute; lia).
  destruct (onWebRTCAnswer_always_tries quiet_host (mkSdp ty_answer "answer-from-bob") "bob"
              (initiator_peer "bob" 0) calling_bob Hget Hc)
    as (w' & Hrun & Hhanded & _ & _ & Hok & _).
  exists w'. split; [exact Hrun|]. split; [exact Hhanded|].
  apply Hok; [reflexivity|left; reflexivity|reflexivity].
Defined.

(** C2, as stated, fails.  With "bob" stable and his offer on record as
    remote description, the answer is not expected, yet the handler hands
    it to the capability all the same.  And with a session that has no
    remote description at all, where the answer should be applied as a
    recovery, the capability refuses it and no remote description is set. *)
Lemma unexpected_answer_reaches_capability :
  let late := mkSdp ty_answer "late-answer" in
  let w1 := (onWebRTCAnswer quiet_host late "bob" bob_answered).2 in
  let w2 := (onWebRTCAnswer quiet_host late "bob" bob_world).2 in
  (~ answer_expected (the_conn 0 bob_answered) /\
   handed_to_capability 0 late (drop (length (trace bob_answered)) (trace w1))) /\
  (remoteDescription (the_conn 0 bob_world) = None /\
   answer_expected (the_conn 0 bob_world) /\
   remoteDescription (the_conn 0 w2) = None).
Proof.
  vm_compute. split; split.
  - intros [H|H]; discriminate.
  - exists false. apply list_elem_of_In. simpl. tauto.
  - reflexivity.
  - split; [right; reflexivity|reflexivity].
Qed.

(** ** Offers for a peer that has a session *)

Lemma onWebRTCOffer_present host offer from peer w pc1 :
  PeerMap.get from (peers (this w)) = Some peer ->
  connection peer < length (conns w) ->
  Capability.setRemoteDescription host offer (before_offer (the_conn (connection peer) w))
  = inr pc1 ->
  signalingState pc1 = have_remote_offer ->
  onWebRTCOffer host offer from w
  = (Normal tt,
     {| this := emptied from peer (this w);
        conns := <[connection peer := answered host pc1 (buffer_of peer)]> (conns w);
        timers := timers w; ended := ended w; socketId := socketId w;
        trace := trace w
                 ++ rollback_effects (connection peer) (the_conn (connection peer) w)
                 ++ answer_round host from (connection peer) offer pc1 (buffer_of peer)
                      (socketId w) |}).
Proof.
  intros Hget Hc Hset Hstate. unfold onWebRTCOffer.
  unfold before_offer in Hset. unfold rollback_effects.
  destruct (decide (signalingState (the_conn (connection peer) w) = have_local_offer))
    as [Hglare|Hplain].
  - enter.
    { step primitive. rewrite has_peer_get, Hget. cbn [negb when].
      step primitive. step primitive. rewrite Hget. next.
      step primitive. rewrite Hglare.
      rewrite bool_decide_eq_true_2 by discriminate.
      rewrite bool_decide_eq_true_2 by reflexivity. cbn [andb].
      enter.
      { enter.
        { enter.
          { apply (invoke_returns _ _ _ _ (the_conn (connection peer) w)); [reflexivity|].
            unfold Capability.setLocalDescription. cbn [sdp_type]. rewrite Hglare.
            reflexivity. }
          next. primitive. }
        next. reflexivity. }
      next.
      apply (accept_offer host offer from peer _ pc1).
      - exact Hget.
      - simpl. rewrite length_insert. exact Hc.
      - read_conn. exact Hset.
      - exact Hstate. }
    next. f_equal. world_eq.
    + apply list_insert_insert_eq.
    + rewrite <- !app_assoc. reflexivity.
  - enter.
    { step primitive. rewrite has_peer_get, Hget. cbn [negb when].
      step primitive. step primitive. rewrite Hget. next.
      step primitive.
      rewrite (bool_decide_eq_false_2
                 (signalingState (the_conn (connection peer) w) = have_local_offer))
        by exact Hplain.
      rewrite andb_false_r.
      step primitive.
      apply (accept_offer host offer from peer w pc1); assumption. }
    next. reflexivity.
Qed.

(** The same offer when the capability refuses it. *)
Lemma onWebRTCOffer_present_refused host offer from peer w e :
  PeerMap.get from (peers (this w)) = Some peer ->
  Capability.setRemoteDescription host offer (before_offer (the_conn (connection peer) w))
  = inl e ->
  connection peer < length (conns w) ->
  onWebRTCOffer host offer from w
  = removePeer host from
      (logs [Call (connection peer) (setRemoteDescription_ offer) false;
             ConsoleError "Error handling offer:"]
         (offer_presented (connection peer) w)).
Proof.
  intros Hget Hset Hc. unfold onWebRTCOffer, offer_presented.
  unfold before_offer in Hset.
  destruct (decide (signalingState (the_conn (connection peer) w) = have_local_offer))
    as [Hglare|Hplain].
  - enter.
    { step primitive. rewrite has_peer_get, Hget. cbn [negb when].
      step primitive. step primitive. rewrite Hget. next.
      step primitive. rewrite Hglare.
      rewrite bool_decide_eq_true_2 by discriminate.
      rewrite bool_decide_eq_true_2 by reflexivity. cbn [andb].
      enter.
      { enter.
        { enter.
          { apply (invoke_returns _ _ _ _ (the_conn (connection peer) w)); [reflexivity|].
            unfold Capability.setLocalDescription. cbn [sdp_type]. rewrite Hglare.
            reflexivity. }
          next. primitive. }
        next. reflexivity. }
      next.
      enter.
      { apply (invoke_throws _ _ _ _ (rolled_back (the_conn (connection peer) w)) e).
        - read_conn.
        - rewrite Hset. reflexivity. }
      next. reflexivity. }
    next. step primitive. step primitive. rewrite has_peer_get.
    match goal with
    | |- context [PeerMap.get from ?m] =>
        replace (PeerMap.get from m) with (Some peer) by (symmetry; exact Hget)
    end.
    cbn [when]. f_equal. world_eq. rewrite <- app_assoc. reflexivity.
  - enter.
    { step primitive. rewrite has_peer_get, Hget. cbn [negb when].
      step primitive. step primitive. rewrite Hget. next.
      step primitive.
      rewrite (bool_decide_eq_false_2
                 (signalingState (the_conn (connection peer) w) = have_local_offer))
        by exact Hplain.
      rewrite andb_false_r.
      step primitive.
      enter.
      { apply (invoke_throws _ _ _ _ (the_conn (connection peer) w) e); [reflexivity|].
        rewrite Hset. reflexivity. }
      next. reflexivity. }
    next. step primitive. step primitive. rewrite has_peer_get.
    match goal with
    | |- context [PeerMap.get from ?m] =>
        replace (PeerMap.get from m) with (Some peer) by (symmetry; exact Hget)
    end.
    cbn [when]. f_equal. world_eq. rewrite <- app_assoc. reflexivity.
Qed.

(** ** Candidates: buffering, then one flush *)

Lemma set_set k v1 v2 (m : PeerMap.t) :
  PeerMap.set k v2 (PeerMap.set k v1 m) = PeerMap.set k v2 m.
Proof.
  induction m as [|[k' v'] m IH]; simpl.
  - rewrite decide_True by reflexivity. reflexivity.
  - destruct (decide (k' = k)) as [->|Hne]; simpl.
    + rewrite decide_True by reflexivity. reflexivity.
    + rewrite decide_False by assumption. rewrite IH. reflexivity.
Qed.

Lemma onWebRTCIceCandidate_buffers host x from peer w :
  PeerMap.get from (peers (this w)) = Some peer ->
  remoteDescription (the_conn (connection peer) w) = None ->
  onWebRTCIceCandidate host x from w = (Normal tt, buffered from peer [x] w).
Proof.
  intros Hget Hnone. unfold onWebRTCIceCandidate. step primitive. rewrite Hget. next.
  step primitive. rewrite Hnone. next.
  unfold update_peer, modify, buffered. f_equal. world_eq. rewrite Hget. reflexivity.
Qed.

Lemma candidates_are_buffered host cs from peer w :
  PeerMap.get from (peers (this w)) = Some peer ->
  remoteDescription (the_conn (connection peer) w) = None ->
  for_of cs (fun x => onWebRTCIceCandidate host x from) w
  = (Normal tt, buffered from peer cs w).
Proof.
  revert peer w. induction cs as [|x cs IH]; intros peer w Hget Hnone; [reflexivity|].
  cbn [for_of].
  step ltac:(apply (onWebRTCIceCandidate_buffers host x from peer w); assumption).
  rewrite (IH (set_pendingCandidates (Some (buffer_of peer ++ [x])) peer)).
  - f_equal. unfold buffered. destruct cs as [|y cs]; [reflexivity|].
    world_eq. rewrite set_set. unfold buffer_of at 1. simpl.
    rewrite <- app_assoc. reflexivity.
  - simpl. apply get_set_eq.
  - exact Hnone.
Qed.

Lemma buffered_peer from peer cs w :
  PeerMap.get from (peers (this w)) = Some peer ->
  exists peer1,
    PeerMap.get from (peers (this (buffered from peer cs w))) = Some peer1 /\
    buffer_of peer1 = buffer_of peer ++ cs /\
    connection peer1 = connection peer /\
    emptied from peer1 (this (buffered from peer cs w))
    = emptied from (set_pendingCandidates (Some (buffer_of peer ++ cs)) peer) (this w).
Proof.
  intros Hget. destruct cs as [|x cs].
  - exists peer. split; [exact Hget|]. split; [symmetry; apply app_nil_r|].
    split; [reflexivity|]. unfold emptied, buffer_of. simpl. rewrite app_nil_r.
    destruct (default [] (pendingCandidates peer)) eqn:Hb; reflexivity.
  - exists (set_pendingCandidates (Some (buffer_of peer ++ x :: cs)) peer).
    split; [simpl; apply get_set_eq|]. split; [reflexivity|]. split; [reflexivity|].
    unfold emptied, buffer_of. simpl.
    destruct (default [] (pendingCandidates peer) ++ x :: cs) eqn:Hb.
    + apply app_eq_nil in Hb as [_ Hb]. discriminate.
    + apply WebRTCManager_eq; try reflexivity. simpl. apply set_set.
Qed.

Lemma candidates_offered_app c tr1 tr2 :
  candidates_offered c (tr1 ++ tr2) = candidates_offered c tr1 ++ candidates_offered c tr2.
Proof. unfold candidates_offered. apply omap_app. Qed.

Lemma candidates_offered_flush host c pc cs :
  candidates_offered c (flush_effects host c pc cs) = without_sentinels cs.
Proof.
  induction cs as [|[ci|] cs IH]; [reflexivity| |exact IH].
  unfold flush_effects. cbn [flat_map]. rewrite candidates_offered_app.
  fold (flush_effects host c pc cs). rewrite IH.
  destruct (candidate_lands host pc (Some ci)); unfold candidates_offered; cbn;
    rewrite decide_True by reflexivity; reflexivity.
Qed.

Lemma candidates_offered_answer_round host from c offer pc1 cs socket :
  candidates_offered c (answer_round host from c offer pc1 cs socket) = without_sentinels cs.
Proof.
  unfold answer_round.
  change (Call c (setRemoteDescription_ offer) true :: ?l)
    with ([Call c (setRemoteDescription_ offer) true] ++ l).
  rewrite !candidates_offered_app, candidates_offered_flush.
  unfold candidates_offered. destruct (truthy socket); cbn; apply app_nil_r.
Qed.

Lemma emptied_buffer from peer m :
  PeerMap.get from (peers m) = Some peer ->
  exists peer2,
    PeerMap.get from (peers (emptied from peer m)) = Some peer2 /\
    buffer_of peer2 = [] /\ connection peer2 = connection peer.
Proof.
  intros Hget. unfold emptied. destruct (buffer_of peer) eqn:Hb.
  - exists peer. split; [exact Hget|]. split; [exact Hb|reflexivity].
  - eexists. split; [simpl; apply get_set_eq|]. split; reflexivity.
Qed.

Lemma flushPendingIce_empty host from peer w :
  PeerMap.get from (peers (this w)) = Some peer ->
  buffer_of peer = [] ->
  flushPendingIce host from w = (Normal tt, w).
Proof.
  intros Hget Hempty. unfold flushPendingIce. step primitive. rewrite Hget. next.
  unfold buffer_of in Hempty. destruct (pendingCandidates peer) as [[|x cs]|];
    [reflexivity|discriminate|reflexivity].
Qed.

(** C3. While a session has no remote description, the candidates that
    arrive are appended to its buffer in arrival order, end-of-candidates
    sentinels included, and none is given to the capability.  Once an answer
    or an offer has set the remote description, the handler gives every
    buffered candidate that is not a sentinel to [addIceCandidate], once, in
    buffer order, whether or not the earlier ones were taken (a refusal is
    logged and the loop goes on); the buffer is empty afterwards, and
    flushing the empty buffer again changes nothing. *)
Theorem candidates_buffered_then_flushed (host : Host) (from : string)
    (peer : PeerConnection) (w : World) (cs : list (option RTCIceCandidateInit)) :
  PeerMap.get from (peers (this w)) = Some peer ->
  connection peer < length (conns w) ->
  remoteDescription (the_conn (connection peer) w) = None ->
  let c := connection peer in
  let pc := the_conn c w in
  let buffer := buffer_of peer ++ cs in
  let arrivals := for_of cs (fun x => onWebRTCIceCandidate host x from) w in
  let w1 := arrivals.2 in
  (arrivals.1 = Normal tt /\
   (exists peer1, PeerMap.get from (peers (this w1)) = Some peer1 /\
                  buffer_of peer1 = buffer /\ connection peer1 = c) /\
   conns w1 = conns w /\ trace w1 = trace w) /\
  (forall answer pc1,
     Capability.setRemoteDescription host answer pc = inr pc1 ->
     exists w2,
       onWebRTCAnswer host answer from w1 = (Normal tt, w2) /\
       trace w2 = trace w1 ++ Call c (setRemoteDescription_ answer) true
                           :: flush_effects host c pc1 buffer /\
       candidates_offered c (drop (length (trace w1)) (trace w2)) = without_sentinels buffer /\
       remoteCandidates (the_conn c w2) = remoteCandidates pc1 ++ landed host pc1 buffer /\
       (exists peer2, PeerMap.get from (peers (this w2)) = Some peer2 /\ buffer_of peer2 = []) /\
       flushPendingIce host from w2 = (Normal tt, w2)) /\
  (forall offer pc1,
     Capability.setRemoteDescription host offer (before_offer pc) = inr pc1 ->
     signalingState pc1 = have_remote_offer ->
     exists w2,
       onWebRTCOffer host offer from w1 = (Normal tt, w2) /\
       trace w2 = trace w1 ++ rollback_effects c pc
                           ++ answer_round host from c offer pc1 buffer (socketId w) /\
       candidates_offered c (drop (length (trace w1)) (trace w2)) = without_sentinels buffer /\
       remoteCandidates (the_conn c w2) = remoteCandidates pc1 ++ landed host pc1 buffer /\
       (exists peer2, PeerMap.get from (peers (this w2)) = Some peer2 /\ buffer_of peer2 = []) /\
       flushPendingIce host from w2 = (Normal tt, w2)).
Proof.
  intros Hget Hc Hnone c pc buffer arrivals w1.
  assert (Harr : arrivals = (Normal tt, buffered from peer cs w))
    by (apply candidates_are_buffered; assumption).
  assert (Hw1 : w1 = buffered from peer cs w) by (subst w1; rewrite Harr; reflexivity).
  destruct (buffered_peer from peer cs w Hget) as (peer1 & Hget1 & Hbuf1 & Hconn1 & Hempt).
  rewrite <- Hw1 in Hget1, Hempt.
  assert (Hconns : conns w1 = conns w) by (rewrite Hw1; destruct cs; reflexivity).
  assert (Htrace : trace w1 = trace w) by (rewrite Hw1; destruct cs; reflexivity).
  assert (Hsock : socketId w1 = socketId w) by (rewrite Hw1; destruct cs; reflexivity).
  assert (Hpc : the_conn (connection peer1) w1 = pc)
    by (unfold the_conn; rewrite Hconns, Hconn1; reflexivity).
  assert (Hc1 : connection peer1 < length (conns w1)) by (rewrite Hconns, Hconn1; exact Hc).
  split.
  { split; [rewrite Harr; reflexivity|]. split; [|split; assumption].
    exists peer1. repeat split; assumption. }
  split.
  - intros answer pc1 Hset.
    pose proof (onWebRTCAnswer_spec host answer from peer1 w1 Hget1 Hc1) as Hrun.
    rewrite Hpc, Hset, Hbuf1, Hconn1 in Hrun. fold c buffer in Hrun.
    eexists. split; [exact Hrun|]. cbn [trace conns this].
    split; [reflexivity|]. split.
    { rewrite drop_app_length.
      change (Call c (setRemoteDescription_ answer) true :: ?l)
        with ([Call c (setRemoteDescription_ answer) true] ++ l).
      rewrite candidates_offered_app, candidates_offered_flush.
      unfold candidates_offered. cbn. reflexivity. }
    split.
    { unfold the_conn. cbn [conns].
      rewrite list_lookup_insert_eq by (rewrite Hconns; exact Hc). reflexivity. }
    destruct (emptied_buffer from peer1 (this w1) Hget1) as (peer2 & Hget2 & Hbuf2 & _).
    split; [exists peer2; split; assumption|].
    apply (flushPendingIce_empty host from peer2); assumption.
  - intros offer pc1 Hset Hstate.
    assert (Hset1 : Capability.setRemoteDescription host offer
                      (before_offer (the_conn (connection peer1) w1)) = inr pc1)
      by (rewrite Hpc; exact Hset).
    pose proof (onWebRTCOffer_present host offer from peer1 w1 pc1 Hget1 Hc1 Hset1 Hstate)
      as Hrun.
    rewrite Hpc, Hbuf1, Hconn1, Hsock in Hrun. fold c buffer in Hrun.
    eexists. split; [exact Hrun|]. cbn [trace conns this].
    split; [reflexivity|]. split.
    { rewrite drop_app_length, candidates_offered_app, candidates_offered_answer_round.
      unfold rollback_effects. destruct (decide (signalingState pc = have_local_offer));
        reflexivity. }
    split.
    { unfold the_conn. cbn [conns].
      rewrite list_lookup_insert_eq by (rewrite Hconns; exact Hc). reflexivity. }
    destruct (emptied_buffer from peer1 (this w1) Hget1) as (peer2 & Hget2 & Hbuf2 & _).
    split; [exists peer2; split; assumption|].
    apply (flushPendingIce_empty host from peer2); assumption.
Qed.

Lemma candidates_buffered_then_flushed_witness :
  let offer := mkSdp ty_offer "offer-from-bob" in
  let w1 := (for_of early_candidates
               (fun x => onWebRTCIceCandidate picky_host x "bob") bob_world).2 in
  trace w1 = trace bob_world /\
  exists w2,
    onWebRTCOffer picky_host offer "bob" w1 = (Normal tt, w2) /\
    candidates_offered 0 (drop (length (trace w1)) (trace w2))
    = [Some (host_candidate "first"); Some (host_candidate "bad");
       Some (host_candidate "last")] /\
    remoteCandidates (the_conn 0 w2) = [host_candidate "first"; host_candidate "last"] /\
    flushPendingIce picky_host "bob" w2 = (Normal tt, w2).
Proof.
  intros offer w1.
  assert (Hget : PeerMap.get "bob" (peers (this bob_world)) = Some (responder_peer "bob" 0))
    by reflexivity.
  assert (Hc : connection (responder_peer "bob" 0) < length (conns bob_world))
    by (vm_compute; lia).
  assert (Hnone : remoteDescription (the_conn (connection (responder_peer "bob" 0)) bob_world)
                  = None) by reflexivity.
  destruct (candidates_buffered_then_flushed picky_host "bob" (responder_peer "bob" 0)
              bob_world early_candidates Hget Hc Hnone)
    as ((_ & _ & _ & Htrace) & _ & Hoffer).
  split; [exact Htrace|].
  destruct (Hoffer offer (offered_conn offer "bob" None) eq_refl eq_refl)
    as (w2 & Hrun & _ & Hcalls & Hlanded & _ & Hagain).
  exists w2. split; [exact Hrun|]. split; [exact Hcalls|]. split; [exact Hlanded|exact Hagain].
Defined.

(** ** Glare *)

Lemma before_offer_glare host offer pc :
  signalingState pc = have_local_offer ->
  sdp_type offer = ty_offer ->
  accepts_description host offer = true ->
  Capability.setRemoteDescription host offer (before_offer pc)
  = inr (offer_after_rollback offer pc).
Proof.
  intros Hst Hty Hacc. unfold before_offer. rewrite decide_True by exact Hst.
  unfold Capability.setRemoteDescription, rolled_back. cbn. rewrite Hty, Hacc. reflexivity.
Qed.

Lemma before_offer_glare_refused host offer pc :
  signalingState pc = have_local_offer ->
  ~ (sdp_type offer = ty_offer /\ accepts_description host offer = true) ->
  exists e, Capability.setRemoteDescription host offer (before_offer pc) = inl e.
Proof.
  intros Hst Hno. unfold before_offer. rewrite decide_True by exact Hst.
  unfold Capability.setRemoteDescription, rolled_back. cbn.
  destruct (sdp_type offer) eqn:Hty; try (eexists; reflexivity).
  destruct (accepts_description host offer) eqn:Hacc; [|eexists; reflexivity].
  exfalso. apply Hno. split; reflexivity.
Qed.

(** C1 (as amended). The session keeps no role, and the offer handler has
    no branch that ignores an offer.  Whenever a remote offer meets a
    session whose own offer is outstanding, whichever side created the
    session, the handler returns, and it first rolls the local offer back
    and then hands the remote offer to the capability; the local offer is
    gone either way.  When the capability takes the remote offer (a
    description of type offer that it accepts), the buffer is flushed and
    the answer created and set; the answer is the one signaling message
    sent, under a socket id that is not empty, while with no socket id or
    an empty one nothing is sent and "Socket ID not found" is logged.  The
    session ends stable as the answerer, and the answer that later comes
    back for the offer that was rolled back is refused by the capability.
    When the capability refuses the remote offer, the error is logged and
    the session is removed: connection closed, [peerRemoved] emitted,
    nothing sent. *)
Theorem glare_rolls_back (host : Host) (offer : RTCSessionDescriptionInit) (from : string)
    (peer : PeerConnection) (w : World) :
  PeerMap.get from (peers (this w)) = Some peer ->
  connection peer < length (conns w) ->
  signalingState (the_conn (connection peer) w) = have_local_offer ->
  let c := connection peer in
  let pc1 := offer_after_rollback offer (the_conn c w) in
  let answer := created_answer host (flushed host pc1 (buffer_of peer)) in
  exists w',
    onWebRTCOffer host offer from w = (Normal tt, w') /\
    (exists taken rest,
       trace w' = trace w ++ Call c (setLocalDescription_ (mkSdp ty_rollback "")) true
                          :: Call c (setRemoteDescription_ offer) taken :: rest) /\
    pendingLocalDescription (the_conn c w') = None /\
    signalingState (the_conn c w') <> have_local_offer /\
    (sdp_type offer = ty_offer -> accepts_description host offer = true ->
       trace w' = trace w ++ Call c (setLocalDescription_ (mkSdp ty_rollback "")) true
                          :: answer_round host from c offer pc1 (buffer_of peer) (socketId w) /\
       signalingState (the_conn c w') = stable /\
       currentLocalDescription (the_conn c w') = Some answer /\
       currentRemoteDescription (the_conn c w') = Some offer /\
       (forall sid, socketId w = Some sid -> sid <> "" ->
          sent (drop (length (trace w)) (trace w')) = [SendAnswer from answer sid]) /\
       (socketId w = None \/ socketId w = Some "" ->
          sent (drop (length (trace w)) (trace w')) = [] /\
          ConsoleError "Socket ID not found" ∈ drop (length (trace w)) (trace w')) /\
       (forall late, sdp_type late = ty_answer ->
          onWebRTCAnswer host late from w' = (Normal tt, answer_refused c late w'))) /\
    (~ (sdp_type offer = ty_offer /\ accepts_description host offer = true) ->
       PeerMap.get from (peers (this w')) = None /\
       closed_at c w' /\
       ConsoleError "Error handling offer:" ∈ drop (length (trace w)) (trace w') /\
       Emit (ev_peerRemoved from) ∈ drop (length (trace w)) (trace w') /\
       sent (drop (length (trace w)) (trace w')) = []).
Proof.
  intros Hget Hc Hglare c pc1 answer.
  destruct (decide (sdp_type offer = ty_offer /\ accepts_description host offer = true))
    as [[Hty Hacc]|Hno].
  - (* the capability takes the offer *)
    pose proof (onWebRTCOffer_present host offer from peer w pc1 Hget Hc
                  (before_offer_glare host offer _ Hglare Hty Hacc) eq_refl) as Hrun.
    unfold rollback_effects in Hrun. rewrite decide_True in Hrun by exact Hglare.
    fold c in Hrun.
    eexists. split; [exact Hrun|]. cbn [trace conns this].
    assert (Hconn : forall m ti en so tr pc',
              the_conn c (mkWorld m (<[c := pc']> (conns w)) ti en so tr) = pc').
    { intros. unfold the_conn. cbn [conns]. rewrite list_lookup_insert_eq by exact Hc.
      reflexivity. }
    rewrite !Hconn.
    split; [eexists true, _; reflexivity|].
    split; [reflexivity|]. split; [discriminate|].
    split; [|intros Hno; exfalso; apply Hno; split; assumption].
    intros _ _.
    split; [reflexivity|]. split; [reflexivity|]. split; [reflexivity|].
    split; [reflexivity|].
    rewrite drop_app_length.
    change (Call c (setLocalDescription_ (mkSdp ty_rollback "")) true :: ?l)
      with ([Call c (setLocalDescription_ (mkSdp ty_rollback "")) true] ++ l).
    rewrite sent_app, sent_answer_round. cbn [sent omap sender app].
    split.
    { intros sid Hsid Hne. rewrite Hsid, (truthy_Some sid Hne). reflexivity. }
    split.
    { intros Hfalsy. rewrite (truthy_falsy _ Hfalsy). split; [reflexivity|].
      apply elem_of_cons. right.
      pose proof (last_of_answer_round host from c offer pc1 (buffer_of peer) (socketId w))
        as Hlast.
      rewrite (truthy_falsy _ Hfalsy) in Hlast. exact Hlast. }
    intros late Hlate.
    destruct (emptied_buffer from peer (this w) Hget) as (peer2 & Hget2 & _ & Hconn2).
    match goal with
    | |- onWebRTCAnswer host late from ?w' = _ =>
        pose proof (onWebRTCAnswer_spec host late from peer2 w' Hget2) as Hans
    end.
    cbn [conns] in Hans. rewrite length_insert, Hconn2 in Hans. specialize (Hans Hc).
    fold c in Hans. rewrite Hconn in Hans.
    rewrite (setRemoteDescription_answer host late _ Hlate) in Hans.
    rewrite bool_decide_eq_false_2 in Hans by (intros [H|H]; discriminate).
    exact Hans.
  - (* the capability refuses the offer *)
    destruct (before_offer_glare_refused host offer _ Hglare Hno) as [e Hset].
    rewrite (onWebRTCOffer_present_refused host offer from peer w e Hget Hset Hc).
    unfold offer_presented. rewrite decide_True by exact Hglare. fold c.
    set (w0 := logs [Call c (setRemoteDescription_ offer) false;
                     ConsoleError "Error handling offer:"]
                 (log (Call c (setLocalDescription_ (mkSdp ty_rollback "")) true)
                    (set_conns (<[c := rolled_back (the_conn c w)]>) w))).
    assert (Hget0 : PeerMap.get from (peers (this w0)) = Some peer) by exact Hget.
    destruct (removePeer_frame host from peer w0 Hget0) as (ls & ds & -> & Hds).
    eexists. split; [reflexivity|].
    assert (Htrace : trace (relisten ls (logs (Emit (ev_peerRemoved from) :: ds)
                                           (dropped from peer w0)))
                     = trace w
                       ++ [Call c (setLocalDescription_ (mkSdp ty_rollback "")) true;
                           Call c (setRemoteDescription_ offer) false;
                           ConsoleError "Error handling offer:"]
                       ++ close_effects peer ++ Emit (ev_peerRemoved from) :: ds).
    { subst w0. cbn [trace relisten logs log set_this dropped set_conns].
      rewrite <- !app_assoc. reflexivity. }
    assert (Hconn : the_conn c (relisten ls (logs (Emit (ev_peerRemoved from) :: ds)
                                               (dropped from peer w0)))
                    = Capability.close (rolled_back (the_conn c w))).
    { unfold the_conn at 1. cbn [conns relisten logs set_this dropped set_conns]. fold c.
      rewrite list_lookup_insert_eq
        by (subst w0; cbn [conns logs log set_conns]; rewrite length_insert; exact Hc).
      cbn [default]. f_equal. subst w0. unfold the_conn.
      cbn [conns logs log set_conns]. rewrite list_lookup_insert_eq by exact Hc.
      reflexivity. }
    rewrite Hconn, Htrace.
    split; [eexists false, _; reflexivity|].
    split; [reflexivity|]. split; [discriminate|].
    split; [intros Hty Hacc; exfalso; apply Hno; split; assumption|].
    intros _. rewrite drop_app_length.
    split; [cbn [this relisten logs set_this dropped set_peers peers]; apply get_delete_eq|].
    split; [unfold closed_at; rewrite Hconn; reflexivity|].
    split.
    { apply elem_of_app. left. apply elem_of_cons. right. apply elem_of_cons. right.
      apply elem_of_cons. left. reflexivity. }
    split.
    { apply elem_of_app. right. apply elem_of_app. right.
      apply elem_of_cons. left. reflexivity. }
    apply sent_none.
    apply Forall_app. split; [repeat constructor|].
    apply Forall_app. split; [apply close_effects_no_sender|].
    constructor; [reflexivity|].
    eapply Forall_impl; [exact Hds|]. intros x [l ->]. reflexivity.
Qed.

Lemma glare_rolls_back_witness :
  exists w',
    onWebRTCOffer quiet_host (mkSdp ty_offer "offer-from-bob") "bob" calling_bob
    = (Normal tt, w') /\
    signalingState (the_conn 0 w') = stable /\
    pendingLocalDescription (the_conn 0 w') = None /\
    currentRemoteDescription (the_conn 0 w') = Some (mkSdp ty_offer "offer-from-bob") /\
    sent (drop (length (trace calling_bob)) (trace w'))
    = [SendAnswer "bob" (mkSdp ty_answer "local-answer") "socket-me"].
Proof.
  assert (Hget : PeerMap.get "bob" (peers (this calling_bob)) = Some (initiator_peer "bob" 0))
    by reflexivity.
  assert (Hc : connection (initiator_peer "bob" 0) < length (conns calling_bob))
    by (vm_compute; lia).
  assert (Hglare : signalingState (the_conn (connection (initiator_peer "bob" 0)) calling_bob)
                   = have_local_offer) by reflexivity.
  destruct (glare_rolls_back quiet_host (mkSdp ty_offer "offer-from-bob") "bob"
              (initiator_peer "bob" 0) calling_bob Hget Hc Hglare)
    as (w' & Hrun & _ & Hlocal & _ & Haccepted & _).
  destruct (Haccepted eq_refl eq_refl) as (_ & Hstable & _ & Hremote & Hsent & _).
  exists w'. split; [exact Hrun|]. split; [exact Hstable|]. split; [exact Hlocal|].
  split; [exact Hremote|].
  exact (Hsent "socket-me" eq_refl ltac:(discriminate)).
Defined.

(** C1, as stated, fails.  "alice" and "bob" call each other at the same
    time; each created its session as initiator.  When the offer of "bob"
    reaches "alice", she does not ignore it and keep her offer: she rolls
    her offer back and answers.  "bob" does the same with her offer.  Both
    end stable as answerers, each with its own answer as local description,
    and the two answers, arriving later, are both refused.  No offer
    survives, where the specification wants exactly one. *)
Lemma both_initiators_roll_back :
  (dataChannel <$> PeerMap.get "bob" (peers (this alice_calls))
   = Some (Some (mkChannel "chat" 0)) /\
   signalingState (the_conn 0 alice_calls) = have_local_offer /\
   pendingLocalDescription (the_conn 0 alice_calls) = Some (mkSdp ty_offer "offer-of-alice")) /\
  (Call 0 (setLocalDescription_ (mkSdp ty_rollback "")) true ∈ trace alice_glare /\
   SendAnswer "bob" (mkSdp ty_answer "answer-of-alice") "alice" ∈ trace alice_glare /\
   signalingState (the_conn 0 alice_glare) <> have_local_offer /\
   pendingLocalDescription (the_conn 0 alice_glare) = None) /\
  (Call 0 (setLocalDescription_ (mkSdp ty_rollback "")) true ∈ trace bob_glare /\
   SendAnswer "alice" (mkSdp ty_answer "answer-of-bob") "bob" ∈ trace bob_glare) /\
  (currentLocalDescription (the_conn 0 alice_end) = Some (mkSdp ty_answer "answer-of-alice") /\
   currentLocalDescription (the_conn 0 bob_end) = Some (mkSdp ty_answer "answer-of-bob") /\
   Call 0 (setRemoteDescription_ (mkSdp ty_answer "answer-of-bob")) false ∈ trace alice_end /\
   Call 0 (setRemoteDescription_ (mkSdp ty_answer "answer-of-alice")) false ∈ trace bob_end).
Proof.
  vm_compute.
  repeat split; try discriminate; apply list_elem_of_In; simpl; tauto.
Qed.

(** ** Reconnection *)

Lemma restartIce_spec peerId w :
  restartIce peerId w
  = (Normal tt,
     match PeerMap.get peerId (peers (this w)) with
     | Some peer =>
         if bool_decide (signalingState (the_conn (connection peer) w) = stable)
         then log (Call (connection peer) restartIce_ true)
                (set_conns (<[connection peer :=
                                Capability.restartIce (the_conn (connection peer) w)]>) w)
         else w
     | None => w
     end).
Proof.
  unfold restartIce. step primitive.
  destruct (PeerMap.get peerId (peers (this w))) as [peer|]; [|reflexivity]. next.
  step primitive.
  destruct (bool_decide (signalingState (the_conn (connection peer) w) = stable));
    [|reflexivity].
  cbn [when].
  enter.
  { apply (invoke_returns _ _ _ _ (the_conn (connection peer) w)); reflexivity. }
  next. reflexivity.
Qed.

Lemma timeout_callback_spec peerId c w :
  timeout_callback peerId c w
  = if lost (connectionState (the_conn c w)) then restartIce peerId w else (Normal tt, w).
Proof.
  unfold timeout_callback. step primitive. unfold lost.
  rewrite (orb_comm (bool_decide (connectionState (the_conn c w) = cs_failed))).
  destruct (bool_decide (connectionState (the_conn c w) = cs_disconnected)
            || bool_decide (connectionState (the_conn c w) = cs_failed)); reflexivity.
Qed.

Lemma timeout_callback_normal peerId c w :
  (timeout_callback peerId c w).1 = Normal tt /\
  timers (timeout_callback peerId c w).2 = timers w.
Proof.
  rewrite timeout_callback_spec.
  destruct (lost (connectionState (the_conn c w))); [|split; reflexivity].
  rewrite restartIce_spec. cbn [fst snd]. split; [reflexivity|].
  destruct (PeerMap.get peerId (peers (this w))) as [peer|]; [|reflexivity].
  destruct (bool_decide (signalingState (the_conn (connection peer) w) = stable)); reflexivity.
Qed.

Lemma restart_issued_iff peerId c w :
  restart_issued (drop (length (trace w)) (trace (timeout_callback peerId c w).2))
  <-> restart_due peerId c w.
Proof.
  rewrite timeout_callback_spec. unfold restart_due, restart_issued.
  destruct (lost (connectionState (the_conn c w))) eqn:Hlost.
  - rewrite restartIce_spec. cbn [snd].
    destruct (PeerMap.get peerId (peers (this w))) as [peer|] eqn:Hget.
    + destruct (bool_decide (signalingState (the_conn (connection peer) w) = stable)) eqn:Hst.
      * apply bool_decide_eq_true in Hst. split.
        -- intros _. split; [reflexivity|]. exists peer. split; [reflexivity|exact Hst].
        -- intros _. simpl. rewrite drop_app_length. eexists. eexists.
           apply elem_of_cons. left. reflexivity.
      * apply bool_decide_eq_false in Hst. rewrite drop_all. split.
        -- intros (c' & ok & Hin). apply elem_of_nil in Hin. contradiction.
        -- intros (_ & peer' & [= <-] & Hst'). contradiction.
    + rewrite drop_all. split.
      * intros (c' & ok & Hin). apply elem_of_nil in Hin. contradiction.
      * intros (_ & peer' & Hget' & _). discriminate.
  - cbn [snd]. rewrite drop_all. split.
    + intros (c' & ok & Hin). apply elem_of_nil in Hin. contradiction.
    + intros [Hfalse _]. discriminate.
Qed.

Lemma moved_conn c s w :
  c < length (conns w) ->
  the_conn c (moved c s w) = Capability.set_connectionState s (the_conn c w).
Proof. intros Hc. apply the_conn_insert_eq. exact Hc. Qed.

Lemma connectionstatechange_moves host c s w :
  connectionstatechange host c s w = onconnectionstatechange host c (moved c s w).
Proof. reflexivity. Qed.

Lemma connectionstatechange_lost host c s w :
  c < length (conns w) ->
  lost s = true ->
  connectionstatechange host c s w
  = (Normal tt,
     log (SetTimeout (handler_peerId (the_conn c w)) c)
       (set_timers (fun ts => ts ++ [(handler_peerId (the_conn c w), c)]) (moved c s w))).
Proof.
  intros Hc Hlost. rewrite connectionstatechange_moves.
  unfold onconnectionstatechange. step primitive. step primitive.
  rewrite (moved_conn c s w Hc). cbn [connectionState handler_peerId Capability.set_connectionState].
  rewrite Hlost. reflexivity.
Qed.

Lemma connectionstatechange_alive host c s w :
  c < length (conns w) ->
  lost s = false ->
  s <> cs_closed ->
  connectionstatechange host c s w = (Normal tt, moved c s w).
Proof.
  intros Hc Hlost Hopen. rewrite connectionstatechange_moves.
  unfold onconnectionstatechange. step primitive. step primitive.
  rewrite (moved_conn c s w Hc). cbn [connectionState handler_peerId Capability.set_connectionState].
  rewrite Hlost. rewrite bool_decide_eq_false_2 by exact Hopen. reflexivity.
Qed.

(** C7 (as amended). Every change of connectivity to Disconnected or Failed
    sets a timer of its own; no timer is ever cancelled and none is
    refused because another one is outstanding, so a peer can have several
    at a time.  A change to any other state but Closed sets no timer and
    leaves the outstanding ones in place.  When a timer expires, a restart
    is issued if and only if the connection the timer was set for is then
    Disconnected or Failed and the peer has a session whose signaling is
    stable.  In particular, after Disconnected and then Connected the timer
    is still outstanding, and it issues no restart when it expires. *)
Theorem restart_only_if_still_lost (host : Host) (w : World) (c : ConnId) :
  c < length (conns w) ->
  let peerId := handler_peerId (the_conn c w) in
  (forall s, lost s = true ->
     exists w',
       connectionstatechange host c s w = (Normal tt, w') /\
       timers w' = timers w ++ [(peerId, c)] /\
       connectionState (the_conn c w') = s /\
       ~ restart_issued (drop (length (trace w)) (trace w'))) /\
  (forall s, lost s = false -> s <> cs_closed ->
     exists w',
       connectionstatechange host c s w = (Normal tt, w') /\
       timers w' = timers w /\
       connectionState (the_conn c w') = s /\
       trace w' = trace w) /\
  (forall p c0 rest, timers w = (p, c0) :: rest ->
     exists w',
       timer_expires w = (Normal tt, w') /\
       timers w' = rest /\
       (restart_issued (drop (length (trace w)) (trace w')) <-> restart_due p c0 w)) /\
  (let w1 := (connectionstatechange host c cs_disconnected w).2 in
   let w2 := (connectionstatechange host c cs_connected w1).2 in
   timers w2 = timers w ++ [(peerId, c)] /\
   timeout_callback peerId c w2 = (Normal tt, w2) /\
   (timers w = [] -> timer_expires w2 = (Normal tt, set_timers (fun _ => []) w2))).
Proof.
  intros Hc peerId. split; [|split; [|split]].
  - intros s Hlost. eexists. split; [apply connectionstatechange_lost; assumption|].
    cbn [timers trace log logs set_timers moved set_conns].
    split; [reflexivity|]. split.
    { unfold the_conn. cbn [conns log logs set_timers moved set_conns].
      rewrite list_lookup_insert_eq by exact Hc. reflexivity. }
    rewrite drop_app_length. intros (c' & ok & Hin).
    apply list_elem_of_singleton in Hin. discriminate.
  - intros s Hlost Hopen. eexists.
    split; [apply connectionstatechange_alive; assumption|].
    split; [reflexivity|]. split; [|reflexivity].
    rewrite moved_conn by exact Hc. reflexivity.
  - intros p c0 rest Hts.
    assert (Hrun : timer_expires w
                   = timeout_callback p c0 (set_timers (fun _ => rest) w)).
    { unfold timer_expires. step primitive. rewrite Hts. next. step primitive. reflexivity. }
    destruct (timeout_callback_normal p c0 (set_timers (fun _ => rest) w)) as [Hn Hts'].
    exists (timeout_callback p c0 (set_timers (fun _ => rest) w)).2.
    split; [rewrite Hrun, <- Hn; apply surjective_pairing|].
    split; [exact Hts'|].
    apply (restart_issued_iff p c0 (set_timers (fun _ => rest) w)).
  - cbn zeta.
    rewrite (connectionstatechange_lost host c cs_disconnected w Hc eq_refl). cbn [snd].
    set (w1 := log _ _).
    assert (Hc1 : c < length (conns w1))
      by (subst w1; cbn [conns log logs set_timers moved set_conns];
          rewrite length_insert; exact Hc).
    rewrite (connectionstatechange_alive host c cs_connected w1 Hc1 eq_refl)
      by discriminate.
    cbn [snd].
    assert (Hconn : connectionState (the_conn c (moved c cs_connected w1)) = cs_connected)
      by (rewrite moved_conn by exact Hc1; reflexivity).
    split; [reflexivity|]. split.
    + rewrite timeout_callback_spec, Hconn. reflexivity.
    + intros Hnone. unfold timer_expires. step primitive.
      cbn [timers moved set_conns]. subst w1. cbn [timers log logs set_timers].
      change (timers (moved c cs_disconnected w)) with (timers w).
      rewrite Hnone. cbn [app]. next. step primitive.
      rewrite timeout_callback_spec.
      match goal with
      | |- context [lost (connectionState ?x)] =>
          replace (connectionState x) with cs_connected by (symmetry; exact Hconn)
      end.
      reflexivity.
Qed.

Lemma restart_only_if_still_lost_witness :
  0 < length (conns bob_world) /\
  let w1 := (connectionstatechange quiet_host 0 cs_disconnected bob_world).2 in
  let w2 := (connectionstatechange quiet_host 0 cs_connected w1).2 in
  timers w2 = [("bob", 0)] /\
  timer_expires w2 = (Normal tt, set_timers (fun _ => []) w2) /\
  iceRestarts (the_conn 0 (timer_expires w2).2) = 0.
Proof.
  assert (Hc : 0 < length (conns bob_world)) by (vm_compute; lia).
  split; [exact Hc|].
  destruct (restart_only_if_still_lost quiet_host bob_world 0 Hc)
    as (_ & _ & _ & Htimers & _ & Hexpires).
  split; [exact Htimers|].
  split; [exact (Hexpires eq_refl)|].
  rewrite (Hexpires eq_refl). reflexivity.
Defined.

(** C7, as stated, fails on the number of timers: "bob" goes Disconnected
    and then Failed before the first delay has elapsed; two timers are then
    outstanding for him, and both issue a restart when they expire. *)
Lemma two_timers_outstanding :
  timers bob_failing = [("bob", 0); ("bob", 0)] /\
  iceRestarts (the_conn 0 bob_failing) = 0 /\
  iceRestarts (the_conn 0 (timer_expires (timer_expires bob_failing).2).2) = 2.
Proof. vm_compute. repeat split. Qed.

(** ** Outbound tracks *)

Lemma outbound_app k ss1 ss2 : outbound k (ss1 ++ ss2) = outbound k ss1 ++ outbound k ss2.
Proof.
  induction ss1 as [|s ss1 IH]; [reflexivity|].
  simpl. destruct (track s) as [t|]; [|exact IH].
  destruct (decide (kind t = k)); [rewrite IH; reflexivity|exact IH].
Qed.

Lemma outbound_none k ss :
  find_index (sends_kind k) ss = None -> outbound k ss = [].
Proof.
  intros Hnone. apply find_index_None in Hnone.
  induction ss as [|s ss IH]; [reflexivity|].
  apply Forall_cons in Hnone as [Hs Hss]. simpl. unfold sends_kind in Hs.
  destruct (track s) as [t|]; [|apply IH; exact Hss].
  apply bool_decide_eq_false in Hs. rewrite decide_False by exact Hs. apply IH. exact Hss.
Qed.

Lemma outbound_replace_first k t ss i :
  find_index (sends_kind k) ss = Some i ->
  kind t = k ->
  outbound k (<[i := mkSender (Some t)]> ss) = t :: tail (outbound k ss) /\
  forall k', k' <> k -> outbound k' (<[i := mkSender (Some t)]> ss) = outbound k' ss.
Proof.
  revert i. induction ss as [|s ss IH]; intros i Hfind Hk; [discriminate|].
  simpl in Hfind. destruct (sends_kind k s) eqn:Hs.
  - injection Hfind as <-. unfold sends_kind in Hs. simpl.
    destruct (track s) as [t0|]; [|discriminate].
    apply bool_decide_eq_true in Hs.
    rewrite (decide_True (P := kind t = k)) by exact Hk.
    rewrite (decide_True (P := kind t0 = k)) by exact Hs.
    split; [reflexivity|]. intros k' Hk'.
    rewrite !decide_False by congruence. reflexivity.
  - destruct (find_index (sends_kind k) ss) as [j|] eqn:Hj; [|discriminate].
    injection Hfind as <-. destruct (IH j eq_refl Hk) as [IH1 IH2].
    unfold sends_kind in Hs. simpl.
    destruct (track s) as [t0|].
    + apply bool_decide_eq_false in Hs.
      destruct (decide (kind t0 = k)) as [Heq|_]; [contradiction|].
      split; [exact IH1|]. intros k' Hk'.
      destruct (decide (kind t0 = k')); rewrite (IH2 k' Hk'); reflexivity.
    + split; [exact IH1|]. intros k' Hk'. apply IH2. exact Hk'.
Qed.

Lemma sync_senders_outbound t ss :
  length (outbound (kind t) (sync_senders t ss))
  = Nat.max 1 (length (outbound (kind t) ss)) /\
  head (outbound (kind t) (sync_senders t ss)) = Some t /\
  forall k, k <> kind t -> outbound k (sync_senders t ss) = outbound k ss.
Proof.
  unfold sync_senders.
  destruct (find_index (sends_kind (kind t)) ss) as [i|] eqn:Hfind.
  - destruct (outbound_replace_first (kind t) t ss i Hfind eq_refl) as [H1 H2].
    rewrite H1. split; [|split; [reflexivity|exact H2]].
    assert (Hpos : outbound (kind t) ss <> []).
    { intros Hnil. apply find_index_Some in Hfind as (s & Hs & Hk).
      clear H1 H2. revert i Hs. induction ss as [|s0 ss IH]; intros i Hs; [discriminate|].
      simpl in Hnil. destruct i as [|i].
      - injection Hs as ->. unfold sends_kind in Hk.
        destruct (track s) as [t0|]; [|discriminate].
        apply bool_decide_eq_true in Hk. rewrite decide_True in Hnil by exact Hk.
        discriminate.
      - apply (IH) with (i := i); [|exact Hs].
        destruct (track s0) as [t0|]; [|exact Hnil].
        destruct (decide (kind t0 = kind t)); [discriminate|exact Hnil]. }
    destruct (outbound (kind t) ss) as [|t0 rest]; [contradiction|]. simpl. lia.
  - rewrite outbound_app, (outbound_none _ _ Hfind). simpl.
    rewrite decide_True by reflexivity. split; [reflexivity|]. split; [reflexivity|].
    intros k Hk. rewrite outbound_app. simpl. rewrite decide_False by congruence.
    apply app_nil_r.
Qed.

Lemma sync_senders_one_per_kind t ss :
  one_per_kind ss -> one_per_kind (sync_senders t ss).
Proof.
  intros Hone k. destruct (sync_senders_outbound t ss) as (Hlen & _ & Hother).
  destruct (decide (k = kind t)) as [->|Hne].
  - rewrite Hlen. specialize (Hone (kind t)). lia.
  - rewrite (Hother k Hne). apply Hone.
Qed.

Lemma sync_senders_only_track t ss :
  one_per_kind ss -> outbound (kind t) (sync_senders t ss) = [t].
Proof.
  intros Hone. destruct (sync_senders_outbound t ss) as (Hlen & Hhead & _).
  specialize (Hone (kind t)).
  destruct (outbound (kind t) (sync_senders t ss)) as [|t0 [|t1 rest]]; simpl in *;
    [discriminate| |lia].
  injection Hhead as ->. reflexivity.
Qed.

Lemma sync_all_one_per_kind ts ss :
  one_per_kind ss -> one_per_kind (sync_all ts ss).
Proof.
  revert ss. induction ts as [|t ts IH]; intros ss Hone; [exact Hone|].
  simpl. apply IH, sync_senders_one_per_kind, Hone.
Qed.

Lemma local_senders_one_per_kind ts ss :
  one_per_kind ss -> one_per_kind (local_senders ss ts).
Proof.
  revert ss. induction ts as [|t ts IH]; intros ss Hone; [exact Hone|].
  simpl. apply IH. unfold add_if_new_kind.
  destruct (find_index (sends_kind (kind t)) ss) eqn:Hfind; [exact Hone|].
  intros k. rewrite outbound_app. specialize (Hone k). simpl.
  destruct (decide (kind t = k)) as [<-|Hne].
  - rewrite (outbound_none _ _ Hfind). simpl. lia.
  - rewrite app_nil_r. exact Hone.
Qed.

(** A relation between the world before and after that every step of a
    loop respects is respected by the loop, even when the loop is cut short
    by an exception. *)
Lemma for_of_respects {A} (R : World -> World -> Prop) (body : A -> M unit) (xs : list A) :
  (forall w, R w w) ->
  (forall w1 w2 w3, R w1 w2 -> R w2 w3 -> R w1 w3) ->
  (forall x w, R w (after (body x) w)) ->
  forall w, R w (after (for_of xs body) w).
Proof.
  intros Hrefl Htrans Hbody. induction xs as [|x xs IH]; intros w; [apply Hrefl|].
  unfold after. cbn [for_of]. unfold bind.
  specialize (Hbody x w). unfold after in Hbody.
  destruct (body x w) as [[[]|e] w1]; cbn [snd] in *.
  - apply (Htrans _ w1); [exact Hbody|apply IH].
  - exact Hbody.
Qed.

Lemma replaceTrack_same_kind i t pc s :
  signalingState pc <> closed ->
  getSenders pc !! i = Some s ->
  sends_kind (kind t) s = true ->
  Capability.replaceTrack i t pc
  = inr (Capability.set_senders (<[i := mkSender (Some t)]> (getSenders pc)) pc).
Proof.
  intros Hopen Hs Hk. unfold Capability.replaceTrack, Capability.is_closed.
  rewrite bool_decide_eq_false_2 by exact Hopen. rewrite Hs.
  destruct s as [[t0|]]; [|discriminate]. unfold sends_kind in Hk. simpl in Hk.
  apply bool_decide_eq_true in Hk. rewrite decide_True by exact Hk. reflexivity.
Qed.

Lemma sync_track_open c t w :
  c < length (conns w) ->
  signalingState (the_conn c w) <> closed ->
  sync_track c t w
  = (Normal tt,
     log (sync_effect c t (getSenders (the_conn c w)))
       (set_conns (<[c := Capability.set_senders
                            (sync_senders t (getSenders (the_conn c w))) (the_conn c w)]>) w)).
Proof.
  intros Hc Hopen. unfold sync_track, sync_senders, sync_effect. step primitive.
  destruct (find_index (sends_kind (kind t)) (getSenders (the_conn c w))) as [i|] eqn:Hfind.
  - destruct (find_index_Some _ _ _ Hfind) as (s & Hs & Hk).
    unfold replaceTrack. enter.
    { apply (invoke_returns _ _ _ _ (the_conn c w)); [reflexivity|].
      rewrite (replaceTrack_same_kind i t _ s Hopen Hs Hk). reflexivity. }
    next. reflexivity.
  - unfold addTrack.
    apply (invoke_returns _ _ _ _ (the_conn c w)); [reflexivity|].
    unfold Capability.addTrack, Capability.is_closed.
    rewrite bool_decide_eq_false_2 by exact Hopen.
    rewrite no_sender_of_kind_no_sender_of_track by exact Hfind. reflexivity.
Qed.

Lemma sync_track_closed c t w :
  signalingState (the_conn c w) = closed ->
  this (after (sync_track c t) w) = this w /\ conns (after (sync_track c t) w) = conns w.
Proof.
  intros Hclosed. unfold after, sync_track, bind, gets.
  destruct (find_index (sends_kind (kind t)) (getSenders (the_conn c w))) as [i|].
  - unfold replaceTrack, try_catch, invoke, unit_result, Capability.replaceTrack,
      Capability.is_closed.
    rewrite bool_decide_eq_true_2 by exact Hclosed. split; reflexivity.
  - unfold addTrack, invoke, unit_result, Capability.addTrack, Capability.is_closed.
    rewrite bool_decide_eq_true_2 by exact Hclosed. split; reflexivity.
Qed.

Lemma sync_track_out_of_store c t w :
  length (conns w) <= c ->
  this (after (sync_track c t) w) = this w /\ conns (after (sync_track c t) w) = conns w.
Proof.
  intros Hc. apply sync_track_closed. unfold the_conn.
  rewrite lookup_ge_None_2 by exact Hc. reflexivity.
Qed.

(** One track on one connection: the manager is untouched, and a connection
    that had at most one outbound track per kind still has. *)
Lemma sync_track_respects c t w :
  this (after (sync_track c t) w) = this w /\
  length (conns (after (sync_track c t) w)) = length (conns w) /\
  forall c', one_per_kind (getSenders (the_conn c' w)) ->
             one_per_kind (getSenders (the_conn c' (after (sync_track c t) w))).
Proof.
  destruct (decide (c < length (conns w))) as [Hc|Hc].
  - destruct (decide (signalingState (the_conn c w) = closed)) as [Hclosed|Hopen].
    + destruct (sync_track_closed c t w Hclosed) as [Hthis Hconns].
      split; [exact Hthis|]. split; [rewrite Hconns; reflexivity|].
      intros c'. unfold the_conn. rewrite Hconns. trivial.
    + unfold after. rewrite (sync_track_open c t w Hc Hopen). cbn [snd].
      split; [reflexivity|]. split; [simpl; apply length_insert|].
      intros c' Hone. destruct (decide (c = c')) as [<-|Hne].
      * rewrite the_conn_log, the_conn_insert_eq by exact Hc. simpl.
        apply sync_senders_one_per_kind. exact Hone.
      * rewrite the_conn_log, the_conn_insert_ne by exact Hne. exact Hone.
  - destruct (sync_track_out_of_store c t w ltac:(lia)) as [Hthis Hconns].
    split; [exact Hthis|]. split; [rewrite Hconns; reflexivity|].
    intros c'. unfold the_conn. rewrite Hconns. trivial.
Qed.

Lemma respects_senders_refl w : respects_senders w w.
Proof. repeat split; trivial. Qed.

Lemma respects_senders_trans w1 w2 w3 :
  respects_senders w1 w2 -> respects_senders w2 w3 -> respects_senders w1 w3.
Proof.
  intros (Hp1 & Hl1 & H1) (Hp2 & Hl2 & H2). split; [congruence|]. split; [congruence|].
  intros c Hc. apply H2, H1, Hc.
Qed.

Lemma sync_track_respects_senders c t w :
  respects_senders w (after (sync_track c t) w).
Proof.
  destruct (sync_track_respects c t w) as (Hthis & Hlen & Hone).
  split; [rewrite Hthis; reflexivity|]. split; assumption.
Qed.

Lemma setLocalStream_respects stream w :
  localStream (this (after (setLocalStream stream) w)) = Some stream /\
  peers (this (after (setLocalStream stream) w)) = peers (this w) /\
  forall c, one_per_kind (getSenders (the_conn c w)) ->
            one_per_kind (getSenders (the_conn c (after (setLocalStream stream) w))).
Proof.
  set (w0 := set_this (set_localStream (Some stream)) w).
  set (loop := for_of (peers (this w0))
                 (fun entry : string * PeerConnection =>
                    for_of (getTracks stream) (sync_track (connection entry.2)))).
  assert (Heq : setLocalStream stream w = loop w0) by reflexivity.
  unfold after. rewrite Heq.
  assert (Hloop : respects_senders w0 (after loop w0)).
  { apply for_of_respects;
      [apply respects_senders_refl|apply respects_senders_trans|].
    intros entry w'. apply for_of_respects;
      [apply respects_senders_refl|apply respects_senders_trans|].
    intros t w''. apply sync_track_respects_senders. }
  destruct Hloop as (Hpeers & _ & Hone). unfold after in *.
  assert (Hlocal : localStream (this (loop w0).2) = Some stream).
  { assert (Hkeep : forall w1, localStream (this (after loop w1)) = localStream (this w1)).
    { subst loop. generalize (peers (this w0)). intros ps.
      apply (for_of_respects (fun w1 w2 => localStream (this w2) = localStream (this w1)));
        [reflexivity|intros; congruence|].
      intros entry w1.
      apply (for_of_respects (fun w1 w2 => localStream (this w2) = localStream (this w1)));
        [reflexivity|intros; congruence|].
      intros t w2. destruct (sync_track_respects (connection entry.2) t w2) as (-> & _).
      reflexivity. }
    pose proof (Hkeep w0) as Hk. unfold after in Hk. rewrite Hk. reflexivity. }
  split; [exact Hlocal|]. split; [rewrite Hpeers; reflexivity|].
  intros c Hc. apply Hone. exact Hc.
Qed.

Lemma sync_tracks_open c ts w :
  c < length (conns w) ->
  signalingState (the_conn c w) <> closed ->
  exists es,
    for_of ts (sync_track c) w
    = (Normal tt,
       logs es (set_conns (<[c := Capability.set_senders
                                    (sync_all ts (getSenders (the_conn c w)))
                                    (the_conn c w)]>) w)).
Proof.
  revert w. induction ts as [|t ts IH]; intros w Hc Hopen.
  - exists []. simpl. unfold ret. f_equal. world_eq; [|symmetry; apply app_nil_r].
    rewrite set_senders_same. symmetry. apply list_insert_id, the_conn_lookup, Hc.
  - cbn [for_of].
    destruct (IH (log (sync_effect c t (getSenders (the_conn c w)))
                    (set_conns (<[c := Capability.set_senders
                                         (sync_senders t (getSenders (the_conn c w)))
                                         (the_conn c w)]>) w)))
      as [es Hes].
    { simpl. rewrite length_insert. exact Hc. }
    { rewrite the_conn_log, the_conn_insert_eq by exact Hc. exact Hopen. }
    exists (sync_effect c t (getSenders (the_conn c w)) :: es).
    step ltac:(apply sync_track_open; assumption).
    rewrite Hes. rewrite the_conn_log, the_conn_insert_eq by exact Hc.
    f_equal. world_eq.
    + rewrite list_insert_insert_eq. reflexivity.
    + rewrite <- app_assoc. reflexivity.
Qed.

Lemma sync_peers_open ts (ps : PeerMap.t) w :
  Forall (fun entry : string * PeerConnection =>
            connection entry.2 < length (conns w) /\
            signalingState (the_conn (connection entry.2) w) <> closed) ps ->
  NoDup (map (fun entry : string * PeerConnection => connection entry.2) ps) ->
  exists w',
    for_of ps (fun entry => for_of ts (sync_track (connection entry.2))) w = (Normal tt, w') /\
    length (conns w') = length (conns w) /\
    (forall c, signalingState (the_conn c w') = signalingState (the_conn c w)) /\
    (forall c, c ∈ map (fun entry : string * PeerConnection => connection entry.2) ps ->
       getSenders (the_conn c w') = sync_all ts (getSenders (the_conn c w))) /\
    (forall c, c ∉ map (fun entry : string * PeerConnection => connection entry.2) ps ->
       the_conn c w' = the_conn c w).
Proof.
  revert w. induction ps as [|[k p] ps IH]; intros w Hopen Hnd.
  - exists w. split; [reflexivity|]. split; [reflexivity|]. split; [reflexivity|].
    split; [|reflexivity]. intros c Hc. apply elem_of_nil in Hc. contradiction.
  - apply Forall_cons in Hopen as [[Hc0 Hopen0] Hopen].
    cbn [map snd] in Hnd. apply NoDup_cons in Hnd as [Hfresh Hnd].
    cbn [snd] in Hc0, Hopen0.
    destruct (sync_tracks_open (connection p) ts w Hc0 Hopen0) as [es Hes].
    set (w1 := logs es _) in Hes.
    assert (Hconn_eq : the_conn (connection p) w1
              = Capability.set_senders (sync_all ts (getSenders (the_conn (connection p) w)))
                  (the_conn (connection p) w))
      by (subst w1; rewrite the_conn_logs, the_conn_insert_eq by exact Hc0; reflexivity).
    assert (Hconn_ne : forall c, c <> connection p -> the_conn c w1 = the_conn c w).
    { intros c Hne. subst w1. rewrite the_conn_logs, the_conn_insert_ne by congruence.
      reflexivity. }
    assert (Hlen1 : length (conns w1) = length (conns w))
      by (subst w1; simpl; apply length_insert).
    assert (Hstate1 : forall c, signalingState (the_conn c w1) = signalingState (the_conn c w)).
    { intros c. destruct (decide (c = connection p)) as [->|Hne].
      - rewrite Hconn_eq. reflexivity.
      - rewrite Hconn_ne by exact Hne. reflexivity. }
    destruct (IH w1) as (w' & Hrun & Hlen & Hstate & Hin & Hout).
    { eapply Forall_impl; [exact Hopen|]. intros [k' p'] [Hc Ho]. cbn [snd] in *.
      rewrite Hlen1, Hstate1. split; assumption. }
    { exact Hnd. }
    exists w'. split.
    { cbn [for_of]. step ltac:(exact Hes). exact Hrun. }
    split; [congruence|]. split; [intros c; rewrite Hstate; apply Hstate1|].
    split.
    + intros c Hc. cbn [map snd] in Hc. apply elem_of_cons in Hc as [->|Hc].
      * rewrite (Hout (connection p) Hfresh), Hconn_eq. reflexivity.
      * rewrite (Hin c Hc). rewrite Hconn_ne; [reflexivity|].
        intros ->. contradiction.
    + intros c Hc. cbn [map snd] in Hc. apply not_elem_of_cons in Hc as [Hne Hc].
      rewrite (Hout c Hc). apply Hconn_ne. exact Hne.
Qed.

Lemma sync_senders_length t ss :
  length (sync_senders t ss)
  = match find_index (sends_kind (kind t)) ss with
    | Some _ => length ss
    | None => S (length ss)
    end.
Proof.
  unfold sync_senders. destruct (find_index (sends_kind (kind t)) ss).
  - apply length_insert.
  - rewrite length_app. simpl. lia.
Qed.


(** ** What holds at every instant *)

Lemma keeps_ret {A} (P : World -> Prop) (a : A) : keeps P (ret a).
Proof. intros w Hw. exact Hw. Qed.

Lemma keeps_gets {A} (P : World -> Prop) (f : World -> A) : keeps P (gets f).
Proof. intros w Hw. exact Hw. Qed.

Lemma keeps_throw {A} (P : World -> Prop) e : keeps P (@throw A e).
Proof. intros w Hw. exact Hw. Qed.

Lemma keeps_modify (P : World -> Prop) f :
  (forall w, P w -> P (f w)) -> keeps P (modify f).
Proof. intros Hf w Hw. apply Hf, Hw. Qed.

Lemma keeps_bind {A B} (P : World -> Prop) (m : M A) (k : A -> M B) :
  keeps P m -> (forall a, keeps P (k a)) -> keeps P (bind m k).
Proof.
  intros Hm Hk w Hw. unfold bind. specialize (Hm w Hw).
  destruct (m w) as [[a|e] w1]; cbn [snd] in *; [apply Hk, Hm|exact Hm].
Qed.

Lemma keeps_try_catch {A} (P : World -> Prop) (m : M A) (h : DOMException -> M A) :
  keeps P m -> (forall e, keeps P (h e)) -> keeps P (try_catch m h).
Proof.
  intros Hm Hh w Hw. unfold try_catch. specialize (Hm w Hw).
  destruct (m w) as [[a|e] w1]; cbn [snd] in *; [exact Hm|apply Hh, Hm].
Qed.

Lemma keeps_when (P : World -> Prop) b m : keeps P m -> keeps P (when b m).
Proof. intros Hm. destruct b; [exact Hm|apply keeps_ret]. Qed.

Lemma keeps_for_of {A} (P : World -> Prop) (body : A -> M unit) xs :
  (forall x, keeps P (body x)) -> keeps P (for_of xs body).
Proof.
  intros Hbody. induction xs as [|x xs IH]; [apply keeps_ret|].
  cbn [for_of]. apply keeps_bind; [apply Hbody|intros _; exact IH].
Qed.

(** The three properties survive any step that leaves [peers] alone, does
    not shrink the store, keeps the senders of every connection and closes
    none. *)
Lemma well_kept_step w w' :
  peers (this w') = peers (this w) ->
  length (conns w) <= length (conns w') ->
  (forall c, getSenders (the_conn c w') = getSenders (the_conn c w)) ->
  (forall c, signalingState (the_conn c w) <> closed ->
             signalingState (the_conn c w') <> closed) ->
  well_kept w -> well_kept w'.
Proof.
  intros Hpeers Hlen Hsenders Hstate (Huniq & Hsingle & Hopen & Hnd).
  split; [|split; [|split]].
  - unfold unique_sessions. rewrite Hpeers. exact Huniq.
  - intros c. rewrite Hsenders. apply Hsingle.
  - rewrite Hpeers. eapply Forall_impl; [exact Hopen|].
    intros entry [Hc Ho]. split; [lia|apply Hstate, Ho].
  - rewrite Hpeers. exact Hnd.
Qed.

Lemma senders_after_update c c' pc' w :
  getSenders pc' = getSenders (the_conn c w) ->
  getSenders (the_conn c' (set_conns (<[c := pc']>) w)) = getSenders (the_conn c' w).
Proof.
  intros Hsame. destruct (decide (c = c')) as [<-|Hne].
  - destruct (decide (c < length (conns w))) as [Hc|Hc].
    + rewrite the_conn_insert_eq by exact Hc. exact Hsame.
    + unfold the_conn. simpl. rewrite list_insert_ge by lia. reflexivity.
  - rewrite the_conn_insert_ne by exact Hne. reflexivity.
Qed.

Lemma open_after_update c c' pc' w :
  (signalingState (the_conn c w) <> closed -> signalingState pc' <> closed) ->
  signalingState (the_conn c' w) <> closed ->
  signalingState (the_conn c' (set_conns (<[c := pc']>) w)) <> closed.
Proof.
  intros Hsame Hopen. destruct (decide (c = c')) as [<-|Hne].
  - destruct (decide (c < length (conns w))) as [Hc|Hc].
    + rewrite the_conn_insert_eq by exact Hc. apply Hsame, Hopen.
    + unfold the_conn. simpl. rewrite list_insert_ge by lia. exact Hopen.
  - rewrite the_conn_insert_ne by exact Hne. exact Hopen.
Qed.

Lemma keeps_invoke_quiet {A} c op
    (f : RTCPeerConnection -> DOMException + (A * RTCPeerConnection)) :
  quiet f -> keeps well_kept (invoke c op f).
Proof.
  intros Hf w Hw. unfold invoke. destruct (f (the_conn c w)) as [e|[a pc']] eqn:Hrun.
  - exact Hw.
  - cbn [snd]. destruct (Hf _ _ _ Hrun) as [Hsenders Hstate].
    apply (well_kept_step w); [reflexivity| | | |exact Hw].
    + simpl. rewrite length_insert. lia.
    + intros c'. rewrite the_conn_log. apply senders_after_update. exact Hsenders.
    + intros c'. rewrite the_conn_log. apply open_after_update. exact Hstate.
Qed.

Lemma quiet_setLocalDescription d :
  quiet (fun pc => unit_result (Capability.setLocalDescription d pc)).
Proof.
  intros pc [] pc'. unfold Capability.setLocalDescription.
  destruct (sdp_type d), (signalingState pc); cbn; intros [= <-];
    (split; [reflexivity|intros _; discriminate]).
Qed.

Lemma quiet_setRemoteDescription host d :
  quiet (fun pc => unit_result (Capability.setRemoteDescription host d pc)).
Proof.
  intros pc [] pc'. unfold Capability.setRemoteDescription.
  destruct (sdp_type d), (signalingState pc), (accepts_description host d); cbn;
    intros [= <-]; (split; [reflexivity|intros _; discriminate]).
Qed.

Lemma quiet_addIceCandidate host ci :
  quiet (fun pc => unit_result (Capability.addIceCandidate host ci pc)).
Proof.
  intros pc [] pc'. unfold Capability.addIceCandidate. destruct ci as [ci|]; [|discriminate].
  destruct (sdpMid ci), (sdpMLineIndex ci), (Capability.is_closed pc), (remoteDescription pc),
    (accepts_candidate host ci); cbn; intros [= <-]; (split; [reflexivity|trivial]).
Qed.

Lemma quiet_createOffer host : quiet (Capability.createOffer host).
Proof.
  intros pc a pc'. unfold Capability.createOffer.
  destruct (signalingState pc) eqn:Hstate; intros [= _ <-];
    (split; [reflexivity|rewrite Hstate; trivial]).
Qed.

Lemma quiet_createAnswer host : quiet (Capability.createAnswer host).
Proof.
  intros pc a pc'. unfold Capability.createAnswer.
  destruct (signalingState pc) eqn:Hstate; intros [= _ <-];
    (split; [reflexivity|rewrite Hstate; trivial]).
Qed.

Lemma quiet_createDataChannel c lbl : quiet (Capability.createDataChannel c lbl).
Proof.
  intros pc a pc'. unfold Capability.createDataChannel.
  destruct (Capability.is_closed pc); intros [= _ <-]; (split; [reflexivity|trivial]).
Qed.

Lemma quiet_restartIce :
  quiet (fun pc => @inr DOMException _ (tt, Capability.restartIce pc)).
Proof.
  intros pc a pc' [= _ <-]. unfold Capability.restartIce.
  destruct (Capability.is_closed pc); (split; [reflexivity|trivial]).
Qed.

Lemma keeps_setLocalDescription c d : keeps well_kept (setLocalDescription c d).
Proof. apply keeps_invoke_quiet, quiet_setLocalDescription. Qed.

Lemma keeps_setRemoteDescription host c d : keeps well_kept (setRemoteDescription host c d).
Proof. apply keeps_invoke_quiet, quiet_setRemoteDescription. Qed.

Lemma keeps_addIceCandidate host c ci : keeps well_kept (addIceCandidate host c ci).
Proof. apply keeps_invoke_quiet, quiet_addIceCandidate. Qed.

Lemma keeps_createOffer host c : keeps well_kept (createOffer host c).
Proof. apply keeps_invoke_quiet, quiet_createOffer. Qed.

Lemma keeps_createAnswer host c : keeps well_kept (createAnswer host c).
Proof. apply keeps_invoke_quiet, quiet_createAnswer. Qed.

Lemma keeps_capability_restartIce c : keeps well_kept (capability_restartIce c).
Proof. apply keeps_invoke_quiet, quiet_restartIce. Qed.

Lemma keeps_same_peers_and_conns (f : World -> World) :
  (forall w, peers (this (f w)) = peers (this w)) ->
  (forall w, conns (f w) = conns w) ->
  keeps well_kept (modify f).
Proof.
  intros Hpeers Hconns. apply keeps_modify. intros w.
  apply well_kept_step; [apply Hpeers|rewrite Hconns; lia| |];
    intros c; unfold the_conn; rewrite Hconns; trivial.
Qed.

Lemma keeps_console_error msg : keeps well_kept (console_error msg).
Proof. apply keeps_same_peers_and_conns; reflexivity. Qed.

Lemma keeps_log e : keeps well_kept (modify (log e)).
Proof. apply keeps_same_peers_and_conns; reflexivity. Qed.

Lemma keeps_onEvent l : keeps well_kept (onEvent l).
Proof. apply keeps_same_peers_and_conns; reflexivity. Qed.

Lemma keeps_offEvent l : keeps well_kept (offEvent l).
Proof. apply keeps_same_peers_and_conns; reflexivity. Qed.

Lemma keeps_emitEvent host event : keeps well_kept (emitEvent host event).
Proof.
  intros w Hw. destruct (emitEvent_frame host event w) as (ls & ds & -> & _).
  cbn [snd]. apply (well_kept_step w); trivial.
Qed.

(** *** Changes of [peers] *)

Lemma elem_of_delete k (m : PeerMap.t) entry :
  entry ∈ PeerMap.delete k m -> entry ∈ m /\ entry.1 <> k.
Proof.
  induction m as [|[k0 v0] m IH]; simpl; [intros H; apply elem_of_nil in H; contradiction|].
  destruct (decide (k0 = k)) as [->|Hne].
  - intros H. destruct (IH H) as [Hin Hk]. split; [apply elem_of_cons; right; exact Hin|exact Hk].
  - intros H. apply elem_of_cons in H as [->|H].
    + split; [apply elem_of_cons; left; reflexivity|exact Hne].
    + destruct (IH H) as [Hin Hk]. split; [apply elem_of_cons; right; exact Hin|exact Hk].
Qed.

Lemma NoDup_connections_delete k (m : PeerMap.t) :
  NoDup (map (fun entry : string * PeerConnection => connection entry.2) m) ->
  NoDup (map (fun entry : string * PeerConnection => connection entry.2) (PeerMap.delete k m)).
Proof.
  induction m as [|[k0 v0] m IH]; simpl; [trivial|].
  intros Hnd. apply NoDup_cons in Hnd as [Hnotin Hnd].
  destruct (decide (k0 = k)) as [->|Hne]; [apply IH, Hnd|].
  simpl. apply NoDup_cons. split; [|apply IH, Hnd].
  intros Hin. apply Hnotin.
  apply list_elem_of_In, in_map_iff in Hin as (entry & Hentry & Hin).
  apply list_elem_of_In, elem_of_delete in Hin as [Hin _].
  apply list_elem_of_In, in_map_iff. exists entry. split; [exact Hentry|].
  apply list_elem_of_In. exact Hin.
Qed.

Lemma connections_tell_apart (m : PeerMap.t) e1 e2 :
  NoDup (map (fun entry : string * PeerConnection => connection entry.2) m) ->
  e1 ∈ m -> e2 ∈ m -> connection e1.2 = connection e2.2 -> e1 = e2.
Proof.
  induction m as [|e m IH]; intros Hnd H1 H2 Heq;
    [apply elem_of_nil in H1; contradiction|].
  simpl in Hnd. apply NoDup_cons in Hnd as [Hnotin Hnd].
  assert (Hmem : forall x, x ∈ m ->
            connection x.2 ∈ map (fun entry : string * PeerConnection => connection entry.2) m).
  { intros x Hx. apply list_elem_of_In, in_map_iff. exists x.
    split; [reflexivity|apply list_elem_of_In; exact Hx]. }
  apply elem_of_cons in H1 as [->|H1]; apply elem_of_cons in H2 as [->|H2].
  - reflexivity.
  - exfalso. apply Hnotin. rewrite Heq. apply Hmem, H2.
  - exfalso. apply Hnotin. rewrite <- Heq. apply Hmem, H1.
  - apply IH; assumption.
Qed.

Lemma elem_of_set k v (m : PeerMap.t) entry :
  entry ∈ PeerMap.set k v m -> entry = (k, v) \/ entry ∈ m.
Proof.
  induction m as [|[k0 v0] m IH]; simpl.
  - intros H. apply list_elem_of_singleton in H. left. exact H.
  - destruct (decide (k0 = k)) as [->|Hne]; intros H; apply elem_of_cons in H as [->|H].
    + left. reflexivity.
    + right. apply elem_of_cons. right. exact H.
    + right. apply elem_of_cons. left. reflexivity.
    + destruct (IH H) as [->|Hin]; [left; reflexivity|].
      right. apply elem_of_cons. right. exact Hin.
Qed.

Lemma NoDup_connections_set_fresh k v (m : PeerMap.t) :
  NoDup (map (fun entry : string * PeerConnection => connection entry.2) m) ->
  connection v ∉ map (fun entry : string * PeerConnection => connection entry.2) m ->
  NoDup (map (fun entry : string * PeerConnection => connection entry.2) (PeerMap.set k v m)).
Proof.
  induction m as [|[k0 v0] m IH]; simpl; intros Hnd Hfresh.
  - apply NoDup_singleton.
  - apply NoDup_cons in Hnd as [Hnotin Hnd]. apply not_elem_of_cons in Hfresh as [Hne Hfresh].
    destruct (decide (k0 = k)) as [->|Hk]; simpl.
    + apply NoDup_cons. split; assumption.
    + apply NoDup_cons. split; [|apply IH; assumption].
      intros Hin. apply list_elem_of_In, in_map_iff in Hin as (entry & Hentry & Hin).
      apply list_elem_of_In, elem_of_set in Hin as [->|Hin].
      * simpl in Hentry. congruence.
      * apply Hnotin. apply list_elem_of_In, in_map_iff. exists entry.
        split; [exact Hentry|apply list_elem_of_In; exact Hin].
Qed.

Lemma connections_set_same k v p (m : PeerMap.t) :
  PeerMap.get k m = Some p ->
  connection v = connection p ->
  map (fun entry : string * PeerConnection => connection entry.2) (PeerMap.set k v m)
  = map (fun entry : string * PeerConnection => connection entry.2) m.
Proof.
  intros Hget Hsame. induction m as [|[k0 v0] m IH]; simpl in *; [discriminate|].
  destruct (decide (k0 = k)) as [->|Hne]; simpl.
  - injection Hget as ->. rewrite Hsame. reflexivity.
  - rewrite (IH Hget). reflexivity.
Qed.

Lemma keeps_update_peer peerId f :
  (forall p, connection (f p) = connection p) ->
  keeps well_kept (update_peer peerId f).
Proof.
  intros Hf. apply keeps_modify. intros w (Huniq & Hsingle & Hopen & Hnd).
  destruct (PeerMap.get peerId (peers (this w))) as [p|] eqn:Hget.
  - split; [|split; [|split]].
    + unfold unique_sessions. simpl. rewrite Hget. apply NoDup_keys_set, Huniq.
    + exact Hsingle.
    + simpl. rewrite Hget. apply Forall_forall. intros entry Hentry.
      apply elem_of_set in Hentry as [->|Hentry].
      * simpl. rewrite Hf.
        apply (proj1 (Forall_forall _ _) Hopen (peerId, p)), get_Some_elem, Hget.
      * apply (proj1 (Forall_forall _ _) Hopen entry Hentry).
    + simpl. rewrite Hget. rewrite (connections_set_same peerId (f p) p); [exact Hnd|exact Hget|apply Hf].
  - assert (Hsame : set_this (set_peers (fun ps =>
               match PeerMap.get peerId ps with
               | Some p => PeerMap.set peerId (f p) ps
               | None => ps
               end)) w = w).
    { world_eq. rewrite Hget. reflexivity. }
    rewrite Hsame. repeat split; assumption.
Qed.

(** *** [removePeer] and [createPeer] as wholes *)

Lemma keeps_removePeer host peerId : keeps well_kept (removePeer host peerId).
Proof.
  intros w Hw. destruct (PeerMap.get peerId (peers (this w))) as [peer|] eqn:Hget.
  - destruct (removePeer_frame host peerId peer w Hget) as (ls & ds & -> & _). cbn [snd].
    destruct Hw as (Huniq & Hsingle & Hopen & Hnd).
    split; [|split; [|split]].
    + unfold unique_sessions. simpl. apply NoDup_keys_delete, Huniq.
    + intros c. unfold relisten, dropped.
      rewrite the_conn_set_this, !the_conn_logs, the_conn_set_this.
      rewrite senders_after_update by reflexivity. apply Hsingle.
    + simpl. apply Forall_forall. intros entry Hentry.
      apply elem_of_delete in Hentry as [Hentry Hkey].
      destruct (proj1 (Forall_forall _ _) Hopen entry Hentry) as [Hc Ho].
      split; [rewrite length_insert; exact Hc|].
      assert (Hne : connection entry.2 <> connection peer).
      { intros Heq. apply Hkey.
        rewrite (connections_tell_apart _ entry (peerId, peer) Hnd Hentry
                   (get_Some_elem _ _ _ Hget) Heq). reflexivity. }
      change (signalingState (the_conn (connection entry.2)
                (set_conns (<[connection peer :=
                   Capability.close (the_conn (connection peer) w)]>) w)) <> closed).
      rewrite the_conn_insert_ne by congruence. exact Ho.
    + simpl. apply NoDup_connections_delete, Hnd.
  - rewrite removePeer_absent by exact Hget. exact Hw.
Qed.

Lemma well_kept_created w peerId peer pc tr :
  well_kept w ->
  connection peer = length (conns w) ->
  signalingState pc <> closed ->
  one_per_kind (getSenders pc) ->
  well_kept {| this := set_peers (PeerMap.set peerId peer) (this w);
               conns := conns w ++ [pc];
               timers := timers w; ended := ended w; socketId := socketId w;
               trace := tr |}.
Proof.
  intros (Huniq & Hsingle & Hopen & Hnd) Hconn Hstate Hone.
  assert (Hold : forall c m ti en so tr', c < length (conns w) ->
            the_conn c (mkWorld m (conns w ++ [pc]) ti en so tr') = the_conn c w).
  { intros. unfold the_conn. simpl. rewrite lookup_app_l by assumption. reflexivity. }
  assert (Hnew : forall m ti en so tr',
            the_conn (length (conns w)) (mkWorld m (conns w ++ [pc]) ti en so tr') = pc).
  { intros. unfold the_conn. simpl. rewrite lookup_app_r by lia.
    rewrite Nat.sub_diag. reflexivity. }
  split; [|split; [|split]].
  - unfold unique_sessions. simpl. apply NoDup_keys_set, Huniq.
  - intros c. destruct (decide (c < length (conns w))) as [Hc|Hc].
    + rewrite Hold by exact Hc. apply Hsingle.
    + destruct (decide (c = length (conns w))) as [->|Hne].
      * rewrite Hnew. exact Hone.
      * unfold the_conn. simpl. rewrite lookup_ge_None_2
          by (rewrite length_app; simpl; lia).
        intros k. simpl. lia.
  - simpl. apply Forall_forall. intros entry Hentry.
    apply elem_of_set in Hentry as [->|Hentry].
    + simpl. rewrite Hconn, length_app, Hnew. split; [simpl; lia|exact Hstate].
    + destruct (proj1 (Forall_forall _ _) Hopen entry Hentry) as [Hc Ho].
      rewrite length_app, Hold by exact Hc. split; [lia|exact Ho].
  - simpl. apply NoDup_connections_set_fresh; [exact Hnd|].
    rewrite Hconn. intros Hin.
    apply list_elem_of_In, in_map_iff in Hin as (entry & Hentry & Hin).
    apply list_elem_of_In in Hin.
    destruct (proj1 (Forall_forall _ _) Hopen entry Hin) as [Hc _]. lia.
Qed.

Lemma keeps_create_fresh host peerId isInitiator :
  keeps well_kept (create_fresh host peerId isInitiator).
Proof.
  intros w Hw. destruct isInitiator.
  - rewrite create_fresh_initiator. cbn [snd].
    apply well_kept_created; [exact Hw|reflexivity|discriminate|].
    apply local_senders_one_per_kind. intros k. simpl. lia.
  - rewrite create_fresh_responder. cbn [snd].
    apply well_kept_created; [exact Hw|reflexivity|discriminate|].
    apply local_senders_one_per_kind. intros k. simpl. lia.
Qed.

Ltac keep_step :=
  lazymatch goal with
  | |- keeps _ (bind _ _) => apply keeps_bind; [|intros ?]
  | |- keeps _ (try_catch _ _) => apply keeps_try_catch; [|intros ?]
  | |- keeps _ (when _ _) => apply keeps_when
  | |- keeps _ (for_of _ _) => apply keeps_for_of; intros ?
  | |- keeps _ (ret _) => apply keeps_ret
  | |- keeps _ (gets _) => apply keeps_gets
  | |- keeps _ (throw _) => apply keeps_throw
  | |- keeps _ (console_error _) => apply keeps_console_error
  | |- keeps _ (modify (log _)) => apply keeps_log
  | |- keeps _ (update_peer _ _) => apply keeps_update_peer; reflexivity
  | |- keeps _ (emitEvent _ _) => apply keeps_emitEvent
  | |- keeps _ (removePeer _ _) => apply keeps_removePeer
  | |- keeps _ (create_fresh _ _ _) => apply keeps_create_fresh
  | |- keeps _ (setLocalDescription _ _) => apply keeps_setLocalDescription
  | |- keeps _ (setRemoteDescription _ _ _) => apply keeps_setRemoteDescription
  | |- keeps _ (addIceCandidate _ _ _) => apply keeps_addIceCandidate
  | |- keeps _ (createOffer _ _) => apply keeps_createOffer
  | |- keeps _ (createAnswer _ _) => apply keeps_createAnswer
  | |- keeps _ (capability_restartIce _) => apply keeps_capability_restartIce
  | |- keeps _ (match ?x with _ => _ end) => destruct x
  end.

Ltac keep := repeat keep_step.

Lemma keeps_createPeer host peerId isInitiator :
  keeps well_kept (createPeer host peerId isInitiator).
Proof. unfold createPeer, get_peer. keep. Qed.

Lemma keeps_flushPendingIce host from : keeps well_kept (flushPendingIce host from).
Proof. unfold flushPendingIce, get_peer. keep. Qed.

Lemma keeps_onWebRTCOffer host offer from : keeps well_kept (onWebRTCOffer host offer from).
Proof.
  unfold onWebRTCOffer, has_peer, get_peer, getSocketId.
  keep; first [apply keeps_createPeer|apply keeps_flushPendingIce].
Qed.

Lemma keeps_onWebRTCAnswer host answer from : keeps well_kept (onWebRTCAnswer host answer from).
Proof. unfold onWebRTCAnswer, get_peer. keep. apply keeps_flushPendingIce. Qed.

Lemma keeps_onWebRTCIceCandidate host candidate from :
  keeps well_kept (onWebRTCIceCandidate host candidate from).
Proof. unfold onWebRTCIceCandidate, get_peer. keep. Qed.

Lemma keeps_restartIce peerId : keeps well_kept (restartIce peerId).
Proof. unfold restartIce, get_peer. keep. Qed.

Lemma keeps_timer_expires : keeps well_kept timer_expires.
Proof.
  unfold timer_expires, timeout_callback. keep.
  - apply keeps_same_peers_and_conns; reflexivity.
  - apply keeps_restartIce.
Qed.

Lemma keeps_connectionstatechange host c state :
  keeps well_kept (connectionstatechange host c state).
Proof.
  unfold connectionstatechange, onconnectionstatechange. keep.
  - apply keeps_modify. intros w. unfold moved.
    apply well_kept_step; [reflexivity|simpl; rewrite length_insert; lia| |].
    + intros c'. apply senders_after_update. reflexivity.
    + intros c'. apply open_after_update. trivial.
  - apply keeps_same_peers_and_conns; reflexivity.
Qed.

Lemma keeps_sync_track c t : keeps well_kept (sync_track c t).
Proof.
  intros w Hw.
  destruct (decide (c < length (conns w) /\ signalingState (the_conn c w) <> closed))
    as [[Hc Hopen]|Hno].
  - rewrite (sync_track_open c t w Hc Hopen). cbn [snd].
    destruct Hw as (Huniq & Hsingle & Ho & Hnd).
    split; [exact Huniq|]. split; [|split; [|exact Hnd]].
    + intros c'. rewrite the_conn_log. destruct (decide (c = c')) as [<-|Hne].
      * rewrite the_conn_insert_eq by exact Hc. simpl.
        apply sync_senders_one_per_kind, Hsingle.
      * rewrite the_conn_insert_ne by exact Hne. apply Hsingle.
    + simpl. eapply Forall_impl; [exact Ho|]. intros entry [Hc' Ho'].
      split; [rewrite length_insert; exact Hc'|].
      change (signalingState (the_conn (connection entry.2)
                (set_conns (<[c := Capability.set_senders
                   (sync_senders t (getSenders (the_conn c w))) (the_conn c w)]>) w)) <> closed).
      apply open_after_update; [trivial|exact Ho'].
  - assert (Hsame : this (after (sync_track c t) w) = this w
                    /\ conns (after (sync_track c t) w) = conns w).
    { destruct (decide (c < length (conns w))) as [Hc|Hc].
      - apply sync_track_closed. destruct (decide (signalingState (the_conn c w) = closed));
          [assumption|]. exfalso. apply Hno. split; assumption.
      - apply sync_track_out_of_store. lia. }
    destruct Hsame as [Hthis Hconns]. unfold after in *.
    apply (well_kept_step w); [rewrite Hthis; reflexivity|rewrite Hconns; lia| | |exact Hw];
      intros c'; unfold the_conn; rewrite Hconns; trivial.
Qed.

Lemma keeps_setLocalStream stream : keeps well_kept (setLocalStream stream).
Proof.
  unfold setLocalStream. keep.
  - apply keeps_same_peers_and_conns; reflexivity.
  - apply keeps_sync_track.
Qed.

Lemma close_all_senders cs st c :
  getSenders (default (Capability.close (new_RTCPeerConnection "")) (close_all cs st !! c))
  = getSenders (default (Capability.close (new_RTCPeerConnection "")) (st !! c)).
Proof.
  revert st. induction cs as [|c0 cs IH]; intros st; [reflexivity|].
  simpl. rewrite IH. destruct (decide (c0 = c)) as [->|Hne].
  - destruct (decide (c < length st)) as [Hc|Hc].
    + rewrite list_lookup_insert_eq by exact Hc. reflexivity.
    + rewrite list_insert_ge by lia. reflexivity.
  - rewrite list_lookup_insert_ne by exact Hne. reflexivity.
Qed.

Lemma keeps_cleanup : keeps well_kept cleanup.
Proof.
  intros w (Huniq & Hsingle & _). rewrite cleanup_spec. cbn [snd].
  split; [|split; [|split]].
  - unfold unique_sessions. simpl. apply NoDup_nil_2.
  - intros c. unfold the_conn. cbn [conns]. rewrite close_all_senders. apply Hsingle.
  - simpl. constructor.
  - simpl. apply NoDup_nil_2.
Qed.

Lemma keeps_react_to host i : keeps well_kept (react_to host i).
Proof.
  destruct i; cbn [react_to].
  - apply keeps_bind; [apply keeps_createPeer|intros _; apply keeps_ret].
  - apply keeps_removePeer.
  - apply keeps_setLocalStream.
  - apply keeps_cleanup.
  - apply keeps_onEvent.
  - apply keeps_offEvent.
  - apply keeps_onWebRTCOffer.
  - apply keeps_onWebRTCAnswer.
  - apply keeps_onWebRTCIceCandidate.
  - apply keeps_connectionstatechange.
  - apply keeps_timer_expires.
Qed.

(** Whatever is called, received or fired, in whatever order: no key of
    [peers] ever occurs twice, no connection ever sends two tracks of one
    kind, and every session sits on an open connection of its own. *)
Lemma well_kept_always host inputs w :
  well_kept w -> well_kept (run host inputs w).
Proof.
  revert w. induction inputs as [|i rest IH]; intros w Hw; [exact Hw|].
  cbn [run]. apply IH, keeps_react_to, Hw.
Qed.

Lemma well_kept_at_start userId roomId socket : well_kept (start userId roomId socket).
Proof.
  split; [|split; [|split]].
  - apply NoDup_nil_2.
  - intros c k. unfold the_conn. simpl. destruct c; simpl; lia.
  - constructor.
  - apply NoDup_nil_2.
Qed.

(** ** [createPeer] for a peer that has a session *)

(** C4 (as amended). Whatever has been called, received or fired since the
    manager was built, the keys of [peers] do not repeat and every session
    sits on an open connection of its own, and [createPeer] keeps the keys
    so.  For a peer that already has a session: when the session is
    healthy (signaling stable, connectivity Connected) it is returned and
    nothing changes; when it is stale, which the code takes to mean
    signaling closed or connectivity Failed or Disconnected, its connection
    is closed, the session is dropped with a [peerRemoved] event, and a
    session on a new connection takes its place under the same key; in
    every other state the existing session is returned and nothing
    changes, so no second negotiation starts. *)
Theorem createPeer_existing (host : Host) (w : World) (peerId : string)
    (isInitiator : bool) (existing : PeerConnection) :
  PeerMap.get peerId (peers (this w)) = Some existing ->
  connection existing < length (conns w) ->
  NoDup (PeerMap.keys (peers (this w))) ->
  let pc := the_conn (connection existing) w in
  let fresh := fresh_peer isInitiator peerId (length (conns w)) in
  (forall userId roomId socket inputs,
     unique_sessions (run host inputs (start userId roomId socket)) /\
     sessions_open (run host inputs (start userId roomId socket))) /\
  NoDup (PeerMap.keys (peers (this (createPeer host peerId isInitiator w).2))) /\
  (healthy pc -> createPeer host peerId isInitiator w = (Normal existing, w)) /\
  (stale pc ->
     exists w',
       createPeer host peerId isInitiator w = (Normal fresh, w') /\
       PeerMap.get peerId (peers (this w')) = Some fresh /\
       connection fresh <> connection existing /\
       closed_at (connection existing) w' /\
       signalingState (the_conn (connection fresh) w')
       = (if isInitiator then have_local_offer else stable) /\
       Emit (ev_peerRemoved peerId) ∈ drop (length (trace w)) (trace w')) /\
  (~ healthy pc -> ~ stale pc -> createPeer host peerId isInitiator w = (Normal existing, w)).
Proof.
  intros Hget Hc Hnd pc fresh.
  split.
  { intros userId roomId socket inputs.
    destruct (well_kept_always host inputs _ (well_kept_at_start userId roomId socket))
      as (Huniq & _ & Hopen).
    split; [exact Huniq|exact Hopen]. }
  split; [apply createPeer_unique_keys; exact Hnd|].
  split; [apply createPeer_healthy; exact Hget|].
  split; [|apply createPeer_not_ready; exact Hget].
  intros Hstale.
  rewrite (createPeer_stale host peerId isInitiator existing w Hget Hstale).
  destruct (removePeer_frame host peerId existing w Hget) as (ls & ds & Hrm & _).
  rewrite (run_bind _ _ _ _ Hrm). next.
  set (w1 := relisten ls (logs (Emit (ev_peerRemoved peerId) :: ds)
                            (dropped peerId existing w))).
  assert (Hconns : conns w1
                   = <[connection existing := Capability.close pc]> (conns w)) by reflexivity.
  assert (Hlen : length (conns w1) = length (conns w))
    by (rewrite Hconns; apply length_insert).
  assert (Htrace : trace w1
                   = (trace w ++ close_effects existing) ++ Emit (ev_peerRemoved peerId) :: ds)
    by reflexivity.
  destruct (create_fresh_spec host peerId isInitiator w1)
    as (tr & pc' & Hfresh & Hstate & _ & _ & _).
  rewrite Hlen in Hfresh. fold fresh in Hfresh.
  eexists. split; [exact Hfresh|]. cbn [this conns trace set_peers peers].
  split; [apply get_set_eq|].
  split; [subst fresh; destruct isInitiator; simpl; lia|].
  split.
  { unfold closed_at, the_conn. cbn [conns]. rewrite Hconns.
    rewrite lookup_app_l by (rewrite length_insert; exact Hc).
    rewrite list_lookup_insert_eq by exact Hc. reflexivity. }
  split.
  { unfold the_conn. cbn [conns].
    replace (connection fresh) with (length (conns w1))
      by (rewrite Hlen; subst fresh; destruct isInitiator; reflexivity).
    rewrite lookup_app_r by lia. rewrite Nat.sub_diag. simpl. exact Hstate. }
  rewrite Htrace, <- !app_assoc. rewrite drop_app_length.
  apply elem_of_app. right. apply elem_of_app. left. apply elem_of_cons. left. reflexivity.
Qed.

Lemma createPeer_existing_witness :
  exists existing,
    PeerMap.get "bob" (peers (this bob_disconnected)) = Some existing /\
    stale (the_conn (connection existing) bob_disconnected) /\
    exists w',
      createPeer quiet_host "bob" true bob_disconnected
      = (Normal (fresh_peer true "bob" (length (conns bob_disconnected))), w') /\
      closed_at (connection existing) w'.
Proof.
  exists (responder_peer "bob" 0).
  assert (Hget : PeerMap.get "bob" (peers (this bob_disconnected))
                 = Some (responder_peer "bob" 0)) by reflexivity.
  assert (Hc : connection (responder_peer "bob" 0) < length (conns bob_disconnected))
    by (vm_compute; lia).
  assert (Hnd : NoDup (PeerMap.keys (peers (this bob_disconnected))))
    by (vm_compute; apply NoDup_singleton).
  assert (Hst : stale (the_conn (connection (responder_peer "bob" 0)) bob_disconnected))
    by (right; right; reflexivity).
  split; [exact Hget|]. split; [exact Hst|].
  destruct (createPeer_existing quiet_host bob_disconnected "bob" true
              (responder_peer "bob" 0) Hget Hc Hnd) as (_ & _ & _ & Hstale & _).
  destruct (Hstale Hst) as (w' & Hrun & _ & _ & Hclosed & _).
  exists w'. split; [exact Hrun|exact Hclosed].
Defined.

(** C4, as stated, fails: a session whose signaling is stable and whose
    connectivity is Disconnected is neither healthy nor stale in the words
    of the specification, so it should be returned as it is; [createPeer]
    closes it, emits [peerRemoved] and puts a session on a new connection in
    its place. *)
Lemma createPeer_replaces_disconnected :
  let existing := responder_peer "bob" 0 in
  let result := createPeer quiet_host "bob" false bob_disconnected in
  PeerMap.get "bob" (peers (this bob_disconnected)) = Some existing /\
  ~ healthy (the_conn 0 bob_disconnected) /\
  ~ stale_as_specified (the_conn 0 bob_disconnected) /\
  result.1 = Normal (responder_peer "bob" 1) /\
  result.1 <> Normal existing /\
  PeerMap.get "bob" (peers (this result.2)) = Some (responder_peer "bob" 1) /\
  closed_at 0 result.2 /\
  Emit (ev_peerRemoved "bob") ∈ trace result.2.
Proof.
  vm_compute. split; [reflexivity|].
  split; [intros [_ H]; discriminate|].
  split; [intros [H|[H|H]]; discriminate|].
  split; [reflexivity|]. split; [discriminate|]. split; [reflexivity|].
  split; [reflexivity|].
  apply list_elem_of_In. simpl. tauto.
Qed.

(** ** [setLocalStream] *)

(** C9. [setLocalStream] stores the stream and then, on every peer session
    and for every track of the stream in turn, gives the track to the first
    sender that carries a track of the same kind, or adds a sender when
    there is none: afterwards the track is the only outbound track of its
    kind on that connection and the other kinds are as before.  So a
    connection that had at most one outbound track per kind still has at
    most one after the call, and after any further call; connections start
    that way when [createPeer] builds them, so that, whatever has been
    called, received or fired since the manager was built, no connection
    sends two tracks of one kind and every session sits on an open
    connection of its own. *)
Theorem setLocalStream_one_sender_per_kind (stream : MediaStream) (w : World) :
  let w' := after (setLocalStream stream) w in
  localStream (this w') = Some stream /\
  peers (this w') = peers (this w) /\
  (sessions_open w ->
     setLocalStream stream w = (Normal tt, w') /\
     forall k p, (k, p) ∈ peers (this w) ->
       getSenders (the_conn (connection p) w')
       = sync_all (getTracks stream) (getSenders (the_conn (connection p) w))) /\
  (forall t ss,
     (forall i, find_index (sends_kind (kind t)) ss = Some i ->
                sync_senders t ss = <[i := mkSender (Some t)]> ss) /\
     (find_index (sends_kind (kind t)) ss = None ->
      sync_senders t ss = ss ++ [mkSender (Some t)]) /\
     (one_per_kind ss ->
      outbound (kind t) (sync_senders t ss) = [t] /\
      (forall k, k <> kind t -> outbound k (sync_senders t ss) = outbound k ss))) /\
  (forall c, one_per_kind (getSenders (the_conn c w)) ->
     one_per_kind (getSenders (the_conn c w')) /\
     forall again, one_per_kind (getSenders (the_conn c (after (setLocalStream again) w')))) /\
  (forall host peerId local,
     one_per_kind (getSenders (responder_conn peerId local)) /\
     one_per_kind (getSenders (initiator_conn host peerId local))) /\
  (forall host userId roomId socket inputs,
     single_tracks (run host inputs (start userId roomId socket)) /\
     sessions_open (run host inputs (start userId roomId socket))).
Proof.
  intros w'. destruct (setLocalStream_respects stream w) as (Hlocal & Hpeers & Hone).
  fold w' in Hlocal, Hpeers, Hone.
  split; [exact Hlocal|]. split; [exact Hpeers|]. split; [|split; [|split; [|split]]].
  - intros [Hopen Hnd].
    destruct (sync_peers_open (getTracks stream) (peers (this w))
                (set_this (set_localStream (Some stream)) w) Hopen Hnd)
      as (w2 & Hrun & _ & _ & Hin & _).
    assert (Heq : setLocalStream stream w = (Normal tt, w2)) by exact Hrun.
    assert (Hw' : w' = w2) by (subst w'; unfold after; rewrite Heq; reflexivity).
    rewrite Hw'. split; [exact Heq|].
    intros k p Hkp. apply (Hin (connection p)).
    apply list_elem_of_fmap. exists (k, p). split; [reflexivity|exact Hkp].
  - intros t ss. split; [|split].
    + intros i Hi. unfold sync_senders. rewrite Hi. reflexivity.
    + intros Hnone. unfold sync_senders. rewrite Hnone. reflexivity.
    + intros Hss. split; [apply sync_senders_only_track; exact Hss|].
      apply sync_senders_outbound.
  - intros c Hc. split; [apply Hone; exact Hc|].
    intros again. apply setLocalStream_respects, Hone, Hc.
  - intros host peerId local. split.
    + apply local_senders_one_per_kind. intros k. simpl. lia.
    + apply local_senders_one_per_kind. intros k. simpl. lia.
  - intros host userId roomId socket inputs.
    destruct (well_kept_always host inputs _ (well_kept_at_start userId roomId socket))
      as (_ & Hsingle & Hopen).
    split; [exact Hsingle|exact Hopen].
Qed.

Lemma setLocalStream_one_sender_per_kind_witness :
  sessions_open two_peers_world /\
  getSenders (the_conn 0 two_peers_world) = [mkSender (Some microphone); mkSender (Some camera)] /\
  let w' := after (setLocalStream new_media) two_peers_world in
  setLocalStream new_media two_peers_world = (Normal tt, w') /\
  getSenders (the_conn 0 w') = [mkSender (Some microphone); mkSender (Some second_camera)] /\
  getSenders (the_conn 1 w') = [mkSender (Some microphone); mkSender (Some second_camera)].
Proof.
  assert (Hopen : sessions_open two_peers_world).
  { split.
    - repeat constructor; vm_compute; (lia || discriminate).
    - apply (bool_decide_unpack _). vm_compute. exact I. }
  split; [exact Hopen|]. split; [reflexivity|].
  destruct (setLocalStream_one_sender_per_kind new_media two_peers_world)
    as (_ & _ & Hsync & _).
  destruct (Hsync Hopen) as [Hrun Hsenders].
  split; [exact Hrun|]. split.
  - apply (Hsenders "bob" (responder_peer "bob" 0)).
    apply list_elem_of_In. vm_compute. tauto.
  - apply (Hsenders "carol" (initiator_peer "carol" 1)).
    apply list_elem_of_In. vm_compute. tauto.
Defined.

(** * Further properties *)

(** ** Methods that return *)

Lemma returns_ret {A} (a : A) w : returns (ret a) w.
Proof. exists a, w. reflexivity. Qed.

Lemma returns_gets {A} (f : World -> A) w : returns (gets f) w.
Proof. exists (f w), w. reflexivity. Qed.

Lemma returns_modify f w : returns (modify f) w.
Proof. exists tt, (f w). reflexivity. Qed.

Lemma returns_bind {A B} (m : M A) (k : A -> M B) w :
  returns m w -> (forall a w1, m w = (Normal a, w1) -> returns (k a) w1) ->
  returns (bind m k) w.
Proof.
  intros (a & w1 & Hm) Hk. destruct (Hk a w1 Hm) as (b & w2 & Hb).
  exists b, w2. rewrite (run_bind _ _ _ _ Hm). exact Hb.
Qed.

Lemma returns_try_catch {A} (m : M A) (h : DOMException -> M A) w :
  (forall e w1, returns (h e) w1) -> returns (try_catch m h) w.
Proof.
  intros Hh. unfold returns, try_catch. destruct (m w) as [[a|e] w1].
  - exists a, w1. reflexivity.
  - apply Hh.
Qed.

Lemma returns_when b m w : returns m w -> returns (when b m) w.
Proof. intros Hm. destruct b; [exact Hm|apply returns_ret]. Qed.

Lemma returns_for_of {A} (body : A -> M unit) xs :
  (forall x w, returns (body x) w) -> forall w, returns (for_of xs body) w.
Proof.
  intros Hbody. induction xs as [|x xs IH]; intros w; [apply returns_ret|].
  cbn [for_of]. apply returns_bind; [apply Hbody|intros _ w1 _; apply IH].
Qed.

Lemma returns_emitEvent host event w : returns (emitEvent host event) w.
Proof.
  destruct (emitEvent_frame host event w) as (ls & ds & Hrun & _).
  eexists. eexists. exact Hrun.
Qed.

Lemma returns_removePeer host peerId w : returns (removePeer host peerId) w.
Proof.
  destruct (removePeer_forgets host peerId w) as [_ Hnormal]. unfold returns.
  destruct (removePeer host peerId w) as [r w1]. simpl in Hnormal. subst r.
  exists tt, w1. reflexivity.
Qed.

Lemma returns_unit (m : M unit) w : returns m w -> (m w).1 = Normal tt.
Proof. intros ([] & w1 & ->). reflexivity. Qed.

Ltac return_step :=
  lazymatch goal with
  | |- returns (bind _ _) _ => apply returns_bind; [|intros ? ? _]
  | |- returns (try_catch _ _) _ => apply returns_try_catch; intros ? ?
  | |- returns (when _ _) _ => apply returns_when
  | |- returns (for_of _ _) _ => apply returns_for_of; intros ? ?
  | |- returns (ret _) _ => apply returns_ret
  | |- returns (gets _) _ => apply returns_gets
  | |- returns (modify _) _ => apply returns_modify
  | |- returns (console_error _) _ => apply returns_modify
  | |- returns (update_peer _ _) _ => apply returns_modify
  | |- returns (emitEvent _ _) _ => apply returns_emitEvent
  | |- returns (removePeer _ _) _ => apply returns_removePeer
  | |- returns (match ?x with _ => _ end) _ => destruct x
  end.

Ltac returning := repeat return_step.

(** ** Methods that move the world along a preorder *)

Section Moves.
Context (R : World -> World -> Prop).
Context (R_refl : forall w, R w w).
Context (R_trans : forall w1 w2 w3, R w1 w2 -> R w2 w3 -> R w1 w3).

Lemma moves_ret {A} (a : A) w : moves R (ret a) w.
Proof. apply R_refl. Qed.

Lemma moves_gets {A} (f : World -> A) w : moves R (gets f) w.
Proof. apply R_refl. Qed.

Lemma moves_throw {A} e w : moves R (@throw A e) w.
Proof. apply R_refl. Qed.

Lemma moves_bind {A B} (m : M A) (k : A -> M B) w :
  moves R m w -> (forall a w1, m w = (Normal a, w1) -> moves R (k a) w1) ->
  moves R (bind m k) w.
Proof.
  unfold moves, bind. intros Hm Hk. destruct (m w) as [[a|e] w1]; cbn [snd] in *.
  - eapply R_trans; [exact Hm|]. apply Hk. reflexivity.
  - exact Hm.
Qed.

Lemma moves_bind_gets {A B} (f : World -> A) (k : A -> M B) w :
  moves R (k (f w)) w -> moves R (bind (gets f) k) w.
Proof. intros Hk. exact Hk. Qed.

Lemma moves_try_catch {A} (m : M A) (h : DOMException -> M A) w :
  moves R m w -> (forall e w1, m w = (Throw e, w1) -> moves R (h e) w1) ->
  moves R (try_catch m h) w.
Proof.
  unfold moves, try_catch. intros Hm Hh. destruct (m w) as [[a|e] w1]; cbn [snd] in *.
  - exact Hm.
  - eapply R_trans; [exact Hm|]. apply Hh. reflexivity.
Qed.

Lemma moves_when b m w : moves R m w -> moves R (when b m) w.
Proof. intros Hm. destruct b; [exact Hm|apply moves_ret]. Qed.

Lemma moves_for_of {A} (body : A -> M unit) xs :
  (forall x w, moves R (body x) w) -> forall w, moves R (for_of xs body) w.
Proof.
  intros Hbody. induction xs as [|x xs IH]; intros w; [apply moves_ret|].
  cbn [for_of]. apply moves_bind; [apply Hbody|intros _ w1 _; apply IH].
Qed.

End Moves.

(** ** How the world evolves *)

Lemma evolves_refl w : evolves w w.
Proof.
  split; [reflexivity|]. split; [reflexivity|]. split; [reflexivity|].
  split; [lia|]. split; [|split].
  - intros c _. split; trivial.
  - exists []. split; [symmetry; apply app_nil_r|constructor].
  - intros k p Hin. left. exists p. repeat split; trivial.
Qed.

Lemma evolves_trans w1 w2 w3 : evolves w1 w2 -> evolves w2 w3 -> evolves w1 w3.
Proof.
  intros (Hs1 & Hu1 & Hr1 & Hl1 & Hc1 & (es1 & Ht1 & Hf1) & Hp1)
         (Hs2 & Hu2 & Hr2 & Hl2 & Hc2 & (es2 & Ht2 & Hf2) & Hp2).
  split; [congruence|]. split; [congruence|]. split; [congruence|].
  split; [lia|]. split; [|split].
  - intros c Hc. destruct (Hc1 c Hc) as [Hh1 Hcl1].
    destruct (Hc2 c ltac:(lia)) as [Hh2 Hcl2].
    split; [congruence|auto].
  - exists (es1 ++ es2). split; [rewrite Ht2, Ht1, app_assoc; reflexivity|].
    apply Forall_app. split; [exact Hf1|].
    eapply Forall_impl; [exact Hf2|]. intros e He from Hfrom.
    rewrite <- Hs1. apply He, Hfrom.
  - intros k p Hin. destruct (Hp2 k p Hin) as [(p1 & Hin1 & Hid & Hconn & Hok)|Hnew].
    + destruct (Hp1 k p1 Hin1) as [(p0 & Hin0 & Hid0 & Hconn0 & Hok0)|Hnew1].
      * left. exists p0. repeat split; [exact Hin0|congruence|congruence|auto].
      * right. destruct Hnew1 as (Hk & [Hlo Hhi] & Hh & Hs).
        split; [congruence|]. split; [lia|]. split; [|auto].
        rewrite Hconn. destruct (Hc2 (connection p1) Hhi) as [-> _]. exact Hh.
    + right. destruct Hnew as (Hk & [Hlo Hhi] & Hh & Hs).
      split; [exact Hk|]. split; [lia|]. split; assumption.
Qed.

Lemma sound_evolves w w' : sound w -> evolves w w' -> sound w'.
Proof.
  intros Hsound (_ & _ & _ & Hlen & Hconns & _ & Hpeers).
  apply Forall_forall. intros [k p] Hin. simpl.
  destruct (Hpeers k p Hin) as [(p0 & Hin0 & Hid & Hconn & Hok)|(Hk & [Hlo Hhi] & Hh & Hs)].
  - destruct (proj1 (Forall_forall _ _) Hsound (k, p0) Hin0) as (Hk0 & Hc0 & Hh0 & Hs0).
    simpl in *. split; [congruence|]. split; [lia|]. split; [|auto].
    rewrite Hconn. destruct (Hconns (connection p0) Hc0) as [-> _]. exact Hh0.
  - repeat split; assumption.
Qed.

(** A step that leaves [peers], the store, the socket id and the
    identifiers alone. *)
Lemma evolves_same_store w w' es :
  socketId w' = socketId w ->
  userId (this w') = userId (this w) ->
  roomId (this w') = roomId (this w) ->
  peers (this w') = peers (this w) ->
  conns w' = conns w ->
  trace w' = trace w ++ es ->
  Forall (fun e => forall from, sender e = Some from -> truthy (socketId w) = Some from) es ->
  evolves w w'.
Proof.
  intros Hs Hu Hr Hp Hc Ht Hes.
  split; [exact Hs|]. split; [exact Hu|]. split; [exact Hr|].
  split; [rewrite Hc; lia|]. split; [|split].
  - intros c _. unfold closed_at, the_conn. rewrite Hc. split; trivial.
  - exists es. split; assumption.
  - intros k p Hin. left. exists p. rewrite <- Hp. repeat split; trivial.
Qed.

Lemma evolves_quiet (f : World -> World) w :
  socketId (f w) = socketId w ->
  userId (this (f w)) = userId (this w) ->
  roomId (this (f w)) = roomId (this w) ->
  peers (this (f w)) = peers (this w) ->
  conns (f w) = conns w ->
  trace (f w) = trace w ->
  moves evolves (modify f) w.
Proof.
  intros. apply (evolves_same_store w (f w) []); trivial.
  rewrite app_nil_r. assumption.
Qed.

Lemma evolves_log e w :
  (forall from, sender e = Some from -> truthy (socketId w) = Some from) ->
  moves evolves (modify (log e)) w.
Proof.
  intros He. apply (evolves_same_store w (log e w) [e]); try reflexivity.
  constructor; [exact He|constructor].
Qed.

Lemma evolves_console_error msg w : moves evolves (console_error msg) w.
Proof. apply evolves_log. intros from [=]. Qed.

Lemma evolves_emitEvent host event w : moves evolves (emitEvent host event) w.
Proof.
  unfold moves. destruct (emitEvent_frame host event w) as (ls & ds & -> & Hds & _).
  cbn [snd]. apply (evolves_same_store _ _ (Emit event :: ds)); try reflexivity.
  constructor; [intros from [=]|].
  eapply Forall_impl; [exact Hds|]. intros e [l ->] from [=].
Qed.

(** *** Changes of the store *)

Lemma evolves_store w w' es :
  socketId w' = socketId w ->
  this w' = this w ->
  length (conns w') = length (conns w) ->
  (forall c, c < length (conns w) ->
     handler_peerId (the_conn c w') = handler_peerId (the_conn c w) /\
     (closed_at c w -> closed_at c w')) ->
  trace w' = trace w ++ es ->
  Forall (fun e => sender e = None) es ->
  evolves w w'.
Proof.
  intros Hs Hthis Hlen Hc Ht Hes.
  split; [exact Hs|]. split; [rewrite Hthis; reflexivity|].
  split; [rewrite Hthis; reflexivity|]. split; [lia|]. split; [exact Hc|]. split.
  - exists es. split; [exact Ht|].
    eapply Forall_impl; [exact Hes|]. intros e He from Hfrom. congruence.
  - intros k p Hin. left. exists p. rewrite <- Hthis. repeat split; trivial.
Qed.

Lemma evolves_update_conn c pc' es w :
  handler_peerId pc' = handler_peerId (the_conn c w) ->
  (signalingState (the_conn c w) = closed -> signalingState pc' = closed) ->
  Forall (fun e => sender e = None) es ->
  evolves w (logs es (set_conns (<[c := pc']>) w)).
Proof.
  intros Hh Hcl Hes. apply (evolves_store _ _ es); try reflexivity; [| |exact Hes].
  - simpl. apply length_insert.
  - intros c' Hc'. unfold closed_at. rewrite the_conn_logs.
    destruct (decide (c = c')) as [<-|Hne].
    + rewrite the_conn_insert_eq by exact Hc'. split; assumption.
    + rewrite the_conn_insert_ne by exact Hne. split; trivial.
Qed.

Lemma evolves_invoke {A} c op
    (f : RTCPeerConnection -> DOMException + (A * RTCPeerConnection)) w :
  steady f -> moves evolves (invoke c op f) w.
Proof.
  intros Hf. unfold moves, invoke. destruct (f (the_conn c w)) as [e|[a pc']] eqn:Hrun.
  - cbn [snd]. apply (evolves_same_store _ _ [Call c op false]); try reflexivity.
    constructor; [intros from [=]|constructor].
  - cbn [snd]. destruct (Hf _ _ _ Hrun) as [Hh Hcl].
    apply (evolves_update_conn c pc' [Call c op true] w); [exact Hh|exact Hcl|].
    constructor; [reflexivity|constructor].
Qed.

Lemma steady_unit (r : RTCPeerConnection -> DOMException + RTCPeerConnection) :
  (forall pc pc', r pc = inr pc' ->
     handler_peerId pc' = handler_peerId pc /\
     (signalingState pc = closed -> signalingState pc' = closed)) ->
  steady (fun pc => unit_result (r pc)).
Proof.
  intros Hr pc [] pc' Hrun. unfold unit_result in Hrun.
  destruct (r pc) as [e|pc1] eqn:Hpc; [discriminate|].
  injection Hrun as <-. apply Hr, Hpc.
Qed.

Lemma steady_setLocalDescription d :
  steady (fun pc => unit_result (Capability.setLocalDescription d pc)).
Proof.
  apply steady_unit. intros pc pc'. unfold Capability.setLocalDescription.
  destruct (sdp_type d), (signalingState pc); intros [= <-];
    (split; [reflexivity|intros [=]]).
Qed.

Lemma steady_setRemoteDescription host d :
  steady (fun pc => unit_result (Capability.setRemoteDescription host d pc)).
Proof.
  apply steady_unit. intros pc pc'. unfold Capability.setRemoteDescription.
  destruct (sdp_type d), (signalingState pc), (accepts_description host d);
    intros [= <-]; (split; [reflexivity|intros [=]]).
Qed.

Lemma steady_addIceCandidate host ci :
  steady (fun pc => unit_result (Capability.addIceCandidate host ci pc)).
Proof.
  apply steady_unit. intros pc pc'. unfold Capability.addIceCandidate.
  destruct ci as [ci|]; [|discriminate].
  destruct (sdpMid ci), (sdpMLineIndex ci), (Capability.is_closed pc), (remoteDescription pc),
    (accepts_candidate host ci); intros [= <-]; (split; [reflexivity|trivial]).
Qed.

Lemma steady_addTrack t :
  steady (fun pc => unit_result (Capability.addTrack t pc)).
Proof.
  apply steady_unit. intros pc pc'. unfold Capability.addTrack.
  destruct (Capability.is_closed pc), (existsb (Capability.sends_track t) (getSenders pc));
    intros [= <-]; (split; [reflexivity|trivial]).
Qed.

Lemma steady_replaceTrack i t :
  steady (fun pc => unit_result (Capability.replaceTrack i t pc)).
Proof.
  apply steady_unit. intros pc pc'. unfold Capability.replaceTrack.
  destruct (Capability.is_closed pc); [discriminate|].
  destruct (getSenders pc !! i) as [[[t0|]]|]; [| |discriminate].
  - destruct (decide (kind t0 = kind t)); intros [= <-]; (split; [reflexivity|trivial]).
  - intros [= <-]. split; [reflexivity|trivial].
Qed.

Lemma steady_createOffer host : steady (Capability.createOffer host).
Proof.
  intros pc a pc'. unfold Capability.createOffer.
  destruct (signalingState pc) eqn:Hstate; intros [= _ <-];
    (split; [reflexivity|congruence]).
Qed.

Lemma steady_createAnswer host : steady (Capability.createAnswer host).
Proof.
  intros pc a pc'. unfold Capability.createAnswer.
  destruct (signalingState pc) eqn:Hstate; intros [= _ <-];
    (split; [reflexivity|congruence]).
Qed.

Lemma steady_restartIce :
  steady (fun pc => @inr DOMException _ (tt, Capability.restartIce pc)).
Proof.
  intros pc a pc' [= _ <-]. unfold Capability.restartIce.
  destruct (Capability.is_closed pc); (split; [reflexivity|trivial]).
Qed.

Lemma steady_close :
  steady (fun pc => @inr DOMException _ (tt, Capability.close pc)).
Proof. intros pc a pc' [= _ <-]. split; reflexivity. Qed.

(** *** Lookup in a map without repeated keys *)

Lemma get_elem k p (m : PeerMap.t) :
  NoDup (PeerMap.keys m) -> (k, p) ∈ m -> PeerMap.get k m = Some p.
Proof.
  induction m as [|[k0 p0] m IH]; intros Hnd Hin; [apply elem_of_nil in Hin; contradiction|].
  unfold PeerMap.keys in Hnd. cbn in Hnd. apply NoDup_cons in Hnd as [Hnotin Hnd].
  simpl. apply elem_of_cons in Hin as [[= -> ->]|Hin].
  - rewrite decide_True by reflexivity. reflexivity.
  - destruct (decide (k0 = k)) as [->|Hne]; [|apply IH; assumption].
    exfalso. apply Hnotin. apply list_elem_of_fmap. exists (k, p).
    split; [reflexivity|exact Hin].
Qed.

(** *** Changes of [peers] *)

Lemma evolves_peers (g : PeerMap.t -> PeerMap.t) w :
  (forall k p, (k, p) ∈ g (peers (this w)) ->
     exists p0, (k, p0) ∈ peers (this w) /\ peerId p = peerId p0 /\
                connection p = connection p0 /\ (stream_ok p0 -> stream_ok p)) ->
  moves evolves (modify (set_this (set_peers g))) w.
Proof.
  intros Hg. unfold moves, modify. cbn [snd].
  split; [reflexivity|]. split; [reflexivity|]. split; [reflexivity|].
  split; [simpl; lia|]. split; [|split].
  - intros c _. split; trivial.
  - exists []. split; [symmetry; apply app_nil_r|constructor].
  - intros k p Hin. left. apply Hg. exact Hin.
Qed.

Lemma evolves_update_peer k f w :
  (forall p, peerId (f p) = peerId p /\ connection (f p) = connection p /\
             (stream_ok p -> stream_ok (f p))) ->
  moves evolves (update_peer k f) w.
Proof.
  intros Hf. apply evolves_peers. intros k' p' Hin.
  destruct (PeerMap.get k (peers (this w))) as [p|] eqn:Hget.
  - apply elem_of_set in Hin as [[= -> ->]|Hin].
    + exists p. split; [apply get_Some_elem; exact Hget|]. apply Hf.
    + exists p'. repeat split; trivial.
  - exists p'. repeat split; trivial.
Qed.

Lemma evolves_removePeer host k w : moves evolves (removePeer host k) w.
Proof.
  unfold moves. destruct (PeerMap.get k (peers (this w))) as [peer|] eqn:Hget.
  - destruct (removePeer_frame host k peer w Hget) as (ls & ds & -> & Hds). cbn [snd].
    split; [reflexivity|]. split; [reflexivity|]. split; [reflexivity|].
    split; [simpl; rewrite length_insert; lia|]. split; [|split].
    + intros c Hc. unfold closed_at.
      change (the_conn c (relisten ls (logs (Emit (ev_peerRemoved k) :: ds)
                                         (dropped k peer w))))
        with (the_conn c (set_conns (<[connection peer :=
                            Capability.close (the_conn (connection peer) w)]>) w)).
      destruct (decide (connection peer = c)) as [<-|Hne].
      * rewrite the_conn_insert_eq by exact Hc. split; [reflexivity|trivial].
      * rewrite the_conn_insert_ne by exact Hne. split; trivial.
    + exists (close_effects peer ++ Emit (ev_peerRemoved k) :: ds).
      split; [simpl; rewrite <- app_assoc; reflexivity|].
      apply Forall_app. split.
      * eapply Forall_impl; [apply close_effects_no_sender|]. intros e He from. congruence.
      * constructor; [intros from [=]|].
        eapply Forall_impl; [exact Hds|]. intros e [l ->] from [=].
    + intros k' p' Hin. left. simpl in Hin. apply elem_of_delete in Hin as [Hin _].
      exists p'. repeat split; trivial.
  - rewrite removePeer_absent by exact Hget. apply evolves_refl.
Qed.

(** A new session on a new connection at the end of the store. *)
Lemma evolves_created w k peer pc es :
  peerId peer = k ->
  connection peer = length (conns w) ->
  stream peer = None ->
  handler_peerId pc = k ->
  Forall (fun e => forall from, sender e = Some from -> truthy (socketId w) = Some from) es ->
  evolves w {| this := set_peers (PeerMap.set k peer) (this w);
               conns := conns w ++ [pc];
               timers := timers w; ended := ended w; socketId := socketId w;
               trace := trace w ++ es |}.
Proof.
  intros Hid Hconn Hstream Hh Hes.
  split; [reflexivity|]. split; [reflexivity|]. split; [reflexivity|].
  split; [simpl; rewrite length_app; lia|]. split; [|split].
  - intros c Hc. unfold closed_at, the_conn. simpl.
    rewrite lookup_app_l by exact Hc. split; trivial.
  - exists es. split; [reflexivity|exact Hes].
  - intros k' p' Hin. simpl in Hin. apply elem_of_set in Hin as [[= -> ->]|Hin].
    + right. split; [exact Hid|]. split; [simpl; rewrite length_app; simpl; lia|].
      split.
      * unfold the_conn. simpl. rewrite Hconn, lookup_app_r by lia.
        rewrite Nat.sub_diag. exact Hh.
      * intros s Hs. congruence.
    + left. exists p'. repeat split; trivial.
Qed.

Lemma evolves_create_fresh host k isInitiator w :
  moves evolves (create_fresh host k isInitiator) w.
Proof.
  unfold moves. destruct isInitiator.
  - rewrite create_fresh_initiator. cbn [snd].
    apply evolves_created; try reflexivity.
    apply Forall_app. split.
    + eapply Forall_impl; [apply local_track_calls_no_sender|]. intros e He from. congruence.
    + unfold offer_round. apply Forall_app. split.
      * repeat constructor; intros from [=].
      * destruct (truthy (socketId w)) as [sid|]; repeat constructor.
        intros from [= <-]. reflexivity.
  - rewrite create_fresh_responder. cbn [snd].
    apply evolves_created; try reflexivity.
    eapply Forall_impl; [apply local_track_calls_no_sender|]. intros e He from. congruence.
Qed.

Lemma close_all_handler cs st c :
  handler_peerId (default (Capability.close (new_RTCPeerConnection "")) (close_all cs st !! c))
  = handler_peerId (default (Capability.close (new_RTCPeerConnection "")) (st !! c)).
Proof.
  revert st. induction cs as [|c0 cs IH]; intros st; [reflexivity|].
  simpl. rewrite IH. destruct (decide (c0 = c)) as [->|Hne].
  - destruct (decide (c < length st)) as [Hc|Hc].
    + rewrite list_lookup_insert_eq by exact Hc. reflexivity.
    + rewrite list_insert_ge by lia. reflexivity.
  - rewrite list_lookup_insert_ne by exact Hne. reflexivity.
Qed.

Lemma evolves_cleanup w : moves evolves cleanup w.
Proof.
  unfold moves. rewrite cleanup_spec. cbn [snd].
  split; [reflexivity|]. split; [reflexivity|]. split; [reflexivity|].
  split; [simpl; rewrite close_all_length; lia|]. split; [|split].
  - intros c _. unfold closed_at, the_conn. cbn [conns].
    rewrite close_all_handler. split; [reflexivity|apply close_all_keeps_closed].
  - eexists. split; [reflexivity|]. apply Forall_app. split.
    + apply Forall_forall. intros e He from Hfrom.
      apply list_elem_of_In, in_flat_map in He. destruct He as (entry & _ & He).
      pose proof (proj1 (Forall_forall _ _) (close_effects_no_sender entry.2) e
                    (proj2 (list_elem_of_In _ _) He)) as Hnone.
      simpl in Hnone. congruence.
    + apply Forall_forall. intros e He from Hfrom.
      apply list_elem_of_In, in_map_iff in He. destruct He as (t & <- & _). discriminate.
  - intros k p Hin. simpl in Hin. apply elem_of_nil in Hin. contradiction.
Qed.

Lemma evolves_moved c s w : moves evolves (modify (moved c s)) w.
Proof.
  unfold moves, modify, moved. cbn [snd].
  rewrite <- (logs_nil (set_conns _ w)).
  apply evolves_update_conn; [reflexivity|trivial|constructor].
Qed.

(** *** Every method *)

Ltac evolve_step :=
  lazymatch goal with
  | |- moves _ (bind (gets _) _) _ => apply moves_bind_gets
  | |- moves _ (bind getSocketId _) _ => unfold getSocketId at 1; apply moves_bind_gets
  | |- moves _ (bind (get_peer _) _) _ => unfold get_peer at 1; apply moves_bind_gets
  | |- moves _ (bind (has_peer _) _) _ => unfold has_peer at 1; apply moves_bind_gets
  | |- moves _ (bind _ _) _ =>
      apply (moves_bind evolves evolves_trans); [|intros ? ? _]
  | |- moves _ (try_catch _ _) _ =>
      apply (moves_try_catch evolves evolves_trans); [|intros ? ? _]
  | |- moves _ (when _ _) _ => apply (moves_when evolves evolves_refl)
  | |- moves _ (for_of _ _) _ =>
      apply (moves_for_of evolves evolves_refl evolves_trans); intros ? ?
  | |- moves _ (ret _) _ => apply evolves_refl
  | |- moves _ (gets _) _ => apply evolves_refl
  | |- moves _ (throw _) _ => apply evolves_refl
  | |- moves _ (console_error _) _ => apply evolves_console_error
  | |- moves _ (update_peer _ _) _ =>
      apply evolves_update_peer; intros ?; repeat split; trivial
  | |- moves _ (emitEvent _ _) _ => apply evolves_emitEvent
  | |- moves _ (removePeer _ _) _ => apply evolves_removePeer
  | |- moves _ (create_fresh _ _ _) _ => apply evolves_create_fresh
  | |- moves _ (setLocalDescription _ _) _ =>
      apply evolves_invoke, steady_setLocalDescription
  | |- moves _ (setRemoteDescription _ _ _) _ =>
      apply evolves_invoke, steady_setRemoteDescription
  | |- moves _ (addIceCandidate _ _ _) _ => apply evolves_invoke, steady_addIceCandidate
  | |- moves _ (createOffer _ _) _ => apply evolves_invoke, steady_createOffer
  | |- moves _ (createAnswer _ _) _ => apply evolves_invoke, steady_createAnswer
  | |- moves _ (capability_restartIce _) _ => apply evolves_invoke, steady_restartIce
  | |- moves _ (addTrack _ _) _ => apply evolves_invoke, steady_addTrack
  | |- moves _ (invoke _ _ _) _ => apply evolves_invoke
  | |- moves _ (modify (log _)) _ =>
      apply evolves_log; simpl; intros ? [=]; try (subst; assumption)
  | |- moves _ (match ?x with _ => _ end) _ => destruct x eqn:?
  | |- moves _ (if ?x then _ else _) _ => destruct x eqn:?
  end.

Ltac evolving := repeat evolve_step.

Lemma evolves_createPeer host k isInitiator w :
  moves evolves (createPeer host k isInitiator) w.
Proof. unfold createPeer. evolving. Qed.

Lemma evolves_flushPendingIce host from w : moves evolves (flushPendingIce host from) w.
Proof. unfold flushPendingIce. evolving. Qed.

Lemma evolves_onWebRTCOffer host offer from w :
  moves evolves (onWebRTCOffer host offer from) w.
Proof.
  unfold onWebRTCOffer. evolving;
    first [apply evolves_createPeer|apply evolves_flushPendingIce].
Qed.

Lemma evolves_onWebRTCAnswer host answer from w :
  moves evolves (onWebRTCAnswer host answer from) w.
Proof. unfold onWebRTCAnswer. evolving. apply evolves_flushPendingIce. Qed.

Lemma evolves_onWebRTCIceCandidate host candidate from w :
  moves evolves (onWebRTCIceCandidate host candidate from) w.
Proof. unfold onWebRTCIceCandidate. evolving. Qed.

Lemma evolves_restartIce k w : moves evolves (restartIce k) w.
Proof. unfold restartIce. evolving. Qed.

Lemma evolves_timer_expires w : moves evolves timer_expires w.
Proof.
  unfold timer_expires, timeout_callback. evolving.
  - apply evolves_quiet; reflexivity.
  - apply evolves_restartIce.
Qed.

Lemma evolves_connectionstatechange host c state w :
  moves evolves (connectionstatechange host c state) w.
Proof.
  unfold connectionstatechange, onconnectionstatechange. evolving.
  - apply evolves_moved.
  - unfold moves, modify. cbn [snd].
    eapply (evolves_same_store _ _ [_]); try reflexivity.
    constructor; [intros from [=]|constructor].
Qed.

Lemma evolves_setLocalStream stream w : moves evolves (setLocalStream stream) w.
Proof.
  unfold setLocalStream, sync_track, replaceTrack. evolving.
  - apply evolves_quiet; reflexivity.
  - apply steady_replaceTrack.
Qed.

(** *** The handlers of the connections *)

Lemma find_track_None id s :
  find_track id s = None -> id ∉ map track_id (getTracks s).
Proof.
  unfold find_track. intros Hnone Hin.
  apply list_elem_of_In, in_map_iff in Hin as (t & Hid & Hin).
  pose proof (find_none _ _ Hnone t Hin) as Hno. simpl in Hno.
  apply bool_decide_eq_false in Hno. contradiction.
Qed.

Lemma find_track_Some id s t :
  find_track id s = Some t -> t ∈ getTracks s /\ track_id t = id.
Proof.
  unfold find_track. intros Hsome. apply find_some in Hsome as [Hin Hid].
  split; [apply list_elem_of_In; exact Hin|].
  apply bool_decide_eq_true in Hid. exact Hid.
Qed.

Lemma received_tracks track s :
  getTracks (received track s)
  = match find_track (track_id track) s with
    | Some _ => getTracks s
    | None => getTracks s ++ [track]
    end.
Proof.
  unfold received. destruct (find_track (track_id track) s) eqn:Hfind; [reflexivity|].
  unfold MediaStream_addTrack. rewrite bool_decide_eq_false_2; [reflexivity|].
  intros Hin. apply (find_track_None _ _ Hfind).
  apply list_elem_of_In, in_map_iff. exists track.
  split; [reflexivity|apply list_elem_of_In; exact Hin].
Qed.

Lemma received_distinct track s :
  NoDup (map track_id (getTracks s)) ->
  NoDup (map track_id (getTracks (received track s))).
Proof.
  intros Hnd. rewrite received_tracks.
  destruct (find_track (track_id track) s) eqn:Hfind; [exact Hnd|].
  rewrite map_app. apply NoDup_app. split; [exact Hnd|]. split.
  - intros id Hid Hin. apply list_elem_of_singleton in Hin. subst id.
    apply (find_track_None _ _ Hfind). exact Hid.
  - apply NoDup_singleton.
Qed.

Lemma received_ok track fresh_id p :
  stream_ok p ->
  stream_ok (set_stream
               (Some (received track (default (new_MediaStream fresh_id) (stream p)))) p).
Proof.
  intros Hok s [= <-]. apply received_distinct.
  destruct (stream p) as [s0|] eqn:Hs; simpl; [apply Hok; exact Hs|constructor].
Qed.

Lemma evolves_ontrack host c track fresh_id w :
  moves evolves (ontrack host c track fresh_id) w.
Proof.
  unfold ontrack. evolve_step. evolve_step. evolve_step; [|apply evolves_refl].
  evolve_step; [|apply evolves_emitEvent].
  apply evolves_peers. intros k' p' Hin. rewrite Heqo in Hin.
  apply elem_of_set in Hin as [[= -> ->]|Hin].
  - exists p. split; [apply get_Some_elem; exact Heqo|].
    split; [reflexivity|]. split; [reflexivity|]. apply received_ok.
  - exists p'. repeat split; trivial.
Qed.

Lemma evolves_ondatachannel c channel w : moves evolves (ondatachannel c channel) w.
Proof. unfold ondatachannel. evolving. Qed.

Lemma evolves_onicecandidate c candidate w : moves evolves (onicecandidate c candidate) w.
Proof.
  unfold onicecandidate. evolve_step.
  destruct candidate as [ci|]; [|apply evolves_refl].
  evolve_step.
  destruct (truthy (socketId w)) as [sid|] eqn:Hsid; [|apply evolves_refl].
  apply evolves_log. intros from [= <-]. exact Hsid.
Qed.

Lemma evolves_onmessage host JSON_parse data w :
  moves evolves (onmessage host JSON_parse data) w.
Proof. unfold onmessage. evolving. Qed.

Lemma evolves_react_to host i w : moves evolves (react_to host i) w.
Proof.
  destruct i; cbn [react_to].
  - apply (moves_bind evolves evolves_trans); [apply evolves_createPeer|].
    intros; apply evolves_refl.
  - apply evolves_removePeer.
  - apply evolves_setLocalStream.
  - apply evolves_cleanup.
  - apply evolves_quiet; reflexivity.
  - apply evolves_quiet; reflexivity.
  - apply evolves_onWebRTCOffer.
  - apply evolves_onWebRTCAnswer.
  - apply evolves_onWebRTCIceCandidate.
  - apply evolves_connectionstatechange.
  - apply evolves_timer_expires.
Qed.

Lemma evolves_handle host JSON_parse e w : moves evolves (handle host JSON_parse e) w.
Proof.
  destruct e; cbn [handle].
  - apply evolves_react_to.
  - apply evolves_ontrack.
  - apply evolves_ondatachannel.
  - apply evolves_onicecandidate.
  - apply evolves_onmessage.
Qed.

Lemma evolves_run_all host JSON_parse events w :
  evolves w (run_all host JSON_parse events w).
Proof.
  revert w. induction events as [|e rest IH]; intros w; [apply evolves_refl|].
  cbn [run_all]. eapply evolves_trans; [apply evolves_handle|apply IH].
Qed.

Lemma sound_at_start userId roomId socket : sound (start userId roomId socket).
Proof. constructor. Qed.

Lemma sound_run_all host JSON_parse events userId roomId socket :
  sound (run_all host JSON_parse events (start userId roomId socket)).
Proof. eapply sound_evolves; [apply sound_at_start|apply evolves_run_all]. Qed.

(** *** The handlers of the connections keep what holds at every instant *)

Lemma keeps_handle host JSON_parse e : keeps well_kept (handle host JSON_parse e).
Proof.
  destruct e; cbn [handle].
  - apply keeps_react_to.
  - unfold ontrack, get_peer. keep.
  - unfold ondatachannel, get_peer. keep.
  - unfold onicecandidate, getSocketId. keep.
  - unfold onmessage. keep.
Qed.

Lemma well_kept_run_all host JSON_parse events w :
  well_kept w -> well_kept (run_all host JSON_parse events w).
Proof.
  revert w. induction events as [|e rest IH]; intros w Hw; [exact Hw|].
  cbn [run_all]. apply IH, keeps_handle, Hw.
Qed.

(** ** Sessions at every instant *)

(** X1. Whatever has been called, received or fired since the manager was
    built, the handlers of the connections included: no key of [peers]
    occurs twice and no two sessions share a connection; every session is
    filed under its own [peerId], on a connection of the store that is not
    closed, whose handlers hold that [peerId] and which sends at most one
    track of each kind; and the remote stream of the session holds no two
    tracks with one id. *)
Theorem sessions_consistent (host : Host) (JSON_parse : string -> option string)
    (events : list Event) (userId roomId : string) (socket : option string) :
  let w := run_all host JSON_parse events (start userId roomId socket) in
  NoDup (PeerMap.keys (peers (this w))) /\
  NoDup (map (fun entry : string * PeerConnection => connection entry.2) (peers (this w))) /\
  forall k p, (k, p) ∈ peers (this w) ->
    PeerMap.get k (peers (this w)) = Some p /\
    peerId p = k /\
    connection p < length (conns w) /\
    signalingState (the_conn (connection p) w) <> closed /\
    handler_peerId (the_conn (connection p) w) = k /\
    one_per_kind (getSenders (the_conn (connection p) w)) /\
    stream_ok p.
Proof.
  intros w.
  destruct (well_kept_run_all host JSON_parse events _
              (well_kept_at_start userId roomId socket))
    as (Huniq & Hsingle & Hopen & Hnd).
  pose proof (sound_run_all host JSON_parse events userId roomId socket) as Hsound.
  fold w in Huniq, Hsingle, Hopen, Hnd, Hsound.
  split; [exact Huniq|]. split; [exact Hnd|].
  intros k p Hin.
  destruct (proj1 (Forall_forall _ _) Hopen (k, p) Hin) as [Hc Ho].
  destruct (proj1 (Forall_forall _ _) Hsound (k, p) Hin) as (Hid & _ & Hh & Hs).
  simpl in *. split; [apply get_elem; assumption|].
  repeat split; trivial.
Qed.

(** ** Handlers never throw *)

Lemma returns_flushPendingIce host from w : returns (flushPendingIce host from) w.
Proof. unfold flushPendingIce, get_peer. returning. Qed.

Lemma returns_restartIce k w : returns (restartIce k) w.
Proof. unfold restartIce, get_peer. returning. Qed.

(** X2. No exception escapes a handler that the manager runs on its own (the
    three signaling handlers, the handlers of a connection and of its data
    channel, the restart timer), nor [removePeer], [cleanup], [onEvent] or
    [offEvent]: each of them returns, in whatever state the manager and
    the connections are, whatever the browser refuses.  Listeners are as
    [Host] has them: they subscribe and unsubscribe, and do not throw. *)
Theorem handlers_never_throw (host : Host) (JSON_parse : string -> option string)
    (e : Event) (w : World) :
  is_handler e -> (handle host JSON_parse e w).1 = Normal tt.
Proof.
  intros He. apply returns_unit. destruct e as [i| | | |]; cbn [handle].
  - destruct i; cbn [react_to]; try contradiction.
    + apply returns_removePeer.
    + eexists. eexists. apply cleanup_spec.
    + apply returns_modify.
    + apply returns_modify.
    + unfold onWebRTCOffer, has_peer. returning.
    + unfold onWebRTCAnswer, get_peer. returning.
    + unfold onWebRTCIceCandidate, get_peer. returning.
    + unfold connectionstatechange, onconnectionstatechange. returning.
    + unfold timer_expires, timeout_callback. returning. apply returns_restartIce.
  - unfold ontrack, get_peer. returning.
  - unfold ondatachannel, get_peer. returning.
  - unfold onicecandidate, getSocketId. returning.
  - unfold onmessage. returning.
Qed.

Lemma handlers_never_throw_witness :
  is_handler (input (recv_answer (mkSdp ty_offer "not an answer") "bob")) /\
  (handle quiet_host (fun _ => None)
     (input (recv_answer (mkSdp ty_offer "not an answer") "bob")) calling_bob).1 = Normal tt.
Proof.
  split; [exact I|].
  apply (handlers_never_throw quiet_host (fun _ => None)
           (input (recv_answer (mkSdp ty_offer "not an answer") "bob")) calling_bob).
  exact I.
Defined.

(** ** Who a signaling message names as its sender *)

Lemma advance_all_ids host JSON_parse steps w :
  let w' := advance_all host JSON_parse steps w in
  socketId w' = id_after steps (socketId w) /\
  userId (this w') = userId (this w) /\
  roomId (this w') = roomId (this w).
Proof.
  revert w. induction steps as [|[e|id] rest IH]; intros w; cbn [advance_all id_after advance].
  - repeat split.
  - destruct (evolves_handle host JSON_parse e w) as (Hs & Hu & Hr & _).
    destruct (IH (handle host JSON_parse e w).2) as (Hs' & Hu' & Hr').
    cbv zeta in *. rewrite Hs', Hu', Hr', Hs, Hu, Hr. repeat split.
  - destruct (IH (set_socketId id w)) as (Hs' & Hu' & Hr').
    cbv zeta in *. rewrite Hs', Hu', Hr'. repeat split.
Qed.

(** X4. Whatever the manager has handled so far, and however often the socket
    has changed its id in between (connecting, reconnecting,
    disconnecting): every signaling message that the next handler sends
    (offer, answer, candidate) names as its sender the id the socket
    reported last, and that id is not empty; when the socket last reported
    no id or an empty one, the handler sends nothing.  The identifiers of
    the manager never change. *)
Theorem sends_name_the_socket (host : Host) (JSON_parse : string -> option string)
    (steps : list Step) (e : Event) (w : World) :
  let w1 := advance_all host JSON_parse steps w in
  let w2 := (handle host JSON_parse e w1).2 in
  userId (this w2) = userId (this w) /\
  roomId (this w2) = roomId (this w) /\
  exists es,
    trace w2 = trace w1 ++ es /\
    (forall x from, x ∈ es -> sender x = Some from ->
       id_after steps (socketId w) = Some from /\ from <> "") /\
    (id_after steps (socketId w) = None \/ id_after steps (socketId w) = Some "" ->
       sent es = []).
Proof.
  intros w1 w2.
  destruct (advance_all_ids host JSON_parse steps w) as (Hid & Hu1 & Hr1).
  fold w1 in Hid, Hu1, Hr1.
  destruct (evolves_handle host JSON_parse e w1) as (_ & Hu & Hr & _ & _ & (es & Ht & Hes) & _).
  fold w2 in Hu, Hr, Ht.
  split; [congruence|]. split; [congruence|].
  exists es. split; [exact Ht|]. rewrite <- Hid. split.
  - intros x from Hx Hfrom. apply truthy_inv.
    exact (proj1 (Forall_forall _ _) Hes x Hx from Hfrom).
  - intros Hfalsy. apply sent_none. eapply Forall_impl; [exact Hes|]. intros x Hx.
    simpl in Hx. destruct (sender x) as [from|]; [|reflexivity].
    specialize (Hx from eq_refl). rewrite (truthy_falsy _ Hfalsy) in Hx. discriminate.
Qed.

(** ** An offer and its answer, end to end *)

Lemma the_conn_appended pc this0 st ti en so tr :
  the_conn (length st) (mkWorld this0 (st ++ [pc]) ti en so tr) = pc.
Proof.
  unfold the_conn. simpl. rewrite lookup_app_r by lia.
  rewrite Nat.sub_diag. reflexivity.
Qed.

(** The calling side: [createPeer] as initiator, then the answer. *)
Lemma initiator_completes host a b w answer :
  socketId w = Some a ->
  a <> "" ->
  PeerMap.get b (peers (this w)) = None ->
  sdp_type answer = ty_answer ->
  accepts_description host answer = true ->
  let offer := created_offer host b (localStream (this w)) in
  let w1 := (createPeer host b true w).2 in
  let w2 := (onWebRTCAnswer host answer b w1).2 in
  let c := the_conn (length (conns w)) w2 in
  sent (drop (length (trace w)) (trace w1)) = [SendOffer b offer a] /\
  sent (drop (length (trace w1)) (trace w2)) = [] /\
  PeerMap.get b (peers (this w2)) = Some (initiator_peer b (length (conns w))) /\
  signalingState c = stable /\
  currentLocalDescription c = Some offer /\
  currentRemoteDescription c = Some answer /\
  pendingLocalDescription c = None /\ pendingRemoteDescription c = None.
Proof.
  intros Hs Ha Hg Hty Hacc offer.
  rewrite (createPeer_absent host b true w Hg), create_fresh_initiator. cbn [snd].
  match goal with
  | |- context [onWebRTCAnswer host answer b ?w0] => set (w1 := w0)
  end.
  assert (Hget : PeerMap.get b (peers (this w1))
                 = Some (initiator_peer b (length (conns w)))) by apply get_set_eq.
  assert (Hlen : connection (initiator_peer b (length (conns w))) < length (conns w1)).
  { subst w1. simpl. rewrite length_app. simpl. lia. }
  rewrite (onWebRTCAnswer_spec host answer b _ w1 Hget Hlen). cbn [snd].
  assert (Hconn : the_conn (connection (initiator_peer b (length (conns w)))) w1
                  = initiator_conn host b (localStream (this w)))
    by apply the_conn_appended.
  rewrite Hconn.
  assert (Hset : Capability.setRemoteDescription host answer
                   (initiator_conn host b (localStream (this w)))
                 = inr (Capability.set_descriptions stable None (Some offer) None (Some answer)
                          (initiator_conn host b (localStream (this w))))).
  { rewrite setRemoteDescription_answer by exact Hty. simpl. rewrite Hacc. reflexivity. }
  rewrite Hset. cbv zeta.
  split.
  { subst w1. cbn [trace]. rewrite drop_app_length, sent_app.
    rewrite (sent_none _ (local_track_calls_no_sender _ _ _)).
    rewrite sent_offer_round, Hs, (truthy_Some a Ha). reflexivity. }
  split.
  { cbn [trace]. rewrite drop_app_length. apply sent_none.
    constructor; [reflexivity|apply flush_effects_no_sender]. }
  split.
  { cbn [this]. unfold emptied. simpl. apply get_set_eq. }
  assert (Hc : forall this0 ti en so tr pc,
            the_conn (length (conns w))
              (mkWorld this0 (<[connection (initiator_peer b (length (conns w))) := pc]>
                                (conns w1)) ti en so tr) = pc).
  { intros. unfold the_conn. cbn [conns]. subst w1. cbn [conns connection initiator_peer].
    rewrite insert_allocated, lookup_app_r by lia. rewrite Nat.sub_diag. reflexivity. }
  rewrite Hc. repeat split.
Qed.

(** X5. Manager A, whose socket id is [a], calls [createPeer b true] for a peer
    it has no session with; the offer it sends is delivered to manager B,
    whose socket id is [b] and which has no session with [a]; the answer B
    sends is delivered back to A.  Neither socket id is empty.  When both browsers accept the
    descriptions, A sends exactly one offer, B exactly one answer, nothing
    else goes out, and both connections end stable with matching
    descriptions: the offer is A's local and B's remote description, the
    answer B's local and A's remote one, and nothing is pending. *)
Theorem offer_answer_handshake (hostA hostB : Host) (a b : string) (wA wB : World) :
  socketId wA = Some a -> a <> "" ->
  socketId wB = Some b -> b <> "" ->
  PeerMap.get b (peers (this wA)) = None ->
  PeerMap.get a (peers (this wB)) = None ->
  (forall d, accepts_description hostA d = true) ->
  (forall d, accepts_description hostB d = true) ->
  exists offer answer,
    let wA1 := (createPeer hostA b true wA).2 in
    let wB1 := (onWebRTCOffer hostB offer a wB).2 in
    let wA2 := (onWebRTCAnswer hostA answer b wA1).2 in
    let cA := the_conn (length (conns wA)) wA2 in
    let cB := the_conn (length (conns wB)) wB1 in
    sdp_type offer = ty_offer /\
    sdp_type answer = ty_answer /\
    sent (drop (length (trace wA)) (trace wA1)) = [SendOffer b offer a] /\
    sent (drop (length (trace wB)) (trace wB1)) = [SendAnswer a answer b] /\
    sent (drop (length (trace wA1)) (trace wA2)) = [] /\
    PeerMap.get b (peers (this wA2)) = Some (initiator_peer b (length (conns wA))) /\
    PeerMap.get a (peers (this wB1)) = Some (responder_peer a (length (conns wB))) /\
    signalingState cA = stable /\
    signalingState cB = stable /\
    currentLocalDescription cA = Some offer /\
    currentRemoteDescription cB = Some offer /\
    currentLocalDescription cB = Some answer /\
    currentRemoteDescription cA = Some answer /\
    pendingLocalDescription cA = None /\ pendingRemoteDescription cA = None /\
    pendingLocalDescription cB = None /\ pendingRemoteDescription cB = None.
Proof.
  intros HsA Ha HsB Hb HgA HgB HaccA HaccB.
  set (offer := created_offer hostA b (localStream (this wA))).
  set (answer := created_answer hostB
                   (flushed hostB (offered_conn offer a (localStream (this wB))) [])).
  exists offer, answer.
  destruct (initiator_completes hostA a b wA answer HsA Ha HgA eq_refl (HaccA answer))
    as (Hoffer & Hquiet & HgetA & HstA & HlocalA & HremoteA & HplA & HprA).
  fold offer in Hoffer, HlocalA.
  rewrite (onWebRTCOffer_absent_accepted hostB offer a wB HgB eq_refl (HaccB offer)).
  cbn [snd]. rewrite the_conn_appended.
  split; [reflexivity|]. split; [reflexivity|]. split; [exact Hoffer|].
  split.
  { cbn [trace]. rewrite drop_app_length, sent_app.
    rewrite (sent_none _ (local_track_calls_no_sender _ _ _)).
    rewrite sent_answer_round, HsB, (truthy_Some b Hb). reflexivity. }
  split; [exact Hquiet|]. split; [exact HgetA|].
  split; [cbn [this]; apply get_set_eq|].
  split; [exact HstA|]. split; [reflexivity|]. split; [exact HlocalA|].
  split; [reflexivity|]. split; [reflexivity|]. split; [exact HremoteA|].
  split; [exact HplA|]. split; [exact HprA|]. split; reflexivity.
Qed.

Lemma offer_answer_handshake_witness :
  exists offer answer,
    sent (trace (createPeer (named_host "alice") "bob" true (named_world "alice")).2)
    = [SendOffer "bob" offer "alice"] /\
    sent (trace (onWebRTCOffer (named_host "bob") offer "alice" (named_world "bob")).2)
    = [SendAnswer "alice" answer "bob"] /\
    signalingState
      (the_conn 0 (onWebRTCAnswer (named_host "alice") answer "bob" alice_calls).2) = stable.
Proof.
  destruct (offer_answer_handshake (named_host "alice") (named_host "bob") "alice" "bob"
              (named_world "alice") (named_world "bob")
              eq_refl ltac:(discriminate) eq_refl ltac:(discriminate) eq_refl eq_refl
              (fun _ => eq_refl) (fun _ => eq_refl))
    as (offer & answer & _ & _ & Hoffer & Hanswer & _ & _ & _ & HstableA & _).
  exists offer, answer. split; [exact Hoffer|]. split; [exact Hanswer|exact HstableA].
Defined.

(** X6. The same exchange when B has prepared a session for [a] with
    [createPeer a false] before the offer arrives, as the application does
    for a user that joins: the offer is handled on the prepared session, on
    the connection [createPeer] built for it, and no second connection is
    created; the outcome is the same. *)
Theorem handshake_with_prepared_session (hostA hostB : Host) (a b : string)
    (wA wB : World) :
  socketId wA = Some a -> a <> "" ->
  socketId wB = Some b -> b <> "" ->
  PeerMap.get b (peers (this wA)) = None ->
  PeerMap.get a (peers (this wB)) = None ->
  (forall d, accepts_description hostA d = true) ->
  (forall d, accepts_description hostB d = true) ->
  exists offer answer,
    let wB0 := (createPeer hostB a false wB).2 in
    let wA1 := (createPeer hostA b true wA).2 in
    let wB1 := (onWebRTCOffer hostB offer a wB0).2 in
    let wA2 := (onWebRTCAnswer hostA answer b wA1).2 in
    let cA := the_conn (length (conns wA)) wA2 in
    let cB := the_conn (length (conns wB)) wB1 in
    sent (drop (length (trace wB)) (trace wB0)) = [] /\
    sent (drop (length (trace wA)) (trace wA1)) = [SendOffer b offer a] /\
    sent (drop (length (trace wB0)) (trace wB1)) = [SendAnswer a answer b] /\
    sent (drop (length (trace wA1)) (trace wA2)) = [] /\
    length (conns wB1) = S (length (conns wB)) /\
    PeerMap.get a (peers (this wB0)) = Some (responder_peer a (length (conns wB))) /\
    PeerMap.get a (peers (this wB1)) = Some (responder_peer a (length (conns wB))) /\
    signalingState cA = stable /\
    signalingState cB = stable /\
    currentLocalDescription cA = Some offer /\
    currentRemoteDescription cB = Some offer /\
    currentLocalDescription cB = Some answer /\
    currentRemoteDescription cA = Some answer.
Proof.
  intros HsA Ha HsB Hb HgA HgB HaccA HaccB.
  set (offer := created_offer hostA b (localStream (this wA))).
  set (pc1 := offered_conn offer a (localStream (this wB))).
  set (answer := created_answer hostB (flushed hostB pc1 [])).
  exists offer, answer.
  destruct (initiator_completes hostA a b wA answer HsA Ha HgA eq_refl (HaccA answer))
    as (Hoffer & Hquiet & HgetA & HstA & HlocalA & HremoteA & _).
  fold offer in Hoffer, HlocalA.
  rewrite (createPeer_responder_absent hostB a wB HgB). cbn [snd].
  assert (Hget : PeerMap.get a (peers (this (with_responder a wB)))
                 = Some (responder_peer a (length (conns wB)))) by apply with_responder_get.
  assert (Hc : connection (responder_peer a (length (conns wB)))
               < length (conns (with_responder a wB))).
  { simpl. rewrite length_app. simpl. lia. }
  assert (Hset : Capability.setRemoteDescription hostB offer
                   (before_offer (the_conn (connection (responder_peer a (length (conns wB))))
                                    (with_responder a wB)))
                 = inr pc1).
  { cbn [connection responder_peer]. rewrite with_responder_conn.
    unfold before_offer. rewrite decide_False by discriminate.
    rewrite setRemoteDescription_fresh. cbn [sdp_type offer created_offer].
    rewrite HaccB. reflexivity. }
  rewrite (onWebRTCOffer_present hostB offer a _ (with_responder a wB) pc1 Hget Hc Hset
             eq_refl).
  cbn [snd].
  assert (HcB : forall this0 ti en so tr pc,
            the_conn (length (conns wB))
              (mkWorld this0
                 (<[connection (responder_peer a (length (conns wB))) := pc]>
                    (conns (with_responder a wB))) ti en so tr) = pc).
  { intros. unfold the_conn. cbn [conns with_responder connection responder_peer].
    rewrite insert_allocated, lookup_app_r by lia. rewrite Nat.sub_diag. reflexivity. }
  rewrite HcB.
  split.
  { cbn [trace with_responder]. rewrite drop_app_length.
    apply sent_none, local_track_calls_no_sender. }
  split; [exact Hoffer|].
  split.
  { cbn [trace]. rewrite drop_app_length, sent_app.
    unfold rollback_effects. cbn [connection responder_peer].
    rewrite with_responder_conn. rewrite decide_False by discriminate.
    rewrite sent_answer_round. cbn [sent omap app socketId with_responder].
    rewrite HsB, (truthy_Some b Hb). reflexivity. }
  split; [exact Hquiet|].
  split.
  { cbn [conns]. rewrite length_insert. cbn [conns with_responder].
    rewrite length_app. simpl. lia. }
  split; [exact Hget|].
  split.
  { cbn [this]. unfold emptied. cbn [buffer_of pendingCandidates responder_peer default].
    exact Hget. }
  split; [exact HstA|]. split; [reflexivity|]. split; [exact HlocalA|].
  split; [reflexivity|]. split; [reflexivity|exact HremoteA].
Qed.

Lemma handshake_with_prepared_session_witness :
  exists offer answer,
    let wB0 := (createPeer (named_host "bob") "alice" false (named_world "bob")).2 in
    let wB1 := (onWebRTCOffer (named_host "bob") offer "alice" wB0).2 in
    length (conns wB0) = 1 /\ length (conns wB1) = 1 /\
    sent (trace wB1) = [SendAnswer "alice" answer "bob"] /\
    signalingState (the_conn 0 wB1) = stable.
Proof.
  destruct (handshake_with_prepared_session (named_host "alice") (named_host "bob")
              "alice" "bob" (named_world "alice") (named_world "bob")
              eq_refl ltac:(discriminate) eq_refl ltac:(discriminate) eq_refl eq_refl
              (fun _ => eq_refl) (fun _ => eq_refl))
    as (offer & answer & _ & _ & Hanswer & _ & Hlen & _ & _ & _ & HstableB & _).
  exists offer, answer. split; [reflexivity|]. split; [exact Hlen|].
  split; [exact Hanswer|exact HstableB].
Defined.

(** ** An offer that arrives after [cleanup] *)

Lemma local_senders_tracks ts ss s :
  s ∈ local_senders ss ts -> s ∈ ss \/ exists t, t ∈ ts /\ s = mkSender (Some t).
Proof.
  revert ss. induction ts as [|t ts IH]; intros ss Hin; [left; exact Hin|].
  unfold local_senders in Hin. simpl in Hin. apply IH in Hin as [Hin|(t' & Ht' & ->)].
  - unfold add_if_new_kind in Hin.
    destruct (find_index (sends_kind (kind t)) ss); [left; exact Hin|].
    apply elem_of_app in Hin as [Hin|Hin]; [left; exact Hin|].
    apply list_elem_of_singleton in Hin. right. exists t.
    split; [apply elem_of_cons; left; reflexivity|exact Hin].
  - right. exists t'. split; [apply elem_of_cons; right; exact Ht'|reflexivity].
Qed.

(** X7. [cleanup] leaves the signaling handlers installed and keeps the local
    stream.  So an offer that arrives after [cleanup], and that the browser
    accepts, builds a session in the manager that was cleaned up: the only
    session it then has, on a new connection that ends stable and sends the
    first local track of each kind, every one of them a track that
    [cleanup] has stopped; and the answer goes out under a socket id that
    is not empty, while with no socket id or an empty one nothing is sent
    and "Socket ID not found" is logged. *)
Theorem offer_after_cleanup (host : Host) (offer : RTCSessionDescriptionInit)
    (from : string) (w : World) :
  sdp_type offer = ty_offer ->
  accepts_description host offer = true ->
  let w1 := (cleanup w).2 in
  let w2 := (onWebRTCOffer host offer from w1).2 in
  let c := length (conns w) in
  peers (this w1) = [] /\
  peers (this w2) = [(from, responder_peer from c)] /\
  length (conns w2) = S c /\
  signalingState (the_conn c w2) = stable /\
  getSenders (the_conn c w2) = local_senders [] (tracks_of (localStream (this w))) /\
  (forall s, s ∈ getSenders (the_conn c w2) ->
     exists t, s = mkSender (Some t) /\ t ∈ ended w2) /\
  (forall sid, socketId w = Some sid -> sid <> "" ->
     exists answer,
       sent (drop (length (trace w1)) (trace w2)) = [SendAnswer from answer sid]) /\
  (socketId w = None \/ socketId w = Some "" ->
     sent (drop (length (trace w1)) (trace w2)) = [] /\
     ConsoleError "Socket ID not found" ∈ drop (length (trace w1)) (trace w2)).
Proof.
  intros Hty Hacc w1 w2 c.
  assert (Hw1 : w1 = (cleanup w).2) by reflexivity.
  rewrite cleanup_spec in Hw1. cbn [snd] in Hw1.
  assert (Hpeers : peers (this w1) = []) by (rewrite Hw1; reflexivity).
  assert (Hlen : length (conns w1) = c) by (rewrite Hw1; simpl; apply close_all_length).
  assert (Hlocal : localStream (this w1) = localStream (this w)) by (rewrite Hw1; reflexivity).
  assert (Hget : PeerMap.get from (peers (this w1)) = None) by (rewrite Hpeers; reflexivity).
  assert (Hw2 : w2 = (onWebRTCOffer host offer from w1).2) by reflexivity.
  rewrite (onWebRTCOffer_absent_accepted host offer from w1 Hget Hty Hacc) in Hw2.
  cbn [snd] in Hw2. rewrite Hlen, Hlocal in Hw2.
  assert (Hconn : the_conn c w2
                  = answered host (offered_conn offer from (localStream (this w))) []).
  { rewrite Hw2. rewrite <- Hlen. apply the_conn_appended. }
  split; [exact Hpeers|]. split; [rewrite Hw2; simpl; rewrite Hpeers; reflexivity|].
  split; [rewrite Hw2; simpl; rewrite length_app; simpl; lia|].
  rewrite Hconn.
  split; [reflexivity|]. split; [reflexivity|]. split.
  - intros s Hs.
    change (getSenders (answered host (offered_conn offer from (localStream (this w))) []))
      with (local_senders [] (tracks_of (localStream (this w)))) in Hs.
    apply local_senders_tracks in Hs as [Hs|(t & Ht & ->)];
      [apply elem_of_nil in Hs; contradiction|].
    exists t. split; [reflexivity|].
    rewrite Hw2. cbn [ended]. rewrite Hw1. cbn [ended].
    apply elem_of_app. right. apply elem_of_app. left. exact Ht.
  - assert (Hsock : socketId w1 = socketId w) by (rewrite Hw1; reflexivity).
    rewrite Hw2. cbn [trace]. rewrite drop_app_length, sent_app.
    rewrite (sent_none _ (local_track_calls_no_sender _ _ _)), sent_answer_round, Hsock.
    split.
    + intros sid Hsid Hne. eexists. rewrite Hsid, (truthy_Some sid Hne). reflexivity.
    + intros Hfalsy. rewrite (truthy_falsy _ Hfalsy). split; [reflexivity|].
      apply elem_of_app. right.
      match goal with
      | |- _ ∈ answer_round ?h ?f ?c0 ?o ?pc ?b _ =>
          pose proof (last_of_answer_round h f c0 o pc b (socketId w)) as Hlast
      end.
      rewrite (truthy_falsy _ Hfalsy) in Hlast. exact Hlast.
Qed.

Lemma offer_after_cleanup_witness :
  let w1 := (cleanup two_peers_world).2 in
  let w2 := (onWebRTCOffer quiet_host (mkSdp ty_offer "late offer") "dave" w1).2 in
  peers (this w1) = [] /\
  peers (this w2) = [("dave", responder_peer "dave" 2)] /\
  getSenders (the_conn 2 w2) = [mkSender (Some microphone); mkSender (Some camera)] /\
  microphone ∈ ended w2 /\ camera ∈ ended w2.
Proof.
  destruct (offer_after_cleanup quiet_host (mkSdp ty_offer "late offer") "dave"
              two_peers_world eq_refl eq_refl)
    as (Hgone & Hback & _ & _ & Hsenders & Hended & _).
  split; [exact Hgone|]. split; [exact Hback|]. split; [exact Hsenders|].
  split.
  - destruct (Hended (mkSender (Some microphone))) as (t & [= <-] & Ht); [|exact Ht].
    rewrite Hsenders. apply list_elem_of_In. vm_compute. tauto.
  - destruct (Hended (mkSender (Some camera))) as (t & [= <-] & Ht); [|exact Ht].
    rewrite Hsenders. apply list_elem_of_In. vm_compute. tauto.
Defined.

(** ** [createPeer], [getPeer], [getAllPeers], [removePeer] *)

Lemma createPeer_lookup host k isInitiator w :
  exists p w',
    createPeer host k isInitiator w = (Normal p, w') /\
    PeerMap.get k (peers (this w')) = Some p /\
    forall other, other <> k ->
      PeerMap.get other (peers (this w')) = PeerMap.get other (peers (this w)).
Proof.
  destruct (PeerMap.get k (peers (this w))) as [existing|] eqn:Hget.
  - destruct (decide (healthy (the_conn (connection existing) w))) as [Hh|Hh].
    { exists existing, w. split; [apply createPeer_healthy; assumption|]. split; trivial. }
    destruct (decide (stale (the_conn (connection existing) w))) as [Hst|Hst].
    + rewrite (createPeer_stale host k isInitiator existing w Hget Hst).
      destruct (removePeer_frame host k existing w Hget) as (ls & ds & Hrm & _).
      rewrite (run_bind _ _ _ _ Hrm). next.
      destruct (create_fresh_spec host k isInitiator
                  (relisten ls (logs (Emit (ev_peerRemoved k) :: ds) (dropped k existing w))))
        as (tr & pc & -> & _).
      eexists. eexists. split; [reflexivity|]. simpl.
      split; [apply get_set_eq|].
      intros other Hne. rewrite get_set_ne, get_delete_ne by congruence. reflexivity.
    + exists existing, w.
      split; [apply createPeer_not_ready; assumption|]. split; trivial.
  - rewrite createPeer_absent by exact Hget.
    destruct (create_fresh_spec host k isInitiator w) as (tr & pc & -> & _).
    eexists. eexists. split; [reflexivity|]. simpl.
    split; [apply get_set_eq|].
    intros other Hne. rewrite get_set_ne by congruence. reflexivity.
Qed.

Lemma key_iff_get x (m : PeerMap.t) : x ∈ PeerMap.keys m <-> PeerMap.get x m <> None.
Proof.
  pose proof (get_None_not_key x m) as Hiff. split.
  - intros Hin Hnone. apply Hiff in Hnone. contradiction.
  - intros Hsome. destruct (decide (x ∈ PeerMap.keys m)) as [Hin|Hout]; [exact Hin|].
    apply Hiff in Hout. contradiction.
Qed.

(** X8. When [createPeer] returns a session, [getPeer] gives that session for
    the same id, the other ids have the sessions they had, and
    [getAllPeers] holds the keys it held before and this id.  After
    [removePeer] for the id, [getPeer] gives nothing for it, the other ids
    still have their sessions, and a second [removePeer] changes nothing.
    [getPeer] and [getAllPeers] change nothing themselves. *)
Theorem getPeer_after_createPeer (host : Host) (k : string) (isInitiator : bool)
    (w w' : World) (p : PeerConnection) :
  createPeer host k isInitiator w = (Normal p, w') ->
  getPeer k w' = (Normal (Some p), w') /\
  (forall other, other <> k ->
     getPeer other w' = (Normal (PeerMap.get other (peers (this w))), w')) /\
  (exists all,
     getAllPeers w' = (Normal all, w') /\
     forall x, x ∈ PeerMap.keys all <-> x = k \/ x ∈ PeerMap.keys (peers (this w))) /\
  let w'' := (removePeer host k w').2 in
  getPeer k w'' = (Normal None, w'') /\
  (forall other, other <> k ->
     getPeer other w'' = (Normal (PeerMap.get other (peers (this w))), w'')) /\
  removePeer host k w'' = (Normal tt, w'').
Proof.
  intros Hrun.
  destruct (createPeer_lookup host k isInitiator w) as (p0 & w0 & Hrun0 & Hget & Hothers).
  rewrite Hrun in Hrun0. injection Hrun0 as <- <-.
  unfold getPeer, getAllPeers, gets.
  split; [rewrite Hget; reflexivity|].
  split; [intros other Hne; rewrite Hothers by exact Hne; reflexivity|].
  split.
  { eexists. split; [reflexivity|]. intros x. rewrite !key_iff_get.
    destruct (decide (x = k)) as [->|Hne].
    - rewrite Hget. split; [left; reflexivity|discriminate].
    - rewrite Hothers by exact Hne. split; [right; assumption|].
      intros [Heq|Hx]; [contradiction|exact Hx]. }
  set (w'' := (removePeer host k w').2).
  destruct (removePeer_frame host k p w' Hget) as (ls & ds & Hrm & _).
  assert (Hw'' : w'' = relisten ls (logs (Emit (ev_peerRemoved k) :: ds) (dropped k p w')))
    by (subst w''; rewrite Hrm; reflexivity).
  assert (Hgone : PeerMap.get k (peers (this w'')) = None)
    by (rewrite Hw''; simpl; apply get_delete_eq).
  split; [rewrite Hgone; reflexivity|].
  split.
  - intros other Hne. f_equal. f_equal. rewrite Hw''. simpl.
    rewrite get_delete_ne by congruence. apply Hothers, Hne.
  - apply removePeer_absent, Hgone.
Qed.

Lemma getPeer_after_createPeer_witness :
  exists p w',
    createPeer quiet_host "bob" true bob_disconnected = (Normal p, w') /\
    getPeer "bob" w' = (Normal (Some p), w') /\
    connection p = 1 /\
    getPeer "bob" (removePeer quiet_host "bob" w').2
    = (Normal None, (removePeer quiet_host "bob" w').2).
Proof.
  eexists. eexists. split; [vm_compute; reflexivity|].
  match goal with
  | |- getPeer _ ?w' = (Normal (Some ?p), _) /\ _ =>
      destruct (getPeer_after_createPeer quiet_host "bob" true bob_disconnected w' p)
        as (Hget & _ & _ & Hgone & _); [vm_compute; reflexivity|]
  end.
  split; [exact Hget|]. split; [reflexivity|exact Hgone].
Defined.

(** ** [ontrack] *)

Lemma find_track_known id s :
  id ∈ map track_id (getTracks s) -> exists t, find_track id s = Some t.
Proof.
  intros Hin. destruct (find_track id s) as [t|] eqn:Hfind; [exists t; reflexivity|].
  exfalso. apply (find_track_None _ _ Hfind). exact Hin.
Qed.

Lemma received_known track s :
  track_id track ∈ map track_id (getTracks s) -> received track s = s.
Proof.
  intros Hin. unfold received. destruct (find_track_known _ _ Hin) as [t ->]. reflexivity.
Qed.

Lemma received_holds track s : track_id track ∈ map track_id (getTracks (received track s)).
Proof.
  rewrite received_tracks. destruct (find_track (track_id track) s) as [t|] eqn:Hfind.
  - apply find_track_Some in Hfind as [Hin Hid]. rewrite <- Hid.
    apply list_elem_of_fmap. exists t. split; [reflexivity|exact Hin].
  - rewrite map_app. apply elem_of_app. right. apply list_elem_of_singleton. reflexivity.
Qed.

Lemma ontrack_absent host c track fresh_id w :
  PeerMap.get (handler_peerId (the_conn c w)) (peers (this w)) = None ->
  ontrack host c track fresh_id w = (Normal tt, w).
Proof.
  intros Hget. unfold ontrack. step primitive. step primitive. rewrite Hget. reflexivity.
Qed.

Lemma ontrack_present host c track fresh_id w peer :
  PeerMap.get (handler_peerId (the_conn c w)) (peers (this w)) = Some peer ->
  ontrack host c track fresh_id w
  = emitEvent host
      (ev_stream (handler_peerId (the_conn c w))
         (received track (default (new_MediaStream fresh_id) (stream peer))))
      (set_this (set_peers (PeerMap.set (handler_peerId (the_conn c w))
         (set_stream (Some (received track (default (new_MediaStream fresh_id) (stream peer))))
            peer))) w).
Proof.
  intros Hget. unfold ontrack. step primitive. step primitive. rewrite Hget. next.
  enter.
  { unfold update_peer, modify. reflexivity. }
  next. f_equal. world_eq. rewrite Hget. reflexivity.
Qed.

(** X9. [ontrack] acts on the session filed under the [peerId] its connection
    was created for.  Without such a session it changes nothing and emits
    nothing.  With one, the session's remote stream (a new, empty one when
    the session had none) gets the track unless it holds a track with that
    id already; either way the stream then holds a track with that id, its
    ids stay pairwise distinct, and exactly one [stream] event is emitted,
    carrying the stream as it now is; the same track arriving again leaves
    the stream as it is.  The other sessions and the connections are not
    touched. *)
Theorem ontrack_collects (host : Host) (c : ConnId) (track : MediaStreamTrack)
    (fresh_id : string) (w : World) :
  let k := handler_peerId (the_conn c w) in
  let w' := (ontrack host c track fresh_id w).2 in
  (ontrack host c track fresh_id w).1 = Normal tt /\
  (PeerMap.get k (peers (this w)) = None -> w' = w) /\
  forall peer, PeerMap.get k (peers (this w)) = Some peer ->
    let before := default (new_MediaStream fresh_id) (stream peer) in
    let now := received track before in
    PeerMap.get k (peers (this w')) = Some (set_stream (Some now) peer) /\
    (forall other, other <> k ->
       PeerMap.get other (peers (this w')) = PeerMap.get other (peers (this w))) /\
    conns w' = conns w /\
    stream_id now = stream_id before /\
    (track_id track ∈ map track_id (getTracks before) -> now = before) /\
    (track_id track ∉ map track_id (getTracks before) ->
       getTracks now = getTracks before ++ [track]) /\
    track_id track ∈ map track_id (getTracks now) /\
    (stream_ok peer -> NoDup (map track_id (getTracks now))) /\
    received track now = now /\
    exists ds,
      trace w' = trace w ++ Emit (ev_stream k now) :: ds /\
      Forall (fun e => exists l, e = Deliver l (ev_stream k now)) ds.
Proof.
  intros k w'. split; [|split].
  - destruct (PeerMap.get k (peers (this w))) as [peer|] eqn:Hget.
    + rewrite (ontrack_present host c track fresh_id w peer Hget).
      apply returns_unit, returns_emitEvent.
    + rewrite (ontrack_absent host c track fresh_id w Hget). reflexivity.
  - intros Hget. subst w'. rewrite (ontrack_absent host c track fresh_id w Hget). reflexivity.
  - intros peer Hget before now. subst w'.
    rewrite (ontrack_present host c track fresh_id w peer Hget).
    fold k before now.
    destruct (emitEvent_frame host (ev_stream k now)
                (set_this (set_peers (PeerMap.set k (set_stream (Some now) peer))) w))
      as (ls & ds & -> & Hds & _).
    cbn [snd].
    split; [simpl; apply get_set_eq|].
    split; [intros other Hne; simpl; apply get_set_ne; congruence|].
    split; [reflexivity|].
    split.
    { subst now. unfold received, MediaStream_addTrack.
      destruct (find_track (track_id track) before); [reflexivity|].
      destruct (bool_decide (track ∈ getTracks before)); reflexivity. }
    split; [apply received_known|].
    split.
    { intros Hnew. subst now. rewrite received_tracks.
      destruct (find_track (track_id track) before) as [t|] eqn:Hfind; [|reflexivity].
      exfalso. apply Hnew. apply find_track_Some in Hfind as [Hin Hid]. rewrite <- Hid.
      apply list_elem_of_fmap. exists t. split; [reflexivity|exact Hin]. }
    split; [apply received_holds|].
    split.
    { intros Hok. apply received_distinct. subst before.
      destruct (stream peer) as [s0|] eqn:Hs; simpl; [apply Hok; exact Hs|constructor]. }
    split; [apply received_known, received_holds|].
    exists ds. split; [reflexivity|exact Hds].
Qed.

(** ** [onicecandidate] *)

Lemma onicecandidate_spec c x w :
  onicecandidate c x w
  = (Normal tt,
     match x, truthy (socketId w) with
     | Some ci, Some sid => log (SendIceCandidate (handler_peerId (the_conn c w)) ci sid) w
     | _, _ => w
     end).
Proof.
  unfold onicecandidate. step primitive. destruct x as [ci|]; [|reflexivity].
  step primitive. destruct (truthy (socketId w)); reflexivity.
Qed.

Lemma relay_loop c cs w :
  for_of cs (onicecandidate c) w
  = (Normal tt,
     match truthy (socketId w) with
     | Some sid => logs (relayed (handler_peerId (the_conn c w)) sid cs) w
     | None => w
     end).
Proof.
  revert w. induction cs as [|x cs IH]; intros w.
  - simpl. unfold ret. destruct (truthy (socketId w)); [rewrite logs_nil|]; reflexivity.
  - cbn [for_of]. rewrite (run_bind _ _ _ _ (onicecandidate_spec c x w)). next.
    rewrite IH. f_equal.
    destruct x as [ci|], (truthy (socketId w)) as [sid|] eqn:Hsid; cbn [socketId log logs];
      rewrite ?Hsid; try reflexivity.
    unfold log. rewrite the_conn_logs, logs_logs. reflexivity.
Qed.

(** X10. The candidates the browser gathers on a connection are relayed one by
    one: each becomes one signaling message, in gathering order, to the
    [peerId] the connection was created for, with the socket id as sender;
    the event without a candidate that ends the gathering sends nothing.
    Nothing else changes, and the handler does not ask whether the peer
    still has a session.  While the socket has no id the candidates are
    dropped without a trace. *)
Theorem onicecandidate_relays (c : ConnId) (cs : list (option RTCIceCandidateInit))
    (w : World) :
  let k := handler_peerId (the_conn c w) in
  let w' := (for_of cs (onicecandidate c) w).2 in
  (for_of cs (onicecandidate c) w).1 = Normal tt /\
  (forall sid, socketId w = Some sid -> sid <> "" ->
     w' = logs (map (fun ci => SendIceCandidate k ci sid) (omap id cs)) w) /\
  (socketId w = None \/ socketId w = Some "" -> w' = w).
Proof.
  intros k w'. subst w'. rewrite relay_loop. cbn [fst snd].
  split; [reflexivity|]. split.
  - intros sid Hsid Hne. unfold truthy. rewrite Hsid.
    rewrite bool_decide_eq_false_2 by exact Hne. reflexivity.
  - intros [Hnone|Hempty]; unfold truthy.
    + rewrite Hnone. reflexivity.
    + rewrite Hempty. reflexivity.
Qed.

(** ** [ondatachannel] *)

Lemma ondatachannel_spec c channel w :
  ondatachannel c channel w
  = (Normal tt,
     match PeerMap.get (handler_peerId (the_conn c w)) (peers (this w)) with
     | Some peer =>
         set_this (set_peers (PeerMap.set (handler_peerId (the_conn c w))
                                (set_dataChannel (Some channel) peer))) w
     | None => w
     end).
Proof.
  unfold ondatachannel. step primitive. step primitive.
  destruct (PeerMap.get (handler_peerId (the_conn c w)) (peers (this w))) as [peer|] eqn:Hget;
    [|reflexivity].
  unfold update_peer, modify. f_equal. world_eq. rewrite Hget. reflexivity.
Qed.

(** X11. [ondatachannel] acts on the session filed under the [peerId] its
    connection was created for.  Without such a session it changes
    nothing.  With one, the session holds the announced channel from then
    on, in place of any channel it held, and nothing else changes; it is
    this channel, and no other, that a later [removePeer] closes together
    with the connection, before it emits [peerRemoved]. *)
Theorem ondatachannel_attaches (host : Host) (c : ConnId) (channel : RTCDataChannel)
    (w : World) :
  let k := handler_peerId (the_conn c w) in
  let w' := (ondatachannel c channel w).2 in
  (ondatachannel c channel w).1 = Normal tt /\
  (PeerMap.get k (peers (this w)) = None -> w' = w) /\
  forall peer, PeerMap.get k (peers (this w)) = Some peer ->
    w' = set_this (set_peers (PeerMap.set k (set_dataChannel (Some channel) peer))) w /\
    PeerMap.get k (peers (this w')) = Some (set_dataChannel (Some channel) peer) /\
    (forall other, other <> k ->
       PeerMap.get other (peers (this w')) = PeerMap.get other (peers (this w))) /\
    exists ds,
      trace (removePeer host k w').2
      = trace w ++ [Call (connection peer) close_ true; ChannelClose channel;
                    Emit (ev_peerRemoved k)] ++ ds /\
      Forall (fun e => exists l, e = Deliver l (ev_peerRemoved k)) ds.
Proof.
  intros k w'. subst w'. rewrite ondatachannel_spec. cbn [fst snd]. fold k.
  split; [reflexivity|]. split; [intros ->; reflexivity|].
  intros peer Hget. rewrite Hget.
  split; [reflexivity|].
  assert (Hnow : PeerMap.get k (peers (this (set_this (set_peers
                   (PeerMap.set k (set_dataChannel (Some channel) peer))) w)))
                 = Some (set_dataChannel (Some channel) peer)) by apply get_set_eq.
  split; [exact Hnow|].
  split; [intros other Hne; simpl; apply get_set_ne; congruence|].
  destruct (removePeer_frame host k _ _ Hnow) as (ls & ds & -> & Hds).
  exists ds. split; [|exact Hds].
  cbn. rewrite <- app_assoc. reflexivity.
Qed.

(** ** Messages on a data channel *)

(** X12. The [onmessage] handler of a data channel never throws and touches
    neither the sessions nor the connections.  A text that [JSON.parse]
    rejects is logged with [console.error] and emits nothing.  A text that
    parses is emitted as one [chat] event, whatever it holds, and delivered
    to listeners only; when the listeners do not unsubscribe while they are
    called, it reaches every registered listener, in registration order. *)
Theorem onmessage_parses (host : Host) (JSON_parse : string -> option string)
    (data : string) (w : World) :
  let w' := (onmessage host JSON_parse data w).2 in
  (onmessage host JSON_parse data w).1 = Normal tt /\
  peers (this w') = peers (this w) /\
  conns w' = conns w /\
  (JSON_parse data = None ->
     w' = log (ConsoleError "Error parsing data channel message:") w) /\
  forall message, JSON_parse data = Some message ->
    exists ds,
      trace w' = trace w ++ Emit (ev_chat message) :: ds /\
      Forall (fun e => exists l, e = Deliver l (ev_chat message)) ds /\
      ((forall l, only_subscribes (react host l (ev_chat message))) ->
       delivered_to ds = eventListeners (this w)).
Proof.
  intros w'. subst w'. unfold onmessage.
  destruct (JSON_parse data) as [message|] eqn:Hparse.
  - destruct (emitEvent_frame host (ev_chat message) w) as (ls & ds & Hrun & Hds & _).
    rewrite Hrun. cbn [fst snd].
    split; [reflexivity|]. split; [reflexivity|]. split; [reflexivity|].
    split; [discriminate|].
    intros message' [= <-]. exists ds. split; [reflexivity|]. split; [exact Hds|].
    intros Hsub. rewrite (emitEvent_subscribing host (ev_chat message) Hsub w) in Hrun.
    injection Hrun as _ Htrace. apply app_inv_head in Htrace.
    injection Htrace as <-. apply delivered_to_deliveries.
  - split; [reflexivity|]. split; [reflexivity|]. split; [reflexivity|].
    split; [reflexivity|discriminate].
Qed.

(** ** The handlers of a connection on an example *)

Lemma ontrack_collects_witness :
  let w' := (ontrack quiet_host 0 camera "remote-1" bob_world).2 in
  PeerMap.get "bob" (peers (this bob_world)) = Some (responder_peer "bob" 0) /\
  PeerMap.get "bob" (peers (this w'))
  = Some (set_stream (Some {| stream_id := "remote-1"; getTracks := [camera] |})
            (responder_peer "bob" 0)) /\
  exists ds, trace w'
             = trace bob_world
               ++ Emit (ev_stream "bob" {| stream_id := "remote-1"; getTracks := [camera] |})
                  :: ds.
Proof.
  assert (Hget : PeerMap.get (handler_peerId (the_conn 0 bob_world)) (peers (this bob_world))
                 = Some (responder_peer "bob" 0)) by reflexivity.
  destruct (ontrack_collects quiet_host 0 camera "remote-1" bob_world)
    as (_ & _ & Hpresent).
  destruct (Hpresent _ Hget) as (Hnow & _ & _ & _ & _ & _ & _ & _ & _ & ds & Htrace & _).
  split; [exact Hget|]. split; [exact Hnow|].
  exists ds. exact Htrace.
Defined.

Lemma onicecandidate_relays_witness :
  (for_of [Some (host_candidate "first"); None; Some (host_candidate "last")]
     (onicecandidate 0) bob_world).2
  = logs [SendIceCandidate "bob" (host_candidate "first") "socket-me";
          SendIceCandidate "bob" (host_candidate "last") "socket-me"] bob_world.
Proof.
  destruct (onicecandidate_relays 0
              [Some (host_candidate "first"); None; Some (host_candidate "last")] bob_world)
    as (_ & Hrelay & _).
  apply (Hrelay "socket-me"); [reflexivity|discriminate].
Defined.

Lemma ondatachannel_attaches_witness :
  let announced := {| label := "chat"; channel_of := 0 |} in
  let w' := (ondatachannel 0 announced bob_world).2 in
  PeerMap.get "bob" (peers (this bob_world)) = Some (responder_peer "bob" 0) /\
  PeerMap.get "bob" (peers (this w'))
  = Some (set_dataChannel (Some announced) (responder_peer "bob" 0)) /\
  exists ds,
    trace (removePeer quiet_host "bob" w').2
    = trace bob_world
      ++ [Call 0 close_ true; ChannelClose announced; Emit (ev_peerRemoved "bob")] ++ ds.
Proof.
  assert (Hget : PeerMap.get (handler_peerId (the_conn 0 bob_world)) (peers (this bob_world))
                 = Some (responder_peer "bob" 0)) by reflexivity.
  destruct (ondatachannel_attaches quiet_host 0 {| label := "chat"; channel_of := 0 |}
              bob_world) as (_ & _ & Hpresent).
  destruct (Hpresent _ Hget) as (_ & Hnow & _ & ds & Htrace & _).
  split; [exact Hget|]. split; [exact Hnow|].
  exists ds. exact Htrace.
Defined.

Lemma onmessage_parses_witness :
  let parse := fun data : string => if String.eqb data "{}" then Some data else None in
  let w := relisten [1; 2] empty_world in
  (onmessage quiet_host parse "not json" w).2
  = log (ConsoleError "Error parsing data channel message:") w /\
  exists ds,
    trace (onmessage quiet_host parse "{}" w).2 = trace w ++ Emit (ev_chat "{}") :: ds /\
    delivered_to ds = [1; 2].
Proof.
  split.
  - destruct (onmessage_parses quiet_host
                (fun data : string => if String.eqb data "{}" then Some data else None)
                "not json" (relisten [1; 2] empty_world)) as (_ & _ & _ & Hbad & _).
    apply Hbad. reflexivity.
  - destruct (onmessage_parses quiet_host
                (fun data : string => if String.eqb data "{}" then Some data else None)
                "{}" (relisten [1; 2] empty_world)) as (_ & _ & _ & _ & Hgood).
    destruct (Hgood "{}" eq_refl) as (ds & Htrace & _ & Hall).
    exists ds. split; [exact Htrace|]. apply Hall.
    intros l. constructor.
Defined.

(** ** A connection that reports Closed *)

Lemma connectionstatechange_closed host c w :
  c < length (conns w) ->
  connectionstatechange host c cs_closed w
  = removePeer host (handler_peerId (the_conn c w)) (moved c cs_closed w).
Proof.
  intros Hc. rewrite connectionstatechange_moves. unfold onconnectionstatechange.
  step primitive. step primitive.
  rewrite (moved_conn c cs_closed w Hc). reflexivity.
Qed.

(** X13. At every instant, whatever has happened before: when the browser
    reports that the connection of a session has gone to Closed, the
    handler of that connection removes that session and no other; the
    connection is closed for signaling too and [peerRemoved] is emitted for
    the peer. *)
Theorem closed_connection_removes_its_session (host : Host)
    (JSON_parse : string -> option string) (events : list Event)
    (userId roomId : string) (socket : option string) :
  let w := run_all host JSON_parse events (start userId roomId socket) in
  forall k p, PeerMap.get k (peers (this w)) = Some p ->
    let w' := (connectionstatechange host (connection p) cs_closed w).2 in
    (connectionstatechange host (connection p) cs_closed w).1 = Normal tt /\
    PeerMap.get k (peers (this w')) = None /\
    (forall other, other <> k ->
       PeerMap.get other (peers (this w')) = PeerMap.get other (peers (this w))) /\
    closed_at (connection p) w' /\
    Emit (ev_peerRemoved k) ∈ drop (length (trace w)) (trace w').
Proof.
  intros w k p Hget.
  pose proof (sound_run_all host JSON_parse events userId roomId socket) as Hsound.
  fold w in Hsound.
  destruct (proj1 (Forall_forall _ _) Hsound (k, p) (get_Some_elem _ _ _ Hget))
    as (_ & Hc & Hh & _).
  simpl in Hc, Hh.
  rewrite (connectionstatechange_closed host (connection p) w Hc), Hh.
  assert (Hget' : PeerMap.get k (peers (this (moved (connection p) cs_closed w))) = Some p)
    by exact Hget.
  destruct (removePeer_frame host k p _ Hget') as (ls & ds & -> & _). cbn [fst snd].
  split; [reflexivity|]. split; [simpl; apply get_delete_eq|].
  split; [intros other Hne; simpl; apply get_delete_ne; congruence|].
  split.
  - unfold closed_at, the_conn. simpl.
    rewrite list_lookup_insert_eq by (rewrite length_insert; exact Hc). reflexivity.
  - cbn [trace relisten logs set_this dropped moved set_conns].
    rewrite <- app_assoc, drop_app_length.
    apply elem_of_app. right. apply elem_of_cons. left. reflexivity.
Qed.

Lemma closed_connection_removes_its_session_witness :
  let w := run_all quiet_host (fun _ => None)
             [input (call_createPeer "bob" false); input (call_createPeer "carol" true)]
             (start "me" "room" (Some "socket-me")) in
  let w' := (connectionstatechange quiet_host 1 cs_closed w).2 in
  PeerMap.get "carol" (peers (this w)) = Some (initiator_peer "carol" 1) /\
  PeerMap.get "carol" (peers (this w')) = None /\
  PeerMap.get "bob" (peers (this w')) = Some (responder_peer "bob" 0).
Proof.
  assert (Hget : PeerMap.get "carol"
                   (peers (this (run_all quiet_host (fun _ => None)
                      [input (call_createPeer "bob" false);
                       input (call_createPeer "carol" true)]
                      (start "me" "room" (Some "socket-me")))))
                 = Some (initiator_peer "carol" 1)) by reflexivity.
  destruct (closed_connection_removes_its_session quiet_host (fun _ => None)
              [input (call_createPeer "bob" false); input (call_createPeer "carol" true)]
              "me" "room" (Some "socket-me") "carol" (initiator_peer "carol" 1) Hget)
    as (_ & Hgone & Hothers & _).
  split; [exact Hget|]. split; [exact Hgone|].
  exact (Hothers "bob" ltac:(discriminate)).
Defined.

(** ** [onEvent] and [offEvent] *)

Lemma indexOf_first (l : nat) (before after : list nat) :
  l ∉ before -> indexOf l (before ++ l :: after) = Some (length before).
Proof.
  unfold indexOf. induction before as [|x before IH]; intros Hnotin; simpl.
  - rewrite bool_decide_eq_true_2 by reflexivity. reflexivity.
  - apply not_elem_of_cons in Hnotin as [Hne Hnotin].
    rewrite bool_decide_eq_false_2 by congruence.
    rewrite (IH Hnotin). reflexivity.
Qed.

Lemma indexOf_absent (l : nat) (ls : list nat) : l ∉ ls -> indexOf l ls = None.
Proof.
  intros Hnotin. apply find_index_None. apply Forall_forall. intros x Hx.
  apply bool_decide_eq_false_2. intros ->. contradiction.
Qed.

(** X14. [offEvent] takes one registration of the callback away, the earliest:
    when the callback is registered several times the later registrations
    stay, and the other listeners keep their order; a callback that is not
    registered leaves everything as it is.  So [onEvent] followed by
    [offEvent] for a callback that was not registered restores the manager,
    while for a callback that was registered it moves the registration to
    the end of the list.  Neither method touches anything but the
    listener list, and neither throws. *)
Theorem offEvent_removes_first_registration (callback : nat) (w : World) :
  let ls := eventListeners (this w) in
  let w' := (offEvent callback w).2 in
  (offEvent callback w).1 = Normal tt /\
  w' = relisten (eventListeners (this w')) w /\
  (callback ∉ ls -> w' = w) /\
  (forall before after, ls = before ++ callback :: after -> callback ∉ before ->
     eventListeners (this w') = before ++ after /\
     eventListeners (this (offEvent callback (onEvent callback w).2).2)
     = before ++ after ++ [callback]) /\
  (callback ∉ ls -> (offEvent callback (onEvent callback w).2).2 = w).
Proof.
  intros ls w'. subst w'. unfold offEvent, onEvent, modify. cbn [fst snd].
  split; [reflexivity|]. split; [reflexivity|]. split; [|split].
  - intros Hnotin. world_eq. fold ls. rewrite (indexOf_absent _ _ Hnotin). reflexivity.
  - intros before after Hls Hnotin. cbn [this set_this eventListeners set_eventListeners].
    fold ls. rewrite Hls. rewrite (indexOf_first _ _ _ Hnotin).
    split; [apply delete_middle|].
    rewrite <- app_assoc. cbn [app].
    rewrite (indexOf_first callback before (after ++ [callback]) Hnotin).
    apply (delete_middle before (after ++ [callback])).
  - intros Hnotin. world_eq. fold ls.
    rewrite <- (app_nil_r (ls ++ [callback])), <- app_assoc. cbn [app].
    rewrite (indexOf_first _ _ _ Hnotin). rewrite delete_middle. apply app_nil_r.
Qed.

Lemma offEvent_removes_first_registration_witness :
  let w := relisten [7; 3; 7] empty_world in
  eventListeners (this (offEvent 7 w).2) = [3; 7] /\
  eventListeners (this (offEvent 7 (onEvent 7 w).2).2) = [3; 7; 7] /\
  (offEvent 5 w).2 = w /\
  (offEvent 5 (onEvent 5 w).2).2 = w.
Proof.
  destruct (offEvent_removes_first_registration 7 (relisten [7; 3; 7] empty_world))
    as (_ & _ & _ & Hfirst & _).
  destruct (Hfirst [] [3; 7] eq_refl ltac:(apply not_elem_of_nil)) as [Hoff Hon].
  destruct (offEvent_removes_first_registration 5 (relisten [7; 3; 7] empty_world))
    as (_ & _ & Hnone & _ & Hround).
  assert (Hnotin : 5 ∉ eventListeners (this (relisten [7; 3; 7] empty_world))).
  { simpl. intros Hin. apply list_elem_of_In in Hin. simpl in Hin.
    destruct Hin as [H|[H|[H|[]]]]; discriminate. }
  split; [exact Hoff|]. split; [exact Hon|].
  split; [apply Hnone; exact Hnotin|apply Hround; exact Hnotin].
Defined.

(** ** [reset] *)

(** X15. While there is an instance, [getInstance] returns it and ignores the
    identifiers it is given.  [reset] cleans that instance up (no session
    and no listener is left, and the connection of every session it had is
    closed) and empties the static field; without an instance [reset] does
    nothing, so a second [reset] changes nothing.  After [reset] the next
    [getInstance] is a first call again: with [userId] or [roomId]
    undefined or empty it throws and leaves the field empty, and with both
    it builds a manager with these identifiers that has no peer, no stream
    and no listener, whatever the instance before held. *)
Theorem reset_then_getInstance (instance : option WebRTCManager) (w : World) (u r : string) :
  u <> "" -> r <> "" ->
  let field := (Singleton.reset instance w).1 in
  let w1 := (Singleton.reset instance w).2 in
  (forall old, instance = Some old ->
     Singleton.getInstance (Some u) (Some r) instance = (Singleton.Returned old, Some old) /\
     peers (this w1) = [] /\ eventListeners (this w1) = [] /\
     (forall k p, (k, p) ∈ peers (this w) -> closed_at (connection p) w1)) /\
  (instance = None -> w1 = w) /\
  Singleton.reset field w1 = (None, w1) /\
  (forall u' r', u' = None \/ u' = Some "" \/ r' = None \/ r' = Some "" ->
     Singleton.getInstance u' r' field
     = (Singleton.Thrown "UserId and RoomId required for first initialization", None)) /\
  exists m,
    Singleton.getInstance (Some u) (Some r) field = (Singleton.Returned m, Some m) /\
    userId m = u /\ roomId m = r /\
    peers m = [] /\ localStream m = None /\ screenStream m = None /\ eventListeners m = [].
Proof.
  intros Hu Hr field w1.
  assert (Hfield : field = None) by (subst field; destruct instance; reflexivity).
  split.
  { intros old ->. subst w1. cbn [Singleton.reset snd]. rewrite cleanup_spec. cbn [snd].
    split; [reflexivity|]. split; [reflexivity|]. split; [reflexivity|].
    intros k p Hin. unfold closed_at, the_conn. cbn [conns].
    apply close_all_closes. apply list_elem_of_fmap. exists (k, p).
    split; [reflexivity|exact Hin]. }
  split; [intros ->; reflexivity|].
  rewrite Hfield. split; [reflexivity|]. split.
  - intros u' r' Hmissing. unfold Singleton.getInstance.
    destruct Hmissing as [-> | [-> | [-> | ->]]]; cbn [Singleton.falsy orb];
      rewrite ?orb_true_r; reflexivity.
  - exists (Singleton.new_WebRTCManager u r). unfold Singleton.getInstance.
    rewrite (falsy_Some_nonempty u Hu), (falsy_Some_nonempty r Hr). repeat split.
Qed.

Lemma reset_then_getInstance_witness :
  "bob" <> "" /\ "room-2" <> "" /\
  let old := Singleton.new_WebRTCManager "alice" "room-1" in
  let field := (Singleton.reset (Some old) two_peers_world).1 in
  let w1 := (Singleton.reset (Some old) two_peers_world).2 in
  Singleton.getInstance (Some "bob") (Some "room-2") (Some old)
  = (Singleton.Returned old, Some old) /\
  peers (this two_peers_world) <> [] /\ peers (this w1) = [] /\
  Singleton.getInstance (Some "bob") None field
  = (Singleton.Thrown "UserId and RoomId required for first initialization", None) /\
  Singleton.getInstance (Some "") (Some "room-2") field
  = (Singleton.Thrown "UserId and RoomId required for first initialization", None) /\
  exists m,
    Singleton.getInstance (Some "bob") (Some "room-2") field = (Singleton.Returned m, Some m) /\
    userId m = "bob" /\ roomId m = "room-2".
Proof.
  split; [discriminate|]. split; [discriminate|].
  destruct (reset_then_getInstance (Some (Singleton.new_WebRTCManager "alice" "room-1"))
              two_peers_world "bob" "room-2" ltac:(discriminate) ltac:(discriminate))
    as (Hold & _ & _ & Hthrows & m & Hget & Hu & Hr & _).
  destruct (Hold _ eq_refl) as (Hsame & Hpeers & _).
  split; [exact Hsame|]. split; [discriminate|]. split; [exact Hpeers|].
  split; [apply Hthrows; right; right; left; reflexivity|].
  split; [apply Hthrows; right; left; reflexivity|].
  exists m. split; [exact Hget|]. split; [exact Hu|exact Hr].
Defined.

(** ** [setLocalStream] with the same stream again *)

Lemma find_index_kinds k ss :
  find_index (sends_kind k) ss
  = find_index (fun o => bool_decide (o = Some k)) (kinds_of ss).
Proof.
  induction ss as [|s ss IH]; [reflexivity|].
  cbn [kinds_of map find_index]. fold (kinds_of ss). rewrite IH.
  assert (Hs : sends_kind k s = bool_decide (kind <$> track s = Some k)).
  { unfold sends_kind. destruct (track s) as [t|]; simpl; [|reflexivity].
    destruct (decide (kind t = k)) as [Hk|Hk].
    - rewrite !bool_decide_eq_true_2 by congruence. reflexivity.
    - rewrite !bool_decide_eq_false_2 by congruence. reflexivity. }
  rewrite Hs. reflexivity.
Qed.

Lemma find_index_app_l {A} (p : A -> bool) xs ys i :
  find_index p xs = Some i -> find_index p (xs ++ ys) = Some i.
Proof.
  revert i. induction xs as [|x xs IH]; intros i; simpl; [discriminate|].
  destruct (p x); [trivial|].
  destruct (find_index p xs) as [j|]; [|discriminate].
  intros [= <-]. rewrite (IH j eq_refl). reflexivity.
Qed.

Lemma find_index_app_r {A} (p : A -> bool) xs y :
  find_index p xs = None -> p y = true -> find_index p (xs ++ [y]) = Some (length xs).
Proof.
  induction xs as [|x xs IH]; simpl; intros Hnone Hy; [rewrite Hy; reflexivity|].
  destruct (p x); [discriminate|].
  destruct (find_index p xs) as [j|]; [discriminate|].
  rewrite (IH eq_refl Hy). reflexivity.
Qed.

Lemma find_index_lt {A} (p : A -> bool) xs i : find_index p xs = Some i -> i < length xs.
Proof.
  intros Hi. destruct (find_index_Some p xs i Hi) as (x & Hx & _).
  apply lookup_lt_Some in Hx. exact Hx.
Qed.

Lemma kinds_of_replace t ss i :
  find_index (sends_kind (kind t)) ss = Some i ->
  kinds_of (<[i := mkSender (Some t)]> ss) = kinds_of ss.
Proof.
  intros Hi. destruct (find_index_Some _ _ _ Hi) as (s & Hs & Hkind).
  unfold kinds_of. rewrite list_fmap_insert. apply list_insert_id.
  rewrite list_lookup_fmap, Hs. simpl. f_equal.
  unfold sends_kind in Hkind. destruct (track s) as [t0|]; [|discriminate].
  apply bool_decide_eq_true in Hkind. simpl. congruence.
Qed.

Lemma sync_senders_replace t ss i :
  find_index (sends_kind (kind t)) ss = Some i ->
  sync_senders t ss = <[i := mkSender (Some t)]> ss.
Proof. intros Hi. unfold sync_senders. rewrite Hi. reflexivity. Qed.

(** A kind that has a sender keeps its first sender where it is. *)
Lemma sync_senders_stable t k ss i :
  find_index (sends_kind k) ss = Some i ->
  find_index (sends_kind k) (sync_senders t ss) = Some i.
Proof.
  intros Hi. unfold sync_senders.
  destruct (find_index (sends_kind (kind t)) ss) as [j|] eqn:Hj.
  - rewrite find_index_kinds, (kinds_of_replace t ss j Hj), <- find_index_kinds. exact Hi.
  - apply find_index_app_l. exact Hi.
Qed.

Lemma last_of_kind_later k t ts :
  (exists u, u ∈ ts /\ kind u = k) -> last_of_kind k (t :: ts) = last_of_kind k ts.
Proof.
  intros (u & Hu & Hk). unfold last_of_kind.
  assert (Hin : u ∈ filter (fun t => kind t = k) ts)
    by (apply list_elem_of_filter; split; assumption).
  destruct (decide (kind t = k)) as [Ht|Ht].
  - rewrite filter_cons_True by exact Ht.
    destruct (filter (fun t => kind t = k) ts) as [|v vs];
      [apply elem_of_nil in Hin; contradiction|reflexivity].
  - rewrite filter_cons_False by exact Ht. reflexivity.
Qed.

Lemma last_of_kind_only k t ts :
  kind t = k -> (forall u, u ∈ ts -> kind u <> k) -> last_of_kind k (t :: ts) = Some t.
Proof.
  intros Ht Hnone. unfold last_of_kind. rewrite filter_cons_True by exact Ht.
  assert (Hempty : filter (fun t => kind t = k) ts = []).
  { destruct (filter (fun t => kind t = k) ts) as [|v vs] eqn:Hf; [reflexivity|].
    exfalso. assert (Hin : v ∈ filter (fun t => kind t = k) ts)
      by (rewrite Hf; apply elem_of_cons; left; reflexivity).
    apply list_elem_of_filter in Hin as [Hk Hin]. exact (Hnone v Hin Hk). }
  rewrite Hempty. reflexivity.
Qed.

Lemma settled_tail t ts ss : settled (t :: ts) ss -> settled ts ss.
Proof.
  intros Hs u Hu. destruct (Hs u (proj2 (elem_of_cons _ _ _) (or_intror Hu)))
    as (i & Hi & Hat).
  exists i. split; [exact Hi|].
  rewrite Hat. f_equal. f_equal. apply last_of_kind_later. exists u. split; trivial.
Qed.

(** Senders that have taken the tracks are where a replay of the tracks
    ends, from whatever tracks their first senders of these kinds carry. *)
Lemma sync_all_replay ts ss ss' :
  settled ts ss -> agree_off ts ss ss' -> sync_all ts ss' = ss.
Proof.
  revert ss'. induction ts as [|t ts IH]; intros ss' Hs [Hkinds Hagree].
  - simpl. apply list_eq. intros j. destruct (Hagree j) as [(t & Ht & _)|Hj]; [|exact Hj].
    apply elem_of_nil in Ht. contradiction.
  - destruct (Hs t (proj2 (elem_of_cons _ _ _) (or_introl eq_refl))) as (i & Hi & Hat).
    assert (Hi' : find_index (sends_kind (kind t)) ss' = Some i)
      by (rewrite find_index_kinds, Hkinds, <- find_index_kinds; exact Hi).
    unfold sync_all. cbn [foldl]. fold (sync_all ts (sync_senders t ss')).
    rewrite (sync_senders_replace t ss' i Hi').
    apply IH; [apply (settled_tail t), Hs|]. split.
    + rewrite (kinds_of_replace t ss' i Hi'). exact Hkinds.
    + intros j. destruct (decide (j = i)) as [->|Hne].
      * destruct (decide (Exists (fun u => kind u = kind t) ts)) as [Hsome|Hnone].
        -- apply Exists_exists in Hsome as (u & Hu & Hk).
           left. exists u. split; [exact Hu|]. rewrite Hk. exact Hi.
        -- right. rewrite list_lookup_insert_eq by (apply (find_index_lt _ _ _ Hi')).
           rewrite Hat. f_equal. f_equal. symmetry. apply last_of_kind_only; [reflexivity|].
           intros u Hu Hk. apply Hnone. apply Exists_exists. exists u. split; assumption.
      * rewrite list_lookup_insert_ne by congruence.
        destruct (Hagree j) as [(u & Hu & Hj)|Hj]; [|right; exact Hj].
        apply elem_of_cons in Hu as [->|Hu]; [congruence|].
        left. exists u. split; assumption.
Qed.

Lemma last_of_kind_snoc_same t ts : last_of_kind (kind t) (ts ++ [t]) = Some t.
Proof.
  unfold last_of_kind. rewrite filter_app, filter_cons_True by reflexivity.
  rewrite filter_nil. apply last_snoc.
Qed.

Lemma last_of_kind_snoc_other k t ts :
  kind t <> k -> last_of_kind k (ts ++ [t]) = last_of_kind k ts.
Proof.
  intros Hne. unfold last_of_kind. rewrite filter_app, filter_cons_False by exact Hne.
  rewrite filter_nil, app_nil_r. reflexivity.
Qed.

Lemma sync_senders_holds t ss :
  exists i, find_index (sends_kind (kind t)) (sync_senders t ss) = Some i /\
            sync_senders t ss !! i = Some (mkSender (Some t)) /\
            forall j, j <> i -> j < length ss -> sync_senders t ss !! j = ss !! j.
Proof.
  unfold sync_senders. destruct (find_index (sends_kind (kind t)) ss) as [i|] eqn:Hi.
  - exists i. split; [|split].
    + rewrite find_index_kinds, (kinds_of_replace t ss i Hi), <- find_index_kinds. exact Hi.
    + apply list_lookup_insert_eq, (find_index_lt _ _ _ Hi).
    + intros j Hne _. apply list_lookup_insert_ne. congruence.
  - exists (length ss). split; [|split].
    + apply find_index_app_r; [exact Hi|].
      unfold sends_kind. simpl. apply bool_decide_eq_true_2. reflexivity.
    + rewrite lookup_app_r by lia. rewrite Nat.sub_diag. reflexivity.
    + intros j _ Hj. apply lookup_app_l. exact Hj.
Qed.

Lemma sync_all_snoc ts t ss : sync_all (ts ++ [t]) ss = sync_senders t (sync_all ts ss).
Proof. unfold sync_all. rewrite foldl_app. reflexivity. Qed.

Lemma sync_all_settled ts ss : settled ts (sync_all ts ss).
Proof.
  induction ts as [|t ts IH] using rev_ind.
  - intros t Ht. apply elem_of_nil in Ht. contradiction.
  - rewrite sync_all_snoc. set (x := sync_all ts ss) in *.
    destruct (sync_senders_holds t x) as (i & Hi & Hat & Hrest).
    intros u Hu. destruct (decide (kind u = kind t)) as [Hk|Hk].
    + exists i. rewrite Hk, last_of_kind_snoc_same. split; assumption.
    + apply elem_of_app in Hu as [Hu|Hu];
        [|apply list_elem_of_singleton in Hu; subst u; contradiction].
      destruct (IH u Hu) as (j & Hj & Hatj).
      exists j. split; [apply sync_senders_stable; exact Hj|].
      rewrite last_of_kind_snoc_other by congruence.
      rewrite Hrest; [exact Hatj| |apply (find_index_lt _ _ _ Hj)].
      intros ->. pose proof (sync_senders_stable t (kind u) x i Hj) as Hj'.
      destruct (find_index_Some _ _ _ Hj') as (s & Hs & Hsk).
      rewrite Hat in Hs. injection Hs as <-.
      unfold sends_kind in Hsk. simpl in Hsk. apply bool_decide_eq_true in Hsk.
      congruence.
Qed.

Lemma sync_all_idempotent ts ss : sync_all ts (sync_all ts ss) = sync_all ts ss.
Proof.
  apply sync_all_replay; [apply sync_all_settled|].
  split; [reflexivity|]. intros j. right. reflexivity.
Qed.

Lemma setLocalStream_open stream w :
  sessions_open w ->
  exists w',
    setLocalStream stream w = (Normal tt, w') /\
    sessions_open w' /\
    peers (this w') = peers (this w) /\
    forall k p, (k, p) ∈ peers (this w) ->
      getSenders (the_conn (connection p) w')
      = sync_all (getTracks stream) (getSenders (the_conn (connection p) w)).
Proof.
  intros [Hopen Hnd].
  destruct (sync_peers_open (getTracks stream) (peers (this w))
              (set_this (set_localStream (Some stream)) w) Hopen Hnd)
    as (w' & Hrun & Hlen & Hstate & Hin & _).
  assert (Heq : setLocalStream stream w = (Normal tt, w')) by exact Hrun.
  destruct (setLocalStream_respects stream w) as (_ & Hpeers & _).
  unfold after in Hpeers. rewrite Heq in Hpeers. cbn [snd] in Hpeers.
  exists w'. split; [exact Heq|]. split; [|split; [exact Hpeers|]].
  - split; rewrite Hpeers; [|exact Hnd].
    eapply Forall_impl; [exact Hopen|]. intros entry [Hc Ho].
    rewrite Hlen, Hstate. split; assumption.
  - intros k p Hkp. apply (Hin (connection p)).
    apply list_elem_of_fmap. exists (k, p). split; [reflexivity|exact Hkp].
Qed.

(** X16. Giving the senders of a connection the same tracks a second time
    leaves them as the first time left them, whatever they were before.
    So, at every instant, [setLocalStream] called twice in a row with the
    same stream returns both times, and the second call leaves every
    session with the senders, and the tracks in them, that the first call
    gave it: no sender is added. *)
Theorem setLocalStream_again (host : Host) (JSON_parse : string -> option string)
    (events : list Event) (userId roomId : string) (socket : option string)
    (stream : MediaStream) :
  let w := run_all host JSON_parse events (start userId roomId socket) in
  let w1 := after (setLocalStream stream) w in
  let w2 := after (setLocalStream stream) w1 in
  (forall ts ss, sync_all ts (sync_all ts ss) = sync_all ts ss) /\
  setLocalStream stream w = (Normal tt, w1) /\
  setLocalStream stream w1 = (Normal tt, w2) /\
  peers (this w2) = peers (this w) /\
  length (conns w2) = length (conns w1) /\
  forall k p, (k, p) ∈ peers (this w) ->
    getSenders (the_conn (connection p) w2) = getSenders (the_conn (connection p) w1).
Proof.
  intros w w1 w2. split; [apply sync_all_idempotent|].
  destruct (well_kept_run_all host JSON_parse events _
              (well_kept_at_start userId roomId socket)) as (_ & _ & Hopen).
  fold w in Hopen.
  destruct (setLocalStream_open stream w Hopen) as (w1' & Hrun1 & Hopen1 & Hpeers1 & Hs1).
  assert (Hw1 : w1 = w1') by (subst w1; unfold after; rewrite Hrun1; reflexivity).
  destruct (setLocalStream_open stream w1' Hopen1) as (w2' & Hrun2 & Hopen2 & Hpeers2 & Hs2).
  assert (Hw2 : w2 = w2').
  { subst w2. unfold after. rewrite Hw1, Hrun2. reflexivity. }
  rewrite Hw1, Hw2.
  split; [exact Hrun1|]. split; [exact Hrun2|].
  split; [congruence|]. split.
  - destruct Hopen1 as [Hf1 Hn1].
    destruct (sync_peers_open (getTracks stream) (peers (this w1'))
                (set_this (set_localStream (Some stream)) w1') Hf1 Hn1)
      as (w2'' & Hrun2' & Hlen & _).
    assert (Heq : setLocalStream stream w1' = (Normal tt, w2'')) by exact Hrun2'.
    rewrite Hrun2 in Heq. injection Heq as <-. exact Hlen.
  - intros k p Hkp.
    rewrite (Hs2 k p) by (rewrite Hpeers1; exact Hkp).
    rewrite (Hs1 k p Hkp). apply sync_all_idempotent.
Qed.

Lemma setLocalStream_again_witness :
  let w := run_all quiet_host (fun _ => None)
             [input (call_setLocalStream local_media);
              input (call_createPeer "bob" false)]
             (start "me" "room" (Some "socket-me")) in
  let w1 := after (setLocalStream new_media) w in
  let w2 := after (setLocalStream new_media) w1 in
  getSenders (the_conn 0 w) = [mkSender (Some microphone); mkSender (Some camera)] /\
  getSenders (the_conn 0 w1) = [mkSender (Some microphone); mkSender (Some second_camera)] /\
  getSenders (the_conn 0 w2) = getSenders (the_conn 0 w1).
Proof.
  split; [reflexivity|]. split; [reflexivity|].
  destruct (setLocalStream_again quiet_host (fun _ => None)
              [input (call_setLocalStream local_media);
               input (call_createPeer "bob" false)]
              "me" "room" (Some "socket-me") new_media)
    as (_ & _ & _ & _ & _ & Hsame).
  apply (Hsame "bob" (responder_peer "bob" 0)).
  apply list_elem_of_In. vm_compute. tauto.
Defined.

(** ** An offer that the browser refuses, from a peer that has a session *)

(** X17. When the browser refuses an offer from a peer that has a session, the
    handler does not throw: it logs the error and removes the session,
    however well established it was.  The connection is closed,
    [peerRemoved] is emitted, no answer goes out, and the sessions of the
    other peers stay. *)
Theorem refused_offer_drops_session (host : Host) (offer : RTCSessionDescriptionInit)
    (from : string) (peer : PeerConnection) (w : World) (e : DOMException) :
  PeerMap.get from (peers (this w)) = Some peer ->
  connection peer < length (conns w) ->
  Capability.setRemoteDescription host offer (before_offer (the_conn (connection peer) w))
  = inl e ->
  let w' := (onWebRTCOffer host offer from w).2 in
  (onWebRTCOffer host offer from w).1 = Normal tt /\
  PeerMap.get from (peers (this w')) = None /\
  (forall other, other <> from ->
     PeerMap.get other (peers (this w')) = PeerMap.get other (peers (this w))) /\
  closed_at (connection peer) w' /\
  Call (connection peer) (setRemoteDescription_ offer) false
    ∈ drop (length (trace w)) (trace w') /\
  ConsoleError "Error handling offer:" ∈ drop (length (trace w)) (trace w') /\
  Emit (ev_peerRemoved from) ∈ drop (length (trace w)) (trace w') /\
  sent (drop (length (trace w)) (trace w')) = [].
Proof.
  intros Hget Hc Hset w'. subst w'.
  rewrite (onWebRTCOffer_present_refused host offer from peer w e Hget Hset Hc).
  set (w0 := logs [Call (connection peer) (setRemoteDescription_ offer) false;
                   ConsoleError "Error handling offer:"]
               (offer_presented (connection peer) w)).
  assert (Hpeers0 : peers (this w0) = peers (this w)).
  { subst w0. unfold offer_presented.
    destruct (decide (signalingState (the_conn (connection peer) w) = have_local_offer));
      reflexivity. }
  assert (Hlen0 : length (conns w0) = length (conns w)).
  { subst w0. unfold offer_presented.
    destruct (decide (signalingState (the_conn (connection peer) w) = have_local_offer));
      [simpl; apply length_insert|reflexivity]. }
  assert (Htrace0 : exists es, trace w0
            = trace w ++ es ++ [Call (connection peer) (setRemoteDescription_ offer) false;
                                ConsoleError "Error handling offer:"]
            /\ Forall (fun e => sender e = None) es).
  { subst w0. unfold offer_presented.
    destruct (decide (signalingState (the_conn (connection peer) w) = have_local_offer)).
    - eexists [_]. split; [simpl; rewrite <- app_assoc; reflexivity|].
      repeat constructor.
    - exists []. split; [reflexivity|constructor]. }
  destruct Htrace0 as (es & Htrace0 & Hes).
  assert (Hget0 : PeerMap.get from (peers (this w0)) = Some peer)
    by (rewrite Hpeers0; exact Hget).
  destruct (removePeer_frame host from peer w0 Hget0) as (ls & ds & -> & Hds).
  cbn [fst snd].
  split; [reflexivity|]. split; [simpl; apply get_delete_eq|].
  split.
  { intros other Hne. simpl. rewrite get_delete_ne by congruence.
    exact (f_equal (PeerMap.get other) Hpeers0). }
  split.
  { unfold closed_at, the_conn. cbn [conns relisten logs set_this dropped set_conns].
    rewrite list_lookup_insert_eq by (rewrite Hlen0; exact Hc). reflexivity. }
  assert (Hnew : drop (length (trace w))
                   (trace (relisten ls (logs (Emit (ev_peerRemoved from) :: ds)
                                          (dropped from peer w0))))
                 = es ++ [Call (connection peer) (setRemoteDescription_ offer) false;
                          ConsoleError "Error handling offer:"]
                   ++ close_effects peer ++ Emit (ev_peerRemoved from) :: ds).
  { cbn [trace relisten logs set_this dropped set_conns]. rewrite Htrace0.
    rewrite <- !app_assoc. rewrite drop_app_length. reflexivity. }
  rewrite Hnew.
  split; [apply elem_of_app; right; apply elem_of_cons; left; reflexivity|].
  split.
  { apply elem_of_app. right. apply elem_of_cons. right.
    apply elem_of_cons. left. reflexivity. }
  split.
  { apply elem_of_app. right. apply elem_of_app. right. apply elem_of_app. right.
    apply elem_of_cons. left. reflexivity. }
  apply sent_none. apply Forall_app. split; [exact Hes|].
  apply Forall_app. split; [repeat constructor|].
  apply Forall_app. split; [apply close_effects_no_sender|].
  constructor; [reflexivity|].
  eapply Forall_impl; [exact Hds|]. intros x [l ->]. reflexivity.
Qed.

Lemma refused_offer_drops_session_witness :
  let bad := mkSdp ty_offer "bad" in
  let w' := (onWebRTCOffer refusing_host bad "bob" bob_answered).2 in
  PeerMap.get "bob" (peers (this bob_answered)) = Some (responder_peer "bob" 0) /\
  signalingState (the_conn 0 bob_answered) = stable /\
  remoteDescription (the_conn 0 bob_answered) = Some (mkSdp ty_offer "offer-from-bob") /\
  PeerMap.get "bob" (peers (this w')) = None /\
  closed_at 0 w' /\
  Emit (ev_peerRemoved "bob") ∈ drop (length (trace bob_answered)) (trace w').
Proof.
  assert (Hget : PeerMap.get "bob" (peers (this bob_answered))
                 = Some (responder_peer "bob" 0)) by reflexivity.
  assert (Hc : connection (responder_peer "bob" 0) < length (conns bob_answered))
    by (vm_compute; lia).
  assert (Hset : Capability.setRemoteDescription refusing_host (mkSdp ty_offer "bad")
                   (before_offer (the_conn (connection (responder_peer "bob" 0)) bob_answered))
                 = inl OperationError) by reflexivity.
  destruct (refused_offer_drops_session refusing_host (mkSdp ty_offer "bad") "bob"
              (responder_peer "bob" 0) bob_answered OperationError Hget Hc Hset)
    as (_ & Hgone & _ & Hclosed & _ & _ & Hemit & _).
  split; [exact Hget|]. split; [reflexivity|]. split; [reflexivity|].
  split; [exact Hgone|]. split; [exact Hclosed|exact Hemit].
Defined.

(** ** Restart timers that outlive [cleanup] *)

Lemma timer_expires_idle w :
  peers (this w) = [] ->
  timer_expires w = (Normal tt, set_timers (drop 1) w).
Proof.
  intros Hpeers. unfold timer_expires. step primitive.
  destruct (timers w) as [|[p c] rest] eqn:Hts.
  - unfold ret. f_equal. world_eq. rewrite Hts. reflexivity.
  - step primitive. rewrite timeout_callback_spec.
    assert (Hidle : restartIce p (set_timers (fun _ => rest) w)
                    = (Normal tt, set_timers (fun _ => rest) w)).
    { rewrite restartIce_spec. cbn [this set_timers]. rewrite Hpeers. reflexivity. }
    rewrite Hidle.
    destruct (lost (connectionState (the_conn c (set_timers (fun _ => rest) w))));
      f_equal; world_eq; rewrite Hts; reflexivity.
Qed.

(** X18. [cleanup] does not cancel the restart timers.  Each of them still
    expires later, finds no session and does nothing: after [cleanup],
    letting [n] timers expire removes the [n] oldest timers from the list
    and changes nothing else; no restart is issued and nothing is
    logged. *)
Theorem timers_outlive_cleanup (host : Host) (n : nat) (w : World) :
  let w1 := (cleanup w).2 in
  timers w1 = timers w /\
  run host (replicate n fire_timer) w1 = set_timers (drop n) w1.
Proof.
  intros w1. split; [subst w1; rewrite cleanup_spec; reflexivity|].
  assert (Hpeers : peers (this w1) = []) by (subst w1; rewrite cleanup_spec; reflexivity).
  clearbody w1. revert w1 Hpeers. induction n as [|n IH]; intros w1 Hpeers.
  - simpl. world_eq.
  - cbn [replicate run react_to]. rewrite (timer_expires_idle w1 Hpeers). cbn [snd].
    rewrite IH by exact Hpeers. world_eq. rewrite drop_drop. reflexivity.
Qed.

(** ** Which local track a session sends *)

Lemma outbound_some k ss i : find_index (sends_kind k) ss = Some i -> outbound k ss <> [].
Proof.
  revert i. induction ss as [|s ss IH]; intros i; simpl; [discriminate|].
  unfold sends_kind at 1. destruct (track s) as [t|].
  - destruct (decide (kind t = k)) as [Hk|Hk].
    + intros _. discriminate.
    + rewrite bool_decide_eq_false_2 by exact Hk.
      destruct (find_index (sends_kind k) ss) as [j|] eqn:Hj; [|discriminate].
      intros _. apply (IH j eq_refl).
  - destruct (find_index (sends_kind k) ss) as [j|] eqn:Hj; [|discriminate].
    intros _. apply (IH j eq_refl).
Qed.

Lemma local_senders_first k ts ss :
  outbound k (local_senders ss ts)
  = match outbound k ss with
    | [] => option_list (head (filter (fun t => kind t = k) ts))
    | _ :: _ => outbound k ss
    end.
Proof.
  revert ss. induction ts as [|t ts IH]; intros ss.
  - simpl. destruct (outbound k ss); reflexivity.
  - unfold local_senders. cbn [foldl]. fold (local_senders (add_if_new_kind ss t) ts).
    rewrite IH. unfold add_if_new_kind.
    destruct (find_index (sends_kind (kind t)) ss) as [i|] eqn:Hi.
    + destruct (decide (kind t = k)) as [Hk|Hk].
      * rewrite Hk in Hi. pose proof (outbound_some k ss i Hi) as Hsome.
        destruct (outbound k ss); [contradiction|reflexivity].
      * rewrite filter_cons_False by exact Hk. reflexivity.
    + rewrite outbound_app. cbn [outbound track].
      destruct (decide (kind t = k)) as [Hk|Hk].
      * rewrite Hk in Hi. rewrite (outbound_none k ss Hi). simpl.
        rewrite filter_cons_True by exact Hk. reflexivity.
      * rewrite app_nil_r, filter_cons_False by exact Hk. reflexivity.
Qed.

Lemma sync_all_last k ts ss :
  one_per_kind ss ->
  outbound k (sync_all ts ss)
  = match last_of_kind k ts with
    | Some t => [t]
    | None => outbound k ss
    end.
Proof.
  intros Hone. induction ts as [|t ts IH] using rev_ind; [reflexivity|].
  rewrite sync_all_snoc.
  pose proof (sync_all_one_per_kind ts ss Hone) as Hone'.
  destruct (decide (kind t = k)) as [Hk|Hk].
  - rewrite <- Hk, last_of_kind_snoc_same.
    apply sync_senders_only_track. exact Hone'.
  - rewrite last_of_kind_snoc_other by exact Hk.
    destruct (sync_senders_outbound t (sync_all ts ss)) as (_ & _ & Hother).
    rewrite (Hother k) by congruence. exact IH.
Qed.

(** X19. When the local stream holds several tracks of one kind, a session that
    [createPeer] builds sends the first of them, while [setLocalStream]
    leaves every session sending the last of them: [createPeer] skips a
    track whose kind already has a sender, [setLocalStream] replaces the
    track of that sender. *)
Theorem first_track_at_creation_last_at_update (host : Host) (k : string)
    (isInitiator : bool) (stream : MediaStream) (w : World) (kd : TrackKind) :
  (PeerMap.get k (peers (this w)) = None ->
   localStream (this w) = Some stream ->
   outbound kd (getSenders (the_conn (length (conns w)) (createPeer host k isInitiator w).2))
   = option_list (head (filter (fun t => kind t = kd) (getTracks stream)))) /\
  (forall ss, one_per_kind ss ->
     outbound kd (sync_all (getTracks stream) ss)
     = match last_of_kind kd (getTracks stream) with
       | Some t => [t]
       | None => outbound kd ss
       end) /\
  (sessions_open w ->
   forall key p t, (key, p) ∈ peers (this w) ->
     one_per_kind (getSenders (the_conn (connection p) w)) ->
     last_of_kind kd (getTracks stream) = Some t ->
     outbound kd (getSenders (the_conn (connection p) (after (setLocalStream stream) w)))
     = [t]).
Proof.
  split; [|split].
  - intros Hget Hlocal. rewrite createPeer_absent by exact Hget.
    destruct isInitiator.
    + rewrite create_fresh_initiator. cbn [snd]. rewrite the_conn_appended.
      cbn [getSenders initiator_conn responder_conn Capability.set_descriptions
           Capability.set_senders].
      rewrite Hlocal, local_senders_first. reflexivity.
    + rewrite create_fresh_responder. cbn [snd]. rewrite the_conn_appended.
      cbn [getSenders responder_conn Capability.set_senders].
      rewrite Hlocal, local_senders_first. reflexivity.
  - intros ss Hone. apply sync_all_last. exact Hone.
  - intros Hopen key p t Hin Hone Hlast.
    destruct (setLocalStream_open stream w Hopen) as (w' & Hrun & _ & _ & Hsenders).
    unfold after. rewrite Hrun. cbn [snd].
    rewrite (Hsenders key p Hin), sync_all_last by exact Hone.
    rewrite Hlast. reflexivity.
Qed.

Lemma first_track_at_creation_last_at_update_witness :
  let w := set_this (set_localStream (Some two_cameras)) empty_world in
  let w1 := (createPeer quiet_host "bob" false w).2 in
  outbound video (getSenders (the_conn 0 w1)) = [camera] /\
  outbound video (getSenders (the_conn 0 (after (setLocalStream two_cameras) w1)))
  = [second_camera].
Proof.
  split.
  - destruct (first_track_at_creation_last_at_update quiet_host "bob" false two_cameras
                (set_this (set_localStream (Some two_cameras)) empty_world) video)
      as (Hfirst & _).
    apply Hfirst; reflexivity.
  - destruct (first_track_at_creation_last_at_update quiet_host "bob" false two_cameras
                (createPeer quiet_host "bob" false
                   (set_this (set_localStream (Some two_cameras)) empty_world)).2 video)
      as (_ & _ & Hlast).
    apply (Hlast ltac:(split; [repeat constructor; vm_compute; (lia || discriminate)
                              |apply (bool_decide_unpack _); vm_compute; exact I])
             "bob" (responder_peer "bob" 0) second_camera).
    + apply list_elem_of_In. vm_compute. tauto.
    + intros kd. destruct kd; vm_compute; lia.
    + reflexivity.
Defined.

(** ** Negotiating while the socket has no id *)

(** X20. While the socket has no id, the negotiation is carried out locally and
    nothing is sent.  [createPeer] as initiator creates the offer, sets it
    and returns the session with its connection waiting for an answer,
    without logging anything; the handler of an inbound offer sets the
    offer, creates and sets the answer and leaves the connection stable,
    and logs that the socket id was not found. *)
Theorem negotiation_without_socket_id (host : Host) (w : World) :
  socketId w = None ->
  (forall k, PeerMap.get k (peers (this w)) = None ->
     let w1 := (createPeer host k true w).2 in
     (createPeer host k true w).1 = Normal (initiator_peer k (length (conns w))) /\
     signalingState (the_conn (length (conns w)) w1) = have_local_offer /\
     sent (drop (length (trace w)) (trace w1)) = [] /\
     forall msg, ConsoleError msg ∉ drop (length (trace w)) (trace w1)) /\
  (forall offer from, PeerMap.get from (peers (this w)) = None ->
     sdp_type offer = ty_offer -> accepts_description host offer = true ->
     let w2 := (onWebRTCOffer host offer from w).2 in
     signalingState (the_conn (length (conns w)) w2) = stable /\
     currentRemoteDescription (the_conn (length (conns w)) w2) = Some offer /\
     sent (drop (length (trace w)) (trace w2)) = [] /\
     ConsoleError "Socket ID not found" ∈ drop (length (trace w)) (trace w2)).
Proof.
  intros Hsocket. split.
  - intros k Hget w1. subst w1. rewrite createPeer_absent by exact Hget.
    rewrite create_fresh_initiator. cbn [fst snd]. rewrite the_conn_appended.
    split; [reflexivity|]. split; [reflexivity|].
    cbn [trace]. rewrite drop_app_length, Hsocket. unfold offer_round.
    rewrite app_nil_r. split.
    + rewrite sent_app, (sent_none _ (local_track_calls_no_sender _ _ _)). reflexivity.
    + intros msg Hin. apply elem_of_app in Hin as [Hin|Hin].
      * revert Hin. generalize (@nil RTCRtpSender).
        induction (tracks_of (localStream (this w))) as [|t ts IH]; intros ss Hin; simpl in Hin.
        -- apply elem_of_nil in Hin. contradiction.
        -- destruct (find_index (sends_kind (kind t)) ss); [exact (IH _ Hin)|].
           apply elem_of_cons in Hin as [Hin|Hin]; [discriminate|exact (IH _ Hin)].
      * apply list_elem_of_In in Hin. simpl in Hin.
        destruct Hin as [H|[H|[H|[]]]]; discriminate.
  - intros offer from Hget Hty Hacc w2. subst w2.
    rewrite (onWebRTCOffer_absent_accepted host offer from w Hget Hty Hacc).
    cbn [snd]. rewrite the_conn_appended.
    split; [reflexivity|]. split; [reflexivity|].
    cbn [trace]. rewrite drop_app_length, Hsocket. unfold answer_round. split.
    + rewrite sent_app, (sent_none _ (local_track_calls_no_sender _ _ _)). reflexivity.
    + apply elem_of_app. right. apply list_elem_of_In. simpl. tauto.
Qed.

Lemma negotiation_without_socket_id_witness :
  let w := start "me" "room" None in
  signalingState (the_conn 0 (createPeer quiet_host "bob" true w).2) = have_local_offer /\
  sent (trace (createPeer quiet_host "bob" true w).2) = [] /\
  signalingState
    (the_conn 0 (onWebRTCOffer quiet_host (mkSdp ty_offer "remote") "bob" w).2) = stable /\
  sent (trace (onWebRTCOffer quiet_host (mkSdp ty_offer "remote") "bob" w).2) = [].
Proof.
  destruct (negotiation_without_socket_id quiet_host (start "me" "room" None) eq_refl)
    as [Hcall Hoffer].
  destruct (Hcall "bob" eq_refl) as (_ & Hwaiting & Hsilent & _).
  destruct (Hoffer (mkSdp ty_offer "remote") "bob" eq_refl eq_refl eq_refl)
    as (Hstable & _ & Hsilent' & _).
  split; [exact Hwaiting|]. split; [exact Hsilent|]. split; [exact Hstable|exact Hsilent'].
Defined.

(** ** The application store *)

Section JsMapFacts.
Context {V : Type}.
Implicit Types (m : list (string * V)) (k : string) (v : V).

Lemma jsmap_get_set_eq k v m : JsMap.get k (JsMap.set k v m) = Some v.
Proof.
  induction m as [|[k0 v0] m IH]; simpl.
  - rewrite decide_True by reflexivity. reflexivity.
  - destruct (decide (k0 = k)) as [->|Hne]; simpl.
    + rewrite decide_True by reflexivity. reflexivity.
    + rewrite decide_False by exact Hne. exact IH.
Qed.

Lemma jsmap_get_set_ne k k' v m :
  k <> k' -> JsMap.get k' (JsMap.set k v m) = JsMap.get k' m.
Proof.
  intros Hne. induction m as [|[k0 v0] m IH]; simpl.
  - rewrite decide_False by exact Hne. reflexivity.
  - destruct (decide (k0 = k)) as [->|Hk]; simpl.
    + rewrite !decide_False by exact Hne. reflexivity.
    + destruct (decide (k0 = k')); [reflexivity|exact IH].
Qed.

Lemma jsmap_get_delete_eq k m : JsMap.get k (JsMap.delete k m) = None.
Proof.
  induction m as [|[k0 v0] m IH]; simpl; [reflexivity|].
  destruct (decide (k0 = k)) as [->|Hne]; simpl; [exact IH|].
  rewrite decide_False by exact Hne. exact IH.
Qed.

Lemma jsmap_get_delete_ne k k' m :
  k <> k' -> JsMap.get k' (JsMap.delete k m) = JsMap.get k' m.
Proof.
  intros Hne. induction m as [|[k0 v0] m IH]; simpl; [reflexivity|].
  destruct (decide (k0 = k)) as [->|Hk]; simpl.
  - rewrite decide_False by exact Hne. exact IH.
  - destruct (decide (k0 = k')); [reflexivity|exact IH].
Qed.

Lemma jsmap_delete_set k v m :
  JsMap.get k m = None -> JsMap.delete k (JsMap.set k v m) = m.
Proof.
  induction m as [|[k0 v0] m IH]; simpl.
  - intros _. rewrite decide_True by reflexivity. reflexivity.
  - destruct (decide (k0 = k)) as [->|Hne]; [discriminate|].
    intros Hget. simpl. rewrite decide_False by exact Hne. rewrite (IH Hget). reflexivity.
Qed.

Lemma jsmap_keys_set_present k v v0 m :
  JsMap.get k m = Some v0 -> JsMap.keys (JsMap.set k v m) = JsMap.keys m.
Proof.
  unfold JsMap.keys. induction m as [|[k0 v1] m IH]; simpl; [discriminate|].
  destruct (decide (k0 = k)) as [->|Hne]; [reflexivity|].
  intros Hget. simpl. f_equal. apply IH, Hget.
Qed.

Lemma jsmap_keys_set_absent k v m :
  JsMap.get k m = None -> JsMap.keys (JsMap.set k v m) = JsMap.keys m ++ [k].
Proof.
  unfold JsMap.keys. induction m as [|[k0 v1] m IH]; simpl; [reflexivity|].
  destruct (decide (k0 = k)) as [->|Hne]; [discriminate|].
  intros Hget. simpl. f_equal. apply IH, Hget.
Qed.

End JsMapFacts.

Lemma set_participants_same room :
  Store.set_participants (Store.participants room) room = room.
Proof. destruct room. reflexivity. Qed.

Lemma set_currentRoom_same state :
  Store.set_currentRoom (Store.currentRoom state) state = state.
Proof. destruct state. reflexivity. Qed.

(** X21. The participants of the room in the store.  Without a room,
    [addParticipant], [updateParticipant] and [removeParticipant] leave
    the store as it is.  With a room: [addParticipant] files the user, as
    handed in, under the id, at the end of the list when the id is new and
    in the place of the earlier entry otherwise, and removing a participant
    that was new gives the store back as it was; [updateParticipant] for an
    id that is not filed changes nothing, and for one that is filed it
    overwrites the fields that the update carries and keeps the others and
    the order of the participants; [removeParticipant] leaves no entry
    under the id, after which an update for that id changes nothing.  None
    of them touches the entry of another id. *)
Theorem participants_round_trip (userId : string) (user : User.t) (updates : User.partial)
    (state : Store.AppState) :
  (Store.currentRoom state = None ->
     Store.addParticipant userId user state = state /\
     Store.updateParticipant userId updates state = state /\
     Store.removeParticipant userId state = state) /\
  forall room, Store.currentRoom state = Some room ->
    let ps := Store.participants room in
    let added := Store.addParticipant userId user state in
    let updated := Store.updateParticipant userId updates state in
    let removed := Store.removeParticipant userId state in
    JsMap.get userId (participants_of added) = Some user /\
    (JsMap.get userId ps = None ->
       JsMap.keys (participants_of added) = JsMap.keys ps ++ [userId] /\
       Store.removeParticipant userId added = state) /\
    (forall earlier, JsMap.get userId ps = Some earlier ->
       JsMap.keys (participants_of added) = JsMap.keys ps) /\
    (JsMap.get userId ps = None -> updated = state) /\
    (forall participant, JsMap.get userId ps = Some participant ->
       JsMap.get userId (participants_of updated) = Some (User.spread participant updates) /\
       JsMap.keys (participants_of updated) = JsMap.keys ps) /\
    JsMap.get userId (participants_of removed) = None /\
    Store.updateParticipant userId updates removed = removed /\
    (forall other, other <> userId ->
       JsMap.get other (participants_of added) = JsMap.get other ps /\
       JsMap.get other (participants_of updated) = JsMap.get other ps /\
       JsMap.get other (participants_of removed) = JsMap.get other ps).
Proof.
  split.
  - intros Hnone. unfold Store.addParticipant, Store.updateParticipant,
      Store.removeParticipant. rewrite Hnone. repeat split.
  - intros room Hroom ps added updated removed.
    subst added updated removed.
    unfold Store.addParticipant, Store.updateParticipant, Store.removeParticipant,
      participants_of.
    rewrite Hroom. fold ps.
    split; [simpl; apply jsmap_get_set_eq|].
    split.
    { intros Hnew. split; [simpl; apply jsmap_keys_set_absent; exact Hnew|].
      cbn [Store.currentRoom Store.set_currentRoom Store.participants Store.set_participants].
      rewrite jsmap_delete_set by exact Hnew.
      destruct state as [cu cr ls ss v a sc ms l e]. simpl in Hroom. subst cr.
      destruct room. reflexivity. }
    split; [intros earlier Hold; simpl; apply (jsmap_keys_set_present _ _ earlier); exact Hold|].
    split; [intros Hnew; rewrite Hnew; reflexivity|].
    split.
    { intros participant Hold. rewrite Hold. simpl.
      split; [apply jsmap_get_set_eq|].
      apply (jsmap_keys_set_present _ _ participant). exact Hold. }
    split; [simpl; apply jsmap_get_delete_eq|].
    split.
    { cbn [Store.currentRoom Store.set_currentRoom Store.participants Store.set_participants].
      rewrite jsmap_get_delete_eq. reflexivity. }
    intros other Hne. split; [simpl; apply jsmap_get_set_ne; congruence|]. split.
    + destruct (JsMap.get userId ps) as [participant|] eqn:Hold.
      * simpl. apply jsmap_get_set_ne. congruence.
      * rewrite Hroom. reflexivity.
    + simpl. apply jsmap_get_delete_ne. congruence.
Qed.

Lemma participants_round_trip_witness :
  JsMap.keys (participants_of room_store) = ["ann"; "ben"] /\
  JsMap.keys (participants_of (Store.addParticipant "cat" cat room_store))
  = ["ann"; "ben"; "cat"] /\
  JsMap.get "cat" (participants_of (Store.addParticipant "cat" cat room_store)) = Some cat /\
  Store.removeParticipant "cat" (Store.addParticipant "cat" cat room_store) = room_store /\
  Store.updateParticipant "cat" video_off room_store = room_store /\
  (User.isVideoOn
   <$> JsMap.get "ann" (participants_of (Store.updateParticipant "ann" video_off room_store)))
  = Some false.
Proof.
  destruct (participants_round_trip "cat" cat video_off room_store) as [_ Hcat].
  destruct (Hcat _ eq_refl) as (Hget & Hnew & _ & Hupdate & _).
  destruct (Hnew eq_refl) as [Hkeys Hback].
  destruct (participants_round_trip "ann" ann video_off room_store) as [_ Hann].
  destruct (Hann _ eq_refl) as (_ & _ & _ & _ & Hmerge & _).
  destruct (Hmerge ann eq_refl) as [Hmerged _].
  split; [reflexivity|]. split; [exact Hkeys|]. split; [exact Hget|].
  split; [exact Hback|]. split; [apply Hupdate; reflexivity|].
  rewrite Hmerged. reflexivity.
Defined.

(** X22. Entering and leaving a room.  [setCurrentRoom] keeps the participants
    that the store holds unless it is handed a list of its own, and it
    unlocks the room unless told otherwise.  [resetRoom] drops the room,
    both streams and the messages and puts the three toggles back, while
    the current user, the loading flag and the error stay; afterwards the
    participant actions do nothing, and a second [resetRoom] changes
    nothing.  [resetAll] gives the initial state.  [toggleVideo] and
    [toggleAudio] undo themselves. *)
Theorem room_lifecycle (room : Store.RoomInit) (state : Store.AppState) :
  (Store.init_participants room = None ->
     participants_of (Store.setCurrentRoom room state) = participants_of state) /\
  (forall ps, Store.init_participants room = Some ps ->
     participants_of (Store.setCurrentRoom room state) = ps) /\
  (Store.isLocked <$> Store.currentRoom (Store.setCurrentRoom room state))
  = Some (default false (Store.init_isLocked room)) /\
  Store.resetRoom state
  = {| Store.currentUser := Store.currentUser state; Store.currentRoom := None;
       Store.localStream := None; Store.screenStream := None;
       Store.isVideoOn := true; Store.isAudioOn := true; Store.isScreenSharing := false;
       Store.messages := [];
       Store.isLoading := Store.isLoading state; Store.error := Store.error state |} /\
  Store.resetRoom (Store.resetRoom state) = Store.resetRoom state /\
  (forall userId user updates,
     Store.addParticipant userId user (Store.resetRoom state) = Store.resetRoom state /\
     Store.updateParticipant userId updates (Store.resetRoom state) = Store.resetRoom state /\
     Store.removeParticipant userId (Store.resetRoom state) = Store.resetRoom state) /\
  Store.resetAll state = Store.initial /\
  Store.resetRoom Store.initial = Store.initial /\
  Store.toggleVideo (Store.toggleVideo state) = state /\
  Store.toggleAudio (Store.toggleAudio state) = state.
Proof.
  split.
  { intros Hnone. unfold participants_of, Store.setCurrentRoom. simpl. rewrite Hnone.
    reflexivity. }
  split.
  { intros ps Hps. unfold participants_of, Store.setCurrentRoom. simpl. rewrite Hps.
    reflexivity. }
  split; [reflexivity|]. split; [reflexivity|]. split; [reflexivity|].
  split; [intros; repeat split|]. split; [reflexivity|]. split; [reflexivity|].
  destruct state as [cu cr ls ss v a sc ms l e].
  unfold Store.toggleVideo, Store.toggleAudio. simpl. rewrite !negb_involutive.
  split; reflexivity.
Qed.

Lemma room_lifecycle_witness :
  let again := {| Store.init_id := "room"; Store.init_hostId := "ann";
                  Store.init_isLocked := None; Store.init_participants := None |} in
  JsMap.keys (participants_of (Store.setCurrentRoom again room_store)) = ["ann"; "ben"] /\
  participants_of (Store.resetRoom room_store) = [].
Proof.
  destruct (room_lifecycle
              {| Store.init_id := "room"; Store.init_hostId := "ann";
                 Store.init_isLocked := None; Store.init_participants := None |}
              room_store) as (Hkeep & _).
  split; [rewrite Hkeep by reflexivity; reflexivity|reflexivity].
Defined.
